(** * A shallow embedding of the immer draft engine

    The development follows the TypeScript sources of the library:
    the value helpers ([utils/common.ts]), the record and sequence
    interceptors ([core/proxy.ts]), the keyed-map and unique-set drafts
    ([plugins/mapset.ts]), the scope stack ([core/scope.ts]), the
    finalization pass ([core/finalize.ts]), the patch generator and applier
    ([plugins/patches.ts]) and the entry points of [core/immerClass.ts].

    JavaScript objects live in an explicit heap; every function of the
    library that reads or writes objects, draft-state records or scopes is a
    computation in a state-and-exception monad over that heap.  Recursion
    that follows heap pointers (finalization, deep freeze, deep clone) takes
    a fuel argument. *)

From Stdlib Require Import ZArith String Ascii List Lia Bool.
From stdpp Require Import base option list.
Import ListNotations.
Open Scope string_scope.
Open Scope Z_scope.
Open Scope nat_scope.
Open Scope list_scope.

(** ** Values and heap objects *)

Abbreviation loc := nat.
Abbreviation did := nat.
Abbreviation sid := nat.

(** Primitive values.  Numbers are the integers together with the two
    values on which [===], [Object.is] and SameValueZero disagree. *)
Inductive prim :=
| PUndefined
| PNull
| PBool (b : bool)
| PNum (z : Z)
| PNegZero
| PNaN
| PStr (s : string)
| PNothing.

(** The objects of the global environment that the engine can meet through
    an inherited [constructor] or [__proto__] property. *)
Inductive builtin := BiObject | BiArray | BiObjectProto | BiArrayProto.

Inductive jsval :=
| VPrim (p : prim)
| VRef (l : loc)
| VDraft (d : did)
| VBuiltin (b : builtin).

Abbreviation VUndef := (VPrim PUndefined).
Abbreviation VNull := (VPrim PNull).
Abbreviation VNum z := (VPrim (PNum z)).
Abbreviation VStr s := (VPrim (PStr s)).
Abbreviation VBool b := (VPrim (PBool b)).

(** A property key.  [KIdx i] is the key that JavaScript writes as the
    canonical decimal string of [i] (an array index); [KStr] carries every
    other string key. *)
Inductive pkey := KStr (s : string) | KIdx (i : nat).

Inductive body :=
| BRecord (props : list (pkey * jsval))
| BArray (elems : list jsval) (extra : list (pkey * jsval))
| BMap (entries : list (jsval * jsval))
| BSet (elems : list jsval)
| BOpaque (props : list (pkey * jsval))
| BFunction.

(** [o_frozen]: [Object.isFrozen].  [o_guarded]: the four mutating methods
    of a keyed map or unique set have been replaced by
    [dontMutateFrozenCollections]. *)
Record obj := Obj { o_body : body; o_frozen : bool; o_guarded : bool }.

Inductive ArchType := AObject | AArray | AMap | ASet.

Inductive StrictMode := StrictFalse | StrictTrue | StrictClassOnly.

Record Immer := { autoFreeze_ : bool; useStrictShallowCopy_ : StrictMode }.

Inductive patch_op := REPLACE | ADD | REMOVE | OtherOp (name : string).

Record Patch := { op : patch_op; path : list jsval; pvalue : option jsval }.

(** The draft-state record ([ImmerState]).  [assigned_] is keyed by the
    value form of a key, so one field serves records, sequences and maps;
    [drafts_] is used by unique sets only. *)
Record ImmerState := {
  type_ : ArchType;
  parent_ : option did;
  scope_ : sid;
  modified_ : bool;
  finalized_ : bool;
  base_ : loc;
  copy_ : option loc;
  assigned_ : list (jsval * bool);
  drafts_ : list (jsval * jsval);
  revoked_ : bool;
  isManual_ : bool
}.

Record ImmerScope := {
  patches_ : option (list Patch);
  inversePatches_ : option (list Patch);
  canAutoFreeze_ : bool;
  sdrafts_ : option (list did);
  sparent_ : option sid;
  patchListener_ : bool;
  immer_ : Immer;
  unfinalizedDrafts_ : Z
}.

(** The whole store.  [delivered] logs the calls of patch listeners. *)
Record state := {
  heap : list obj;
  drafts : list ImmerState;
  scopes : list ImmerScope;
  currentScope : option sid;
  delivered : list (list Patch * list Patch)
}.

(** ** Equalities of the language *)

Definition prim_strict_eq (p q : prim) : bool :=
  match p, q with
  | PUndefined, PUndefined | PNull, PNull | PNothing, PNothing => true
  | PBool a, PBool b => Bool.eqb a b
  | PNum a, PNum b => Z.eqb a b
  | PNum a, PNegZero | PNegZero, PNum a => Z.eqb a 0
  | PNegZero, PNegZero => true
  | PStr a, PStr b => String.eqb a b
  | _, _ => false
  end.

Definition builtin_eqb (a b : builtin) : bool :=
  match a, b with
  | BiObject, BiObject | BiArray, BiArray
  | BiObjectProto, BiObjectProto | BiArrayProto, BiArrayProto => true
  | _, _ => false
  end.

(** [x === y] *)
Definition strict_eq (x y : jsval) : bool :=
  match x, y with
  | VPrim p, VPrim q => prim_strict_eq p q
  | VRef a, VRef b => Nat.eqb a b
  | VDraft a, VDraft b => Nat.eqb a b
  | VBuiltin a, VBuiltin b => builtin_eqb a b
  | _, _ => false
  end.

Definition is_nan (x : jsval) : bool :=
  match x with VPrim PNaN => true | _ => false end.

Definition is_zero (x : jsval) : bool :=
  match x with VPrim (PNum 0%Z) | VPrim PNegZero => true | _ => false end.

Definition is_neg_zero (x : jsval) : bool :=
  match x with VPrim PNegZero => true | _ => false end.

(** [is_] is [is(x, y)] of utils/common.ts: equal under [===] unless the two are
    zeros of different sign; unequal under [===] only matches NaN with NaN. *)
Definition is_ (x y : jsval) : bool :=
  if strict_eq x y
  then negb (is_zero x) || Bool.eqb (is_neg_zero x) (is_neg_zero y)
  else is_nan x && is_nan y.

(** SameValueZero, the key equality of [Map] and [Set]. *)
Definition same_value_zero (x y : jsval) : bool :=
  strict_eq x y || (is_nan x && is_nan y).

Definition pkey_eqb (a b : pkey) : bool :=
  match a, b with
  | KStr s, KStr t => String.eqb s t
  | KIdx i, KIdx j => Nat.eqb i j
  | _, _ => false
  end.

(** ** Association lists in insertion order *)

Section Assoc.
Context {K V : Type} (eqb : K -> K -> bool).

Fixpoint assoc_get (k : K) (l : list (K * V)) : option V :=
  match l with
  | [] => None
  | (k', v) :: r => if eqb k k' then Some v else assoc_get k r
  end.

Definition assoc_has (k : K) (l : list (K * V)) : bool :=
  match assoc_get k l with Some _ => true | None => false end.

(** Overwrite in place, or append. *)
Fixpoint assoc_set (k : K) (v : V) (l : list (K * V)) : list (K * V) :=
  match l with
  | [] => [(k, v)]
  | (k', v') :: r =>
      if eqb k k' then (k', v) :: r else (k', v') :: assoc_set k v r
  end.

Fixpoint assoc_del (k : K) (l : list (K * V)) : list (K * V) :=
  match l with
  | [] => []
  | (k', v') :: r => if eqb k k' then r else (k', v') :: assoc_del k r
  end.
End Assoc.

Fixpoint set_has (v : jsval) (l : list jsval) : bool :=
  match l with
  | [] => false
  | w :: r => same_value_zero v w || set_has v r
  end.

Definition set_add (v : jsval) (l : list jsval) : list jsval :=
  if set_has v l then l else l ++ [v].

Fixpoint set_del (v : jsval) (l : list jsval) : list jsval :=
  match l with
  | [] => []
  | w :: r => if same_value_zero v w then r else w :: set_del v r
  end.

(** ** Property keys and their value forms *)

Definition key_value (k : pkey) : jsval :=
  match k with
  | KStr s => VStr s
  | KIdx i => VNum (Z.of_nat i)
  end.

Definition digit_of (c : ascii) : option nat :=
  let n := nat_of_ascii c in
  if (48 <=? n) && (n <=? 57) then Some (n - 48) else None.

Fixpoint all_digits (s : string) : bool :=
  match s with
  | EmptyString => true
  | String c r => match digit_of c with Some _ => all_digits r | None => false end
  end.

Fixpoint digits_value (acc : nat) (s : string) : nat :=
  match s with
  | EmptyString => acc
  | String c r =>
      match digit_of c with
      | Some d => digits_value (10 * acc + d) r
      | None => acc
      end
  end.

(** A string is a canonical index when it is "0" or digits without a
    leading zero. *)
Definition canonical_index (s : string) : option nat :=
  match s with
  | EmptyString => None
  | String c r =>
      if all_digits s
      then if Ascii.eqb c "0" then (match r with EmptyString => Some 0 | _ => None end)
           else Some (digits_value 0 s)
      else None
  end.

Definition key_of_string (s : string) : pkey :=
  match canonical_index s with Some i => KIdx i | None => KStr s end.

Fixpoint string_of_digits (fuel n : nat) (acc : string) : string :=
  match fuel with
  | 0 => acc
  | S f =>
      let acc' := String (ascii_of_nat (48 + n mod 10)) acc in
      if n / 10 =? 0 then acc' else string_of_digits f (n / 10) acc'
  end.

Definition string_of_nat (n : nat) : string := string_of_digits (S n) n "".

Definition string_of_Z (z : Z) : string :=
  if (z <? 0)%Z then String.append "-" (string_of_nat (Z.to_nat (- z))) else string_of_nat (Z.to_nat z).

Definition string_of_pkey (k : pkey) : string :=
  match k with KStr s => s | KIdx i => string_of_nat i end.

(** ** The state-and-exception monad *)

(** [Die n] is [die(n)] of utils/errors.ts (the patch plugin's own messages
    start at 16); [TypeError] and [RangeError] are raised by the language
    itself (a revoked proxy, a property of [null], a write to a frozen
    object in strict mode, an invalid array length); [Thrown] is an
    exception raised by caller code. *)
Inductive error := Die (n : nat) | TypeError | RangeError | Thrown.

Inductive outcome (A : Type) :=
| Ok (a : A)
| Err (e : error)
| OutOfFuel.
Arguments Ok {A} a.
Arguments Err {A} e.
Arguments OutOfFuel {A}.

Definition M (A : Type) := state -> state * outcome A.

Definition ret {A} (a : A) : M A := fun s => (s, Ok a).

Definition bind {A B} (m : M A) (f : A -> M B) : M B :=
  fun s =>
    match m s with
    | (s', Ok a) => f a s'
    | (s', Err e) => (s', Err e)
    | (s', OutOfFuel) => (s', OutOfFuel)
    end.

#[global] Instance M_ret : MRet M := @ret.
#[global] Instance M_bind : MBind M := fun A B f m => bind m f.

Definition throw {A} (e : error) : M A := fun s => (s, Err e).
Definition die {A} (n : nat) : M A := throw (Die n).
Definition out_of_fuel {A} : M A := fun s => (s, OutOfFuel).
Definition gets {A} (f : state -> A) : M A := fun s => (s, Ok (f s)).
Definition modify (f : state -> state) : M unit := fun s => (f s, Ok tt).
Definition when (b : bool) (m : M unit) : M unit := if b then m else ret tt.

Fixpoint forM_ {A} (l : list A) (f : A -> M unit) : M unit :=
  match l with
  | [] => ret tt
  | a :: r => f a ;; forM_ r f
  end.

Fixpoint mapM {A B} (f : A -> M B) (l : list A) : M (list B) :=
  match l with
  | [] => ret []
  | a :: r => b ← f a; bs ← mapM f r; ret (b :: bs)
  end.

(** *** Field updates *)

Definition with_heap (h : list obj) (s : state) : state :=
  {| heap := h; drafts := drafts s; scopes := scopes s;
     currentScope := currentScope s; delivered := delivered s |}.
Definition with_drafts (d : list ImmerState) (s : state) : state :=
  {| heap := heap s; drafts := d; scopes := scopes s;
     currentScope := currentScope s; delivered := delivered s |}.
Definition with_scopes (sc : list ImmerScope) (s : state) : state :=
  {| heap := heap s; drafts := drafts s; scopes := sc;
     currentScope := currentScope s; delivered := delivered s |}.
Definition with_currentScope (c : option sid) (s : state) : state :=
  {| heap := heap s; drafts := drafts s; scopes := scopes s;
     currentScope := c; delivered := delivered s |}.
Definition with_delivered (d : list (list Patch * list Patch)) (s : state) : state :=
  {| heap := heap s; drafts := drafts s; scopes := scopes s;
     currentScope := currentScope s; delivered := d |}.

Definition st_modified (b : bool) (st : ImmerState) : ImmerState :=
  {| type_ := type_ st; parent_ := parent_ st; scope_ := scope_ st;
     modified_ := b; finalized_ := finalized_ st; base_ := base_ st;
     copy_ := copy_ st; assigned_ := assigned_ st; drafts_ := drafts_ st;
     revoked_ := revoked_ st; isManual_ := isManual_ st |}.
Definition st_finalized (b : bool) (st : ImmerState) : ImmerState :=
  {| type_ := type_ st; parent_ := parent_ st; scope_ := scope_ st;
     modified_ := modified_ st; finalized_ := b; base_ := base_ st;
     copy_ := copy_ st; assigned_ := assigned_ st; drafts_ := drafts_ st;
     revoked_ := revoked_ st; isManual_ := isManual_ st |}.
Definition st_copy (c : option loc) (st : ImmerState) : ImmerState :=
  {| type_ := type_ st; parent_ := parent_ st; scope_ := scope_ st;
     modified_ := modified_ st; finalized_ := finalized_ st; base_ := base_ st;
     copy_ := c; assigned_ := assigned_ st; drafts_ := drafts_ st;
     revoked_ := revoked_ st; isManual_ := isManual_ st |}.
Definition st_assigned (a : list (jsval * bool)) (st : ImmerState) : ImmerState :=
  {| type_ := type_ st; parent_ := parent_ st; scope_ := scope_ st;
     modified_ := modified_ st; finalized_ := finalized_ st; base_ := base_ st;
     copy_ := copy_ st; assigned_ := a; drafts_ := drafts_ st;
     revoked_ := revoked_ st; isManual_ := isManual_ st |}.
Definition st_drafts (m : list (jsval * jsval)) (st : ImmerState) : ImmerState :=
  {| type_ := type_ st; parent_ := parent_ st; scope_ := scope_ st;
     modified_ := modified_ st; finalized_ := finalized_ st; base_ := base_ st;
     copy_ := copy_ st; assigned_ := assigned_ st; drafts_ := m;
     revoked_ := revoked_ st; isManual_ := isManual_ st |}.
Definition st_revoked (b : bool) (st : ImmerState) : ImmerState :=
  {| type_ := type_ st; parent_ := parent_ st; scope_ := scope_ st;
     modified_ := modified_ st; finalized_ := finalized_ st; base_ := base_ st;
     copy_ := copy_ st; assigned_ := assigned_ st; drafts_ := drafts_ st;
     revoked_ := b; isManual_ := isManual_ st |}.

Definition sc_patches (p ip : option (list Patch)) (sc : ImmerScope) : ImmerScope :=
  {| patches_ := p; inversePatches_ := ip; canAutoFreeze_ := canAutoFreeze_ sc;
     sdrafts_ := sdrafts_ sc; sparent_ := sparent_ sc;
     patchListener_ := patchListener_ sc; immer_ := immer_ sc;
     unfinalizedDrafts_ := unfinalizedDrafts_ sc |}.
Definition sc_listener (b : bool) (sc : ImmerScope) : ImmerScope :=
  {| patches_ := patches_ sc; inversePatches_ := inversePatches_ sc;
     canAutoFreeze_ := canAutoFreeze_ sc;
     sdrafts_ := sdrafts_ sc; sparent_ := sparent_ sc;
     patchListener_ := b; immer_ := immer_ sc;
     unfinalizedDrafts_ := unfinalizedDrafts_ sc |}.
Definition sc_canAutoFreeze (b : bool) (sc : ImmerScope) : ImmerScope :=
  {| patches_ := patches_ sc; inversePatches_ := inversePatches_ sc;
     canAutoFreeze_ := b;
     sdrafts_ := sdrafts_ sc; sparent_ := sparent_ sc;
     patchListener_ := patchListener_ sc; immer_ := immer_ sc;
     unfinalizedDrafts_ := unfinalizedDrafts_ sc |}.
Definition sc_drafts (d : option (list did)) (sc : ImmerScope) : ImmerScope :=
  {| patches_ := patches_ sc; inversePatches_ := inversePatches_ sc;
     canAutoFreeze_ := canAutoFreeze_ sc;
     sdrafts_ := d; sparent_ := sparent_ sc;
     patchListener_ := patchListener_ sc; immer_ := immer_ sc;
     unfinalizedDrafts_ := unfinalizedDrafts_ sc |}.
Definition sc_unfinalized (n : Z) (sc : ImmerScope) : ImmerScope :=
  {| patches_ := patches_ sc; inversePatches_ := inversePatches_ sc;
     canAutoFreeze_ := canAutoFreeze_ sc;
     sdrafts_ := sdrafts_ sc; sparent_ := sparent_ sc;
     patchListener_ := patchListener_ sc; immer_ := immer_ sc;
     unfinalizedDrafts_ := n |}.

(** *** Access to the three tables *)

Definition heap_lookup (l : loc) : M obj :=
  fun s => match heap s !! l with
           | Some o => (s, Ok o)
           | None => (s, Err TypeError)
           end.

Definition body_at (l : loc) : M body := o ← heap_lookup l; ret (o_body o).

Definition alloc (b : body) : M loc :=
  fun s => (with_heap (heap s ++ [Obj b false false]) s, Ok (length (heap s))).

(** A property write or delete on a record or sequence; the engine runs in
    strict mode, where a frozen target raises. *)
Definition store_props (l : loc) (b : body) : M unit :=
  o ← heap_lookup l;
  if o_frozen o then throw TypeError
  else modify (fun s => with_heap (<[l := Obj b (o_frozen o) (o_guarded o)]> (heap s)) s).

(** A call of [set], [add], [delete] or [clear] on a map or set object. *)
Definition store_coll (l : loc) (b : body) : M unit :=
  o ← heap_lookup l;
  if o_guarded o then die 2
  else modify (fun s => with_heap (<[l := Obj b (o_frozen o) (o_guarded o)]> (heap s)) s).

Definition mark_frozen (guard : bool) (l : loc) : M unit :=
  o ← heap_lookup l;
  modify (fun s => with_heap (<[l := Obj (o_body o) true (o_guarded o || guard)]> (heap s)) s).

Definition get_state (d : did) : M ImmerState :=
  fun s => match drafts s !! d with
           | Some st => (s, Ok st)
           | None => (s, Err TypeError)
           end.

Definition update_state (d : did) (f : ImmerState -> ImmerState) : M unit :=
  st ← get_state d;
  modify (fun s => with_drafts (<[d := f st]> (drafts s)) s).

Definition get_scope (c : sid) : M ImmerScope :=
  fun s => match scopes s !! c with
           | Some sc => (s, Ok sc)
           | None => (s, Err TypeError)
           end.

Definition update_scope (c : sid) (f : ImmerScope -> ImmerScope) : M unit :=
  sc ← get_scope c;
  modify (fun s => with_scopes (<[c := f sc]> (scopes s)) s).

Definition is_proxy_type (t : ArchType) : bool :=
  match t with AObject | AArray => true | AMap | ASet => false end.

(** [draft[DRAFT_STATE]].  A record or sequence draft is a revocable proxy:
    once revoked, this read raises like every other operation on it.  A map
    or set draft keeps the record in an ordinary field. *)
Definition state_of (d : did) : M ImmerState :=
  st ← get_state d;
  if is_proxy_type (type_ st) && revoked_ st then throw TypeError else ret st.

(** ** Properties of plain objects *)

(** Records and sequences inherit from [Object.prototype] and
    [Array.prototype].  Of the inherited properties the model carries the
    two that the patch applier names: the data property [constructor] and
    the accessor [__proto__]. *)
Inductive proto_desc :=
| ProtoData (v : jsval)
| ProtoAccessor.

Definition builtin_ctor (b : body) : builtin :=
  match b with BArray _ _ => BiArray | _ => BiObject end.

Definition builtin_proto (b : body) : builtin :=
  match b with BArray _ _ => BiArrayProto | _ => BiObjectProto end.

Definition own_prop (b : body) (k : pkey) : option jsval :=
  match b with
  | BRecord ps | BOpaque ps => assoc_get pkey_eqb k ps
  | BArray es ex =>
      match k with
      | KIdx i => es !! i
      | KStr s =>
          if String.eqb s "length" then Some (VNum (Z.of_nat (length es)))
          else assoc_get pkey_eqb k ex
      end
  | BMap _ | BSet _ | BFunction => None
  end.

(** [Object.prototype.hasOwnProperty.call(thing, prop)] *)
Definition has_own (b : body) (k : pkey) : bool :=
  match own_prop b k with Some _ => true | None => false end.

Definition proto_lookup (b : body) (k : pkey) : option proto_desc :=
  match b, k with
  | (BRecord _ | BArray _ _), KStr s =>
      if String.eqb s "constructor" then Some (ProtoData (VBuiltin (builtin_ctor b)))
      else if String.eqb s "__proto__" then Some ProtoAccessor
      else None
  | _, _ => None
  end.

(** [prop in source] *)
Definition has_in (b : body) (k : pkey) : bool :=
  has_own b k || match proto_lookup b k with Some _ => true | None => false end.

(** [source[prop]] on an object that is not a draft. *)
Definition read_prop (b : body) (k : pkey) : jsval :=
  match own_prop b k with
  | Some v => v
  | None =>
      match proto_lookup b k with
      | Some (ProtoData v) => v
      | Some ProtoAccessor => VBuiltin (builtin_proto b)
      | None => VUndef
      end
  end.

Fixpoint insert_sorted (i : nat) (l : list nat) : list nat :=
  match l with
  | [] => [i]
  | j :: r => if i <=? j then i :: l else j :: insert_sorted i r
  end.

Definition index_keys (ps : list (pkey * jsval)) : list nat :=
  fold_right insert_sorted []
    (omap (fun kv => match fst kv with KIdx i => Some i | KStr _ => None end) ps).

Definition string_keys (ps : list (pkey * jsval)) : list pkey :=
  omap (fun kv => match fst kv with KStr s => Some (KStr s) | KIdx _ => None end) ps.

(** [Reflect.ownKeys]: index keys in ascending order, then string keys in
    insertion order. *)
Definition own_keys (b : body) : list pkey :=
  match b with
  | BRecord ps | BOpaque ps => map KIdx (index_keys ps) ++ string_keys ps
  | BArray es ex =>
      map KIdx (seq 0 (length es)) ++ KStr "length" :: map KIdx (index_keys ex) ++ string_keys ex
  | BMap _ | BSet _ | BFunction => []
  end.

(** [Object.values]: the values of the enumerable string-keyed own
    properties.  The replaced methods of a guarded collection are function
    values, which no caller in the engine looks into; they are left out. *)
Definition object_values (b : body) : list jsval :=
  match b with
  | BRecord ps | BOpaque ps => map (read_prop b) (own_keys b)
  | BArray es ex => es ++ map (read_prop (BRecord ex)) (own_keys (BRecord ex))
  | BMap _ | BSet _ | BFunction => []
  end.

(** Writing one property of a record or sequence body.  A sequence grows
    with [undefined] when the index is past its end; [length] truncates or
    grows.  The language converts the value given for [length] to a number
    first; here a value that is not a number is refused, and the
    statements about a write of [length] are about numbers. *)
Definition write_prop (b : body) (k : pkey) (v : jsval) : option body :=
  match b with
  | BRecord ps => Some (BRecord (assoc_set pkey_eqb k v ps))
  | BOpaque ps => Some (BOpaque (assoc_set pkey_eqb k v ps))
  | BArray es ex =>
      match k with
      | KIdx i =>
          if i <? length es then Some (BArray (<[i := v]> es) ex)
          else Some (BArray (es ++ replicate (i - length es) VUndef ++ [v]) ex)
      | KStr s =>
          if String.eqb s "length" then
            match v with
            | VPrim (PNum z) =>
                if (0 <=? z)%Z then
                  let n := Z.to_nat z in
                  Some (BArray (take n es ++ replicate (n - length es) VUndef) ex)
                else None
            | VPrim PNegZero => Some (BArray [] ex)
            | _ => None
            end
          else Some (BArray es (assoc_set pkey_eqb k v ex))
      end
  | BMap _ | BSet _ | BFunction => Some b
  end.

(** [delete obj[prop]].  Deleting an index of a sequence leaves a hole,
    which reads as [undefined]; [length] cannot be deleted. *)
Definition delete_prop (b : body) (k : pkey) : option body :=
  match b with
  | BRecord ps => Some (BRecord (assoc_del pkey_eqb k ps))
  | BOpaque ps => Some (BOpaque (assoc_del pkey_eqb k ps))
  | BArray es ex =>
      match k with
      | KIdx i => Some (BArray (<[i := VUndef]> es) ex)
      | KStr s =>
          if String.eqb s "length" then None
          else Some (BArray es (assoc_del pkey_eqb k ex))
      end
  | BMap _ | BSet _ | BFunction => Some b
  end.

(** ** Classification of values (utils/common.ts) *)

(** [isDraft]: a value is a draft when it carries a draft-state record. *)
Definition isDraft (v : jsval) : bool :=
  match v with VDraft _ => true | _ => false end.

Definition body_of (h : list obj) (l : loc) : option body := o_body <$> h !! l.

(** [isDraftable]: plain records, sequences, maps and sets.  A draft answers
    like its base.  [Object.prototype] has a null prototype and so passes
    [isPlainObject]; [Array.prototype] passes [Array.isArray]. *)
Definition isDraftable_in (h : list obj) (v : jsval) : bool :=
  match v with
  | VPrim _ => false
  | VDraft _ => true
  | VBuiltin (BiObjectProto | BiArrayProto) => true
  | VBuiltin (BiObject | BiArray) => false
  | VRef l =>
      match body_of h l with
      | Some (BRecord _ | BArray _ _ | BMap _ | BSet _) => true
      | Some (BOpaque _ | BFunction) | None => false
      end
  end.

Definition isDraftable (v : jsval) : M bool := gets (fun s => isDraftable_in (heap s) v).

(** [isFrozen]: [Object.isFrozen] is true of every primitive; a draft is an
    extensible object. *)
Definition isFrozen_in (h : list obj) (v : jsval) : bool :=
  match v with
  | VPrim _ => true
  | VRef l => match h !! l with Some o => o_frozen o | None => false end
  | VDraft _ | VBuiltin _ => false
  end.

Definition isFrozen (v : jsval) : M bool := gets (fun s => isFrozen_in (heap s) v).

Definition isMap_in (h : list obj) (v : jsval) : bool :=
  match v with
  | VRef l => match body_of h l with Some (BMap _) => true | _ => false end
  | _ => false
  end.

Definition isSet_in (h : list obj) (v : jsval) : bool :=
  match v with
  | VRef l => match body_of h l with Some (BSet _) => true | _ => false end
  | _ => false
  end.

Definition body_archtype (b : body) : ArchType :=
  match b with
  | BArray _ _ => AArray
  | BMap _ => AMap
  | BSet _ => ASet
  | BRecord _ | BOpaque _ | BFunction => AObject
  end.

(** [getArchtype]: reads [thing[DRAFT_STATE]] first, which raises on [null]
    and [undefined]. *)
Definition getArchtype (thing : jsval) : M ArchType :=
  match thing with
  | VPrim (PUndefined | PNull) => throw TypeError
  | VPrim _ => ret AObject
  | VBuiltin BiArrayProto => ret AArray
  | VBuiltin _ => ret AObject
  | VDraft d => st ← state_of d; ret (type_ st)
  | VRef l => b ← body_at l; ret (body_archtype b)
  end.

(** [typeof v === "object"] and [typeof v === "function"] *)
Definition typeof_object (h : list obj) (v : jsval) : bool :=
  match v with
  | VPrim PNull => true
  | VPrim _ => false
  | VDraft _ => true
  | VBuiltin (BiObjectProto | BiArrayProto) => true
  | VBuiltin (BiObject | BiArray) => false
  | VRef l => match body_of h l with Some BFunction => false | _ => true end
  end.

Definition typeof_function (h : list obj) (v : jsval) : bool :=
  match v with
  | VBuiltin (BiObject | BiArray) => true
  | VRef l => match body_of h l with Some BFunction => true | _ => false end
  | _ => false
  end.

(** *** String forms *)

Definition prim_to_string (p : prim) : string :=
  match p with
  | PUndefined => "undefined"
  | PNull => "null"
  | PBool true => "true"
  | PBool false => "false"
  | PNum z => string_of_Z z
  | PNegZero => "0"
  | PNaN => "NaN"
  | PStr s => s
  | PNothing => "Symbol(immer-nothing)"
  end.

Fixpoint join_with (sep : string) (l : list string) : string :=
  match l with
  | [] => ""
  | [x] => x
  | x :: r => String.append x (String.append sep (join_with sep r))
  end.

(** [String(v)]: a sequence prints its elements joined by commas. *)
Fixpoint to_string (h : list obj) (fuel : nat) (v : jsval) : string :=
  match v with
  | VPrim p => prim_to_string p
  | VDraft _ | VBuiltin _ => "[object Object]"
  | VRef l =>
      match fuel with
      | 0 => ""
      | S f =>
          match body_of h l with
          | Some (BArray es _) =>
              join_with ","
                (map (fun e => match e with
                               | VPrim (PUndefined | PNull) => ""
                               | _ => to_string h f e
                               end) es)
          | Some (BMap _) => "[object Map]"
          | Some (BSet _) => "[object Set]"
          | Some BFunction => "function"
          | _ => "[object Object]"
          end
      end
  end.

(** The property key a value denotes when it is used in [thing[v]]. *)
Definition pkey_of_value (h : list obj) (v : jsval) : pkey :=
  match v with
  | VPrim (PNum z) => if (0 <=? z)%Z then KIdx (Z.to_nat z) else KStr (string_of_Z z)
  | VPrim PNegZero => KIdx 0
  | VPrim (PStr s) => key_of_string s
  | _ => key_of_string (to_string h (length h) v)
  end.

(** [has(thing, prop)] and [get(thing, prop)] on an object that is not a
    draft: a map answers with its entries, everything else with its
    properties. *)
Definition has_plain (h : list obj) (b : body) (k : jsval) : bool :=
  match b with
  | BMap es => assoc_has same_value_zero k es
  | _ => has_own b (pkey_of_value h k)
  end.

Definition get_plain (h : list obj) (b : body) (k : jsval) : jsval :=
  match b with
  | BMap es => default VUndef (assoc_get same_value_zero k es)
  | _ => read_prop b (pkey_of_value h k)
  end.

(** [latest(state)] *)
Definition latest (st : ImmerState) : loc :=
  match copy_ st with Some c => c | None => base_ st end.

(** [set(thing, propOrOldValue, value)] on an object that is not a draft.
    The assignment is rendered as a write of an own property.  That is
    what it is under an own key of the object, as when [finalizeProperty]
    calls [set], and under every other key but [__proto__], which reaches
    the inherited setter; the statements about a call of [set_] with a key
    of the caller's choice leave [__proto__] out. *)
Definition set_ (thing : loc) (propOrOldValue value : jsval) : M unit :=
  o ← heap_lookup thing;
  h ← gets heap;
  match o_body o with
  | BMap es => store_coll thing (BMap (assoc_set same_value_zero propOrOldValue value es))
  | BSet es => store_coll thing (BSet (set_add value es))
  | b =>
      match write_prop b (pkey_of_value h propOrOldValue) value with
      | Some b' => store_props thing b'
      | None => throw RangeError
      end
  end.

(** ** Shallow copy, iteration and freezing (utils/common.ts) *)

(** The one-level copy.  A sequence is copied with [slice], which keeps the
    elements only.  The records of this heap carry plain data properties,
    for which the strict and the simple branch of [shallowCopy] build the
    same object; the descriptor-level function is [Descriptors.shallowCopy]
    below. *)
Definition copy_body (b : body) : body :=
  match b with
  | BMap es => BMap es
  | BSet es => BSet es
  | BArray es _ => BArray es []
  | BRecord ps => BRecord ps
  | BOpaque ps => BOpaque ps
  | BFunction => BRecord []
  end.

Definition shallowCopy (base : loc) (strict : StrictMode) : M loc :=
  b ← body_at base;
  alloc (copy_body b).

Definition entry_at (b : body) (i : nat) : option (jsval * jsval) :=
  match b with
  | BMap es => es !! i
  | BSet es => (fun v => (v, v)) <$> es !! i
  | _ => None
  end.

(** [Map.prototype.forEach] and [Set.prototype.forEach] visit the entries
    of the live collection, including those added during the visit. *)
Fixpoint each_live (fuel : nat) (l : loc) (i : nat)
    (iter : jsval -> jsval -> M unit) : M unit :=
  b ← body_at l;
  match entry_at b i with
  | None => ret tt
  | Some (k, v) =>
      match fuel with
      | 0 => out_of_fuel
      | S f => iter k v ;; each_live f l (S i) iter
      end
  end.

(** [each(obj, iter)]: a record is visited along a snapshot of its own keys
    and a sequence along a snapshot of its length; every value is read at
    the time of its visit. *)
Definition each (fuel : nat) (obj : loc) (iter : jsval -> jsval -> M unit) : M unit :=
  b ← body_at obj;
  match body_archtype b with
  | AObject =>
      forM_ (own_keys b) (fun key =>
        b' ← body_at obj;
        iter (key_value key) (read_prop b' key))
  | AArray =>
      forM_ (seq 0 (length (match b with BArray es _ => es | _ => [] end))) (fun index =>
        b' ← body_at obj;
        match own_prop b' (KIdx index) with
        | Some entry => iter (VNum (Z.of_nat index)) entry
        | None => ret tt
        end)
  | AMap | ASet => each_live fuel obj 0 (fun index entry => iter index entry)
  end.

(** [freeze(obj, deep)] *)
Fixpoint freeze (fuel : nat) (obj : jsval) (deep : bool) : M unit :=
  match fuel with
  | 0 => out_of_fuel
  | S f =>
      frozen ← isFrozen obj;
      draftable ← isDraftable obj;
      if frozen || isDraft obj || negb draftable then ret tt
      else
        match obj with
        | VRef l =>
            t ← getArchtype obj;
            mark_frozen (match t with AMap | ASet => true | _ => false end) l ;;
            if deep then
              b ← body_at l;
              forM_ (object_values b) (fun value => freeze f value true)
            else ret tt
        | _ => ret tt
        end
  end.

(** ** The scope stack (core/scope.ts) *)

Definition createScope (parent_ : option sid) (immer_ : Immer) : ImmerScope :=
  {| patches_ := None; inversePatches_ := None; canAutoFreeze_ := true;
     sdrafts_ := Some []; sparent_ := parent_; patchListener_ := false;
     immer_ := immer_; unfinalizedDrafts_ := 0 |}.

Definition getCurrentScope : M (option sid) := gets currentScope.

Definition usePatchesInScope (scope : sid) (patchListener : bool) : M unit :=
  when patchListener
    (update_scope scope (fun sc => sc_listener true (sc_patches (Some []) (Some []) sc))).

Definition leaveScope (scope : sid) : M unit :=
  cur ← getCurrentScope;
  match cur with
  | Some c =>
      if c =? scope
      then sc ← get_scope scope; modify (with_currentScope (sparent_ sc))
      else ret tt
  | None => ret tt
  end.

(** [revokeDraft]: a proxy is revoked through its handle, a map or set
    draft through its flag. *)
Definition revokeDraft (draft : did) : M unit :=
  _ ← state_of draft;
  update_state draft (st_revoked true).

Definition revokeScope (scope : sid) : M unit :=
  leaveScope scope ;;
  sc ← get_scope scope;
  match sdrafts_ sc with
  | Some ds => forM_ ds revokeDraft
  | None => throw TypeError
  end ;;
  update_scope scope (sc_drafts None).

Definition enterScope (immer : Immer) : M sid :=
  fun s =>
    let c := length (scopes s) in
    (with_currentScope (Some c)
       (with_scopes (scopes s ++ [createScope (currentScope s) immer]) s),
     Ok c).

(** ** Creating drafts (core/immerClass.ts, core/proxy.ts, plugins/mapset.ts) *)

(** The state record that [createProxyProxy], [new DraftMap] and
    [new DraftSet] build.  [assigned_] of a map draft and [copy_] start
    absent; the absent table is the empty one. *)
Definition new_state (t : ArchType) (base : loc) (parent : option did) (scope : sid)
  : ImmerState :=
  {| type_ := t; parent_ := parent; scope_ := scope; modified_ := false;
     finalized_ := false; base_ := base; copy_ := None; assigned_ := [];
     drafts_ := []; revoked_ := false; isManual_ := false |}.

(** [createProxy(value, parent)].  The scope is the parent's, or the
    current one; the new draft is pushed on the scope's list. *)
Definition createProxy (value : jsval) (parent : option did) : M jsval :=
  match value with
  | VRef base =>
      b ← body_at base;
      scope ← match parent with
              | Some p => st ← get_state p; ret (Some (scope_ st))
              | None => getCurrentScope
              end;
      match scope with
      | None => throw TypeError
      | Some c =>
          sc ← get_scope c;
          match sdrafts_ sc with
          | None => throw TypeError
          | Some ds =>
              d ← gets (fun s => length (drafts s));
              modify (fun s => with_drafts (drafts s ++ [new_state (body_archtype b) base parent c]) s) ;;
              update_scope c (sc_drafts (Some (ds ++ [d]))) ;;
              ret (VDraft d)
          end
      end
  | _ => throw TypeError
  end.

(** [markChanged]: the flag climbs the parent links until it meets a state
    that is already marked.  A parent is created before its children, so
    the number of a draft bounds the length of the climb. *)
Fixpoint markChanged_from (fuel : nat) (d : did) : M unit :=
  match fuel with
  | 0 => out_of_fuel
  | S f =>
      state ← get_state d;
      if modified_ state then ret tt
      else
        update_state d (st_modified true) ;;
        match parent_ state with
        | Some p => markChanged_from f p
        | None => ret tt
        end
  end.

Definition markChanged (d : did) : M unit := markChanged_from (S d) d.

(** [prepareCopy] *)
Definition prepareCopy (d : did) : M unit :=
  state ← get_state d;
  match copy_ state with
  | Some _ => ret tt
  | None =>
      sc ← get_scope (scope_ state);
      c ← shallowCopy (base_ state) (useStrictShallowCopy_ (immer_ sc));
      update_state d (st_copy (Some c))
  end.

(** [state.copy_![prop]], [state.copy_![prop] = value] and
    [delete state.copy_[prop]]; an absent copy is [null]. *)
Definition copy_loc (d : did) : M loc :=
  state ← get_state d;
  match copy_ state with
  | Some c => ret c
  | None => throw TypeError
  end.

Definition copy_read (d : did) (prop : pkey) : M jsval :=
  c ← copy_loc d; b ← body_at c; ret (read_prop b prop).

Definition copy_write (d : did) (prop : pkey) (v : jsval) : M unit :=
  c ← copy_loc d;
  b ← body_at c;
  match write_prop b prop v with
  | Some b' => store_props c b'
  | None => throw RangeError
  end.

Definition delete_at (l : loc) (prop : pkey) : M unit :=
  b ← body_at l;
  match delete_prop b prop with
  | Some b' => store_props l b'
  | None => throw TypeError
  end.

(** [if (state.copy_) delete state.copy_[prop]] *)
Definition copy_delete (d : did) (prop : pkey) : M unit :=
  state ← get_state d;
  match copy_ state with
  | Some c => delete_at c prop
  | None => ret tt
  end.

(** [state.copy_ = <a new object>] *)
Definition install_copy (d : did) (b : body) : M unit :=
  c ← alloc b;
  update_state d (st_copy (Some c)).

(** Writes to [state.assigned_] and [state.drafts_]. *)
Definition set_assigned (d : did) (g : list (jsval * bool) -> list (jsval * bool)) : M unit :=
  update_state d (fun st => st_assigned (g (assigned_ st)) st).

Definition set_drafts (d : did) (g : list (jsval * jsval) -> list (jsval * jsval)) : M unit :=
  update_state d (fun st => st_drafts (g (drafts_ st)) st).

Definition assign (d : did) (k : jsval) (b : bool) : M unit :=
  set_assigned d (assoc_set same_value_zero k b).

Definition unassign (d : did) (k : jsval) : M unit :=
  set_assigned d (assoc_del same_value_zero k).

(** ** The record and sequence interceptors (core/proxy.ts) *)

Definition is_space (c : ascii) : bool :=
  let n := nat_of_ascii c in (n =? 32) || ((9 <=? n) && (n <=? 13)).

Fixpoint skip_spaces (s : string) : string :=
  match s with
  | String c r => if is_space c then skip_spaces r else s
  | EmptyString => s
  end.

(** [isNaN(parseInt(prop))]: after leading white space and one optional
    sign, [parseInt] needs a digit. *)
Definition parseInt_isNaN (prop : pkey) : bool :=
  match prop with
  | KIdx _ => false
  | KStr s =>
      let t := match skip_spaces s with
               | String c r => if Ascii.eqb c "+" || Ascii.eqb c "-" then r else String c r
               | EmptyString => EmptyString
               end in
      match t with
      | String c _ => match digit_of c with Some _ => false | None => true end
      | EmptyString => true
      end
  end.

(** [peek(draft, prop)] *)
Definition peek (draft : jsval) (prop : pkey) : M jsval :=
  match draft with
  | VDraft d => state ← state_of d; b ← body_at (latest state); ret (read_prop b prop)
  | VRef l => b ← body_at l; ret (read_prop b prop)
  | VPrim (PUndefined | PNull) => throw TypeError
  | VPrim _ | VBuiltin _ => ret VUndef
  end.

(** [getDescriptorFromProto(source, prop)] *)
Definition getDescriptorFromProto (source : body) (prop : pkey) : option proto_desc :=
  if negb (has_in source prop) then None else proto_lookup source prop.

(** [readPropFromProto]: the inherited getter is [__proto__], called on the
    draft, whose [getPrototypeOf] trap answers with the prototype of the
    base. *)
Definition readPropFromProto (d : did) (source : body) (prop : pkey) : M jsval :=
  match getDescriptorFromProto source prop with
  | Some (ProtoData v) => ret v
  | Some ProtoAccessor =>
      state ← get_state d;
      b ← body_at (base_ state);
      ret (VBuiltin (builtin_proto b))
  | None => ret VUndef
  end.

(** The inherited setter is the one of [__proto__]: it ignores a value that
    is neither an object nor [null], and otherwise reaches the
    [setPrototypeOf] trap, which is [die(12)]. *)
Definition proto_setter (value : jsval) : M unit :=
  match value with
  | VPrim PNull | VRef _ | VDraft _ | VBuiltin _ => die 12
  | VPrim _ => ret tt
  end.

(** [objectTraps.get] *)
Definition objectTraps_get (d : did) (prop : pkey) : M jsval :=
  state ← get_state d;
  source ← body_at (latest state);
  if negb (has_own source prop) then readPropFromProto d source prop
  else
    let value := read_prop source prop in
    draftable ← isDraftable value;
    if finalized_ state || negb draftable then ret value
    else
      original ← peek (VRef (base_ state)) prop;
      if strict_eq value original then
        prepareCopy d ;;
        draft ← createProxy value (Some d);
        copy_write d prop draft ;;
        ret draft
      else ret value.

(** [objectTraps.has] and [objectTraps.ownKeys] *)
Definition objectTraps_has (d : did) (prop : pkey) : M bool :=
  state ← get_state d;
  b ← body_at (latest state);
  ret (has_in b prop).

Definition objectTraps_ownKeys (d : did) : M (list pkey) :=
  state ← get_state d;
  b ← body_at (latest state);
  ret (own_keys b).

(** [objectTraps.set] *)
Definition objectTraps_set (d : did) (prop : pkey) (value : jsval) : M bool :=
  state ← get_state d;
  source ← body_at (latest state);
  match getDescriptorFromProto source prop with
  | Some ProtoAccessor => proto_setter value ;; ret true
  | _ =>
      let store : M bool :=
        stored ← copy_read d prop;
        c ← copy_loc d;
        cb ← body_at c;
        if (strict_eq stored value && (negb (strict_eq value VUndef) || has_in cb prop))
           || (is_nan value && is_nan stored)
        then ret true
        else
          copy_write d prop value ;;
          assign d (key_value prop) true ;;
          ret true in
      if modified_ state then store
      else
        current ← peek (VRef (latest state)) prop;
        currentState ← match current with
                       | VDraft c => cst ← state_of c; ret (Some cst)
                       | _ => ret None
                       end;
        if match currentState with
           | Some cst => strict_eq (VRef (base_ cst)) value
           | None => false
           end
        then
          copy_write d prop value ;;
          assign d (key_value prop) false ;;
          ret true
        else
          baseb ← body_at (base_ state);
          if is_ value current && (negb (strict_eq value VUndef) || has_own baseb prop)
          then ret true
          else
            prepareCopy d ;;
            markChanged d ;;
            store
  end.

(** [objectTraps.deleteProperty] *)
Definition objectTraps_deleteProperty (d : did) (prop : pkey) : M bool :=
  state ← get_state d;
  original ← peek (VRef (base_ state)) prop;
  baseb ← body_at (base_ state);
  (if negb (strict_eq original VUndef) || has_in baseb prop then
     assign d (key_value prop) false ;;
     prepareCopy d ;;
     markChanged d
   else unassign d (key_value prop)) ;;
  copy_delete d prop ;;
  ret true.

(** [objectTraps.getOwnPropertyDescriptor]: writable, enumerable as on the
    owner, configurable unless it is the length of a sequence. *)
Record descriptor_view := {
  dv_writable : bool; dv_configurable : bool; dv_enumerable : bool; dv_value : jsval
}.

Definition own_enumerable (b : body) (prop : pkey) : bool :=
  match b, prop with
  | BArray _ _, KStr s => negb (String.eqb s "length")
  | _, _ => true
  end.

Definition objectTraps_getOwnPropertyDescriptor (d : did) (prop : pkey)
  : M (option descriptor_view) :=
  state ← get_state d;
  owner ← body_at (latest state);
  match own_prop owner prop with
  | None => ret None
  | Some v =>
      ret (Some {| dv_writable := true;
                   dv_configurable :=
                     negb (match type_ state with AArray => true | _ => false end
                           && pkey_eqb prop (KStr "length"));
                   dv_enumerable := own_enumerable owner prop;
                   dv_value := v |})
  end.

Definition objectTraps_defineProperty : M unit := die 11.
Definition objectTraps_setPrototypeOf : M unit := die 12.

(** [arrayTraps.set] and [arrayTraps.deleteProperty] *)
Definition arrayTraps_set (d : did) (prop : pkey) (value : jsval) : M bool :=
  if negb (pkey_eqb prop (KStr "length")) && parseInt_isNaN prop then die 14
  else objectTraps_set d prop value.

Definition arrayTraps_deleteProperty (d : did) (prop : pkey) : M bool :=
  if parseInt_isNaN prop then die 13
  else arrayTraps_set d prop VUndef.

(** The proxy in front of the traps: every operation on a revoked proxy
    raises before a trap is reached. *)
Definition proxy_state (d : did) : M ImmerState :=
  state ← get_state d;
  if revoked_ state then throw TypeError else ret state.

Definition proxy_get (d : did) (prop : pkey) : M jsval :=
  proxy_state d ;; objectTraps_get d prop.

Definition proxy_has (d : did) (prop : pkey) : M bool :=
  proxy_state d ;; objectTraps_has d prop.

Definition proxy_ownKeys (d : did) : M (list pkey) :=
  proxy_state d ;; objectTraps_ownKeys d.

Definition proxy_set (d : did) (prop : pkey) (value : jsval) : M bool :=
  state ← proxy_state d;
  match type_ state with
  | AArray => arrayTraps_set d prop value
  | _ => objectTraps_set d prop value
  end.

Definition proxy_deleteProperty (d : did) (prop : pkey) : M bool :=
  state ← proxy_state d;
  match type_ state with
  | AArray => arrayTraps_deleteProperty d prop
  | _ => objectTraps_deleteProperty d prop
  end.

Definition proxy_defineProperty (d : did) : M unit :=
  proxy_state d ;; objectTraps_defineProperty.

Definition proxy_setPrototypeOf (d : did) : M unit :=
  proxy_state d ;; objectTraps_setPrototypeOf.

(** ** Keyed-map and unique-set drafts (plugins/mapset.ts) *)

(** [assertUnrevoked] *)
Definition assertUnrevoked (state : ImmerState) : M unit :=
  if revoked_ state then die 3 else ret tt.

Definition map_entries (b : body) : list (jsval * jsval) :=
  match b with BMap es => es | _ => [] end.

Definition set_elems (b : body) : list jsval :=
  match b with BSet es => es | _ => [] end.

(** [prepareMapCopy] *)
Definition prepareMapCopy (d : did) : M unit :=
  state ← get_state d;
  match copy_ state with
  | Some _ => ret tt
  | None =>
      set_assigned d (fun _ => []) ;;
      b ← body_at (base_ state);
      install_copy d (BMap (map_entries b))
  end.

Definition map_copy_update (d : did) (f : list (jsval * jsval) -> list (jsval * jsval))
  : M unit :=
  c ← copy_loc d;
  b ← body_at c;
  store_coll c (BMap (f (map_entries b))).

(** [DraftMap.size], [DraftMap.has] *)
Definition DraftMap_size (d : did) : M nat :=
  state ← get_state d;
  b ← body_at (latest state);
  ret (length (map_entries b)).

Definition DraftMap_has (d : did) (key : jsval) : M bool :=
  state ← get_state d;
  b ← body_at (latest state);
  ret (assoc_has same_value_zero key (map_entries b)).

(** [DraftMap.set] *)
Definition DraftMap_set (d : did) (key value : jsval) : M unit :=
  state ← get_state d;
  assertUnrevoked state ;;
  b ← body_at (latest state);
  if negb (assoc_has same_value_zero key (map_entries b))
     || negb (strict_eq (default VUndef (assoc_get same_value_zero key (map_entries b))) value)
  then
    prepareMapCopy d ;;
    markChanged d ;;
    assign d key true ;;
    map_copy_update d (assoc_set same_value_zero key value) ;;
    assign d key true
  else ret tt.

(** [DraftMap.delete] *)
Definition DraftMap_delete (d : did) (key : jsval) : M bool :=
  present ← DraftMap_has d key;
  if negb present then ret false
  else
    state ← get_state d;
    assertUnrevoked state ;;
    prepareMapCopy d ;;
    markChanged d ;;
    baseb ← body_at (base_ state);
    (if assoc_has same_value_zero key (map_entries baseb)
     then assign d key false
     else unassign d key) ;;
    map_copy_update d (assoc_del same_value_zero key) ;;
    ret true.

(** [DraftMap.clear] *)
Definition DraftMap_clear (d : did) : M unit :=
  state ← get_state d;
  assertUnrevoked state ;;
  b ← body_at (latest state);
  if 0 <? length (map_entries b) then
    prepareMapCopy d ;;
    markChanged d ;;
    set_assigned d (fun _ => []) ;;
    baseb ← body_at (base_ state);
    each (length (map_entries baseb)) (base_ state) (fun key _ => assign d key false) ;;
    map_copy_update d (fun _ => [])
  else ret tt.

(** [DraftMap.get] *)
Definition DraftMap_get (d : did) (key : jsval) : M jsval :=
  state ← get_state d;
  assertUnrevoked state ;;
  b ← body_at (latest state);
  let value := default VUndef (assoc_get same_value_zero key (map_entries b)) in
  draftable ← isDraftable value;
  if finalized_ state || negb draftable then ret value
  else
    baseb ← body_at (base_ state);
    if negb (strict_eq value (default VUndef (assoc_get same_value_zero key (map_entries baseb))))
    then ret value
    else
      draft ← createProxy value (Some d);
      prepareMapCopy d ;;
      map_copy_update d (assoc_set same_value_zero key draft) ;;
      ret draft.

(** [DraftMap.forEach]: the callback receives what [get] answers. *)
Definition DraftMap_forEach (fuel : nat) (d : did) (cb : jsval -> jsval -> M unit) : M unit :=
  state ← get_state d;
  each_live fuel (latest state) 0 (fun key _ => value ← DraftMap_get d key; cb value key).

(** [DraftMap.keys]: the keys of the latest map. *)
Definition DraftMap_keys (d : did) : M (list jsval) :=
  state ← get_state d;
  b ← body_at (latest state);
  ret (map fst (map_entries b)).

(** [DraftMap.values] and [DraftMap.entries] build an iterator over
    [this.keys()]; each [next] routes the key through [get]. *)
Record map_iterator := { it_draft : did; it_keys : list jsval }.

Definition DraftMap_values (d : did) : M map_iterator :=
  ks ← DraftMap_keys d; ret {| it_draft := d; it_keys := ks |}.

Definition DraftMap_entries (d : did) : M map_iterator := DraftMap_values d.

Definition map_iterator_next (it : map_iterator)
  : M (option (jsval * jsval) * map_iterator) :=
  match it_keys it with
  | [] => ret (None, it)
  | k :: r =>
      value ← DraftMap_get (it_draft it) k;
      ret (Some (k, value), {| it_draft := it_draft it; it_keys := r |})
  end.

Definition set_copy_update (d : did) (f : list jsval -> list jsval) : M unit :=
  c ← copy_loc d;
  b ← body_at c;
  store_coll c (BSet (f (set_elems b))).

(** [prepareSetCopy] *)
Definition prepareSetCopy (d : did) : M unit :=
  state ← get_state d;
  match copy_ state with
  | Some _ => ret tt
  | None =>
      install_copy d (BSet []) ;;
      baseb ← body_at (base_ state);
      forM_ (set_elems baseb) (fun value =>
        draftable ← isDraftable value;
        if (draftable : bool) then
          (draft ← createProxy value (Some d);
           set_drafts d (assoc_set same_value_zero value draft) ;;
           set_copy_update d (set_add draft))
        else set_copy_update d (set_add value))
  end.

(** [DraftSet.size] *)
Definition DraftSet_size (d : did) : M nat :=
  state ← get_state d;
  b ← body_at (latest state);
  ret (length (set_elems b)).

(** [DraftSet.has] *)
Definition DraftSet_has (d : did) (value : jsval) : M bool :=
  state ← get_state d;
  assertUnrevoked state ;;
  match copy_ state with
  | None => b ← body_at (base_ state); ret (set_has value (set_elems b))
  | Some c =>
      cb ← body_at c;
      if set_has value (set_elems cb) then ret true
      else
        match assoc_get same_value_zero value (drafts_ state) with
        | Some dv => ret (set_has dv (set_elems cb))
        | None => ret false
        end
  end.

(** [DraftSet.add] *)
Definition DraftSet_add (d : did) (value : jsval) : M unit :=
  state ← get_state d;
  assertUnrevoked state ;;
  present ← DraftSet_has d value;
  if negb present then
    prepareSetCopy d ;;
    markChanged d ;;
    set_copy_update d (set_add value)
  else ret tt.

(** [DraftSet.delete] *)
Definition DraftSet_delete (d : did) (value : jsval) : M bool :=
  present ← DraftSet_has d value;
  if negb present then ret false
  else
    state ← get_state d;
    assertUnrevoked state ;;
    prepareSetCopy d ;;
    markChanged d ;;
    c ← copy_loc d;
    cb ← body_at c;
    if set_has value (set_elems cb)
    then set_copy_update d (set_del value) ;; ret true
    else
      state' ← get_state d;
      match assoc_get same_value_zero value (drafts_ state') with
      | Some dv =>
          if set_has dv (set_elems cb)
          then set_copy_update d (set_del dv) ;; ret true
          else ret false
      | None => ret false
      end.

(** [DraftSet.clear] *)
Definition DraftSet_clear (d : did) : M unit :=
  state ← get_state d;
  assertUnrevoked state ;;
  b ← body_at (latest state);
  if 0 <? length (set_elems b) then
    prepareSetCopy d ;;
    markChanged d ;;
    set_copy_update d (fun _ => [])
  else ret tt.

(** [DraftSet.values], [DraftSet.entries], [DraftSet.keys]: the elements of
    the materialized copy. *)
Definition DraftSet_values (d : did) : M (list jsval) :=
  state ← get_state d;
  assertUnrevoked state ;;
  prepareSetCopy d ;;
  c ← copy_loc d;
  b ← body_at c;
  ret (set_elems b).

Definition DraftSet_entries (d : did) : M (list (jsval * jsval)) :=
  vs ← DraftSet_values d; ret (map (fun v => (v, v)) vs).

Definition DraftSet_keys (d : did) : M (list jsval) := DraftSet_values d.

(** [DraftSet.forEach] walks the iterator of [values()], which follows the
    live copy. *)
Definition DraftSet_forEach (fuel : nat) (d : did) (cb : jsval -> M unit) : M unit :=
  state ← get_state d;
  assertUnrevoked state ;;
  prepareSetCopy d ;;
  c ← copy_loc d;
  each_live fuel c 0 (fun value _ => cb value).

(** ** Operations on a value that may be a draft or a plain object

    [[Get]], [[Set]], [[HasProperty]] and [[Delete]] as the language
    dispatches them: to the traps when the target is a record or sequence
    draft, to the object otherwise. *)

Definition js_get (o : jsval) (k : pkey) : M jsval :=
  match o with
  | VDraft d =>
      st ← get_state d;
      if is_proxy_type (type_ st) then proxy_get d k else ret VUndef
  | VRef l => b ← body_at l; ret (read_prop b k)
  | VPrim (PUndefined | PNull) => throw TypeError
  | VPrim _ | VBuiltin _ => ret VUndef
  end.

Definition js_has (o : jsval) (k : pkey) : M bool :=
  match o with
  | VDraft d =>
      st ← get_state d;
      if is_proxy_type (type_ st) then proxy_has d k else ret false
  | VRef l => b ← body_at l; ret (has_in b k)
  | _ => throw TypeError
  end.

(** A write to a plain object.  The inherited [__proto__] setter of a plain
    record or sequence would replace its prototype, which this heap does
    not carry: such a write on a plain object is raised as [TypeError]
    here, and no proof below depends on what follows it. *)
Definition plain_set (l : loc) (k : pkey) (v : jsval) : M unit :=
  b ← body_at l;
  match getDescriptorFromProto b k with
  | Some ProtoAccessor =>
      match v with
      | VPrim PNull | VRef _ | VDraft _ | VBuiltin _ => throw TypeError
      | VPrim _ => ret tt
      end
  | _ =>
      match write_prop b k v with
      | Some b' => store_props l b'
      | None => throw RangeError
      end
  end.

Definition js_set (o : jsval) (k : pkey) (v : jsval) : M unit :=
  match o with
  | VDraft d =>
      st ← get_state d;
      if is_proxy_type (type_ st) then proxy_set d k v ;; ret tt else ret tt
  | VRef l => plain_set l k v
  | VPrim (PUndefined | PNull) => throw TypeError
  | VPrim _ | VBuiltin _ => throw TypeError
  end.

Definition js_delete (o : jsval) (k : pkey) : M unit :=
  match o with
  | VDraft d =>
      st ← get_state d;
      if is_proxy_type (type_ st) then proxy_deleteProperty d k ;; ret tt else ret tt
  | VRef l => delete_at l k
  | VPrim (PUndefined | PNull) => throw TypeError
  | VPrim _ | VBuiltin _ => ret tt
  end.

(** ** The patch generator (plugins/patches.ts) *)

Inductive buffer := Patches | InversePatches.

Definition swap_buffer (b : buffer) : buffer :=
  match b with Patches => InversePatches | InversePatches => Patches end.

Definition buffer_update (scope : sid) (b : buffer) (f : list Patch -> list Patch) : M unit :=
  sc ← get_scope scope;
  match b, patches_ sc, inversePatches_ sc with
  | Patches, Some p, ip => update_scope scope (sc_patches (Some (f p)) ip)
  | InversePatches, p, Some ip => update_scope scope (sc_patches p (Some (f ip)))
  | _, _, _ => throw TypeError
  end.

Definition push (scope : sid) (b : buffer) (p : Patch) : M unit :=
  buffer_update scope b (fun l => l ++ [p]).

Definition unshift (scope : sid) (b : buffer) (p : Patch) : M unit :=
  buffer_update scope b (fun l => p :: l).

Definition to_length (v : jsval) : nat :=
  match v with VPrim (PNum z) => Z.to_nat z | _ => 0 end.

Fixpoint dedupe (acc l : list jsval) : list jsval :=
  match l with
  | [] => acc
  | v :: r => dedupe (set_add v acc) r
  end.

(** [deepClonePatchValue].  A draft is read through its own interface, as
    [map], [entries], iteration and [for ... in] do. *)
Fixpoint deepClonePatchValue (fuel : nat) (obj : jsval) : M jsval :=
  match fuel with
  | 0 => out_of_fuel
  | S f =>
      draftable ← isDraftable obj;
      if negb draftable then ret obj
      else
        match obj with
        | VRef l =>
            b ← body_at l;
            match b with
            | BArray es _ =>
                es' ← mapM (deepClonePatchValue f) es;
                c ← alloc (BArray es' []); ret (VRef c)
            | BMap ents =>
                ents' ← mapM (fun kv => v ← deepClonePatchValue f (snd kv); ret (fst kv, v)) ents;
                c ← alloc (BMap (fold_left (fun acc kv => assoc_set same_value_zero (fst kv) (snd kv) acc) ents' []));
                ret (VRef c)
            | BSet es =>
                es' ← mapM (deepClonePatchValue f) es;
                c ← alloc (BSet (dedupe [] es')); ret (VRef c)
            | _ =>
                ps ← mapM (fun key => v ← deepClonePatchValue f (read_prop b key); ret (key, v))
                       (own_keys b);
                c ← alloc (BRecord ps); ret (VRef c)
            end
        | VDraft d =>
            st ← state_of d;
            match type_ st with
            | AArray =>
                len ← proxy_get d (KStr "length");
                es' ← mapM (fun i =>
                             present ← proxy_has d (KIdx i);
                             if (present : bool)
                             then (v ← proxy_get d (KIdx i); deepClonePatchValue f v)
                             else ret VUndef)
                         (seq 0 (to_length len));
                c ← alloc (BArray es' []); ret (VRef c)
            | AMap =>
                ks ← DraftMap_keys d;
                ents' ← mapM (fun k => v ← DraftMap_get d k;
                                        v' ← deepClonePatchValue f v; ret (k, v')) ks;
                c ← alloc (BMap ents'); ret (VRef c)
            | ASet =>
                vs ← DraftSet_values d;
                es' ← mapM (deepClonePatchValue f) vs;
                c ← alloc (BSet (dedupe [] es')); ret (VRef c)
            | AObject =>
                ks ← proxy_ownKeys d;
                ps ← mapM (fun key => v ← proxy_get d key;
                                      v' ← deepClonePatchValue f v; ret (key, v')) ks;
                c ← alloc (BRecord ps); ret (VRef c)
            end
        | VPrim _ | VBuiltin _ => ret obj
        end
  end.

(** [clonePatchValueIfNeeded] *)
Definition clonePatchValueIfNeeded (fuel : nat) (obj : jsval) : M jsval :=
  if isDraft obj then deepClonePatchValue fuel obj else ret obj.

Definition elems_of (b : body) : list jsval :=
  match b with BArray es _ => es | _ => [] end.

(** [generateArrayPatches] *)
Definition generateArrayPatches (fuel : nat) (scope : sid) (state : ImmerState)
    (basePath : list jsval) (patches inversePatches : buffer) : M unit :=
  baseb ← body_at (base_ state);
  copyl ← match copy_ state with Some c => ret c | None => throw TypeError end;
  copyb ← body_at copyl;
  let assigned_ := assigned_ state in
  let swapped := length (elems_of copyb) <? length (elems_of baseb) in
  let base_ := if swapped then elems_of copyb else elems_of baseb in
  let copy_ := if swapped then elems_of baseb else elems_of copyb in
  let patches' := if swapped then inversePatches else patches in
  let inversePatches' := if swapped then patches else inversePatches in
  forM_ (seq 0 (length base_)) (fun i =>
    let ci := default VUndef (copy_ !! i) in
    let bi := default VUndef (base_ !! i) in
    if default false (assoc_get same_value_zero (VNum (Z.of_nat i)) assigned_)
       && negb (strict_eq ci bi)
    then
      let path := basePath ++ [VNum (Z.of_nat i)] in
      v ← clonePatchValueIfNeeded fuel ci;
      push scope patches' {| op := REPLACE; path := path; pvalue := Some v |} ;;
      w ← clonePatchValueIfNeeded fuel bi;
      push scope inversePatches' {| op := REPLACE; path := path; pvalue := Some w |}
    else ret tt) ;;
  forM_ (seq (length base_) (length copy_ - length base_)) (fun i =>
    let path := basePath ++ [VNum (Z.of_nat i)] in
    v ← clonePatchValueIfNeeded fuel (default VUndef (copy_ !! i));
    push scope patches' {| op := ADD; path := path; pvalue := Some v |}) ;;
  forM_ (rev (seq (length base_) (length copy_ - length base_))) (fun i =>
    let path := basePath ++ [VNum (Z.of_nat i)] in
    push scope inversePatches' {| op := REMOVE; path := path; pvalue := None |}).

Definition index_of_key (kv : jsval * bool) : option nat :=
  match fst kv with
  | VPrim (PNum z) => if (0 <=? z)%Z then Some (Z.to_nat z) else None
  | _ => None
  end.

(** The order in which [each] visits [state.assigned_]: a map in insertion
    order, the plain object of a record draft in the order of
    [Reflect.ownKeys]. *)
Definition assigned_order (t : ArchType) (a : list (jsval * bool)) : list (jsval * bool) :=
  match t with
  | AObject =>
      omap (fun i => (fun b => (VNum (Z.of_nat i), b))
                       <$> assoc_get same_value_zero (VNum (Z.of_nat i)) a)
           (fold_right insert_sorted [] (omap index_of_key a))
      ++ filter (fun kv => index_of_key kv = None) a
  | _ => a
  end.

(** [generatePatchesFromAssigned] *)
Definition generatePatchesFromAssigned (fuel : nat) (scope : sid) (state : ImmerState)
    (basePath : list jsval) (patches inversePatches : buffer) : M unit :=
  baseb ← body_at (base_ state);
  copyl ← match copy_ state with Some c => ret c | None => throw TypeError end;
  forM_ (assigned_order (type_ state) (assigned_ state)) (fun entry =>
    let key := fst entry in
    let assignedValue := snd entry in
    h ← gets heap;
    copyb ← body_at copyl;
    let origValue := get_plain h baseb key in
    let value := get_plain h copyb key in
    let op := if negb assignedValue then REMOVE
              else if has_plain h baseb key then REPLACE else ADD in
    if strict_eq origValue value && match op with REPLACE => true | _ => false end
    then ret tt
    else
      let path := basePath ++ [key] in
      push scope patches
        (match op with
         | REMOVE => {| op := op; path := path; pvalue := None |}
         | _ => {| op := op; path := path; pvalue := Some value |}
         end) ;;
      match op with
      | ADD => push scope inversePatches {| op := REMOVE; path := path; pvalue := None |}
      | REMOVE =>
          w ← clonePatchValueIfNeeded fuel origValue;
          push scope inversePatches {| op := ADD; path := path; pvalue := Some w |}
      | _ =>
          w ← clonePatchValueIfNeeded fuel origValue;
          push scope inversePatches {| op := REPLACE; path := path; pvalue := Some w |}
      end).

Fixpoint with_index {A} (i : nat) (l : list A) : list (nat * A) :=
  match l with
  | [] => []
  | a :: r => (i, a) :: with_index (S i) r
  end.

(** [generateSetPatches] *)
Definition generateSetPatches (scope : sid) (state : ImmerState)
    (basePath : list jsval) (patches inversePatches : buffer) : M unit :=
  baseb ← body_at (base_ state);
  copyl ← match copy_ state with Some c => ret c | None => throw TypeError end;
  copyb ← body_at copyl;
  forM_ (with_index 0 (set_elems baseb)) (fun iv =>
    let value := snd iv in
    if negb (set_has value (set_elems copyb)) then
      let path := basePath ++ [VNum (Z.of_nat (fst iv))] in
      push scope patches {| op := REMOVE; path := path; pvalue := Some value |} ;;
      unshift scope inversePatches {| op := ADD; path := path; pvalue := Some value |}
    else ret tt) ;;
  forM_ (with_index 0 (set_elems copyb)) (fun iv =>
    let value := snd iv in
    if negb (set_has value (set_elems baseb)) then
      let path := basePath ++ [VNum (Z.of_nat (fst iv))] in
      push scope patches {| op := ADD; path := path; pvalue := Some value |} ;;
      unshift scope inversePatches {| op := REMOVE; path := path; pvalue := Some value |}
    else ret tt).

(** [generatePatches_] *)
Definition generatePatches_ (fuel : nat) (scope : sid) (d : did) (basePath : list jsval)
    (patches inversePatches : buffer) : M unit :=
  state ← get_state d;
  match type_ state with
  | AObject | AMap =>
      generatePatchesFromAssigned fuel scope state basePath patches inversePatches
  | AArray => generateArrayPatches fuel scope state basePath patches inversePatches
  | ASet => generateSetPatches scope state basePath patches inversePatches
  end.

(** [generateReplacementPatches_] *)
Definition generateReplacementPatches_ (scope : sid) (baseValue replacement : jsval)
    (patches inversePatches : buffer) : M unit :=
  push scope patches
    {| op := REPLACE; path := [];
       pvalue := Some (if strict_eq replacement (VPrim PNothing) then VUndef else replacement) |} ;;
  push scope inversePatches {| op := REPLACE; path := []; pvalue := Some baseValue |}.

(** ** Finalization (core/finalize.ts) *)

Definition is_none {A} (o : option A) : bool :=
  match o with None => true | Some _ => false end.

(** [maybeFreeze] *)
Definition maybeFreeze (fuel : nat) (scope : sid) (value : jsval) (deep : bool) : M unit :=
  sc ← get_scope scope;
  if is_none (sparent_ sc) && autoFreeze_ (immer_ sc) && canAutoFreeze_ sc
  then freeze fuel value deep
  else ret tt.

(** [Object.prototype.propertyIsEnumerable.call(targetObject, prop)]: the
    own properties of records and the elements of sequences; the entries of
    a map or set are not properties. *)
Definition propertyIsEnumerable (h : list obj) (b : body) (prop : jsval) : bool :=
  match b with
  | BMap _ | BSet _ | BFunction => false
  | _ => has_own b (pkey_of_value h prop) && own_enumerable b (pkey_of_value h prop)
  end.

(** [finalizeProperty], over the recursive call of [finalize]. *)
Definition finalizeProperty_with
    (finalize : jsval -> option (list jsval) -> M jsval) (fuel : nat)
    (rootScope : sid) (parentState : option did) (targetObject : loc)
    (prop childValue : jsval) (rootPath : option (list jsval)) (targetIsSet : bool)
  : M unit :=
  if strict_eq childValue (VRef targetObject) then die 5
  else
    proceed ←
      (if isDraft childValue then
         path ← match rootPath, parentState with
                | Some rp, Some p =>
                    pst ← get_state p;
                    ret (if negb (match type_ pst with ASet => true | _ => false end)
                            && negb (assoc_has same_value_zero prop (assigned_ pst))
                         then Some (rp ++ [prop]) else None)
                | _, _ => ret None
                end;
         res ← finalize childValue path;
         set_ targetObject prop res ;;
         if isDraft res
         then update_scope rootScope (sc_canAutoFreeze false) ;; ret true
         else ret false
       else if targetIsSet then
         b ← body_at targetObject;
         store_coll targetObject (BSet (set_add childValue (set_elems b))) ;;
         ret true
       else ret true);
    if negb proceed then ret tt
    else
      draftable ← isDraftable childValue;
      frozen ← isFrozen childValue;
      if draftable && negb frozen then
        sc ← get_scope rootScope;
        if negb (autoFreeze_ (immer_ sc)) && (unfinalizedDrafts_ sc <? 1)%Z then ret tt
        else
          finalize childValue None ;;
          root_parent ← match parentState with
                        | None => ret true
                        | Some p =>
                            pst ← get_state p;
                            psc ← get_scope (scope_ pst);
                            ret (is_none (sparent_ psc))
                        end;
          h ← gets heap;
          tb ← body_at targetObject;
          if root_parent
             && negb (strict_eq prop (VPrim PNothing))
             && propertyIsEnumerable h tb prop
          then maybeFreeze fuel rootScope childValue false
          else ret tt
      else ret tt.

(** [finalize] *)
Fixpoint finalize (fuel : nat) (rootScope : sid) (value : jsval)
    (path : option (list jsval)) : M jsval :=
  match fuel with
  | 0 => out_of_fuel
  | S f =>
      frozen ← isFrozen value;
      if (frozen : bool) then ret value
      else
        match value with
        | VDraft d =>
            state ← state_of d;
            if negb (scope_ state =? rootScope) then ret value
            else if negb (modified_ state) then
              maybeFreeze f rootScope (VRef (base_ state)) true ;;
              ret (VRef (base_ state))
            else
              (if negb (finalized_ state) then
                 update_state d (st_finalized true) ;;
                 update_scope (scope_ state)
                   (fun sc => sc_unfinalized (unfinalizedDrafts_ sc - 1)%Z sc) ;;
                 result ← copy_loc d;
                 resultEach ←
                   (match type_ state with
                    | ASet =>
                        b ← body_at result;
                        tmp ← alloc (BSet (set_elems b));
                        store_coll result (BSet []) ;;
                        ret tmp
                    | _ => ret result
                    end);
                 let isSet := match type_ state with ASet => true | _ => false end in
                 each f resultEach (fun key childValue =>
                   finalizeProperty_with (finalize f rootScope) f rootScope (Some d)
                     result key childValue path isSet) ;;
                 maybeFreeze f rootScope (VRef result) false ;;
                 sc ← get_scope rootScope;
                 match path, patches_ sc with
                 | Some p, Some _ => generatePatches_ f rootScope d p Patches InversePatches
                 | _, _ => ret tt
                 end
               else ret tt) ;;
              c ← copy_loc d;
              ret (VRef c)
        | VRef l =>
            each f l (fun key childValue =>
              finalizeProperty_with (finalize f rootScope) f rootScope None
                l key childValue path false) ;;
            ret value
        | VPrim _ | VBuiltin _ => ret value
        end
  end.

Definition finalizeProperty (fuel : nat) (rootScope : sid) :=
  finalizeProperty_with (finalize fuel rootScope) fuel rootScope.

(** [processResult] *)
Definition processResult (fuel : nat) (result : jsval) (scope : sid) : M jsval :=
  sc ← get_scope scope;
  ds ← match sdrafts_ sc with Some ds => ret ds | None => throw TypeError end;
  update_scope scope (sc_unfinalized (Z.of_nat (length ds))) ;;
  baseDraft ← match ds with d :: _ => ret d | [] => throw TypeError end;
  let isReplaced :=
    negb (strict_eq result VUndef) && negb (strict_eq result (VDraft baseDraft)) in
  result' ←
    (if isReplaced then
       bst ← state_of baseDraft;
       (if modified_ bst then revokeScope scope ;; die 4 else ret tt) ;;
       draftable ← isDraftable result;
       r ← (if (draftable : bool) then
              (r ← finalize fuel scope result None;
               sc1 ← get_scope scope;
               (if is_none (sparent_ sc1) then maybeFreeze fuel scope r false else ret tt) ;;
               ret r)
            else ret result);
       sc2 ← get_scope scope;
       (if is_none (patches_ sc2) then ret tt
        else generateReplacementPatches_ scope (VRef (base_ bst)) r Patches InversePatches) ;;
       ret r
     else finalize fuel scope (VDraft baseDraft) (Some []));
  revokeScope scope ;;
  sc3 ← get_scope scope;
  match patches_ sc3, inversePatches_ sc3 with
  | Some p, Some ip => modify (fun s => with_delivered (delivered s ++ [(p, ip)]) s)
  | Some _, None => throw TypeError
  | None, _ => ret tt
  end ;;
  ret (if strict_eq result' (VPrim PNothing) then VUndef else result').

(** ** The patch applier (plugins/patches.ts) *)

(** [Array.prototype.push] and [Array.prototype.splice], as the language
    defines them over [[Get]], [[Set]], [[HasProperty]] and [[Delete]]. *)
Definition array_length (o : jsval) : M nat :=
  len ← js_get o (KStr "length"); ret (to_length len).

Definition array_push (o : jsval) (item : jsval) : M unit :=
  len ← array_length o;
  js_set o (KIdx len) item ;;
  js_set o (KStr "length") (VNum (Z.of_nat (S len))).

Definition to_integer (v : jsval) : Z :=
  match v with
  | VPrim (PNum z) => z
  | VPrim (PStr s) => match canonical_index s with Some n => Z.of_nat n | None => 0%Z end
  | VPrim (PBool true) => 1%Z
  | _ => 0%Z
  end.

Definition relative_index (z : Z) (len : nat) : nat :=
  if (z <? 0)%Z then Z.to_nat (Z.max (Z.of_nat len + z) 0)
  else Nat.min (Z.to_nat z) len.

Definition move_element (o : jsval) (from to : nat) : M unit :=
  present ← js_has o (KIdx from);
  if (present : bool)
  then (fromValue ← js_get o (KIdx from); js_set o (KIdx to) fromValue)
  else js_delete o (KIdx to).

Definition array_splice (o : jsval) (start : jsval) (deleteCount : nat) (items : list jsval)
  : M unit :=
  len ← array_length o;
  let actualStart := relative_index (to_integer start) len in
  let itemCount := length items in
  let actualDeleteCount := Nat.min deleteCount (len - actualStart) in
  _ ← js_get o (KStr "constructor");
  removed ← mapM (fun k =>
                    present ← js_has o (KIdx (actualStart + k));
                    if (present : bool) then js_get o (KIdx (actualStart + k)) else ret VUndef)
                 (seq 0 actualDeleteCount);
  _ ← alloc (BArray removed []);
  (if itemCount <? actualDeleteCount then
     forM_ (seq actualStart (len - actualDeleteCount - actualStart)) (fun k =>
       move_element o (k + actualDeleteCount) (k + itemCount)) ;;
     forM_ (rev (seq (len - actualDeleteCount + itemCount) (actualDeleteCount - itemCount)))
       (fun k => js_delete o (KIdx k))
   else if actualDeleteCount <? itemCount then
     forM_ (rev (seq (S actualStart) (len - actualDeleteCount - actualStart))) (fun k =>
       move_element o (k + actualDeleteCount - 1) (k + itemCount - 1))
   else ret tt) ;;
  forM_ (with_index actualStart items) (fun ki => js_set o (KIdx (fst ki)) (snd ki)) ;;
  js_set o (KStr "length") (VNum (Z.of_nat (len - actualDeleteCount + itemCount))).

(** [base.set], [base.add] and [base.delete] on a map or set that may be a
    draft. *)
Definition coll_set (o key value : jsval) : M unit :=
  match o with
  | VDraft d => DraftMap_set d key value
  | VRef l => b ← body_at l; store_coll l (BMap (assoc_set same_value_zero key value (map_entries b)))
  | _ => throw TypeError
  end.

Definition coll_add (o value : jsval) : M unit :=
  match o with
  | VDraft d => DraftSet_add d value
  | VRef l => b ← body_at l; store_coll l (BSet (set_add value (set_elems b)))
  | _ => throw TypeError
  end.

Definition coll_delete (t : ArchType) (o key : jsval) : M unit :=
  match o, t with
  | VDraft d, AMap => DraftMap_delete d key ;; ret tt
  | VDraft d, _ => DraftSet_delete d key ;; ret tt
  | VRef l, AMap =>
      b ← body_at l; store_coll l (BMap (assoc_del same_value_zero key (map_entries b)))
  | VRef l, _ => b ← body_at l; store_coll l (BSet (set_del key (set_elems b)))
  | _, _ => throw TypeError
  end.

(** [get(thing, prop)] of utils/common.ts, on a value that may be a draft. *)
Definition get (thing prop : jsval) : M jsval :=
  t ← getArchtype thing;
  match t with
  | AMap =>
      match thing with
      | VDraft d => DraftMap_get d prop
      | VRef l =>
          b ← body_at l;
          ret (default VUndef (assoc_get same_value_zero prop (map_entries b)))
      | _ => ret VUndef
      end
  | _ => h ← gets heap; js_get thing (pkey_of_value h prop)
  end.

(** A path segment that is neither a string nor a number is replaced by its
    string form; a symbol has none. *)
Definition coerce_segment (p : jsval) : M jsval :=
  match p with
  | VPrim (PStr _ | PNum _ | PNegZero | PNaN) => ret p
  | VPrim PNothing => throw TypeError
  | _ => h ← gets heap; ret (VStr (to_string h (length h) p))
  end.

(** The two guards of the loop of [applyPatches_]. *)
Definition reserved_segment (parentType : ArchType) (p : jsval) : bool :=
  match parentType with AObject | AArray => true | AMap | ASet => false end
  && (strict_eq p (VStr "__proto__") || strict_eq p (VStr "constructor")).

Definition function_prototype (h : list obj) (base p : jsval) : bool :=
  typeof_function h base && strict_eq p (VStr "prototype").

(** One round of the loop of [applyPatches_] over [path[0 .. length-2]]. *)
Definition walk_step (base p0 : jsval) : M jsval :=
  parentType ← getArchtype base;
  p ← coerce_segment p0;
  (if reserved_segment parentType p then die 19 else ret tt) ;;
  h ← gets heap;
  (if function_prototype h base p then die 19 else ret tt) ;;
  base' ← get base p;
  h' ← gets heap;
  (if negb (typeof_object h' base') then die 18 else ret tt) ;;
  ret base'.

Fixpoint walk_path (path : list jsval) (base : jsval) : M jsval :=
  match path with
  | [] => ret base
  | p0 :: rest =>
      match rest with
      | [] => ret base
      | _ :: _ => base' ← walk_step base p0; walk_path rest base'
      end
  end.

Definition applyPatch (fuel : nat) (draft : jsval) (patch : Patch) : M unit :=
  base ← walk_path (path patch) draft;
  type ← getArchtype base;
  value ← deepClonePatchValue fuel (default VUndef (pvalue patch));
  let key := List.last (path patch) VUndef in
  h ← gets heap;
  match op patch with
  | REPLACE =>
      match type with
      | AMap => coll_set base key value
      | ASet => die 16
      | _ => js_set base (pkey_of_value h key) value
      end
  | ADD =>
      match type with
      | AArray =>
          if strict_eq key (VStr "-") then array_push base value
          else array_splice base key 0 [value]
      | AMap => coll_set base key value
      | ASet => coll_add base value
      | AObject => js_set base (pkey_of_value h key) value
      end
  | REMOVE =>
      match type with
      | AArray => array_splice base key 1 []
      | AMap => coll_delete AMap base key
      | ASet => coll_delete ASet base (default VUndef (pvalue patch))
      | AObject => js_delete base (pkey_of_value h key)
      end
  | OtherOp _ => die 17
  end.

(** [applyPatches_] *)
Definition applyPatches_ (fuel : nat) (draft : jsval) (patches : list Patch) : M jsval :=
  forM_ patches (applyPatch fuel draft) ;;
  ret draft.

(** ** Recipes

    A recipe is caller code.  It is given the root draft and acts through
    the interface that drafts present: every step is one call, whose answer
    decides how the recipe goes on.  A call that raises ends the recipe. *)

Inductive call :=
| CGet (target : jsval) (prop : pkey)
| CHas (target : jsval) (prop : pkey)
| COwnKeys (d : did)
| CSet (d : did) (prop : pkey) (value : jsval)
| CDelete (d : did) (prop : pkey)
| CDefineProperty (d : did)
| CSetPrototypeOf (d : did)
| CMapSize (d : did)
| CMapHas (d : did) (key : jsval)
| CMapGet (d : did) (key : jsval)
| CMapKeys (d : did)
| CMapSet (d : did) (key value : jsval)
| CMapDelete (d : did) (key : jsval)
| CMapClear (d : did)
| CSetSize (d : did)
| CSetHas (d : did) (value : jsval)
| CSetValues (d : did)
| CSetAdd (d : did) (value : jsval)
| CSetDelete (d : did) (value : jsval)
| CSetClear (d : did)
| COriginal (value : jsval)
| CNew (b : body).

Inductive reply :=
| RValue (v : jsval)
| RBool (b : bool)
| RNat (n : nat)
| RKeys (ks : list pkey)
| RValues (vs : list jsval)
| RUnit.

Inductive script :=
| Return (result : jsval)
| Throw
| Call (c : call) (k : reply -> script).

Definition recipe := jsval -> script.

(** A method of a map or set draft exists on drafts of that kind only. *)
Definition method_of (t : ArchType) (d : did) : M unit :=
  st ← get_state d;
  match t, type_ st with
  | AMap, AMap | ASet, ASet => ret tt
  | _, _ => throw TypeError
  end.

(** A property operation on a map or set draft meets the draft object
    itself, not an interceptor. *)
Definition on_proxy {A} (d : did) (otherwise : A) (m : M A) : M A :=
  st ← get_state d;
  if is_proxy_type (type_ st) then m else ret otherwise.

(** [original(value)] *)
Definition original (value : jsval) : M jsval :=
  match value with
  | VDraft d => st ← state_of d; ret (VRef (base_ st))
  | _ => die 15
  end.

Definition run_call (c : call) : M reply :=
  match c with
  | CGet t p => v ← js_get t p; ret (RValue v)
  | CHas t p => b ← js_has t p; ret (RBool b)
  | COwnKeys d => on_proxy d (RKeys []) (ks ← proxy_ownKeys d; ret (RKeys ks))
  | CSet d p v => on_proxy d RUnit (proxy_set d p v ;; ret RUnit)
  | CDelete d p => on_proxy d RUnit (proxy_deleteProperty d p ;; ret RUnit)
  | CDefineProperty d => on_proxy d RUnit (proxy_defineProperty d ;; ret RUnit)
  | CSetPrototypeOf d => on_proxy d RUnit (proxy_setPrototypeOf d ;; ret RUnit)
  | CMapSize d => method_of AMap d ;; n ← DraftMap_size d; ret (RNat n)
  | CMapHas d k => method_of AMap d ;; b ← DraftMap_has d k; ret (RBool b)
  | CMapGet d k => method_of AMap d ;; v ← DraftMap_get d k; ret (RValue v)
  | CMapKeys d => method_of AMap d ;; ks ← DraftMap_keys d; ret (RValues ks)
  | CMapSet d k v => method_of AMap d ;; DraftMap_set d k v ;; ret RUnit
  | CMapDelete d k => method_of AMap d ;; b ← DraftMap_delete d k; ret (RBool b)
  | CMapClear d => method_of AMap d ;; DraftMap_clear d ;; ret RUnit
  | CSetSize d => method_of ASet d ;; n ← DraftSet_size d; ret (RNat n)
  | CSetHas d v => method_of ASet d ;; b ← DraftSet_has d v; ret (RBool b)
  | CSetValues d => method_of ASet d ;; vs ← DraftSet_values d; ret (RValues vs)
  | CSetAdd d v => method_of ASet d ;; DraftSet_add d v ;; ret RUnit
  | CSetDelete d v => method_of ASet d ;; b ← DraftSet_delete d v; ret (RBool b)
  | CSetClear d => method_of ASet d ;; DraftSet_clear d ;; ret RUnit
  | COriginal v => b ← original v; ret (RValue b)
  | CNew b => l ← alloc b; ret (RValue (VRef l))
  end.

Fixpoint run_script (sc : script) : M jsval :=
  match sc with
  | Return result => ret result
  | Throw => throw Thrown
  | Call c k => r ← run_call c; run_script (k r)
  end.

(** ** The entry points (core/immerClass.ts) *)

(** [try { ... } finally { ... }]: the outcome of the body is handed to the
    handler.  Running out of fuel is not an outcome of the program. *)
Definition try_finally {A B} (m : M A) (handler : A + error -> M B) : M B :=
  fun s =>
    match m s with
    | (s', Ok a) => handler (inl a) s'
    | (s', Err e) => handler (inr e) s'
    | (s', OutOfFuel) => (s', OutOfFuel)
    end.

(** [produce(base, recipe, patchListener)], past the argument checks. *)
Definition produce (fuel : nat) (immer : Immer) (base : jsval)
    (recipe : jsval -> M jsval) (patchListener : bool) : M jsval :=
  draftable ← isDraftable base;
  h ← gets heap;
  if (draftable : bool) then
    scope ← enterScope immer;
    proxy ← createProxy base None;
    try_finally (recipe proxy) (fun r =>
      match r with
      | inr e => revokeScope scope ;; throw e
      | inl result =>
          leaveScope scope ;;
          usePatchesInScope scope patchListener ;;
          processResult fuel result scope
      end)
  else if negb (typeof_object h base) || match base with VPrim PNull => true | _ => false end
  then
    r ← recipe base;
    let result := if strict_eq r VUndef then base else r in
    let result := if strict_eq result (VPrim PNothing) then VUndef else result in
    (if autoFreeze_ immer then freeze fuel result true else ret tt) ;;
    (if patchListener then
       modify (fun s =>
         with_delivered
           (delivered s ++
              [([{| op := REPLACE; path := [];
                    pvalue := Some (if strict_eq result (VPrim PNothing) then VUndef else result) |}],
                [{| op := REPLACE; path := []; pvalue := Some base |}])]) s)
     else ret tt) ;;
    ret result
  else die 1.

(** [produceWithPatches] *)
Definition produceWithPatches (fuel : nat) (immer : Immer) (base : jsval)
    (recipe : jsval -> M jsval) : M (jsval * list Patch * list Patch) :=
  result ← produce fuel immer base recipe true;
  log ← gets delivered;
  match List.last (map Some log) None with
  | Some (p, ip) => ret (result, p, ip)
  | None => throw TypeError
  end.

Fixpoint last_root_replace (patches : list Patch) : option (jsval * list Patch) :=
  match patches with
  | [] => None
  | patch :: rest =>
      match last_root_replace rest with
      | Some r => Some r
      | None =>
          match path patch, op patch with
          | [], REPLACE => Some (default VUndef (pvalue patch), rest)
          | _, _ => None
          end
      end
  end.

(** [applyPatches(base, patches)] *)
Definition applyPatches (fuel : nat) (immer : Immer) (base : jsval) (patches : list Patch)
  : M jsval :=
  let (base, patches) :=
    match last_root_replace patches with
    | Some (v, rest) => (v, rest)
    | None => (base, patches)
    end in
  if isDraft base then applyPatches_ fuel base patches
  else produce fuel immer base (fun draft => applyPatches_ fuel draft patches) false.

(** ** [shallowCopy] on property descriptors (utils/common.ts)

    The engine above keeps records as lists of plain data properties.  This
    section gives records their descriptors, to state what the strict
    branch of [shallowCopy] does to them. *)

Module Descriptors.

(** Own keys are strings or symbols; [DRAFT_STATE] is the symbol
    [Symbol.for("immer-state")]. *)
Inductive key := Str (s : string) | Sym (s : string).

Definition DRAFT_STATE : key := Sym "immer-state".

Definition key_eqb (a b : key) : bool :=
  match a, b with
  | Str s, Str t | Sym s, Sym t => String.eqb s t
  | _, _ => false
  end.

(** The object on which an accessor runs. *)
Inductive receiver := OnBase | OnDraft.

(** A getter is caller code; what it returns may depend on the object it
    is called on.  A setter matters here only by being present. *)
Inductive descriptor :=
| Data (value : jsval) (writable enumerable configurable : bool)
| Accessor (get : option (receiver -> jsval)) (set : bool)
           (enumerable configurable : bool).

Record object := {
  isPlainObject : bool;
  descriptors : list (key * descriptor)
}.

Definition enumerable_of (d : descriptor) : bool :=
  match d with Data _ _ e _ | Accessor _ _ e _ => e end.

Definition configurable_of (d : descriptor) : bool :=
  match d with Data _ _ _ c | Accessor _ _ _ c => c end.

(** [desc.writable]: absent on an accessor. *)
Definition writable_of (d : descriptor) : option bool :=
  match d with Data _ w _ _ => Some w | Accessor _ _ _ _ => None end.

Definition is_accessor (d : descriptor) : bool :=
  match d with Accessor _ _ _ _ => true | Data _ _ _ _ => false end.

(** [base[key]]: the value of a data property, or what the getter returns
    when called on the base. *)
Definition read (on : receiver) (d : descriptor) : jsval :=
  match d with
  | Data v _ _ _ => v
  | Accessor (Some g) _ _ _ => g on
  | Accessor None _ _ _ => VUndef
  end.

(** The body of the loop over [Reflect.ownKeys(descriptors)]. *)
Definition strict_descriptor (desc : descriptor) : descriptor :=
  let desc1 :=
    match desc with
    | Data v false e _ => Data v true e true
    | _ => desc
    end in
  match desc1 with
  | Accessor g s e c =>
      if is_none g && negb s then desc1
      else Data (read OnBase desc) true e true
  | Data _ _ _ _ => desc1
  end.

(** [{...base}] and [Object.assign(obj, base)]: the enumerable own
    properties, read through the base, as plain data properties.  The
    spread defines them; [Object.assign], which the simple branch uses for
    an object that is not plain, assigns them, and an assignment defines
    the property unless the prototype holds the key as an accessor or as a
    read-only property. *)
Definition assigned_descriptor (desc : descriptor) : option descriptor :=
  if enumerable_of desc then Some (Data (read OnBase desc) true true true) else None.

(** [shallowCopy(base, strict)] for a record. *)
Definition shallowCopy (base : object) (strict : StrictMode) : object :=
  if match strict with
     | StrictTrue => true
     | StrictClassOnly => negb (isPlainObject base)
     | StrictFalse => false
     end
  then
    {| isPlainObject := isPlainObject base;
       descriptors :=
         map (fun kd => (fst kd, strict_descriptor (snd kd)))
             (List.filter (fun kd => negb (key_eqb (fst kd) DRAFT_STATE)) (descriptors base)) |}
  else
    {| isPlainObject := isPlainObject base;
       descriptors :=
         omap (fun kd => (fun d => (fst kd, d)) <$> assigned_descriptor (snd kd))
              (descriptors base) |}.

Definition lookup (k : key) (o : object) : option descriptor :=
  assoc_get key_eqb k (descriptors o).

(** The records the engine's heap holds: plain data properties only. *)
Definition plain_data (d : descriptor) : bool :=
  match d with Data _ true true true => true | _ => false end.

Definition plain_record (o : object) : bool :=
  forallb (fun kd => negb (key_eqb (fst kd) DRAFT_STATE) && plain_data (snd kd))
          (descriptors o).

End Descriptors.

(** ** Stores and inputs used in the statements below *)

(** A store holding the objects [h] and nothing else: no draft, no scope. *)
Definition store_of (h : list obj) : state :=
  {| heap := h; drafts := []; scopes := []; currentScope := None; delivered := [] |}.

Definition plain (b : body) : obj := Obj b false false.

Definition default_immer : Immer :=
  {| autoFreeze_ := true; useStrictShallowCopy_ := StrictFalse |}.

Definition run (fuel : nat) (immer : Immer) (base : jsval) (r : recipe)
    (patchListener : bool) : M jsval :=
  produce fuel immer base (fun draft => run_script (r draft)) patchListener.

Definition runWithPatches (fuel : nat) (immer : Immer) (base : jsval) (r : recipe)
  : M (jsval * list Patch * list Patch) :=
  produceWithPatches fuel immer base (fun draft => run_script (r draft)).

(** [base = [1, 2, 3, 4]] and the recipe [draft.length = 2]. *)
Definition shrink_base : list obj :=
  [plain (BArray [VNum 1; VNum 2; VNum 3; VNum 4] [])].

Definition shrink_recipe : recipe := fun draft =>
  match draft with
  | VDraft d => Call (CSet d (KStr "length") (VNum 2)) (fun _ => Return VUndef)
  | _ => Throw
  end.

(** [base = {a: {x: 1}, b: 1}] and the recipe
    [draft.a; draft.a = base.a; draft.b = 2]. *)
Definition rewrite_base : list obj :=
  [plain (BRecord [(KStr "a", VRef 1); (KStr "b", VNum 1)]);
   plain (BRecord [(KStr "x", VNum 1)])].

Definition rewrite_recipe : recipe := fun draft =>
  match draft with
  | VDraft d =>
      Call (CGet draft (KStr "a")) (fun _ =>
      Call (CSet d (KStr "a") (VRef 1)) (fun _ =>
      Call (CSet d (KStr "b") (VNum 2)) (fun _ => Return VUndef)))
  | _ => Throw
  end.

(** [base = new Map([["k", 1]])], [base = new Set([1])] and the recipe that
    does nothing (and whose caller keeps the draft). *)
Definition map_base : list obj := [plain (BMap [(VStr "k", VNum 1)])].
Definition set_base : list obj := [plain (BSet [VNum 1])].
Definition idle_recipe : recipe := fun _ => Return VUndef.

(** * Predicates of the specification *)

(** [keeps I m]: from a store that satisfies [I], the computation [m]
    leaves a store that satisfies [I], whether it returns, raises or runs
    out of fuel. *)
Definition keeps {A} (I : state -> Prop) (m : M A) : Prop :=
  forall s, I s -> I (fst (m s)).

(** [unchanged m]: the computation only reads. *)
Definition unchanged {A} (m : M A) : Prop :=
  forall s, fst (m s) = s.

(** [heap_only m]: the computation leaves the drafts and the scopes as they
    are. *)
Definition heap_only {A} (m : M A) : Prop :=
  forall s, exists h, fst (m s) = with_heap h s.

(** [heap_blind I]: the invariant does not look at the heap. *)
Definition heap_blind (I : state -> Prop) : Prop :=
  forall h s, I s -> I (with_heap h s).

(** ** The objects that were there before a run *)

(** Every object of [h0] is still there in [h], and related to what it was
    by [R]. *)
Definition old_kept (R : obj -> obj -> Prop) (h0 h : list obj) : Prop :=
  forall l o, h0 !! l = Some o -> exists o', h !! l = Some o' /\ R o o'.

(** The copy of every draft was allocated after the first [n0] objects. *)
Definition copies_fresh (n0 : nat) (s : state) : Prop :=
  forall d st c, drafts s !! d = Some st -> copy_ st = Some c -> n0 <= c.

Definition Kept (R : obj -> obj -> Prop) (h0 : list obj) (s : state) : Prop :=
  old_kept R h0 (heap s) /\ copies_fresh (length h0) s.

(** The same keys, elements, entries and values; the flags may differ. *)
Definition same_body (o o' : obj) : Prop := o_body o' = o_body o.

Definition same_bodies (h0 h : list obj) : Prop := old_kept same_body h0 h.

Definition Core (h0 : list obj) (s : state) : Prop := Kept same_body h0 s.

(** The same keys, elements, entries and values, on an object that is as it
    was or has been frozen since.  [freeze] makes an object frozen and, on
    a map or a set, overrides [set], [add], [clear] and [delete] with own
    properties that raise: an override that was there is still there. *)
Definition frozen_since (o o' : obj) : Prop :=
  o_body o' = o_body o
  /\ (o_guarded o = true -> o_guarded o' = true)
  /\ (o' = o \/ o_frozen o' = true).

Definition unchanged_up_to_freezing (h0 h : list obj) : Prop :=
  old_kept frozen_since h0 h.

(** The same object, flags included. *)
Definition untouched (h0 h : list obj) : Prop := old_kept eq h0 h.

Definition Untouched (h0 : list obj) (s : state) : Prop := Kept eq h0 s.

Definition body_values (b : body) : list jsval :=
  match b with
  | BRecord ps | BOpaque ps => map snd ps
  | BArray es ex => es ++ map snd ex
  | BMap ents => map fst ents ++ map snd ents
  | BSet es => es
  | BFunction => []
  end.

(** [held s l v]: if [v] is a draft, the object at [l] holds it. *)
Definition held (s : state) (l : loc) (v : jsval) : Prop :=
  isDraft v = true -> exists b, body_of (heap s) l = Some b /\ In v (body_values b).

(** No object of [h] holds a draft. *)
Definition draft_free (h : list obj) : bool :=
  forallb (fun o => forallb (fun v => negb (isDraft v)) (body_values (o_body o))) h.

(** ** The tree of drafts *)

Definition is_modified (s : state) (d : did) : Prop :=
  exists st, drafts s !! d = Some st /\ modified_ st = true.

(** [ancestor s a d]: [a] is met on the way from [d] to the root along the
    parent links. *)
Inductive ancestor (s : state) : did -> did -> Prop :=
| ancestor_parent d st p :
    drafts s !! d = Some st -> parent_ st = Some p -> ancestor s p d
| ancestor_step d st p a :
    drafts s !! d = Some st -> parent_ st = Some p -> ancestor s a p -> ancestor s a d.

Definition ancestors_modified (s : state) : Prop :=
  forall d a, is_modified s d -> ancestor s a d -> is_modified s a.

Definition parents_older (s : state) : Prop :=
  forall d st p, drafts s !! d = Some st -> parent_ st = Some p -> p < d.

Definition parents_modified (s : state) : Prop :=
  forall d st p,
    drafts s !! d = Some st -> modified_ st = true -> parent_ st = Some p ->
    is_modified s p.

Definition Tree (s : state) : Prop := parents_older s /\ parents_modified s.

(** The stores that a recipe can bring about from [s0], one call after the
    other. *)
Inductive reachable (s0 : state) : state -> Prop :=
| reachable_start : reachable s0 s0
| reachable_call s c : reachable s0 s -> reachable s0 (fst (run_call c s)).

Definition Unmodified (s : state) : Prop :=
  forall d st, drafts s !! d = Some st -> modified_ st = false.

(** ** The scope of a run in progress

    [Live c0 sc0 s]: the scope [c0] is as [sc0] except for its list of
    drafts, which holds every draft of the store, in the order of their
    creation; every draft belongs to [c0] and none is revoked. *)
Definition Live (c0 : sid) (sc0 : ImmerScope) (s : state) : Prop :=
  scopes s !! c0 = Some (sc_drafts (Some (seq 0 (length (drafts s)))) sc0)
  /\ forall d st, drafts s !! d = Some st -> scope_ st = c0 /\ revoked_ st = false.

(** [Rooted l log s]: the root draft is a draft of the object [l], and the
    patches delivered so far are [log]. *)
Definition Rooted (l : loc) (log : list (list Patch * list Patch)) (s : state) : Prop :=
  delivered s = log /\ exists st, drafts s !! 0 = Some st /\ base_ st = l.

(** ** Recipes that only read *)

Definition is_read (c : call) : bool :=
  match c with
  | CGet _ _ | CHas _ _ | COwnKeys _
  | CMapSize _ | CMapHas _ _ | CMapGet _ _ | CMapKeys _
  | CSetSize _ | CSetHas _ _ | CSetValues _
  | COriginal _ | CNew _ => true
  | CSet _ _ _ | CDelete _ _ | CDefineProperty _ | CSetPrototypeOf _
  | CMapSet _ _ _ | CMapDelete _ _ | CMapClear _
  | CSetAdd _ _ | CSetDelete _ _ | CSetClear _ => false
  end.

Inductive readonly : script -> Prop :=
| readonly_return v : readonly (Return v)
| readonly_throw : readonly Throw
| readonly_call c k :
    is_read c = true -> (forall r, readonly (k r)) -> readonly (Call c k).

(** The store in which a recipe starts, and the root draft:
    [enterScope] then [createProxy(base, undefined)]. *)
Definition begin (immer : Immer) (base : jsval) : M (sid * jsval) :=
  scope ← enterScope immer;
  proxy ← createProxy base None;
  ret (scope, proxy).

(** ** Freezing *)

Definition frozen_at (h : list obj) (l : loc) : bool :=
  match h !! l with Some o => o_frozen o | None => false end.

(** The values that a deep freeze of [root] comes to: it goes on below an
    object only if the object is draftable and was not frozen already. *)
Inductive freeze_reaches (h : list obj) (root : jsval) : jsval -> Prop :=
| freeze_reaches_root : freeze_reaches h root root
| freeze_reaches_child l b v :
    freeze_reaches h root (VRef l) ->
    isDraftable_in h (VRef l) = true ->
    frozen_at h l = false ->
    body_of h l = Some b ->
    In v (object_values b) ->
    freeze_reaches h root v.

Definition unfrozen_count (h : list obj) : nat :=
  length (List.filter (fun o => negb (o_frozen o)) h).

(** [freeze_ext h h']: the objects of [h'] are those of [h], some of them
    frozen since. *)
Definition freeze_ext (h h' : list obj) : Prop :=
  Forall2 (fun o o' => o_body o' = o_body o /\ (o_frozen o = true -> o_frozen o' = true))
    h h'.

(** Every draftable object among the property values of [l] is frozen. *)
Definition children_frozen (h : list obj) (l : loc) : Prop :=
  forall b l',
    body_of h l = Some b -> In (VRef l') (object_values b) ->
    isDraftable_in h (VRef l') = true -> frozen_at h l' = true.

(** What a deep freeze of [v] from the heap [h] leaves behind in [h']. *)
Definition deep_frozen (h : list obj) (v : jsval) (h' : list obj) : Prop :=
  freeze_ext h h'
  /\ (forall l, v = VRef l -> isDraftable_in h v = true -> frozen_at h' l = true)
  /\ (forall l, frozen_at h l = false -> frozen_at h' l = true -> children_frozen h' l).

(** ** Literal inputs *)

(** The record [{x: 1}] whose [x] is writable and enumerable but not
    configurable. *)
Definition pinned_field : Descriptors.object :=
  {| Descriptors.isPlainObject := true;
     Descriptors.descriptors :=
       [(Descriptors.Str "x", Descriptors.Data (VNum 1) true true false)] |}.


Definition polluting_patch : Patch :=
  {| op := ADD; path := [VStr "a"; VStr "__proto__"; VStr "polluted"];
     pvalue := Some (VBool true) |}.


(** [base = [1, 2, 3, 4]] and the recipe [draft.length = 2; return 7]. *)
Definition replacing_recipe : recipe := fun draft =>
  match draft with
  | VDraft d => Call (CSet d (KStr "length") (VNum 2)) (fun _ => Return (VNum 7))
  | _ => Throw
  end.

(** The recipe [draft.a; draft.a.x] that reads and returns nothing. *)
Definition reading_recipe : recipe := fun draft =>
  Call (CGet draft (KStr "a")) (fun r =>
  match r with
  | RValue child => Call (CGet child (KStr "x")) (fun _ => Return VUndef)
  | _ => Throw
  end).

(** [base = Object.freeze({a: {x: 1}})]: the record is frozen, the record
    in its field is not. *)
Definition half_frozen_base : list obj :=
  [Obj (BRecord [(KStr "a", VRef 1)]) true false;
   plain (BRecord [(KStr "x", VNum 1)])].

(** * Further predicates *)

(** The two zeros. *)
Definition zeros (x y : jsval) : Prop := is_zero x = true /\ is_zero y = true.

(** Bodies that keep their data in properties: records, sequences and the
    instances of classes. *)
Definition props_like (b : body) : bool :=
  match b with
  | BRecord _ | BArray _ _ | BOpaque _ => true
  | BMap _ | BSet _ | BFunction => false
  end.

(** [has], [get] and [set] of utils/common.ts look a key up among the
    entries of a map, and among the properties of anything else, where the
    key is turned into a property key first. *)
Definition key_alias (h : list obj) (b : body) (k k' : jsval) : bool :=
  match b with
  | BMap _ => same_value_zero k k'
  | _ => pkey_eqb (pkey_of_value h k) (pkey_of_value h k')
  end.

(** ** Stores that differ in bookkeeping only *)

(** The two draft states differ at most in their modified flag and in
    their table of assigned keys. *)
Definition same_core (st st' : ImmerState) : Prop :=
  type_ st' = type_ st /\ parent_ st' = parent_ st /\ scope_ st' = scope_ st
  /\ finalized_ st' = finalized_ st /\ base_ st' = base_ st /\ copy_ st' = copy_ st
  /\ drafts_ st' = drafts_ st /\ revoked_ st' = revoked_ st
  /\ isManual_ st' = isManual_ st.

Definition bookkeeping (s s' : state) : Prop :=
  heap s' = heap s /\ scopes s' = scopes s /\ currentScope s' = currentScope s
  /\ delivered s' = delivered s /\ Forall2 same_core (drafts s) (drafts s').

(** ** Drafts of records and sequences in a store *)

(** The base of the draft [d] is a record or a sequence, and so is its
    copy, which is another object, when it has one. *)
Definition sound_draft (s : state) (d : did) : Prop :=
  exists st bb,
    drafts s !! d = Some st
    /\ body_of (heap s) (base_ st) = Some bb /\ props_like bb = true
    /\ forall c, copy_ st = Some c ->
         c <> base_ st
         /\ exists cb, body_of (heap s) c = Some cb /\ props_like cb = true.

(** What a read of the property [p] through the draft [d] finds in the
    latest version of its object. *)
Definition reads_as (s : state) (d : did) (p : pkey) (v : jsval) : Prop :=
  exists st src,
    drafts s !! d = Some st /\ revoked_ st = false
    /\ body_of (heap s) (latest st) = Some src
    /\ same_value_zero (read_prop src p) v = true.

(** ** The parts of [objectTraps.set]

    [set_store] is the end of the interceptor, from the comparison with
    what the copy holds; [set_plain] is the interceptor past the lookup of
    an inherited setter. *)
Definition set_store (d : did) (prop : pkey) (value : jsval) : M bool :=
  stored ← copy_read d prop;
  c ← copy_loc d;
  cb ← body_at c;
  if (strict_eq stored value && (negb (strict_eq value VUndef) || has_in cb prop))
     || (is_nan value && is_nan stored)
  then ret true
  else
    copy_write d prop value ;;
    assign d (key_value prop) true ;;
    ret true.

Definition set_plain (d : did) (prop : pkey) (value : jsval) (state : ImmerState)
  : M bool :=
  if modified_ state then set_store d prop value
  else
    current ← peek (VRef (latest state)) prop;
    currentState ← match current with
                   | VDraft c => cst ← state_of c; ret (Some cst)
                   | _ => ret None
                   end;
    if match currentState with
       | Some cst => strict_eq (VRef (base_ cst)) value
       | None => false
       end
    then
      copy_write d prop value ;;
      assign d (key_value prop) false ;;
      ret true
    else
      baseb ← body_at (base_ state);
      if is_ value current && (negb (strict_eq value VUndef) || has_own baseb prop)
      then ret true
      else
        prepareCopy d ;;
        markChanged d ;;
        set_store d prop value.

(** ** Tables without two entries for one key *)

Fixpoint distinct_keys {K V : Type} (eqb : K -> K -> bool) (l : list (K * V)) : Prop :=
  match l with
  | [] => True
  | (k, _) :: r => assoc_get eqb k r = None /\ distinct_keys eqb r
  end.

(** A key whose property key does not depend on the heap: any key of a
    map, and a primitive key of anything else. *)
Definition stable_key (b : body) (k : jsval) : bool :=
  match b, k with
  | BMap _, _ => true
  | _, VPrim _ => true
  | _, _ => false
  end.

(** A value that the [length] of a sequence takes as it is: a number
    below 2^32 (a negative one is refused). *)
Definition length_value (pv : prim) : bool :=
  match pv with
  | PNum z => (z <? 2 ^ 32)%Z
  | PNegZero => true
  | _ => false
  end.

(** Records and maps: [set] writes one entry and leaves the others. *)
Definition keyed (b : body) : bool :=
  match b with
  | BRecord _ | BMap _ => true
  | BArray _ _ | BSet _ | BOpaque _ | BFunction => false
  end.

(** The property key that the value [k] denotes on the object [b] is not
    [p]; a map has entries, and no property is written. *)
Definition not_property (h : list obj) (b : body) (k : jsval) (p : pkey) : Prop :=
  match b with
  | BMap _ | BSet _ => True
  | _ => pkey_of_value h k <> p
  end.

(** ** More literal inputs *)

(** The store with the record [{a: 1}]. *)
Definition unit_store : state := store_of [plain (BRecord [(KStr "a", VNum 1)])].

(** The store with the record [{a: 1}] and a root draft of it. *)
Definition unit_draft_store : state := fst (begin default_immer (VRef 0) unit_store).

(** The store with [{a: {x: 1}, b: 1}] and a root draft of it. *)
Definition nested_draft_store : state :=
  fst (begin default_immer (VRef 0) (store_of rewrite_base)).

(** The draft [d] is there and not revoked. *)
Definition Alive (d : did) (s : state) : Prop :=
  exists st, drafts s !! d = Some st /\ revoked_ st = false.

(** The store with the map [{k -> 1}] and a root draft of it; the same
    for the set [{1}]. *)
Definition map_draft_store : state := fst (begin default_immer (VRef 0) (store_of map_base)).
Definition set_draft_store : state := fst (begin default_immer (VRef 0) (store_of set_base)).

(** What the operations on drafts leave aside: the scope in progress and
    the patches delivered so far. *)
Definition Aside (cur : option sid) (log : list (list Patch * list Patch)) (s : state)
  : Prop :=
  currentScope s = cur /\ delivered s = log.

(** The scope that is current after [leaveScope(scope)]. *)
Definition scope_left (scope : sid) (parent cur : option sid) : option sid :=
  match cur with
  | Some c => if c =? scope then parent else Some c
  | None => None
  end.

(** What [produce] makes of the answer [r] of a recipe that was given the
    base itself. *)
Definition settled (base : prim) (r : prim) : prim :=
  match r with
  | PUndefined => match base with PNothing => PUndefined | _ => base end
  | PNothing => PUndefined
  | _ => r
  end.

(** A recipe that reads a key that the record [{a: 1}] lacks, then raises. *)
Definition failing_recipe : recipe := fun draft =>
  Call (CGet draft (KStr "z")) (fun _ => Throw).

(** The object at [l] is frozen and has the body [b]. *)
Definition frozen_as (l : loc) (b : body) (s : state) : Prop :=
  exists o, heap s !! l = Some o /\ o_frozen o = true /\ o_body o = b.

(** A patch that replaces the root: its path is empty and its operation is
    [replace]. *)
Definition root_replace (p : Patch) : bool :=
  match path p, op p with
  | [], REPLACE => true
  | _, _ => false
  end.

(** ** The scope of a run, past the recipe

    [Scoped c0 cur s]: the scope [cur] is current, and it is the parent of
    the scope [c0].  [Listed c0 cur s]: moreover the scope [c0] lists every
    draft of the store, and none of them is revoked. *)
Definition Scoped (c0 : sid) (cur : option sid) (s : state) : Prop :=
  currentScope s = cur /\ exists sc, scopes s !! c0 = Some sc /\ sparent_ sc = cur.

Definition Listed (c0 : sid) (cur : option sid) (s : state) : Prop :=
  currentScope s = cur /\ exists sc0, sparent_ sc0 = cur /\ Live c0 sc0 s.

(** The record [{x: 1, get y() { return 2 }}] with a hidden (not
    enumerable) property [h]. *)
Definition getter_record : Descriptors.object :=
  {| Descriptors.isPlainObject := true;
     Descriptors.descriptors :=
       [(Descriptors.Str "x", Descriptors.Data (VNum 1) true true true);
        (Descriptors.Str "y",
         Descriptors.Accessor (Some (fun _ => VNum 2)) false true true);
        (Descriptors.Str "h", Descriptors.Data (VNum 3) true false true)] |}.

(** ** Records whose keys are distinct *)

Definition record_like (b : body) : bool :=
  match b with BRecord _ | BOpaque _ => true | _ => false end.

Definition props_of (b : body) : list (pkey * jsval) :=
  match b with BRecord ps | BOpaque ps => ps | _ => [] end.

Definition tidy (b : body) : Prop :=
  record_like b = true /\ distinct_keys pkey_eqb (props_of b).

(** After a write under [p], the draft [d] is live and the latest version
    of its object answers as [src] under every other key. *)
Definition frames (src : body) (p : pkey) (s1 : state) (d : did) : Prop :=
  exists st1 src1,
    drafts s1 !! d = Some st1 /\ revoked_ st1 = false
    /\ body_of (heap s1) (latest st1) = Some src1
    /\ forall q, pkey_eqb p q = false ->
         read_prop src1 q = read_prop src q /\ has_own src1 q = has_own src q.

(** A sequence without extra properties that has the index [i]. *)
Definition has_index (i : nat) (b : body) : Prop :=
  exists es, b = BArray es [] /\ i < length es.

(** The store with the sequence [[1, 2, 3]] and a root draft of it. *)
Definition array_draft_store : state :=
  fst (begin default_immer (VRef 0) (store_of [plain (BArray [VNum 1; VNum 2; VNum 3] [])])).

(** ** One assignment through the root draft of a record

    The stores that a call of [produce] goes through when it is the only
    call in progress and its recipe assigns one property of the root
    draft. *)
Definition solo (hp : list obj) (st : ImmerState) (sc : ImmerScope) (cur : option sid)
    (log : list (list Patch * list Patch)) : state :=
  {| heap := hp; drafts := [st]; scopes := [sc]; currentScope := cur; delivered := log |}.

Definition root_scope (immer : Immer) : ImmerScope :=
  sc_drafts (Some [0]) (createScope None immer).

Definition started (immer : Immer) (h : list obj) (l : loc) : state :=
  solo h (new_state AObject l None 0) (root_scope immer) (Some 0) [].

Definition written_state (l c : loc) (k : pkey) : ImmerState :=
  st_assigned [(key_value k, true)]
    (st_modified true (st_copy (Some c) (new_state AObject l None 0))).

Definition written (immer : Immer) (h : list obj) (l : loc) (b' : body) (k : pkey) : state :=
  solo (h ++ [Obj b' false false]) (written_state l (length h) k) (root_scope immer)
    (Some 0) [].

(** The recipe [draft[k] = v]. *)
Definition assign_recipe (k : pkey) (v : jsval) : recipe := fun draft =>
  match draft with
  | VDraft d => Call (CSet d k v) (fun _ => Return VUndef)
  | _ => Throw
  end.

(** A record all of whose properties hold primitive values. *)
Definition flat (ps : list (pkey * jsval)) : Prop :=
  Forall (fun kv => exists x, snd kv = VPrim x) ps.

(** The patch that describes the assignment [draft[k] = v] on the record
    [ps], and its inverse. *)
Definition assign_patch (ps : list (pkey * jsval)) (k : pkey) (v : jsval) : Patch :=
  {| op := if has_own (BRecord ps) k then REPLACE else ADD;
     path := [key_value k]; pvalue := Some v |}.

Definition assign_inverse (ps : list (pkey * jsval)) (k : pkey) : Patch :=
  if has_own (BRecord ps) k
  then {| op := REPLACE; path := [key_value k]; pvalue := Some (read_prop (BRecord ps) k) |}
  else {| op := REMOVE; path := [key_value k]; pvalue := None |}.

(** The copy after the assignment, the heap that holds it, and the same
    heap once the copy is frozen, which it is when the engine freezes its
    results. *)
Definition assigned_body (ps : list (pkey * jsval)) (k : pkey) (v : jsval) : body :=
  BRecord (assoc_set pkey_eqb k v ps).

Definition copied_heap (h : list obj) (b : body) : list obj := h ++ [Obj b false false].

Definition finished_heap (immer : Immer) (h : list obj) (b : body) : list obj :=
  if autoFreeze_ immer then h ++ [Obj b true false] else copied_heap h b.

(** The scope of the call: with its patch buffers, with its count of
    drafts to finalize, once that count is back to zero, and with the two
    patches. *)
Definition listening (immer : Immer) : ImmerScope :=
  sc_listener true (sc_patches (Some []) (Some []) (root_scope immer)).

Definition counting (immer : Immer) : ImmerScope := sc_unfinalized 1%Z (listening immer).

Definition counted (immer : Immer) : ImmerScope :=
  sc_unfinalized (1 - 1)%Z (counting immer).

Definition patched (immer : Immer) (ps : list (pkey * jsval)) (k : pkey) (v : jsval)
  : ImmerScope :=
  sc_patches (Some [assign_patch ps k v]) (Some [assign_inverse ps k]) (counted immer).

Definition finalized_state (l c : loc) (k : pkey) : ImmerState :=
  st_finalized true (written_state l c k).

(** ** Drafts made by hand (core/immerClass.ts) *)

Definition st_manual (b : bool) (st : ImmerState) : ImmerState :=
  {| type_ := type_ st; parent_ := parent_ st; scope_ := scope_ st;
     modified_ := modified_ st; finalized_ := finalized_ st; base_ := base_ st;
     copy_ := copy_ st; assigned_ := assigned_ st; drafts_ := drafts_ st;
     revoked_ := revoked_ st; isManual_ := b |}.

(** [createDraft(base)], over [current], which is called when the base is
    itself a draft. *)
Definition createDraft_with (current : jsval -> M jsval) (immer : Immer) (base : jsval)
  : M jsval :=
  draftable ← isDraftable base;
  if negb draftable then die 8
  else
    base ← (if isDraft base then current base else ret base);
    scope ← enterScope immer;
    proxy ← createProxy base None;
    match proxy with
    | VDraft d => update_state d (st_manual true)
    | _ => throw TypeError
    end ;;
    leaveScope scope ;;
    ret proxy.

(** [finishDraft(draft, patchListener)] *)
Definition finishDraft (fuel : nat) (draft : jsval) (patchListener : bool) : M jsval :=
  match draft with
  | VDraft d =>
      state ← state_of d;
      if negb (isManual_ state) then die 9
      else
        usePatchesInScope (scope_ state) patchListener ;;
        processResult fuel VUndef (scope_ state)
  | _ => die 9
  end.

(** * Evaluations on literal inputs *)

(** C8.  For [base = [1, 2, 3, 4]] and the recipe [draft.length = 2], a run
    with a patch sink returns [[1, 2]]; the forward patches are the two
    removals at [[3]] then [[2]], the inverse patches the two additions
    [{path: [2], value: 3}] and [{path: [3], value: 4}]; applying the
    inverse patches to the result gives [[1, 2, 3, 4]] again.  This holds
    under every configuration of the engine. *)
Theorem C8_array_shrink_patches (immer : Immer) :
  exists s1 result s2 restored,
    runWithPatches 8 immer (VRef 0) shrink_recipe (store_of shrink_base)
    = (s1, Ok (VRef result,
               [ {| op := REMOVE; path := [VNum 3]; pvalue := None |};
                 {| op := REMOVE; path := [VNum 2]; pvalue := None |} ],
               [ {| op := ADD; path := [VNum 2]; pvalue := Some (VNum 3) |};
                 {| op := ADD; path := [VNum 3]; pvalue := Some (VNum 4) |} ]))
    /\ body_of (heap s1) result = Some (BArray [VNum 1; VNum 2] [])
    /\ applyPatches 8 immer (VRef result)
         [ {| op := ADD; path := [VNum 2]; pvalue := Some (VNum 3) |};
           {| op := ADD; path := [VNum 3]; pvalue := Some (VNum 4) |} ] s1
       = (s2, Ok (VRef restored))
    /\ body_of (heap s2) restored
       = Some (BArray [VNum 1; VNum 2; VNum 3; VNum 4] []).
Proof.
  destruct immer as [[] []]; do 4 eexists;
    repeat (split; [vm_compute; reflexivity|]); vm_compute; reflexivity.
Qed.

(** C3, at the input on which the round trip fails.  The recipe reads
    [draft.a], writes the base's own [a] back, and sets [b].  The run
    returns [{a: base.a, b: 2}], but the forward patches start with a
    removal of [a]: applied to the base they give [{b: 2}]. *)
Theorem C3_forward_patches_remove_rewritten_key :
  exists s1 result inverse s2 patched,
    runWithPatches 8 default_immer (VRef 0) rewrite_recipe (store_of rewrite_base)
    = (s1, Ok (VRef result,
               [ {| op := REMOVE; path := [VStr "a"]; pvalue := None |};
                 {| op := REPLACE; path := [VStr "b"]; pvalue := Some (VNum 2) |} ],
               inverse))
    /\ body_of (heap s1) result
       = Some (BRecord [(KStr "a", VRef 1); (KStr "b", VNum 2)])
    /\ applyPatches 8 default_immer (VRef 0)
         [ {| op := REMOVE; path := [VStr "a"]; pvalue := None |};
           {| op := REPLACE; path := [VStr "b"]; pvalue := Some (VNum 2) |} ]
         (store_of rewrite_base)
       = (s2, Ok (VRef patched))
    /\ body_of (heap s2) patched = Some (BRecord [(KStr "b", VNum 2)]).
Proof.
  do 5 eexists.
  repeat (split; [vm_compute; reflexivity|]); vm_compute; reflexivity.
Qed.

(** C6, at the operations that skip the check.  After a run on a map (on a
    set) the root draft is revoked: [get] on it raises the revoked error,
    but [size], [has], [keys] and the [delete] of an absent key answer as
    if nothing had happened, and so does [size] on the set draft. *)
Theorem C6_revoked_draft_still_answers :
  let s := fst (run 8 default_immer (VRef 0) idle_recipe false (store_of map_base)) in
  let t := fst (run 8 default_immer (VRef 0) idle_recipe false (store_of set_base)) in
  (revoked_ <$> drafts s !! 0) = Some true
  /\ snd (DraftMap_get 0 (VStr "k") s) = Err (Die 3)
  /\ snd (DraftMap_size 0 s) = Ok 1
  /\ snd (DraftMap_has 0 (VStr "k") s) = Ok true
  /\ snd (DraftMap_keys 0 s) = Ok [VStr "k"]
  /\ snd (DraftMap_delete 0 (VStr "j") s) = Ok false
  /\ (it_keys <$> match snd (DraftMap_values 0 s) with Ok it => Some it | _ => None end)
     = Some [VStr "k"]
  /\ (revoked_ <$> drafts t !! 0) = Some true
  /\ snd (DraftSet_has 0 (VNum 1) t) = Err (Die 3)
  /\ snd (DraftSet_size 0 t) = Ok 1.
Proof.
  vm_compute. repeat split; reflexivity.
Qed.

(** * The strict shallow copy of a record *)

Section StrictCopy.
Import Descriptors.

Lemma key_eqb_eq a b : key_eqb a b = true <-> a = b.
Proof.
  destruct a, b; simpl; rewrite ?String.eqb_eq; split; congruence.
Qed.

Lemma key_eqb_refl a : key_eqb a a = true.
Proof. apply key_eqb_eq; reflexivity. Qed.

Lemma lookup_strict_copy (l : list (key * descriptor)) (k : key) :
  assoc_get key_eqb k
    (map (fun kd => (fst kd, strict_descriptor (snd kd)))
         (List.filter (fun kd => negb (key_eqb (fst kd) DRAFT_STATE)) l))
  = if key_eqb k DRAFT_STATE then None
    else strict_descriptor <$> assoc_get key_eqb k l.
Proof.
  induction l as [|[k' d] r IH]; simpl.
  - destruct (key_eqb k DRAFT_STATE); reflexivity.
  - destruct (key_eqb k' DRAFT_STATE) eqn:Hs; simpl.
    + rewrite IH. destruct (key_eqb k DRAFT_STATE) eqn:Hk; [reflexivity|].
      destruct (key_eqb k k') eqn:Hkk; [|reflexivity].
      apply key_eqb_eq in Hkk, Hs. subst. rewrite key_eqb_refl in Hk. discriminate.
    + destruct (key_eqb k k') eqn:Hkk.
      * apply key_eqb_eq in Hkk. subst. rewrite Hs. reflexivity.
      * exact IH.
Qed.

Lemma keys_strict_copy (l : list (key * descriptor)) :
  map fst (map (fun kd => (fst kd, strict_descriptor (snd kd)))
               (List.filter (fun kd => negb (key_eqb (fst kd) DRAFT_STATE)) l))
  = List.filter (fun k => negb (key_eqb k DRAFT_STATE)) (map fst l).
Proof.
  induction l as [|[k' d] r IH]; simpl; [reflexivity|].
  destruct (key_eqb k' DRAFT_STATE); simpl; congruence.
Qed.
End StrictCopy.

(** C7.  The strict copy misses a case.  Its loop makes a property
    writable and configurable only when it finds it not writable, so the
    property [x] of [pinned_field], which is writable and not
    configurable, is copied as it is: the copy has a descriptor that is
    not configurable, and not every copied descriptor is writable and
    configurable. *)
Theorem C7_writable_property_stays_unconfigurable :
  Descriptors.lookup (Descriptors.Str "x") (Descriptors.shallowCopy pinned_field StrictTrue)
  = Some (Descriptors.Data (VNum 1) true true false)
  /\ ~ (forall k d,
          Descriptors.lookup k (Descriptors.shallowCopy pinned_field StrictTrue) = Some d ->
          Descriptors.writable_of d = Some true /\ Descriptors.configurable_of d = true).
Proof.
  split; [reflexivity|]. intros H.
  destruct (H (Descriptors.Str "x") (Descriptors.Data (VNum 1) true true false) eq_refl)
    as [_ Hc].
  discriminate Hc.
Qed.

(** What the strict copy does, key by key.  It has the own keys of the
    base, symbols included, in the same order and without the internal
    state key; the descriptor under each key is the base's, changed as
    follows.  A data descriptor keeps its value and its enumerability and
    becomes writable; it becomes configurable when it was not writable,
    and otherwise keeps its configurable flag.  An accessor with a getter
    or a setter becomes a writable, configurable data descriptor of the
    same enumerability whose value is read through the base.  An accessor
    with neither is copied as it is. *)
Lemma strict_copy_descriptors (base : Descriptors.object) (k : Descriptors.key) :
  map fst (Descriptors.descriptors (Descriptors.shallowCopy base StrictTrue))
  = List.filter (fun k' => negb (Descriptors.key_eqb k' Descriptors.DRAFT_STATE))
      (map fst (Descriptors.descriptors base))
  /\ Descriptors.lookup k (Descriptors.shallowCopy base StrictTrue)
     = (if Descriptors.key_eqb k Descriptors.DRAFT_STATE then None
        else Descriptors.strict_descriptor <$> Descriptors.lookup k base)
  /\ (forall v w e c,
         Descriptors.strict_descriptor (Descriptors.Data v w e c)
         = Descriptors.Data v true e (c || negb w))
  /\ (forall g s e c,
         Descriptors.strict_descriptor (Descriptors.Accessor g s e c)
         = if is_none g && negb s then Descriptors.Accessor g s e c
           else Descriptors.Data
                  (Descriptors.read Descriptors.OnBase (Descriptors.Accessor g s e c))
                  true e true).
Proof.
  split; [apply keys_strict_copy|].
  split; [apply lookup_strict_copy|].
  split.
  - intros v [] e []; reflexivity.
  - intros g s e c. reflexivity.
Qed.

Lemma strict_copy_plain_list (l : list (Descriptors.key * Descriptors.descriptor)) :
  forallb (fun kd => negb (Descriptors.key_eqb (fst kd) Descriptors.DRAFT_STATE)
                     && Descriptors.plain_data (snd kd)) l = true ->
  map (fun kd => (fst kd, Descriptors.strict_descriptor (snd kd)))
      (List.filter (fun kd => negb (Descriptors.key_eqb (fst kd) Descriptors.DRAFT_STATE)) l)
  = l.
Proof.
  induction l as [|[k d] r IH]; simpl; [reflexivity|]. intros H.
  apply andb_prop in H as [Hkd Hr]. apply andb_prop in Hkd as [Hk Hd].
  rewrite Hk. simpl. rewrite (IH Hr).
  destruct d as [v [] [] []|]; try discriminate. reflexivity.
Qed.

Lemma assign_copy_plain_list (l : list (Descriptors.key * Descriptors.descriptor)) :
  forallb (fun kd => negb (Descriptors.key_eqb (fst kd) Descriptors.DRAFT_STATE)
                     && Descriptors.plain_data (snd kd)) l = true ->
  omap (fun kd => (fun d => (fst kd, d)) <$> Descriptors.assigned_descriptor (snd kd)) l = l.
Proof.
  induction l as [|[k d] r IH]; [reflexivity|]. simpl forallb. intros H.
  apply andb_prop in H as [Hkd Hr]. apply andb_prop in Hkd as [Hk Hd].
  destruct d as [v [] [] []|]; try discriminate.
  cbn. f_equal. exact (IH Hr).
Qed.

(** On the records that the engine's heap holds, whose properties are all
    plain data properties, the strict and the simple copy coincide with the
    base. *)
Lemma shallowCopy_plain_record (base : Descriptors.object) (strict : StrictMode) :
  Descriptors.plain_record base = true ->
  Descriptors.shallowCopy base strict = base.
Proof.
  destruct base as [p l]. unfold Descriptors.plain_record, Descriptors.shallowCopy. simpl.
  intros H.
  pose proof (strict_copy_plain_list l H) as Hs.
  pose proof (assign_copy_plain_list l H) as Ha.
  destruct strict; simpl; rewrite ?Hs, ?Ha; try reflexivity.
  destruct p; simpl; rewrite ?Hs, ?Ha; reflexivity.
Qed.

(** * Walking the path of a patch *)

Lemma bind_ok {A B} (m : M A) (f : A -> M B) s s1 a :
  m s = (s1, Ok a) -> (m ≫= f) s = f a s1.
Proof. intros H. unfold mbind, M_bind, bind. rewrite H. reflexivity. Qed.

Lemma bind_err {A B} (m : M A) (f : A -> M B) s s1 e :
  m s = (s1, Err e) -> (m ≫= f) s = (s1, Err e).
Proof. intros H. unfold mbind, M_bind, bind. rewrite H. reflexivity. Qed.

Lemma bind_fuel {A B} (m : M A) (f : A -> M B) s s1 :
  m s = (s1, OutOfFuel) -> (m ≫= f) s = (s1, OutOfFuel).
Proof. intros H. unfold mbind, M_bind, bind. rewrite H. reflexivity. Qed.








(** * Reasoning about computations *)

Lemma unchanged_ret {A} (a : A) : unchanged (ret a).
Proof. intros s. reflexivity. Qed.

Lemma unchanged_mret {A} (a : A) : unchanged (mret a : M A).
Proof. intros s. reflexivity. Qed.

Lemma unchanged_throw {A} e : unchanged (throw e : M A).
Proof. intros s. reflexivity. Qed.

Lemma unchanged_die {A} n : unchanged (die n : M A).
Proof. intros s. reflexivity. Qed.

Lemma unchanged_out_of_fuel {A} : unchanged (out_of_fuel : M A).
Proof. intros s. reflexivity. Qed.

Lemma unchanged_gets {A} (f : state -> A) : unchanged (gets f).
Proof. intros s. reflexivity. Qed.

Lemma unchanged_bind {A B} (m : M A) (f : A -> M B) :
  unchanged m -> (forall a, unchanged (f a)) -> unchanged (m ≫= f).
Proof.
  intros Hm Hf s. unfold mbind, M_bind, bind.
  specialize (Hm s). destruct (m s) as [s' [a| |]]; simpl in *; subst; try reflexivity.
  apply Hf.
Qed.

Lemma unchanged_heap_lookup l : unchanged (heap_lookup l).
Proof. intros s. unfold heap_lookup. destruct (heap s !! l); reflexivity. Qed.

Lemma unchanged_get_state d : unchanged (get_state d).
Proof. intros s. unfold get_state. destruct (drafts s !! d); reflexivity. Qed.

Lemma unchanged_get_scope c : unchanged (get_scope c).
Proof. intros s. unfold get_scope. destruct (scopes s !! c); reflexivity. Qed.

Create HintDb unch discriminated.
#[export] Hint Resolve unchanged_ret unchanged_mret unchanged_throw unchanged_die
  unchanged_out_of_fuel unchanged_gets unchanged_heap_lookup unchanged_get_state
  unchanged_get_scope : unch.

(** Decomposes a goal [unchanged m] along the shape of [m]. *)
Ltac unch :=
  repeat first
    [ solve [auto with unch]
    | apply unchanged_bind; [|intros ?]
    | match goal with
      | |- unchanged (match ?x with _ => _ end) => destruct x
      | |- unchanged (let _ := _ in _) => cbv zeta
      end ].

Lemma unchanged_body_at l : unchanged (body_at l).
Proof. unfold body_at. unch. Qed.
#[export] Hint Resolve unchanged_body_at : unch.

Lemma unchanged_state_of d : unchanged (state_of d).
Proof. unfold state_of. unch. Qed.
#[export] Hint Resolve unchanged_state_of : unch.

Lemma unchanged_isDraftable v : unchanged (isDraftable v).
Proof. unfold isDraftable. unch. Qed.

Lemma unchanged_isFrozen v : unchanged (isFrozen v).
Proof. unfold isFrozen. unch. Qed.
#[export] Hint Resolve unchanged_isDraftable unchanged_isFrozen : unch.

Lemma unchanged_getArchtype v : unchanged (getArchtype v).
Proof. unfold getArchtype. unch. Qed.

Lemma unchanged_getCurrentScope : unchanged getCurrentScope.
Proof. unfold getCurrentScope. unch. Qed.

Lemma unchanged_peek v p : unchanged (peek v p).
Proof. unfold peek. unch. Qed.

Lemma unchanged_copy_loc d : unchanged (copy_loc d).
Proof. unfold copy_loc. unch. Qed.
#[export] Hint Resolve unchanged_getArchtype unchanged_getCurrentScope unchanged_peek
  unchanged_copy_loc : unch.

Lemma unchanged_copy_read d p : unchanged (copy_read d p).
Proof. unfold copy_read. unch. Qed.

Lemma unchanged_readPropFromProto d b p : unchanged (readPropFromProto d b p).
Proof. unfold readPropFromProto. unch. Qed.

Lemma unchanged_proto_setter v : unchanged (proto_setter v).
Proof. unfold proto_setter. unch. Qed.

Lemma unchanged_assertUnrevoked st : unchanged (assertUnrevoked st).
Proof. unfold assertUnrevoked. unch. Qed.

Lemma unchanged_proxy_state d : unchanged (proxy_state d).
Proof. unfold proxy_state. unch. Qed.

Lemma unchanged_method_of t d : unchanged (method_of t d).
Proof. unfold method_of. unch. Qed.

Lemma unchanged_coerce_segment p : unchanged (coerce_segment p).
Proof. unfold coerce_segment. unch. Qed.
#[export] Hint Resolve unchanged_copy_read unchanged_readPropFromProto unchanged_proto_setter
  unchanged_assertUnrevoked unchanged_proxy_state unchanged_method_of
  unchanged_coerce_segment : unch.

Lemma unchanged_objectTraps_has d p : unchanged (objectTraps_has d p).
Proof. unfold objectTraps_has. unch. Qed.

Lemma unchanged_objectTraps_ownKeys d : unchanged (objectTraps_ownKeys d).
Proof. unfold objectTraps_ownKeys. unch. Qed.

Lemma unchanged_objectTraps_getOwnPropertyDescriptor d p :
  unchanged (objectTraps_getOwnPropertyDescriptor d p).
Proof. unfold objectTraps_getOwnPropertyDescriptor. unch. Qed.
#[export] Hint Resolve unchanged_objectTraps_has unchanged_objectTraps_ownKeys
  unchanged_objectTraps_getOwnPropertyDescriptor : unch.

Lemma unchanged_proxy_has d p : unchanged (proxy_has d p).
Proof. unfold proxy_has. unch. Qed.

Lemma unchanged_proxy_ownKeys d : unchanged (proxy_ownKeys d).
Proof. unfold proxy_ownKeys. unch. Qed.

Lemma unchanged_proxy_defineProperty d : unchanged (proxy_defineProperty d).
Proof. unfold proxy_defineProperty, objectTraps_defineProperty. unch. Qed.

Lemma unchanged_proxy_setPrototypeOf d : unchanged (proxy_setPrototypeOf d).
Proof. unfold proxy_setPrototypeOf, objectTraps_setPrototypeOf. unch. Qed.

Lemma unchanged_DraftMap_size d : unchanged (DraftMap_size d).
Proof. unfold DraftMap_size. unch. Qed.

Lemma unchanged_DraftMap_has d k : unchanged (DraftMap_has d k).
Proof. unfold DraftMap_has. unch. Qed.

Lemma unchanged_DraftMap_keys d : unchanged (DraftMap_keys d).
Proof. unfold DraftMap_keys. unch. Qed.

Lemma unchanged_DraftSet_size d : unchanged (DraftSet_size d).
Proof. unfold DraftSet_size. unch. Qed.

Lemma unchanged_DraftSet_has d v : unchanged (DraftSet_has d v).
Proof. unfold DraftSet_has. unch. Qed.

Lemma unchanged_original v : unchanged (original v).
Proof. unfold original. unch. Qed.

Lemma unchanged_js_has v k : unchanged (js_has v k).
Proof. unfold js_has. unch. Qed.
#[export] Hint Resolve unchanged_proxy_has unchanged_proxy_ownKeys
  unchanged_proxy_defineProperty unchanged_proxy_setPrototypeOf
  unchanged_DraftMap_size unchanged_DraftMap_has unchanged_DraftMap_keys
  unchanged_DraftSet_size unchanged_DraftSet_has unchanged_original unchanged_js_has : unch.

(** ** Invariants *)

Lemma keeps_unchanged {A} (I : state -> Prop) (m : M A) : unchanged m -> keeps I m.
Proof. intros H s Hs. rewrite H. exact Hs. Qed.

Lemma keeps_bind {A B} (I : state -> Prop) (m : M A) (f : A -> M B) :
  keeps I m -> (forall a, keeps I (f a)) -> keeps I (m ≫= f).
Proof.
  intros Hm Hf s Hs. unfold mbind, M_bind, bind.
  specialize (Hm s Hs). destruct (m s) as [s' [a| |]]; simpl in *; try exact Hm.
  apply Hf. exact Hm.
Qed.

Lemma keeps_forM_ {A} (I : state -> Prop) (l : list A) (f : A -> M unit) :
  (forall a, keeps I (f a)) -> keeps I (forM_ l f).
Proof.
  intros Hf. induction l as [|a r IH]; simpl.
  - apply keeps_unchanged, unchanged_ret.
  - apply keeps_bind; [apply Hf | intros _; exact IH].
Qed.

Lemma keeps_mapM {A B} (I : state -> Prop) (l : list A) (f : A -> M B) :
  (forall a, keeps I (f a)) -> keeps I (mapM f l).
Proof.
  intros Hf. induction l as [|a r IH]; simpl.
  - apply keeps_unchanged, unchanged_ret.
  - apply keeps_bind; [apply Hf | intros b].
    apply keeps_bind; [exact IH | intros bs]. apply keeps_unchanged, unchanged_ret.
Qed.

Lemma keeps_when (I : state -> Prop) (b : bool) (m : M unit) :
  keeps I m -> keeps I (when b m).
Proof. intros H. destruct b; [exact H | apply keeps_unchanged, unchanged_ret]. Qed.

Lemma keeps_each_live (I : state -> Prop) fuel l i (iter : jsval -> jsval -> M unit) :
  (forall k v, keeps I (iter k v)) -> keeps I (each_live fuel l i iter).
Proof.
  intros Hi. revert i. induction fuel as [|f IH]; intros i; simpl.
  - apply keeps_bind; [apply keeps_unchanged; auto with unch | intros b].
    destruct (entry_at b i) as [[k v]|]; apply keeps_unchanged; auto with unch.
  - apply keeps_bind; [apply keeps_unchanged; auto with unch | intros b].
    destruct (entry_at b i) as [[k v]|]; [|apply keeps_unchanged; auto with unch].
    apply keeps_bind; [apply Hi | intros _; apply IH].
Qed.

Lemma keeps_each (I : state -> Prop) fuel l (iter : jsval -> jsval -> M unit) :
  (forall k v, keeps I (iter k v)) -> keeps I (each fuel l iter).
Proof.
  intros Hi. unfold each.
  apply keeps_bind; [apply keeps_unchanged; auto with unch | intros b].
  destruct (body_archtype b).
  - apply keeps_forM_. intros key.
    apply keeps_bind; [apply keeps_unchanged; auto with unch | intros b']. apply Hi.
  - apply keeps_forM_. intros idx.
    apply keeps_bind; [apply keeps_unchanged; auto with unch | intros b'].
    destruct (own_prop b' (KIdx idx)); [apply Hi | apply keeps_unchanged; auto with unch].
  - apply keeps_each_live. intros; apply Hi.
  - apply keeps_each_live. intros; apply Hi.
Qed.

Lemma keeps_try_finally {A B} (I : state -> Prop) (m : M A) (h : A + error -> M B) :
  keeps I m -> (forall r, keeps I (h r)) -> keeps I (try_finally m h).
Proof.
  intros Hm Hh s Hs. unfold try_finally.
  specialize (Hm s Hs). destruct (m s) as [s' [a| |]]; simpl in *; try exact Hm.
  - apply Hh. exact Hm.
  - apply Hh. exact Hm.
Qed.

Create HintDb keeps discriminated.

(** Decomposes a goal [keeps I m] along the shape of [m]; the leaves are
    looked up among the hypotheses and in the hint base. *)
Ltac keeps_step :=
  first
    [ solve [apply keeps_unchanged; unch]
    | solve [auto with keeps]
    | apply keeps_bind; [|intros ?]
    | apply keeps_forM_; intros ?
    | apply keeps_mapM; intros ?
    | apply keeps_when
    | apply keeps_each; intros ? ?
    | apply keeps_each_live; intros ? ?
    | match goal with
      | |- keeps _ (match ?x with _ => _ end) => destruct x
      | |- keeps _ (let _ := _ in _) => cbv zeta
      end ].

Ltac keeps_tac := repeat keeps_step.

(** * What every operation of a draft keeps

    An invariant that the ten elementary writes below keep is kept by every
    operation of the draft interface. *)

Lemma keeps_ext {A} (I : state -> Prop) (m m' : M A) :
  (forall s, m s = m' s) -> keeps I m' -> keeps I m.
Proof. intros E H s Hs. rewrite E. apply H, Hs. Qed.

Section DraftOperations.
Variable I : state -> Prop.
Hypothesis H_alloc : forall b, keeps I (alloc b).
Hypothesis H_install_copy : forall d b, keeps I (install_copy d b).
Hypothesis H_copy_write : forall d p v, keeps I (copy_write d p v).
Hypothesis H_copy_delete : forall d p, keeps I (copy_delete d p).
Hypothesis H_map_copy_update : forall d f, keeps I (map_copy_update d f).
Hypothesis H_set_copy_update : forall d f, keeps I (set_copy_update d f).
Hypothesis H_set_assigned : forall d g, keeps I (set_assigned d g).
Hypothesis H_set_drafts : forall d g, keeps I (set_drafts d g).
Hypothesis H_createProxy : forall v p, keeps I (createProxy v (Some p)).
Hypothesis H_markChanged : forall d, keeps I (markChanged d).

#[local] Hint Resolve H_alloc H_install_copy H_copy_write H_copy_delete
  H_map_copy_update H_set_copy_update H_set_assigned H_set_drafts H_createProxy : keeps.

Lemma keeps_assign d k b : keeps I (assign d k b).
Proof. apply H_set_assigned. Qed.

Lemma keeps_unassign d k : keeps I (unassign d k).
Proof. apply H_set_assigned. Qed.

Lemma keeps_prepareCopy d : keeps I (prepareCopy d).
Proof.
  unfold prepareCopy.
  apply keeps_bind; [keeps_tac | intros st].
  destruct (copy_ st); [keeps_tac|].
  apply keeps_bind; [keeps_tac | intros sc].
  apply (keeps_ext _ _ (b ← body_at (base_ st); install_copy d (copy_body b))).
  - intros s. unfold shallowCopy, install_copy, body_at.
    unfold mbind, M_bind, bind.
    destruct (heap_lookup (base_ st) s) as [s' [o| |]]; reflexivity.
  - keeps_tac.
Qed.

Lemma keeps_prepareMapCopy d : keeps I (prepareMapCopy d).
Proof. unfold prepareMapCopy. keeps_tac. Qed.

#[local] Hint Resolve keeps_assign keeps_unassign keeps_prepareCopy keeps_prepareMapCopy
  : keeps.

Lemma keeps_prepareSetCopy d : keeps I (prepareSetCopy d).
Proof. unfold prepareSetCopy. keeps_tac. Qed.

Lemma keeps_objectTraps_get d p : keeps I (objectTraps_get d p).
Proof. unfold objectTraps_get. keeps_tac. Qed.

Lemma keeps_DraftMap_get d k : keeps I (DraftMap_get d k).
Proof. unfold DraftMap_get. keeps_tac. Qed.

#[local] Hint Resolve keeps_prepareSetCopy keeps_objectTraps_get keeps_DraftMap_get : keeps.

Lemma keeps_DraftSet_values d : keeps I (DraftSet_values d).
Proof. unfold DraftSet_values. keeps_tac. Qed.

Lemma keeps_proxy_get d p : keeps I (proxy_get d p).
Proof. unfold proxy_get. keeps_tac. Qed.

#[local] Hint Resolve keeps_DraftSet_values keeps_proxy_get : keeps.

Lemma keeps_js_get v p : keeps I (js_get v p).
Proof. unfold js_get. keeps_tac. Qed.

#[local] Hint Resolve keeps_js_get : keeps.

(** The calls that only read need none of the writes to [modified_]. *)
Lemma keeps_run_call_read c : is_read c = true -> keeps I (run_call c).
Proof.
  intros Hc. destruct c; try discriminate Hc; unfold run_call, on_proxy; keeps_tac.
Qed.

Lemma keeps_objectTraps_set d p v : keeps I (objectTraps_set d p v).
Proof using All. unfold objectTraps_set. keeps_tac. Qed.

Lemma keeps_objectTraps_deleteProperty d p : keeps I (objectTraps_deleteProperty d p).
Proof using All. unfold objectTraps_deleteProperty. keeps_tac. Qed.

#[local] Hint Resolve keeps_objectTraps_set keeps_objectTraps_deleteProperty : keeps.

Lemma keeps_arrayTraps_set d p v : keeps I (arrayTraps_set d p v).
Proof using All. unfold arrayTraps_set. keeps_tac. Qed.

#[local] Hint Resolve keeps_arrayTraps_set : keeps.

Lemma keeps_arrayTraps_deleteProperty d p : keeps I (arrayTraps_deleteProperty d p).
Proof using All. unfold arrayTraps_deleteProperty. keeps_tac. Qed.

#[local] Hint Resolve keeps_arrayTraps_deleteProperty : keeps.

Lemma keeps_proxy_set d p v : keeps I (proxy_set d p v).
Proof using All. unfold proxy_set. keeps_tac. Qed.

Lemma keeps_proxy_deleteProperty d p : keeps I (proxy_deleteProperty d p).
Proof using All. unfold proxy_deleteProperty. keeps_tac. Qed.

Lemma keeps_DraftMap_set d k v : keeps I (DraftMap_set d k v).
Proof using All. unfold DraftMap_set. keeps_tac. Qed.

Lemma keeps_DraftMap_delete d k : keeps I (DraftMap_delete d k).
Proof using All. unfold DraftMap_delete. keeps_tac. Qed.

Lemma keeps_DraftMap_clear d : keeps I (DraftMap_clear d).
Proof using All. unfold DraftMap_clear. keeps_tac. Qed.

Lemma keeps_DraftSet_add d v : keeps I (DraftSet_add d v).
Proof using All. unfold DraftSet_add. keeps_tac. Qed.

Lemma keeps_DraftSet_delete d v : keeps I (DraftSet_delete d v).
Proof using All. unfold DraftSet_delete. keeps_tac. Qed.

Lemma keeps_DraftSet_clear d : keeps I (DraftSet_clear d).
Proof using All. unfold DraftSet_clear. keeps_tac. Qed.

#[local] Hint Resolve keeps_proxy_set keeps_proxy_deleteProperty keeps_DraftMap_set
  keeps_DraftMap_delete keeps_DraftMap_clear keeps_DraftSet_add keeps_DraftSet_delete
  keeps_DraftSet_clear : keeps.

Lemma keeps_run_call c : keeps I (run_call c).
Proof using All.
  destruct c; unfold run_call, on_proxy; keeps_tac.
Qed.

Lemma keeps_run_script sc : keeps I (run_script sc).
Proof using All.
  induction sc as [v| |c k IH]; simpl.
  - keeps_tac.
  - keeps_tac.
  - apply keeps_bind; [apply keeps_run_call | exact IH].
Qed.

Lemma keeps_run_script_readonly sc : readonly sc -> keeps I (run_script sc).
Proof.
  induction 1 as [v| |c k Hc Hk IH]; simpl.
  - keeps_tac.
  - keeps_tac.
  - apply keeps_bind; [apply keeps_run_call_read, Hc | exact IH].
Qed.

Lemma keeps_reachable s0 s : I s0 -> reachable s0 s -> I s.
Proof using All.
  intros H0. induction 1 as [|s c Hr IH]; [exact H0|].
  apply keeps_run_call. exact IH.
Qed.

End DraftOperations.

(** * The elementary writes *)

Lemma with_heap_id s : with_heap (heap s) s = s.
Proof. destruct s; reflexivity. Qed.

Lemma with_heap_with_heap h h' s : with_heap h (with_heap h' s) = with_heap h s.
Proof. reflexivity. Qed.

Lemma heap_only_unchanged {A} (m : M A) : unchanged m -> heap_only m.
Proof. intros H s. exists (heap s). rewrite H, with_heap_id. reflexivity. Qed.

Lemma heap_only_bind {A B} (m : M A) (f : A -> M B) :
  heap_only m -> (forall a, heap_only (f a)) -> heap_only (m ≫= f).
Proof.
  intros Hm Hf s. unfold mbind, M_bind, bind.
  destruct (Hm s) as [h Hh]. destruct (m s) as [s' [a| |]]; simpl in *; subst.
  - destruct (Hf a (with_heap h s)) as [h' Hh']. exists h'. rewrite Hh'. reflexivity.
  - eauto.
  - eauto.
Qed.

Lemma heap_only_modify (f : list obj -> list obj) :
  heap_only (modify (fun s => with_heap (f (heap s)) s)).
Proof. intros s. eexists. reflexivity. Qed.

Lemma heap_only_alloc b : heap_only (alloc b).
Proof. intros s. eexists. reflexivity. Qed.

Ltac heap_only_tac :=
  repeat first
    [ solve [apply heap_only_unchanged; unch]
    | apply heap_only_alloc
    | apply (heap_only_modify (fun h => <[_ := _]> h))
    | apply heap_only_bind; [|intros ?]
    | match goal with
      | |- heap_only (match ?x with _ => _ end) => destruct x
      end ].

Lemma heap_only_store_props l b : heap_only (store_props l b).
Proof. unfold store_props. heap_only_tac. Qed.

Lemma heap_only_store_coll l b : heap_only (store_coll l b).
Proof. unfold store_coll. heap_only_tac. Qed.

Lemma heap_only_mark_frozen g l : heap_only (mark_frozen g l).
Proof. unfold mark_frozen. heap_only_tac. Qed.

Lemma heap_only_copy_write d p v : heap_only (copy_write d p v).
Proof.
  unfold copy_write. heap_only_tac; apply heap_only_store_props.
Qed.

Lemma heap_only_delete_at l p : heap_only (delete_at l p).
Proof. unfold delete_at. heap_only_tac; apply heap_only_store_props. Qed.

Lemma heap_only_copy_delete d p : heap_only (copy_delete d p).
Proof. unfold copy_delete. heap_only_tac; apply heap_only_delete_at. Qed.

Lemma heap_only_map_copy_update d f : heap_only (map_copy_update d f).
Proof. unfold map_copy_update. heap_only_tac; apply heap_only_store_coll. Qed.

Lemma heap_only_set_copy_update d f : heap_only (set_copy_update d f).
Proof. unfold set_copy_update. heap_only_tac; apply heap_only_store_coll. Qed.

(** An invariant that does not look at the heap is kept by a computation
    that writes to the heap only. *)
Lemma keeps_heap_only {A} (I : state -> Prop) (m : M A) :
  heap_blind I -> heap_only m -> keeps I m.
Proof. intros HI Hm s Hs. destruct (Hm s) as [h ->]. apply HI, Hs. Qed.

(** What [update_state] and [createProxy] leave behind. *)
Lemma update_state_fst d f s :
  fst (update_state d f s)
  = match drafts s !! d with
    | Some st => with_drafts (<[d := f st]> (drafts s)) s
    | None => s
    end.
Proof.
  unfold update_state, get_state, mbind, M_bind, bind.
  destruct (drafts s !! d); reflexivity.
Qed.

Lemma install_copy_fst d b s :
  fst (install_copy d b s)
  = match drafts s !! d with
    | Some st =>
        with_drafts (<[d := st_copy (Some (length (heap s))) st]> (drafts s))
          (with_heap (heap s ++ [Obj b false false]) s)
    | None => with_heap (heap s ++ [Obj b false false]) s
    end.
Proof.
  unfold install_copy, mbind, M_bind, bind, alloc. simpl.
  rewrite update_state_fst. reflexivity.
Qed.

(** [createProxy] with a parent either fails at once or appends one state
    record and pushes its number on the list of the parent's scope. *)
Lemma createProxy_fst v p s :
  fst (createProxy v (Some p) s) = s
  \/ exists base b stp sc ds,
       v = VRef base /\ body_of (heap s) base = Some b
       /\ drafts s !! p = Some stp
       /\ scopes s !! scope_ stp = Some sc /\ sdrafts_ sc = Some ds
       /\ fst (createProxy v (Some p) s)
          = with_scopes
              (<[scope_ stp := sc_drafts (Some (ds ++ [length (drafts s)])) sc]> (scopes s))
              (with_drafts
                 (drafts s ++ [new_state (body_archtype b) base (Some p) (scope_ stp)]) s).
Proof.
  unfold createProxy. destruct v as [pr|base|d|bi]; try (left; reflexivity).
  unfold body_at, heap_lookup, get_state, get_scope, mbind, M_bind, bind, body_of.
  destruct (heap s !! base) as [o|] eqn:Eo; [|left; reflexivity]. simpl.
  destruct (drafts s !! p) as [stp|] eqn:Ep; [|left; reflexivity]. simpl.
  destruct (scopes s !! scope_ stp) as [sc|] eqn:Esc; [|left; reflexivity]. simpl.
  destruct (sdrafts_ sc) as [ds|] eqn:Eds; [|left; reflexivity]. simpl.
  right. exists base, (o_body o), stp, sc, ds.
  repeat split; try assumption.
  - rewrite Eo. reflexivity.
  - unfold update_scope, get_scope, mbind, M_bind, bind. simpl. rewrite Esc. reflexivity.
Qed.

(** * The modified flag and the parent links *)

Lemma Tree_heap_blind : heap_blind Tree.
Proof. intros h s H. exact H. Qed.

Lemma is_modified_update d f s x st :
  drafts s !! d = Some st ->
  (modified_ st = true -> modified_ (f st) = true) ->
  is_modified s x ->
  is_modified (with_drafts (<[d := f st]> (drafts s)) s) x.
Proof.
  intros Hd Hf (stx & Hx & Hm). unfold is_modified. simpl.
  destruct (decide (x = d)) as [E|Hne]; [subst x|].
  - exists (f st). rewrite list_lookup_insert_eq by (eapply lookup_lt_Some; eauto).
    split; [reflexivity|]. apply Hf. congruence.
  - exists stx. rewrite list_lookup_insert_ne by congruence. auto.
Qed.

(** A write to a state record that leaves its parent link and its flag
    alone keeps the tree. *)
Lemma Tree_update_state d f :
  (forall st, parent_ (f st) = parent_ st /\ modified_ (f st) = modified_ st) ->
  keeps Tree (update_state d f).
Proof.
  intros Hf s [Ho Hm]. rewrite update_state_fst.
  destruct (drafts s !! d) as [st|] eqn:Hd; [|split; assumption].
  split.
  - intros d' st' p. simpl. intros Hl Hp.
    destruct (decide (d' = d)) as [E|Hne]; [subst d'|].
    + rewrite list_lookup_insert_eq in Hl by (eapply lookup_lt_Some; eauto).
      inversion Hl; subst. rewrite (proj1 (Hf st)) in Hp. eapply Ho; eauto.
    + rewrite list_lookup_insert_ne in Hl by congruence. eapply Ho; eauto.
  - intros d' st' p. simpl. intros Hl Hmod Hp.
    apply is_modified_update; [assumption | intros E; rewrite (proj2 (Hf st)); exact E |].
    destruct (decide (d' = d)) as [E|Hne]; [subst d'|].
    + rewrite list_lookup_insert_eq in Hl by (eapply lookup_lt_Some; eauto).
      inversion Hl; subst. rewrite (proj1 (Hf st)) in Hp. rewrite (proj2 (Hf st)) in Hmod.
      eapply Hm; eauto.
    + rewrite list_lookup_insert_ne in Hl by congruence. eapply Hm; eauto.
Qed.

Lemma Tree_set_assigned d g : keeps Tree (set_assigned d g).
Proof. apply Tree_update_state. intros st. split; reflexivity. Qed.

Lemma Tree_set_drafts d g : keeps Tree (set_drafts d g).
Proof. apply Tree_update_state. intros st. split; reflexivity. Qed.

Lemma Tree_alloc b : keeps Tree (alloc b).
Proof. apply keeps_heap_only; [apply Tree_heap_blind | apply heap_only_alloc]. Qed.

Lemma Tree_install_copy d b : keeps Tree (install_copy d b).
Proof.
  unfold install_copy. apply keeps_bind; [apply Tree_alloc | intros c].
  apply Tree_update_state. intros st. split; reflexivity.
Qed.

(** A new draft is unmodified and younger than its parent. *)
Lemma Tree_append s t base p c :
  Tree s ->
  (forall q, p = Some q -> q < length (drafts s)) ->
  Tree (with_drafts (drafts s ++ [new_state t base p c]) s).
Proof.
  intros [Ho Hm] Hp. split.
  - intros d st q. simpl. intros Hl Hq.
    destruct (decide (d < length (drafts s))) as [Hlt|Hge].
    + rewrite lookup_app_l in Hl by assumption. eapply Ho; eauto.
    + rewrite lookup_app_r in Hl by lia.
      destruct (d - length (drafts s)) eqn:E; simpl in Hl; [|discriminate].
      inversion Hl; subst. simpl in Hq. specialize (Hp q Hq). lia.
  - intros d st q. simpl. intros Hl Hmod Hq.
    destruct (decide (d < length (drafts s))) as [Hlt|Hge].
    + rewrite lookup_app_l in Hl by assumption.
      destruct (Hm d st q Hl Hmod Hq) as (stq & Hlq & Hmq).
      exists stq. split; [|assumption]. simpl.
      rewrite lookup_app_l by (eapply lookup_lt_Some; eauto). assumption.
    + rewrite lookup_app_r in Hl by lia.
      destruct (d - length (drafts s)) eqn:E; simpl in Hl; [|discriminate].
      inversion Hl; subst. discriminate.
Qed.

Lemma Tree_createProxy v p : keeps Tree (createProxy v (Some p)).
Proof.
  intros s Hs. destruct (createProxy_fst v p s) as [->|H]; [assumption|].
  destruct H as (base & b & stp & sc & ds & _ & _ & Hp & _ & _ & ->).
  apply (Tree_append s _ _ _ _ Hs). intros q Hq. inversion Hq; subst.
  eapply lookup_lt_Some; eauto.
Qed.

(** The climb of [markChanged]: while it is at [x], the drafts whose parent
    is [x] are the only ones that may be modified below an unmodified
    parent. *)
Lemma Tree_markChanged_from fuel x s :
  parents_older s ->
  (forall d st p,
      drafts s !! d = Some st -> modified_ st = true -> parent_ st = Some p ->
      is_modified s p \/ p = x) ->
  x < fuel ->
  x < length (drafts s) \/ Tree s ->
  Tree (fst (markChanged_from fuel x s)).
Proof.
  revert x s. induction fuel as [|f IH]; intros x s Ho Hm Hx Hex; [lia|].
  simpl. unfold mbind, M_bind, bind, get_state.
  destruct (drafts s !! x) as [st|] eqn:Hst.
  - destruct (modified_ st) eqn:Hmod.
    + simpl. split; [assumption|]. intros d st' p Hl Hm' Hp.
      destruct (Hm d st' p Hl Hm' Hp) as [H| ->]; [assumption|].
      exists st. auto.
    + pose proof (update_state_fst x (st_modified true) s) as Hu.
      rewrite Hst in Hu.
      destruct (update_state x (st_modified true) s) as [s1 [[]| |]] eqn:Eu;
        simpl in Hu; subst s1.
      2,3: (unfold update_state, get_state, mbind, M_bind, bind in Eu;
            rewrite Hst in Eu; discriminate).
      set (s1 := with_drafts (<[x := st_modified true st]> (drafts s)) s).
      assert (Ho1 : parents_older s1).
      { intros d st' p. simpl. intros Hl Hp.
        destruct (decide (d = x)) as [E|Hne]; [subst d|].
        - rewrite list_lookup_insert_eq in Hl by (eapply lookup_lt_Some; eauto).
          inversion Hl; subst. eapply Ho; eauto.
        - rewrite list_lookup_insert_ne in Hl by congruence. eapply Ho; eauto. }
      assert (Hx1 : is_modified s1 x).
      { exists (st_modified true st). simpl.
        rewrite list_lookup_insert_eq by (eapply lookup_lt_Some; eauto). auto. }
      assert (Hm1 : forall d st' p,
                 drafts s1 !! d = Some st' -> modified_ st' = true ->
                 parent_ st' = Some p ->
                 is_modified s1 p \/ (d = x /\ parent_ st = Some p)).
      { intros d st' p. simpl. intros Hl Hm' Hp.
        destruct (decide (d = x)) as [E|Hne]; [subst d|].
        - rewrite list_lookup_insert_eq in Hl by (eapply lookup_lt_Some; eauto).
          inversion Hl; subst. right. auto.
        - rewrite list_lookup_insert_ne in Hl by congruence. left.
          destruct (Hm d st' p Hl Hm' Hp) as [H| ->]; [|assumption].
          apply is_modified_update; auto. }
      destruct (parent_ st) as [p|] eqn:Hp.
      * apply IH.
        -- assumption.
        -- intros d st' q Hl Hm' Hq.
           destruct (Hm1 d st' q Hl Hm' Hq) as [H|[_ H]]; [left; assumption|].
           right. congruence.
        -- specialize (Ho x st p Hst Hp). lia.
        -- left. simpl. rewrite length_insert.
           specialize (Ho x st p Hst Hp).
           pose proof (lookup_lt_Some _ _ _ Hst). lia.
      * simpl. split; [assumption|].
        intros d st' q Hl Hm' Hq.
        destruct (Hm1 d st' q Hl Hm' Hq) as [H|[_ H]]; [assumption|discriminate].
  - simpl. destruct Hex as [Hlt|Ht]; [|assumption].
    apply lookup_ge_None in Hst. lia.
Qed.

Lemma Tree_markChanged d : keeps Tree (markChanged d).
Proof.
  intros s [Ho Hm]. unfold markChanged. apply Tree_markChanged_from.
  - assumption.
  - intros d' st p Hl Hm' Hp. left. eapply Hm; eauto.
  - lia.
  - right. split; assumption.
Qed.

Lemma Tree_copy_write d p v : keeps Tree (copy_write d p v).
Proof. apply keeps_heap_only; [apply Tree_heap_blind | apply heap_only_copy_write]. Qed.

Lemma Tree_copy_delete d p : keeps Tree (copy_delete d p).
Proof. apply keeps_heap_only; [apply Tree_heap_blind | apply heap_only_copy_delete]. Qed.

Lemma Tree_map_copy_update d f : keeps Tree (map_copy_update d f).
Proof. apply keeps_heap_only; [apply Tree_heap_blind | apply heap_only_map_copy_update]. Qed.

Lemma Tree_set_copy_update d f : keeps Tree (set_copy_update d f).
Proof. apply keeps_heap_only; [apply Tree_heap_blind | apply heap_only_set_copy_update]. Qed.

Lemma Tree_run_call c : keeps Tree (run_call c).
Proof.
  apply keeps_run_call;
    auto using Tree_alloc, Tree_install_copy, Tree_copy_write, Tree_copy_delete,
      Tree_map_copy_update, Tree_set_copy_update, Tree_set_assigned, Tree_set_drafts,
      Tree_createProxy, Tree_markChanged.
Qed.

Lemma Tree_ancestors s : Tree s -> ancestors_modified s.
Proof.
  intros [Ho Hm] d a Hd Ha. revert Hd.
  induction Ha as [d st p Hl Hp | d st p a Hl Hp Ha IH]; intros (st' & Hl' & Hmod).
  - rewrite Hl in Hl'. inversion Hl'; subst. eapply Hm; eauto.
  - rewrite Hl in Hl'. inversion Hl'; subst. apply IH. eapply Hm; eauto.
Qed.

(** The store after [enterScope] and the creation of the root draft. *)
Lemma begin_fst immer base s s1 scope proxy :
  begin immer base s = (s1, Ok (scope, proxy)) ->
  exists l b,
    base = VRef l /\ body_of (heap s) l = Some b
    /\ scope = length (scopes s) /\ proxy = VDraft (length (drafts s))
    /\ s1 = {| heap := heap s;
               drafts := drafts s ++ [new_state (body_archtype b) l None scope];
               scopes := scopes s
                         ++ [sc_drafts (Some [length (drafts s)])
                               (createScope (currentScope s) immer)];
               currentScope := Some scope;
               delivered := delivered s |}.
Proof.
  unfold begin, enterScope, createProxy, mbind, M_bind, bind. simpl.
  destruct base as [pr|l|d|bi]; try discriminate.
  unfold body_at, heap_lookup, mbind, M_bind, bind, body_of. simpl.
  destruct (heap s !! l) as [o|] eqn:Eo; [|discriminate]. simpl.
  unfold get_scope. simpl.
  rewrite lookup_app_r by lia. rewrite Nat.sub_diag. simpl.
  unfold update_scope, get_scope, mbind, M_bind, bind. simpl.
  rewrite lookup_app_r by lia. rewrite Nat.sub_diag. simpl.
  intros H. inversion H; subst. exists l, (o_body o).
  repeat split.
  - rewrite Eo. reflexivity.
  - unfold with_scopes, with_drafts, with_currentScope. simpl. f_equal.
    rewrite insert_app_r_alt by lia. rewrite Nat.sub_diag. reflexivity.
Qed.

(** C5.  From the store in which a recipe starts, whatever calls the recipe
    makes, in every store it brings about: if a draft is modified, every
    draft met on the way from it to the root along the parent links is
    modified. *)
Theorem C5_modified_reaches_ancestors
    (immer : Immer) (base : jsval) (s0 s1 s : state) (scope : sid) (proxy : jsval) :
  drafts s0 = [] ->
  begin immer base s0 = (s1, Ok (scope, proxy)) ->
  reachable s1 s ->
  ancestors_modified s.
Proof.
  intros H0 Hb Hr. apply Tree_ancestors.
  refine (keeps_reachable Tree _ _ _ _ _ _ _ _ _ _ s1 s _ Hr);
    auto using Tree_alloc, Tree_install_copy, Tree_copy_write, Tree_copy_delete,
      Tree_map_copy_update, Tree_set_copy_update, Tree_set_assigned, Tree_set_drafts,
      Tree_createProxy, Tree_markChanged.
  destruct (begin_fst _ _ _ _ _ _ Hb) as (l & b & _ & _ & _ & _ & ->).
  rewrite H0. split.
  - intros d st p. simpl. destruct d; simpl; [|discriminate].
    intros E; inversion E; subst. discriminate.
  - intros d st p. simpl. destruct d; simpl; [|discriminate].
    intros E; inversion E; subst. discriminate.
Qed.

Lemma C5_modified_reaches_ancestors_witness :
  ancestors_modified
    (fst (run_call (CSet 1 (KStr "x") (VNum 9))
       (fst (run_call (CGet (VDraft 0) (KStr "a"))
          (fst (begin default_immer (VRef 0) (store_of rewrite_base))))))).
Proof.
  apply (C5_modified_reaches_ancestors default_immer (VRef 0) (store_of rewrite_base)
           (fst (begin default_immer (VRef 0) (store_of rewrite_base))) _ 0 (VDraft 0)).
  - reflexivity.
  - vm_compute. reflexivity.
  - apply reachable_call. apply reachable_call. apply reachable_start.
Defined.

(** * What a recipe keeps of the scope, of the flags and of the heap *)

Lemma keeps_markChanged_from (I : state -> Prop) fuel d :
  (forall x, keeps I (update_state x (st_modified true))) ->
  keeps I (markChanged_from fuel d).
Proof.
  intros H. revert d. induction fuel as [|f IH]; intros d; simpl.
  - apply keeps_unchanged. unch.
  - apply keeps_bind; [apply keeps_unchanged; unch | intros st].
    destruct (modified_ st); [apply keeps_unchanged; unch|].
    apply keeps_bind; [apply H | intros _].
    destruct (parent_ st); [apply IH | apply keeps_unchanged; unch].
Qed.

(** ** The scope of the run *)

Lemma Live_heap_blind c0 sc0 : heap_blind (Live c0 sc0).
Proof. intros h s H. exact H. Qed.

Lemma Live_update_state c0 sc0 d f :
  (forall st, scope_ (f st) = scope_ st /\ revoked_ (f st) = revoked_ st) ->
  keeps (Live c0 sc0) (update_state d f).
Proof.
  intros Hf s [Hsc Hd]. rewrite update_state_fst.
  destruct (drafts s !! d) as [st|] eqn:Hst; [|split; assumption].
  split; simpl.
  - rewrite length_insert. exact Hsc.
  - intros d' st' Hl.
    destruct (decide (d' = d)) as [E|Hne]; [subst d'|].
    + rewrite list_lookup_insert_eq in Hl by (eapply lookup_lt_Some; eauto).
      inversion Hl; subst. destruct (Hf st) as [-> ->]. eapply Hd; eauto.
    + rewrite list_lookup_insert_ne in Hl by congruence. eapply Hd; eauto.
Qed.

Lemma Live_createProxy c0 sc0 v p : keeps (Live c0 sc0) (createProxy v (Some p)).
Proof.
  intros s Hs. destruct (createProxy_fst v p s) as [->|H]; [assumption|].
  destruct H as (base & b & stp & sc & ds & _ & _ & Hp & Hsc & Hds & ->).
  destruct Hs as [Hc Hd].
  destruct (Hd p stp Hp) as [Hscope Hrev]. rewrite Hscope in *.
  rewrite Hc in Hsc. inversion Hsc; subst sc. simpl in Hds. inversion Hds; subst ds.
  split; simpl.
  - rewrite list_lookup_insert_eq by (eapply lookup_lt_Some; eauto).
    rewrite length_app. simpl. rewrite Nat.add_1_r, seq_S. reflexivity.
  - intros d st Hl.
    destruct (decide (d < length (drafts s))) as [Hlt|Hge].
    + rewrite lookup_app_l in Hl by assumption. eapply Hd; eauto.
    + rewrite lookup_app_r in Hl by lia.
      destruct (d - length (drafts s)) eqn:E; simpl in Hl; [|discriminate].
      inversion Hl; subst. split; reflexivity.
Qed.

Lemma Live_run_call c0 sc0 c : keeps (Live c0 sc0) (run_call c).
Proof.
  apply keeps_run_call; intros;
    try (apply keeps_heap_only;
         [apply Live_heap_blind
         | first [apply heap_only_alloc | apply heap_only_copy_write
                 | apply heap_only_copy_delete | apply heap_only_map_copy_update
                 | apply heap_only_set_copy_update]]).
  - unfold install_copy. apply keeps_bind; [|intros c'].
    + apply keeps_heap_only; [apply Live_heap_blind | apply heap_only_alloc].
    + apply Live_update_state. intros st; split; reflexivity.
  - apply Live_update_state. intros st; split; reflexivity.
  - apply Live_update_state. intros st; split; reflexivity.
  - apply Live_createProxy.
  - apply keeps_markChanged_from. intros x.
    apply Live_update_state. intros st; split; reflexivity.
Qed.

Lemma Live_run_script c0 sc0 sc : keeps (Live c0 sc0) (run_script sc).
Proof.
  induction sc as [v| |c k IH]; simpl.
  - apply keeps_unchanged; unch.
  - apply keeps_unchanged; unch.
  - apply keeps_bind; [apply Live_run_call | exact IH].
Qed.

(** ** The flags under a recipe that only reads *)

Lemma Unmodified_heap_blind : heap_blind Unmodified.
Proof. intros h s H. exact H. Qed.

Lemma Unmodified_update_state d f :
  (forall st, modified_ (f st) = modified_ st) ->
  keeps Unmodified (update_state d f).
Proof.
  intros Hf s Hs. rewrite update_state_fst.
  destruct (drafts s !! d) as [st|] eqn:Hst; [|assumption].
  intros d' st'. simpl. intros Hl.
  destruct (decide (d' = d)) as [E|Hne]; [subst d'|].
  - rewrite list_lookup_insert_eq in Hl by (eapply lookup_lt_Some; eauto).
    inversion Hl; subst. rewrite Hf. eapply Hs; eauto.
  - rewrite list_lookup_insert_ne in Hl by congruence. eapply Hs; eauto.
Qed.

Lemma Unmodified_createProxy v p : keeps Unmodified (createProxy v (Some p)).
Proof.
  intros s Hs. destruct (createProxy_fst v p s) as [->|H]; [assumption|].
  destruct H as (base & b & stp & sc & ds & _ & _ & _ & _ & _ & ->).
  intros d st. simpl. intros Hl.
  destruct (decide (d < length (drafts s))) as [Hlt|Hge].
  - rewrite lookup_app_l in Hl by assumption. eapply Hs; eauto.
  - rewrite lookup_app_r in Hl by lia.
    destruct (d - length (drafts s)) eqn:E; simpl in Hl; [|discriminate].
    inversion Hl; subst. reflexivity.
Qed.

Lemma Unmodified_run_script sc : readonly sc -> keeps Unmodified (run_script sc).
Proof.
  apply keeps_run_script_readonly; intros;
    try (apply keeps_heap_only;
         [apply Unmodified_heap_blind
         | first [apply heap_only_alloc | apply heap_only_copy_write
                 | apply heap_only_map_copy_update | apply heap_only_set_copy_update]]).
  - unfold install_copy. apply keeps_bind; [|intros c'].
    + apply keeps_heap_only; [apply Unmodified_heap_blind | apply heap_only_alloc].
    + apply Unmodified_update_state. intros st; reflexivity.
  - apply Unmodified_update_state. intros st; reflexivity.
  - apply Unmodified_update_state. intros st; reflexivity.
  - apply Unmodified_createProxy.
Qed.

(** * The objects that were there before the run *)

Section KeptInvariant.
Variable R : obj -> obj -> Prop.
Variable h0 : list obj.

Lemma old_kept_length h : old_kept R h0 h -> length h0 <= length h.
Proof.
  intros H. destruct (decide (length h0 = 0)) as [E|E]; [lia|].
  destruct (lookup_lt_is_Some_2 h0 (length h0 - 1)) as [o Ho]; [lia|].
  destruct (H _ _ Ho) as (o' & Ho' & _). apply lookup_lt_Some in Ho'. lia.
Qed.

Lemma old_kept_app h x : old_kept R h0 h -> old_kept R h0 (h ++ x).
Proof.
  intros H l o Ho. destruct (H l o Ho) as (o' & Ho' & E).
  exists o'. split; [|exact E]. rewrite lookup_app_l; [exact Ho'|].
  eapply lookup_lt_Some; eauto.
Qed.

Lemma old_kept_insert h l o :
  old_kept R h0 h -> length h0 <= l -> old_kept R h0 (<[l := o]> h).
Proof.
  intros H Hl l' o' Ho'. destruct (H l' o' Ho') as (o'' & Ho'' & E).
  exists o''. split; [|exact E]. rewrite list_lookup_insert_ne; [exact Ho''|].
  apply lookup_lt_Some in Ho'. lia.
Qed.


(** [aux_only m]: the computation leaves the heap and the drafts as they
    are. *)
Lemma Kept_aux_only {A} (m : M A) :
  (forall s, heap (fst (m s)) = heap s /\ drafts (fst (m s)) = drafts s) ->
  keeps (Kept R h0) m.
Proof.
  intros H s [Hb Hc]. destruct (H s) as [Eh Ed]. split.
  - rewrite Eh. exact Hb.
  - intros d st c. rewrite Ed. apply Hc.
Qed.

Lemma Kept_alloc b : keeps (Kept R h0) (alloc b).
Proof.
  intros s [Hb Hc]. split; simpl.
  - apply old_kept_app, Hb.
  - exact Hc.
Qed.

Lemma Kept_store_props l b : length h0 <= l -> keeps (Kept R h0) (store_props l b).
Proof.
  intros Hl s [Hb Hc]. unfold store_props, heap_lookup, mbind, M_bind, bind.
  destruct (heap s !! l) as [o|]; [|split; assumption].
  destruct (o_frozen o); [split; assumption|].
  split; simpl; [apply old_kept_insert; assumption | exact Hc].
Qed.

Lemma Kept_store_coll l b : length h0 <= l -> keeps (Kept R h0) (store_coll l b).
Proof.
  intros Hl s [Hb Hc]. unfold store_coll, heap_lookup, mbind, M_bind, bind.
  destruct (heap s !! l) as [o|]; [|split; assumption].
  destruct (o_guarded o); [split; assumption|].
  split; simpl; [apply old_kept_insert; assumption | exact Hc].
Qed.

Lemma Kept_update_state d f :
  (forall st, copy_ (f st) = copy_ st) -> keeps (Kept R h0) (update_state d f).
Proof.
  intros Hf s [Hb Hc]. rewrite update_state_fst.
  destruct (drafts s !! d) as [st|] eqn:Hst; [|split; assumption].
  split; [exact Hb|].
  intros d' st' c. simpl. intros Hl Hcopy.
  destruct (decide (d' = d)) as [E|Hne]; [subst d'|].
  - rewrite list_lookup_insert_eq in Hl by (eapply lookup_lt_Some; eauto).
    inversion Hl; subst. rewrite Hf in Hcopy. eapply Hc; eauto.
  - rewrite list_lookup_insert_ne in Hl by congruence. eapply Hc; eauto.
Qed.

Lemma Kept_install_copy d b : keeps (Kept R h0) (install_copy d b).
Proof.
  intros s [Hb Hc]. rewrite install_copy_fst.
  pose proof (old_kept_length _ Hb) as Hlen.
  destruct (drafts s !! d) as [st|] eqn:Hst.
  - split; simpl; [apply old_kept_app, Hb|].
    intros d' st' c. simpl. intros Hl Hcopy.
    destruct (decide (d' = d)) as [E|Hne]; [subst d'|].
    + rewrite list_lookup_insert_eq in Hl by (eapply lookup_lt_Some; eauto).
      inversion Hl; subst. simpl in Hcopy. inversion Hcopy; subst. exact Hlen.
    + rewrite list_lookup_insert_ne in Hl by congruence. eapply Hc; eauto.
  - split; simpl; [apply old_kept_app, Hb | exact Hc].
Qed.

(** The copy of a draft is not one of the old objects. *)
Lemma Kept_copy_loc d s s' c :
  Kept R h0 s -> copy_loc d s = (s', Ok c) -> length h0 <= c.
Proof.
  intros [Hb Hc]. unfold copy_loc, get_state, mbind, M_bind, bind.
  destruct (drafts s !! d) as [st|] eqn:Hst; [|discriminate].
  destruct (copy_ st) as [c'|] eqn:Hcopy; [|discriminate].
  intros E. inversion E; subst. eapply Hc; eauto.
Qed.

(** A computation that starts by looking up the copy of a draft. *)
Lemma Kept_on_copy {A} d (k : loc -> M A) :
  (forall c, length h0 <= c -> keeps (Kept R h0) (k c)) ->
  keeps (Kept R h0) (copy_loc d ≫= k).
Proof.
  intros Hk s Hs. unfold mbind, M_bind, bind.
  destruct (copy_loc d s) as [s' [c| |]] eqn:E;
    pose proof (unchanged_copy_loc d s) as Hu; rewrite E in Hu; simpl in Hu; subst s'.
  - apply Hk; [|exact Hs]. eapply Kept_copy_loc; eauto.
  - exact Hs.
  - exact Hs.
Qed.

Lemma Kept_copy_write d p v : keeps (Kept R h0) (copy_write d p v).
Proof.
  unfold copy_write. apply Kept_on_copy. intros c Hc.
  apply keeps_bind; [apply keeps_unchanged; unch | intros b].
  destruct (write_prop b p v); [apply Kept_store_props, Hc | apply keeps_unchanged; unch].
Qed.

Lemma Kept_delete_at l p : length h0 <= l -> keeps (Kept R h0) (delete_at l p).
Proof.
  intros Hl. unfold delete_at.
  apply keeps_bind; [apply keeps_unchanged; unch | intros b].
  destruct (delete_prop b p); [apply Kept_store_props, Hl | apply keeps_unchanged; unch].
Qed.

Lemma Kept_copy_delete d p : keeps (Kept R h0) (copy_delete d p).
Proof.
  intros s Hs. unfold copy_delete, get_state, mbind, M_bind, bind.
  destruct (drafts s !! d) as [st|] eqn:Hst; [|exact Hs].
  destruct (copy_ st) as [c|] eqn:Hc; [|exact Hs].
  apply Kept_delete_at; [|exact Hs]. destruct Hs as [_ Hf]. eapply Hf; eauto.
Qed.

Lemma Kept_map_copy_update d f : keeps (Kept R h0) (map_copy_update d f).
Proof.
  unfold map_copy_update. apply Kept_on_copy. intros c Hc.
  apply keeps_bind; [apply keeps_unchanged; unch | intros b].
  apply Kept_store_coll, Hc.
Qed.

Lemma Kept_set_copy_update d f : keeps (Kept R h0) (set_copy_update d f).
Proof.
  unfold set_copy_update. apply Kept_on_copy. intros c Hc.
  apply keeps_bind; [apply keeps_unchanged; unch | intros b].
  apply Kept_store_coll, Hc.
Qed.

Lemma Kept_set_assigned d g : keeps (Kept R h0) (set_assigned d g).
Proof. apply Kept_update_state. reflexivity. Qed.

Lemma Kept_set_drafts d g : keeps (Kept R h0) (set_drafts d g).
Proof. apply Kept_update_state. reflexivity. Qed.

Lemma Kept_update_scope c f : keeps (Kept R h0) (update_scope c f).
Proof.
  apply Kept_aux_only. intros s. unfold update_scope, get_scope, mbind, M_bind, bind.
  destruct (scopes s !! c); split; reflexivity.
Qed.

Lemma Kept_createProxy v p : keeps (Kept R h0) (createProxy v p).
Proof.
  destruct p as [p|].
  - intros s Hs. destruct (createProxy_fst v p s) as [->|H]; [assumption|].
    destruct H as (base & b & stp & sc & ds & _ & _ & _ & _ & _ & ->).
    destruct Hs as [Hb Hc]. split; [exact Hb|].
    intros d st c. simpl. intros Hl Hcopy.
    destruct (decide (d < length (drafts s))) as [Hlt|Hge].
    + rewrite lookup_app_l in Hl by assumption. eapply Hc; eauto.
    + rewrite lookup_app_r in Hl by lia.
      destruct (d - length (drafts s)) eqn:E; simpl in Hl; [|discriminate].
      inversion Hl; subst. discriminate.
  - intros s [Hb Hc]. unfold createProxy. destruct v as [pr|base|d|bi]; try (split; assumption).
    unfold body_at, heap_lookup, getCurrentScope, get_scope, mbind, M_bind, bind, gets.
    destruct (heap s !! base) as [o|]; [|split; assumption]. simpl.
    destruct (currentScope s) as [c|]; [|split; assumption]. simpl.
    destruct (scopes s !! c) as [sc|] eqn:Esc; [|split; assumption]. simpl.
    destruct (sdrafts_ sc) as [ds|]; [|split; assumption]. simpl.
    unfold update_scope, get_scope, mbind, M_bind, bind. simpl. rewrite Esc. simpl.
    split; [exact Hb|].
    intros d' st c'. simpl. intros Hl Hcopy.
    destruct (decide (d' < length (drafts s))) as [Hlt|Hge].
    + rewrite lookup_app_l in Hl by assumption. eapply Hc; eauto.
    + rewrite lookup_app_r in Hl by lia.
      destruct (d' - length (drafts s)) eqn:E; simpl in Hl; [|discriminate].
      inversion Hl; subst. discriminate.
Qed.

Lemma Kept_markChanged d : keeps (Kept R h0) (markChanged d).
Proof.
  apply keeps_markChanged_from. intros x. apply Kept_update_state. reflexivity.
Qed.

Lemma Kept_run_call c : keeps (Kept R h0) (run_call c).
Proof.
  apply keeps_run_call;
    auto using Kept_alloc, Kept_install_copy, Kept_copy_write, Kept_copy_delete,
      Kept_map_copy_update, Kept_set_copy_update, Kept_set_assigned, Kept_set_drafts,
      Kept_createProxy, Kept_markChanged.
Qed.

Lemma Kept_run_script sc : keeps (Kept R h0) (run_script sc).
Proof.
  induction sc as [v| |c k IH]; simpl.
  - apply keeps_unchanged; unch.
  - apply keeps_unchanged; unch.
  - apply keeps_bind; [apply Kept_run_call | exact IH].
Qed.

End KeptInvariant.

Lemma Kept_start R s0 : (forall o, R o o) -> drafts s0 = [] -> Kept R (heap s0) s0.
Proof.
  intros HR Hd. split.
  - intros l o Ho. exists o. auto.
  - intros d st c Hl. rewrite Hd in Hl. discriminate.
Qed.

(** * Finalization leaves the old objects as they are *)

(** A read followed by a computation that may rely on what was read. *)
Lemma keeps_bind_read {A B} (I : state -> Prop) (m : M A) (f : A -> M B) :
  unchanged m ->
  (forall s a, I s -> m s = (s, Ok a) -> I (fst (f a s))) ->
  keeps I (m ≫= f).
Proof.
  intros Hm Hf s Hs. unfold mbind, M_bind, bind.
  pose proof (Hm s) as Hu. destruct (m s) as [s' [a| |]] eqn:E; simpl in Hu; subst s';
    simpl; try exact Hs.
  apply Hf; assumption.
Qed.

Lemma body_at_Ok l s b : body_at l s = (s, Ok b) -> body_of (heap s) l = Some b.
Proof.
  unfold body_at, heap_lookup, body_of, mbind, M_bind, bind.
  destruct (heap s !! l) as [o|]; [|discriminate].
  intros E. inversion E. reflexivity.
Qed.

Lemma lookup_In {A} (l : list A) i x : l !! i = Some x -> In x l.
Proof. intros H. apply list_elem_of_In. eapply list_elem_of_lookup_2; eauto. Qed.

Lemma assoc_get_In {K V} (eqb : K -> K -> bool) k (l : list (K * V)) v :
  assoc_get eqb k l = Some v -> In v (map snd l).
Proof.
  induction l as [|[k' v'] r IH]; simpl; [discriminate|].
  destruct (eqb k k').
  - intros E. inversion E. left. reflexivity.
  - intros E. right. exact (IH E).
Qed.

Lemma own_prop_values b k v :
  own_prop b k = Some v -> isDraft v = true -> In v (body_values b).
Proof.
  destruct b as [ps|es ex|ents|es|ps|]; simpl; try discriminate.
  - intros H _. eapply assoc_get_In; eauto.
  - destruct k as [s|i].
    + destruct (String.eqb s "length").
      * intros E. inversion E; subst. discriminate.
      * intros H _. apply in_or_app. right. eapply assoc_get_In; eauto.
    + intros H _. apply in_or_app. left. eapply lookup_In; eauto.
  - intros H _. eapply assoc_get_In; eauto.
Qed.

Lemma read_prop_values b k :
  isDraft (read_prop b k) = true -> In (read_prop b k) (body_values b).
Proof.
  unfold read_prop. destruct (own_prop b k) as [v|] eqn:E.
  - apply own_prop_values with (k := k). exact E.
  - destruct (proto_lookup b k) as [[v|]|] eqn:Ep; try discriminate.
    unfold proto_lookup in Ep.
    destruct b; try discriminate; destruct k; try discriminate;
      destruct (String.eqb _ "constructor"); try (inversion Ep; subst; discriminate);
      destruct (String.eqb _ "__proto__"); discriminate.
Qed.

Lemma entry_at_values b i k v :
  entry_at b i = Some (k, v) -> In v (body_values b).
Proof.
  destruct b as [ps|es ex|ents|es|ps|]; simpl; try discriminate.
  - intros H. apply in_or_app. right.
    apply lookup_In in H. apply (in_map snd) in H. exact H.
  - destruct (es !! i) as [w|] eqn:E; simpl; [|discriminate].
    intros H. inversion H; subst. eapply lookup_In; eauto.
Qed.

Lemma each_live_held (I : state -> Prop) fuel l i (iter : jsval -> jsval -> M unit) :
  (forall k v s, I s -> held s l v -> I (fst (iter k v s))) ->
  keeps I (each_live fuel l i iter).
Proof.
  intros Hi. revert i. induction fuel as [|f IH]; intros i; simpl.
  - apply keeps_bind; [apply keeps_unchanged; auto with unch | intros b].
    destruct (entry_at b i) as [[k v]|]; apply keeps_unchanged; auto with unch.
  - apply keeps_bind_read; [auto with unch|]. intros s b Hs Hb.
    destruct (entry_at b i) as [[k v]|] eqn:E; [|exact Hs].
    revert s Hs Hb. 
    cut (forall s, I s -> body_at l s = (s, Ok b) ->
                   I (fst ((iter k v ≫= fun _ => each_live f l (S i) iter) s))).
    { intros H; exact H. }
    intros s Hs Hb. unfold mbind, M_bind, bind.
    assert (Hk : I (fst (iter k v s))).
    { apply Hi; [exact Hs|]. intros _. exists b. split; [eapply body_at_Ok; eauto|].
      eapply entry_at_values; eauto. }
    destruct (iter k v s) as [s' [[]| |]]; simpl in *; try exact Hk.
    apply IH. exact Hk.
Qed.

Lemma each_held (I : state -> Prop) fuel l (iter : jsval -> jsval -> M unit) :
  (forall k v s, I s -> held s l v -> I (fst (iter k v s))) ->
  keeps I (each fuel l iter).
Proof.
  intros Hi. unfold each.
  apply keeps_bind; [apply keeps_unchanged; auto with unch | intros b].
  destruct (body_archtype b).
  - apply keeps_forM_. intros key.
    apply keeps_bind_read; [auto with unch|]. intros s b' Hs Hb.
    apply Hi; [exact Hs|]. intros Hd. exists b'. split; [eapply body_at_Ok; eauto|].
    apply read_prop_values, Hd.
  - apply keeps_forM_. intros idx.
    apply keeps_bind_read; [auto with unch|]. intros s b' Hs Hb.
    destruct (own_prop b' (KIdx idx)) as [entry|] eqn:E; [|exact Hs].
    apply Hi; [exact Hs|]. intros Hd. exists b'. split; [eapply body_at_Ok; eauto|].
    eapply own_prop_values; eauto.
  - apply each_live_held. intros; apply Hi; assumption.
  - apply each_live_held. intros; apply Hi; assumption.
Qed.

Section KeptFinalize.
Variable R : obj -> obj -> Prop.
Variable h0 : list obj.
Hypothesis R_body : forall o o', R o o' -> o_body o' = o_body o.
Hypothesis R_frozen :
  forall o o' g, R o o' -> R o (Obj (o_body o') true (o_guarded o' || g)).
Hypothesis h0_draft_free : draft_free h0 = true.

(** Freezing changes the flags of an object, no more. *)
Lemma Kept_mark_frozen g l : keeps (Kept R h0) (mark_frozen g l).
Proof.
  intros s [Hb Hc]. unfold mark_frozen, heap_lookup, mbind, M_bind, bind.
  destruct (heap s !! l) as [o|] eqn:Ho; [|split; assumption].
  split; simpl; [|exact Hc].
  intros l' o' Ho'. destruct (Hb l' o' Ho') as (o'' & Ho'' & E).
  destruct (decide (l' = l)) as [E'|Hne]; [subst l'|].
  - eexists. rewrite list_lookup_insert_eq by (eapply lookup_lt_Some; eauto).
    split; [reflexivity|]. rewrite Ho in Ho''. inversion Ho''; subst o''.
    apply R_frozen, E.
  - exists o''. rewrite list_lookup_insert_ne by congruence. auto.
Qed.

#[local] Hint Resolve Kept_alloc Kept_install_copy Kept_copy_write Kept_copy_delete
  Kept_map_copy_update Kept_set_copy_update Kept_set_assigned Kept_set_drafts
  Kept_createProxy Kept_markChanged Kept_mark_frozen Kept_update_scope : keeps.

(** An old object holds no draft, at any time of the run. *)
Lemma old_holds_no_draft s l v :
  Kept R h0 s -> l < length h0 -> held s l v -> isDraft v = false.
Proof.
  intros [Hb _] Hl Hh. destruct (isDraft v) eqn:Hd; [|reflexivity].
  destruct (Hh Hd) as (b & Hbody & Hin).
  destruct (lookup_lt_is_Some_2 h0 l Hl) as [o Ho].
  destruct (Hb l o Ho) as (o' & Ho' & E). apply R_body in E.
  unfold body_of in Hbody. rewrite Ho' in Hbody. simpl in Hbody.
  inversion Hbody; subst b. rewrite E in Hin.
  unfold draft_free in h0_draft_free. rewrite forallb_forall in h0_draft_free.
  assert (Hino : In o h0) by (eapply lookup_In; eauto).
  specialize (h0_draft_free o Hino). rewrite forallb_forall in h0_draft_free.
  specialize (h0_draft_free v Hin). rewrite Hd in h0_draft_free. discriminate.
Qed.

Lemma Kept_freeze fuel v deep : keeps (Kept R h0) (freeze fuel v deep).
Proof.
  revert v deep. induction fuel as [|f IH]; intros v deep; simpl.
  - apply keeps_unchanged; unch.
  - keeps_tac.
Qed.

Lemma Kept_maybeFreeze fuel scope v deep :
  keeps (Kept R h0) (maybeFreeze fuel scope v deep).
Proof. unfold maybeFreeze. pose proof Kept_freeze. keeps_tac. Qed.

Lemma Kept_set_ l p v : length h0 <= l -> keeps (Kept R h0) (set_ l p v).
Proof.
  intros Hl. unfold set_.
  apply keeps_bind; [apply keeps_unchanged; unch | intros o].
  apply keeps_bind; [apply keeps_unchanged; unch | intros h].
  destruct (o_body o) eqn:E; try (apply Kept_store_coll, Hl);
    match goal with
    | |- keeps _ (match ?x with _ => _ end) =>
        destruct x; [apply Kept_store_props, Hl | apply keeps_unchanged; unch]
    end.
Qed.

Lemma Kept_proxy_get d p : keeps (Kept R h0) (proxy_get d p).
Proof. apply keeps_proxy_get; auto with keeps. Qed.

Lemma Kept_DraftMap_get d k : keeps (Kept R h0) (DraftMap_get d k).
Proof. apply keeps_DraftMap_get; auto with keeps. Qed.

Lemma Kept_DraftSet_values d : keeps (Kept R h0) (DraftSet_values d).
Proof. apply keeps_DraftSet_values; auto with keeps. Qed.

#[local] Hint Resolve Kept_proxy_get Kept_DraftMap_get Kept_DraftSet_values
  Kept_freeze Kept_maybeFreeze : keeps.

Lemma Kept_deepClonePatchValue fuel v : keeps (Kept R h0) (deepClonePatchValue fuel v).
Proof.
  revert v. induction fuel as [|f IH]; intros v; simpl.
  - apply keeps_unchanged; unch.
  - keeps_tac.
Qed.

Lemma Kept_clonePatchValueIfNeeded fuel v :
  keeps (Kept R h0) (clonePatchValueIfNeeded fuel v).
Proof.
  unfold clonePatchValueIfNeeded.
  destruct (isDraft v); [apply Kept_deepClonePatchValue | apply keeps_unchanged; unch].
Qed.

Lemma Kept_buffer_update scope b f : keeps (Kept R h0) (buffer_update scope b f).
Proof. unfold buffer_update. keeps_tac. Qed.

Lemma Kept_push scope b p : keeps (Kept R h0) (push scope b p).
Proof. apply Kept_buffer_update. Qed.

Lemma Kept_unshift scope b p : keeps (Kept R h0) (unshift scope b p).
Proof. apply Kept_buffer_update. Qed.

#[local] Hint Resolve Kept_clonePatchValueIfNeeded Kept_push Kept_unshift : keeps.

Lemma Kept_generatePatches_ fuel scope d basePath p ip :
  keeps (Kept R h0) (generatePatches_ fuel scope d basePath p ip).
Proof.
  unfold generatePatches_, generatePatchesFromAssigned, generateArrayPatches,
    generateSetPatches.
  keeps_tac.
Qed.

Lemma Kept_generateReplacementPatches_ scope b r p ip :
  keeps (Kept R h0) (generateReplacementPatches_ scope b r p ip).
Proof. unfold generateReplacementPatches_. keeps_tac. Qed.

#[local] Hint Resolve Kept_generatePatches_ Kept_generateReplacementPatches_ : keeps.

(** [finalizeProperty] writes to its target only: the copy of a draft, or
    an object that holds a draft. *)
Lemma Kept_finalizeProperty_with fin fuel rootScope parentState target prop cv rootPath
    isSet s :
  (forall v p, keeps (Kept R h0) (fin v p)) ->
  Kept R h0 s ->
  length h0 <= target \/ (isDraft cv = false /\ isSet = false) ->
  Kept R h0 (fst (finalizeProperty_with fin fuel rootScope parentState target prop cv
                    rootPath isSet s)).
Proof.
  intros Hfin Hs Hor. revert s Hs.
  change (keeps (Kept R h0) (finalizeProperty_with fin fuel rootScope parentState target
                               prop cv rootPath isSet)).
  unfold finalizeProperty_with.
  destruct (strict_eq cv (VRef target)); [apply keeps_unchanged; unch|].
  apply keeps_bind.
  - destruct (isDraft cv) eqn:Hd.
    + destruct Hor as [Hl|[H _]]; [|discriminate].
      pose proof (fun p v => Kept_set_ target p v Hl). keeps_tac.
    + destruct isSet.
      * destruct Hor as [Hl|[_ H]]; [|discriminate].
        pose proof (fun b => Kept_store_coll R h0 target b Hl). keeps_tac.
      * apply keeps_unchanged; unch.
  - intros proceed. keeps_tac.
Qed.

Lemma Kept_finalize fuel rootScope v path :
  keeps (Kept R h0) (finalize fuel rootScope v path).
Proof.
  revert v path. induction fuel as [|f IH]; intros v path; simpl.
  - apply keeps_unchanged; unch.
  - apply keeps_bind; [apply keeps_unchanged; unch | intros frozen].
    destruct frozen; [apply keeps_unchanged; unch|].
    destruct v as [pr|l|d|bi]; try solve [apply keeps_unchanged; unch].
    + apply keeps_bind; [|intros _; apply keeps_unchanged; unch].
      apply each_held. intros k cv s Hs Hh.
      apply Kept_finalizeProperty_with; [intros; apply IH | exact Hs |].
      destruct (le_lt_dec (length h0) l) as [Hl|Hl]; [left; exact Hl | right].
      split; [|reflexivity]. eapply old_holds_no_draft; eauto.
    + apply keeps_bind; [apply keeps_unchanged; unch | intros st].
      destruct (negb (scope_ st =? rootScope)); [apply keeps_unchanged; unch|].
      destruct (negb (modified_ st)); [keeps_tac|].
      apply keeps_bind; [|intros _; keeps_tac].
      destruct (negb (finalized_ st)); [|apply keeps_unchanged; unch].
      apply keeps_bind; [apply Kept_update_state; reflexivity | intros _].
      apply keeps_bind; [apply Kept_update_scope | intros _].
      apply Kept_on_copy. intros result Hres.
      pose proof (fun b => Kept_store_coll R h0 result b Hres).
      apply keeps_bind; [keeps_tac | intros resultEach].
      apply keeps_bind; [|intros _; keeps_tac].
      apply each_held. intros k cv s Hs Hh.
      apply Kept_finalizeProperty_with; [intros; apply IH | exact Hs | left; exact Hres].
Qed.

Lemma Kept_leaveScope scope : keeps (Kept R h0) (leaveScope scope).
Proof.
  apply Kept_aux_only. intros s. unfold leaveScope, getCurrentScope, get_scope, gets,
    mbind, M_bind, bind.
  destruct (currentScope s) as [c|]; [|split; reflexivity].
  destruct (c =? scope); [|split; reflexivity].
  destruct (scopes s !! scope); split; reflexivity.
Qed.

Lemma Kept_revokeDraft d : keeps (Kept R h0) (revokeDraft d).
Proof.
  unfold revokeDraft. apply keeps_bind; [apply keeps_unchanged; unch | intros _].
  apply Kept_update_state; reflexivity.
Qed.

#[local] Hint Resolve Kept_leaveScope Kept_revokeDraft Kept_finalize : keeps.

Lemma Kept_revokeScope scope : keeps (Kept R h0) (revokeScope scope).
Proof. unfold revokeScope. keeps_tac. Qed.

Lemma Kept_usePatchesInScope scope l : keeps (Kept R h0) (usePatchesInScope scope l).
Proof. unfold usePatchesInScope. keeps_tac. Qed.

Lemma Kept_enterScope immer : keeps (Kept R h0) (enterScope immer).
Proof. apply Kept_aux_only. intros s. split; reflexivity. Qed.

Lemma Kept_deliver f :
  keeps (Kept R h0) (modify (fun s => with_delivered (f s) s)).
Proof. apply Kept_aux_only. intros s. split; reflexivity. Qed.

#[local] Hint Resolve Kept_revokeScope Kept_usePatchesInScope Kept_enterScope
  Kept_deliver : keeps.

Lemma Kept_processResult fuel result scope :
  keeps (Kept R h0) (processResult fuel result scope).
Proof. unfold processResult. keeps_tac. Qed.

Lemma Kept_produce fuel immer base recipe listener :
  (forall v, keeps (Kept R h0) (recipe v)) ->
  keeps (Kept R h0) (produce fuel immer base recipe listener).
Proof.
  intros Hr. unfold produce. pose proof Kept_processResult.
  apply keeps_bind; [apply keeps_unchanged; unch | intros draftable].
  apply keeps_bind; [apply keeps_unchanged; unch | intros h].
  destruct draftable.
  - apply keeps_bind; [apply Kept_enterScope | intros scope].
    apply keeps_bind; [apply Kept_createProxy | intros proxy].
    apply keeps_try_finally; [apply Hr | intros [result|e]]; keeps_tac.
  - keeps_tac.
Qed.

Lemma Kept_run fuel immer base r listener :
  keeps (Kept R h0) (run fuel immer base r listener).
Proof. apply Kept_produce. intros v. apply Kept_run_script. Qed.

End KeptFinalize.

(** The two relations of the statements below: the same contents, and the
    same contents on an object that is as it was or frozen. *)
Lemma same_body_frozen o o' g :
  same_body o o' -> same_body o (Obj (o_body o') true (o_guarded o' || g)).
Proof. intros H. exact H. Qed.

Lemma frozen_since_body o o' : frozen_since o o' -> o_body o' = o_body o.
Proof. intros [H _]. exact H. Qed.

Lemma frozen_since_refl o : frozen_since o o.
Proof. split; [reflexivity|]. split; [auto | left; reflexivity]. Qed.

Lemma frozen_since_frozen o o' g :
  frozen_since o o' -> frozen_since o (Obj (o_body o') true (o_guarded o' || g)).
Proof.
  intros (Hb & Hg & _). split; [exact Hb|]. split; [|right; reflexivity].
  intros H. simpl. rewrite (Hg H). reflexivity.
Qed.

Lemma Core_run h0 fuel immer base r listener :
  draft_free h0 = true -> keeps (Core h0) (run fuel immer base r listener).
Proof.
  intros Hf. apply (Kept_run same_body h0); [auto | apply same_body_frozen | exact Hf].
Qed.

Lemma Core_start s0 : drafts s0 = [] -> Core (heap s0) s0.
Proof. apply Kept_start. intros o. reflexivity. Qed.

(** * The end of a run: leaving and revoking the scope *)

Lemma get_scope_Live c0 sc0 s :
  Live c0 sc0 s ->
  get_scope c0 s = (s, Ok (sc_drafts (Some (seq 0 (length (drafts s)))) sc0)).
Proof. intros [H _]. unfold get_scope. rewrite H. reflexivity. Qed.

Lemma update_scope_Live c0 sc0 f s :
  Live c0 sc0 s ->
  update_scope c0 f s
  = (with_scopes
       (<[c0 := f (sc_drafts (Some (seq 0 (length (drafts s)))) sc0)]> (scopes s)) s,
     Ok tt).
Proof.
  intros H. unfold update_scope. rewrite (bind_ok _ _ _ _ _ (get_scope_Live _ _ _ H)).
  reflexivity.
Qed.

Lemma Live_update_scope c0 sc0 sc1 s :
  Live c0 sc0 s ->
  Live c0 sc1
    (with_scopes (<[c0 := sc_drafts (Some (seq 0 (length (drafts s)))) sc1]> (scopes s)) s).
Proof.
  intros [H Hd]. split; simpl.
  - rewrite list_lookup_insert_eq by (eapply lookup_lt_Some; eauto). reflexivity.
  - exact Hd.
Qed.

Lemma Live_with_currentScope c0 sc0 cur s :
  Live c0 sc0 s -> Live c0 sc0 (with_currentScope cur s).
Proof. intros H. exact H. Qed.

Lemma with_currentScope_id s : with_currentScope (currentScope s) s = s.
Proof. destruct s. reflexivity. Qed.

Lemma leaveScope_Live c0 sc0 s :
  Live c0 sc0 s -> exists cur, leaveScope c0 s = (with_currentScope cur s, Ok tt).
Proof.
  intros H. unfold leaveScope, getCurrentScope, gets, mbind, M_bind, bind.
  destruct (currentScope s) as [c|] eqn:E.
  - destruct (c =? c0).
    + rewrite (get_scope_Live _ _ _ H). eexists. reflexivity.
    + exists (Some c). rewrite <- E, with_currentScope_id. reflexivity.
  - exists None. rewrite <- E, with_currentScope_id. reflexivity.
Qed.

Lemma with_drafts_id s : with_drafts (drafts s) s = s.
Proof. destruct s. reflexivity. Qed.

(** Revoking the drafts of a scope one after the other. *)
Lemma revoke_seq post pre s :
  drafts s = pre ++ post ->
  Forall (fun st => revoked_ st = false) post ->
  forM_ (seq (length pre) (length post)) revokeDraft s
  = (with_drafts (pre ++ map (st_revoked true) post) s, Ok tt).
Proof.
  revert pre s. induction post as [|st r IH]; intros pre s Hd Hr.
  - simpl. rewrite app_nil_r in *. rewrite <- Hd, with_drafts_id. reflexivity.
  - inversion Hr as [|? ? Hst Hr']; subst.
    assert (Hl : drafts s !! length pre = Some st).
    { rewrite Hd, lookup_app_r by lia. rewrite Nat.sub_diag. reflexivity. }
    assert (E1 : revokeDraft (length pre) s
                 = (with_drafts (pre ++ st_revoked true st :: r) s, Ok tt)).
    { unfold revokeDraft, state_of, update_state, get_state, mbind, M_bind, bind.
      rewrite Hl, Hst, andb_false_r. simpl. rewrite Hl. unfold modify. simpl.
      rewrite Hd. rewrite insert_app_r_alt by lia. rewrite Nat.sub_diag. reflexivity. }
    change (seq (length pre) (length (st :: r)))
      with (length pre :: seq (S (length pre)) (length r)).
    change (forM_ (length pre :: seq (S (length pre)) (length r)) revokeDraft)
      with (revokeDraft (length pre) ≫= fun _ => forM_ (seq (S (length pre)) (length r)) revokeDraft).
    rewrite (bind_ok _ _ _ _ _ E1).
    specialize (IH (pre ++ [st_revoked true st])
                  (with_drafts (pre ++ st_revoked true st :: r) s)).
    rewrite length_app in IH. simpl in IH. rewrite Nat.add_1_r in IH.
    rewrite IH; [| rewrite <- app_assoc; reflexivity | exact Hr'].
    rewrite <- app_assoc. reflexivity.
Qed.

Lemma Live_unrevoked c0 sc0 s :
  Live c0 sc0 s -> Forall (fun st => revoked_ st = false) (drafts s).
Proof.
  intros [_ H]. apply Forall_forall. intros st Hin.
  apply list_elem_of_lookup_1 in Hin.
  destruct Hin as [d Hd].
  apply (H d st Hd).
Qed.

(** [revokeScope] on the scope of a run in progress: every draft is
    revoked and the scope loses its list of drafts. *)
Lemma revokeScope_Live c0 sc0 s :
  Live c0 sc0 s ->
  exists cur,
    revokeScope c0 s
    = ({| heap := heap s; drafts := map (st_revoked true) (drafts s);
          scopes := <[c0 := sc_drafts None sc0]> (scopes s);
          currentScope := cur; delivered := delivered s |}, Ok tt).
Proof.
  intros H. destruct (leaveScope_Live _ _ _ H) as [cur E]. exists cur.
  unfold revokeScope.
  rewrite (bind_ok _ _ _ _ _ E).
  pose proof (Live_with_currentScope c0 sc0 cur s H) as H1.
  rewrite (bind_ok _ _ _ _ _ (get_scope_Live _ _ _ H1)).
  cbn [sdrafts_ sc_drafts].
  pose proof (revoke_seq (drafts s) [] (with_currentScope cur s) eq_refl
                (Live_unrevoked _ _ _ H)) as E2.
  simpl length in E2 at 1. simpl app in E2.
  change (drafts (with_currentScope cur s)) with (drafts s).
  rewrite (bind_ok _ _ _ _ _ E2).
  unfold update_scope, get_scope, mbind, M_bind, bind. simpl.
  destruct H as [Hsc _]. rewrite Hsc. reflexivity.
Qed.

(** [processResult] when the recipe modified the root draft and returned
    another value. *)
Lemma processResult_modified_replaced fuel result c0 sc0 s st :
  Live c0 sc0 s ->
  drafts s !! 0 = Some st -> modified_ st = true ->
  strict_eq result VUndef = false ->
  strict_eq result (VDraft 0) = false ->
  exists cur,
    processResult fuel result c0 s
    = ({| heap := heap s; drafts := map (st_revoked true) (drafts s);
          scopes := <[c0 := sc_drafts None
                               (sc_unfinalized (Z.of_nat (length (drafts s))) sc0)]>
                      (scopes s);
          currentScope := cur; delivered := delivered s |}, Err (Die 4)).
Proof.
  intros H Hst Hm Hu Hr.
  pose proof (Live_update_scope c0 sc0
                (sc_unfinalized (Z.of_nat (length (drafts s))) sc0) s H) as H1.
  destruct (revokeScope_Live _ _ _ H1) as [cur E]. exists cur.
  unfold processResult.
  rewrite (bind_ok _ _ _ _ _ (get_scope_Live _ _ _ H)).
  cbn [sdrafts_ sc_drafts].
  rewrite (bind_ok _ _ s s (seq 0 (length (drafts s)))) by reflexivity.
  rewrite length_seq.
  rewrite (bind_ok _ _ _ _ _ (update_scope_Live _ _ _ _ H)).
  destruct (drafts s) as [|st0 ds] eqn:Ed; [discriminate|].
  simpl in Hst. inversion Hst; subst st0.
  cbn [length seq].
  match goal with |- (?m ≫= ?f) ?s1 = _ => rewrite (bind_ok m f s1 s1 0) by reflexivity end.
  cbv beta zeta. rewrite Hu, Hr. cbn [negb andb].
  match goal with |- (?m ≫= ?f) ?s1 = _ =>
    rewrite (bind_err m f s1
               {| heap := heap s; drafts := map (st_revoked true) (st :: ds);
                  scopes := <[c0 := sc_drafts None
                                      (sc_unfinalized (Z.of_nat (S (length ds))) sc0)]>
                              (scopes s);
                  currentScope := cur; delivered := delivered s |} (Die 4))
  end; [reflexivity|].
  match goal with |- (?m ≫= ?f) ?s1 = _ => rewrite (bind_ok m f s1 s1 st) end.
  - rewrite Hm.
    match goal with |- (?m ≫= ?f) ?s1 = _ =>
      apply (bind_err m f s1)
    end.
    refine (eq_trans (bind_ok _ _ _ _ tt E) _).
    unfold die, throw. f_equal. simpl. f_equal.
    + rewrite Ed. reflexivity.
    + apply list_insert_insert_eq.
  - unfold state_of, get_state, mbind, M_bind, bind. simpl.
    destruct H as [_ Hd]. destruct (Hd 0 st) as [_ Hrev]; [rewrite Ed; reflexivity|].
    rewrite Ed. simpl. rewrite Hrev, andb_false_r. reflexivity.
Qed.

(** * A run, from its start to the processing of the result *)

Lemma produce_begin fuel immer base recipe listener s0 s1 scope proxy :
  isDraftable_in (heap s0) base = true ->
  begin immer base s0 = (s1, Ok (scope, proxy)) ->
  produce fuel immer base recipe listener s0
  = try_finally (recipe proxy) (fun r =>
      match r with
      | inr e => revokeScope scope ;; throw e
      | inl result =>
          leaveScope scope ;;
          usePatchesInScope scope listener ;;
          processResult fuel result scope
      end) s1.
Proof.
  intros Hd Hb. unfold produce, isDraftable, gets.
  unfold begin in Hb. unfold mbind, M_bind, bind in *. rewrite Hd.
  destruct (enterScope immer s0) as [sa [c| |]]; try discriminate.
  destruct (createProxy base None sa) as [sb [p| |]]; try discriminate.
  unfold ret in Hb. inversion Hb; subst. reflexivity.
Qed.

Lemma begin_Live immer base s0 s1 scope proxy :
  drafts s0 = [] ->
  begin immer base s0 = (s1, Ok (scope, proxy)) ->
  proxy = VDraft 0
  /\ Live scope (createScope (currentScope s0) immer) s1
  /\ heap s1 = heap s0 /\ delivered s1 = delivered s0
  /\ exists l b, base = VRef l /\ body_of (heap s0) l = Some b
                 /\ drafts s1 = [new_state (body_archtype b) l None scope].
Proof.
  intros H0 Hb. destruct (begin_fst _ _ _ _ _ _ Hb) as (l & b & -> & Hbody & -> & -> & ->).
  rewrite H0. simpl. split; [reflexivity|]. split; [split|]; simpl.
  - rewrite lookup_app_r by lia. rewrite Nat.sub_diag. reflexivity.
  - intros d st H. destruct d; simpl in H; [|discriminate]. inversion H; subst.
    split; reflexivity.
  - repeat split. exists l, b. auto.
Qed.

(** The old objects through a whole run, whatever its outcome. *)
Lemma run_frame fuel immer base r listener s0 :
  drafts s0 = [] -> draft_free (heap s0) = true ->
  Core (heap s0) (fst (run fuel immer base r listener s0)).
Proof.
  intros H0 Hf. apply Core_run; [exact Hf|]. apply Core_start, H0.
Qed.

(** The store after [leaveScope] and [usePatchesInScope]. *)
Lemma prepare_Live {A} c0 sc0 listener (k : M A) s :
  Live c0 sc0 s ->
  exists sc1 s1,
    (leaveScope c0 ;; usePatchesInScope c0 listener ;; k) s = k s1
    /\ Live c0 sc1 s1
    /\ heap s1 = heap s /\ drafts s1 = drafts s /\ delivered s1 = delivered s
    /\ sc1 = (if listener then sc_listener true (sc_patches (Some []) (Some []) sc0)
              else sc0).
Proof.
  intros H. destruct (leaveScope_Live _ _ _ H) as [cur E].
  pose proof (Live_with_currentScope c0 sc0 cur s H) as H1.
  destruct listener.
  - exists (sc_listener true (sc_patches (Some []) (Some []) sc0)).
    exists (with_scopes
              (<[c0 := sc_drafts (Some (seq 0 (length (drafts s))))
                         (sc_listener true (sc_patches (Some []) (Some []) sc0))]>
                 (scopes s))
              (with_currentScope cur s)).
    split; [|split; [|repeat split]].
    + rewrite (bind_ok _ _ _ _ _ E). unfold usePatchesInScope, when.
      rewrite (bind_ok _ _ _ _ _ (update_scope_Live _ _ _ _ H1)). reflexivity.
    + apply (Live_update_scope c0 sc0 _ _ H1).
  - exists sc0, (with_currentScope cur s). split; [|split; [exact H1|repeat split]].
    rewrite (bind_ok _ _ _ _ _ E). reflexivity.
Qed.

(** C1, as stated, fails: the engine writes to the base when it freezes it
    in place.  After a run that does nothing on [new Map([["k", 1]])], the
    map that the caller gave is frozen and carries own [set], [add],
    [clear] and [delete] properties that it did not have. *)
Lemma C1_counterexample_base_frozen_in_place :
  exists s',
    run 8 default_immer (VRef 0) idle_recipe false (store_of map_base) = (s', Ok (VRef 0))
    /\ heap (store_of map_base) !! 0 = Some (Obj (BMap [(VStr "k", VNum 1)]) false false)
    /\ heap s' !! 0 = Some (Obj (BMap [(VStr "k", VNum 1)]) true true)
    /\ ~ untouched (heap (store_of map_base)) (heap s').
Proof.
  eexists. split; [vm_compute; reflexivity|]. split; [reflexivity|].
  split; [reflexivity|]. intros H.
  destruct (H 0 _ eq_refl) as (o' & Ho' & <-). discriminate Ho'.
Qed.

(** C1, amended.  Whatever the base, the recipe and the outcome of the run
    (a result, an error of the engine, an error of the recipe), every
    object that was in the store when the run started, the base and its
    nested values among them, is still there with the same keys, elements,
    entries and values, and is either exactly as it was or frozen; an
    object whose mutators were overridden keeps the override.  The copy of
    every draft is an object that was allocated during the run. *)
Theorem C1_base_unchanged_up_to_freezing
    (fuel : nat) (immer : Immer) (base : jsval) (r : recipe) (listener : bool)
    (s0 : state) :
  drafts s0 = [] ->
  draft_free (heap s0) = true ->
  unchanged_up_to_freezing (heap s0) (heap (fst (run fuel immer base r listener s0)))
  /\ copies_fresh (length (heap s0)) (fst (run fuel immer base r listener s0)).
Proof.
  intros H0 Hf.
  apply (Kept_run frozen_since (heap s0) frozen_since_body frozen_since_frozen Hf).
  apply Kept_start; [apply frozen_since_refl | exact H0].
Qed.

Lemma C1_base_unchanged_up_to_freezing_witness :
  unchanged_up_to_freezing rewrite_base
    (heap (fst (run 8 default_immer (VRef 0) rewrite_recipe true (store_of rewrite_base))))
  /\ copies_fresh 2
       (fst (run 8 default_immer (VRef 0) rewrite_recipe true (store_of rewrite_base))).
Proof.
  apply (C1_base_unchanged_up_to_freezing 8 default_immer (VRef 0) rewrite_recipe true
           (store_of rewrite_base)); reflexivity.
Defined.

(** C4.  When the recipe has modified the root draft and returns a defined
    value that is not the root draft, the run fails with error 4, whatever
    the fuel; by then every draft of the scope is revoked and the scope has
    no list of drafts left, and the objects of the starting store have the
    keys, elements, entries and values they had. *)
Theorem C4_modified_and_returned
    (fuel : nat) (immer : Immer) (base : jsval) (r : recipe) (listener : bool)
    (s0 s1 s2 : state) (scope : sid) (proxy result : jsval) (root : ImmerState) :
  drafts s0 = [] ->
  draft_free (heap s0) = true ->
  isDraftable_in (heap s0) base = true ->
  begin immer base s0 = (s1, Ok (scope, proxy)) ->
  run_script (r proxy) s1 = (s2, Ok result) ->
  drafts s2 !! 0 = Some root -> modified_ root = true ->
  strict_eq result VUndef = false ->
  strict_eq result proxy = false ->
  exists s',
    run fuel immer base r listener s0 = (s', Err (Die 4))
    /\ (forall d st, drafts s' !! d = Some st -> revoked_ st = true)
    /\ (exists sc, scopes s' !! scope = Some sc /\ sdrafts_ sc = None)
    /\ same_bodies (heap s0) (heap s').
Proof.
  intros H0 Hf Hd Hb Hrun Hroot Hmod Hu Hp.
  destruct (begin_Live _ _ _ _ _ _ H0 Hb) as (-> & HL & _ & _ & _).
  pose proof (Live_run_script scope _ (r (VDraft 0)) s1 HL) as HL2.
  rewrite Hrun in HL2. simpl in HL2.
  destruct (prepare_Live scope _ listener (processResult fuel result scope) s2 HL2)
    as (sc1 & s3 & E3 & HL3 & Hh3 & Hd3 & _ & _).
  rewrite <- Hd3 in Hroot.
  destruct (processResult_modified_replaced fuel result scope sc1 s3 root HL3 Hroot Hmod
              Hu Hp) as [cur E4].
  pose proof (run_frame fuel immer base r listener s0 H0 Hf) as [Hsame _].
  assert (E : run fuel immer base r listener s0
              = ({| heap := heap s3; drafts := map (st_revoked true) (drafts s3);
                    scopes := <[scope := sc_drafts None
                                  (sc_unfinalized (Z.of_nat (length (drafts s3))) sc1)]>
                                (scopes s3);
                    currentScope := cur; delivered := delivered s3 |}, Err (Die 4))).
  { unfold run. rewrite (produce_begin _ _ _ _ _ _ _ _ _ Hd Hb).
    unfold try_finally. rewrite Hrun. rewrite E3. exact E4. }
  rewrite E in Hsame. eexists. split; [exact E|]. split; [|split].
  - intros d st. simpl. rewrite list_lookup_fmap.
    destruct (drafts s3 !! d); simpl; [|discriminate].
    intros Hst. inversion Hst. reflexivity.
  - eexists. simpl. split.
    + apply list_lookup_insert_eq. destruct HL3 as [Hsc _]. eapply lookup_lt_Some; eauto.
    + reflexivity.
  - exact Hsame.
Qed.

Lemma C4_modified_and_returned_witness :
  exists s',
    run 8 default_immer (VRef 0) replacing_recipe false (store_of shrink_base)
    = (s', Err (Die 4))
    /\ (forall d st, drafts s' !! d = Some st -> revoked_ st = true)
    /\ (exists sc, scopes s' !! 0 = Some sc /\ sdrafts_ sc = None)
    /\ same_bodies (heap (store_of shrink_base)) (heap s').
Proof.
  refine (C4_modified_and_returned 8 default_immer (VRef 0) replacing_recipe false
            (store_of shrink_base)
            (fst (begin default_immer (VRef 0) (store_of shrink_base)))
            (fst (run_script (replacing_recipe (VDraft 0))
                    (fst (begin default_immer (VRef 0) (store_of shrink_base)))))
            0 (VDraft 0) (VNum 7) _ _ _ _ _ _ _ _ _ _).
  - reflexivity.
  - reflexivity.
  - reflexivity.
  - vm_compute. reflexivity.
  - vm_compute. reflexivity.
  - vm_compute. reflexivity.
  - reflexivity.
  - reflexivity.
  - reflexivity.
Defined.

(** * Deep freezing *)

Lemma freeze_ext_refl h : freeze_ext h h.
Proof. apply Forall_Forall2_diag, Forall_forall. intros o _. auto. Qed.

Lemma freeze_ext_trans h1 h2 h3 :
  freeze_ext h1 h2 -> freeze_ext h2 h3 -> freeze_ext h1 h3.
Proof.
  unfold freeze_ext. intros H12. revert h3.
  induction H12 as [|o1 o2 r1 r2 [Hb Hf] _ IH]; intros h3 H23.
  - inversion H23. constructor.
  - inversion H23 as [|? o3 ? r3 [Hb' Hf'] Hr]; subst. constructor.
    + split; [congruence | auto].
    + apply IH, Hr.
Qed.

Lemma freeze_ext_lookup h h' l :
  freeze_ext h h' ->
  match h !! l, h' !! l with
  | Some o, Some o' => o_body o' = o_body o /\ (o_frozen o = true -> o_frozen o' = true)
  | None, None => True
  | _, _ => False
  end.
Proof.
  intros H. revert l. induction H as [|o o' r r' Ho _ IH]; intros l.
  - reflexivity.
  - destruct l as [|l]; simpl; [exact Ho | apply IH].
Qed.

Lemma freeze_ext_body h h' l : freeze_ext h h' -> body_of h' l = body_of h l.
Proof.
  intros H. pose proof (freeze_ext_lookup h h' l H) as Hl. unfold body_of.
  destruct (h !! l), (h' !! l); simpl; try contradiction; [|reflexivity].
  destruct Hl as [E _]. rewrite E. reflexivity.
Qed.

Lemma freeze_ext_draftable h h' v :
  freeze_ext h h' -> isDraftable_in h' v = isDraftable_in h v.
Proof.
  intros H. destruct v; simpl; try reflexivity. rewrite (freeze_ext_body h h' _ H).
  reflexivity.
Qed.

Lemma freeze_ext_frozen h h' l :
  freeze_ext h h' -> frozen_at h l = true -> frozen_at h' l = true.
Proof.
  intros H. pose proof (freeze_ext_lookup h h' l H) as Hl. unfold frozen_at.
  destruct (h !! l), (h' !! l); simpl; try contradiction; try discriminate.
  destruct Hl as [_ Hf]. exact Hf.
Qed.

Lemma freeze_ext_count h h' : freeze_ext h h' -> unfrozen_count h' <= unfrozen_count h.
Proof.
  unfold unfrozen_count. intros H. induction H as [|o o' r r' [_ Hf] _ IH]; simpl; [lia|].
  destruct (o_frozen o) eqn:E; simpl.
  - rewrite (Hf eq_refl). simpl. exact IH.
  - destruct (o_frozen o'); simpl; lia.
Qed.

Lemma freeze_ext_children h h' l :
  freeze_ext h h' -> children_frozen h l -> children_frozen h' l.
Proof.
  intros H Hc b l' Hb Hin Hd.
  rewrite (freeze_ext_body h h' _ H) in Hb.
  rewrite (freeze_ext_draftable h h' _ H) in Hd.
  apply (freeze_ext_frozen h h' _ H). eapply Hc; eauto.
Qed.

(** Freezing one object. *)
Lemma freeze_ext_mark h l o g :
  h !! l = Some o -> freeze_ext h (<[l := Obj (o_body o) true g]> h).
Proof.
  intros Hl. unfold freeze_ext. revert l Hl.
  induction h as [|x r IH]; intros l Hl; [discriminate|].
  destruct l as [|l]; simpl in *.
  - inversion Hl; subst. constructor; [split; auto | apply freeze_ext_refl].
  - constructor; [split; auto | apply IH, Hl].
Qed.

Lemma unfrozen_count_mark h l o g :
  h !! l = Some o -> o_frozen o = false ->
  unfrozen_count (<[l := Obj (o_body o) true g]> h) < unfrozen_count h.
Proof.
  unfold unfrozen_count. revert l. induction h as [|x r IH]; intros l Hl Hf; [discriminate|].
  destruct l as [|l]; simpl in *.
  - inversion Hl; subst. rewrite Hf. simpl. lia.
  - specialize (IH l Hl Hf). destruct (o_frozen x); simpl; lia.
Qed.

Lemma frozen_at_mark h l o g l' :
  h !! l = Some o ->
  frozen_at (<[l := Obj (o_body o) true g]> h) l'
  = if decide (l' = l) then true else frozen_at h l'.
Proof.
  intros Hl. unfold frozen_at. destruct (decide (l' = l)) as [->|Hne].
  - rewrite list_lookup_insert_eq by (eapply lookup_lt_Some; eauto). reflexivity.
  - rewrite list_lookup_insert_ne by congruence. reflexivity.
Qed.

Lemma deep_frozen_refl h v :
  (forall l, v = VRef l -> isDraftable_in h v = true -> frozen_at h l = true) ->
  deep_frozen h v h.
Proof.
  intros H. split; [apply freeze_ext_refl|]. split; [exact H|].
  intros l H1 H2. congruence.
Qed.

(** The loop of a deep freeze over the property values of an object. *)
Lemma freeze_values f vs s :
  (forall v s, unfrozen_count (heap s) < f ->
     exists h', freeze f v true s = (with_heap h' s, Ok tt) /\ deep_frozen (heap s) v h') ->
  unfrozen_count (heap s) < f ->
  exists h',
    forM_ vs (fun value => freeze f value true) s = (with_heap h' s, Ok tt)
    /\ freeze_ext (heap s) h'
    /\ (forall v l, In v vs -> v = VRef l -> isDraftable_in (heap s) v = true ->
                    frozen_at h' l = true)
    /\ (forall l, frozen_at (heap s) l = false -> frozen_at h' l = true ->
                  children_frozen h' l).
Proof.
  intros IHf. revert s. induction vs as [|v r IH]; intros s Hc.
  - exists (heap s). simpl. rewrite with_heap_id. split; [reflexivity|].
    split; [apply freeze_ext_refl|]. split; [intros ? ? []|]. intros; congruence.
  - destruct (IHf v s Hc) as (h2 & E2 & Hext2 & Hroot2 & Hch2).
    assert (Hc2 : unfrozen_count (heap (with_heap h2 s)) < f).
    { simpl. pose proof (freeze_ext_count _ _ Hext2). lia. }
    destruct (IH (with_heap h2 s) Hc2) as (h3 & E3 & Hext3 & Hin3 & Hch3).
    simpl in Hext3, Hin3, Hch3.
    exists h3. split; [|split; [|split]].
    + change (forM_ (v :: r) (fun value => freeze f value true))
        with (freeze f v true ≫= fun _ => forM_ r (fun value => freeze f value true)).
      rewrite (bind_ok _ _ _ _ _ E2), E3, with_heap_with_heap. reflexivity.
    + eapply freeze_ext_trans; eauto.
    + intros w l [->|Hin] Hw Hd.
      * apply (freeze_ext_frozen _ _ _ Hext3). apply Hroot2; assumption.
      * apply (Hin3 w l Hin Hw). rewrite (freeze_ext_draftable _ _ _ Hext2). exact Hd.
    + intros l H1 H3. destruct (frozen_at h2 l) eqn:E.
      * apply (freeze_ext_children _ _ _ Hext3). apply Hch2; assumption.
      * apply Hch3; assumption.
Qed.

(** [freeze(obj, true)] returns when the fuel exceeds the number of objects
    that are not frozen yet, and leaves [obj] and what it came to frozen. *)
Lemma freeze_deep_total fuel : forall v s,
  unfrozen_count (heap s) < fuel ->
  exists h', freeze fuel v true s = (with_heap h' s, Ok tt) /\ deep_frozen (heap s) v h'.
Proof.
  induction fuel as [|f IHf]; intros v s Hc; [lia|].
  simpl. unfold isFrozen, isDraftable, gets, mbind, M_bind, bind.
  destruct (isFrozen_in (heap s) v || isDraft v || negb (isDraftable_in (heap s) v)) eqn:Eearly.
  - exists (heap s). rewrite with_heap_id. split; [reflexivity|].
    apply deep_frozen_refl. intros l -> Hd. rewrite Hd in Eearly.
    simpl in Eearly. rewrite !orb_false_r in Eearly. exact Eearly.
  - apply orb_false_iff in Eearly as [Eearly Hd]. apply orb_false_iff in Eearly as [Hfr Hdr].
    apply negb_false_iff in Hd.
    destruct v as [pr|l|d|bi]; simpl in Hfr, Hdr; try discriminate.
    + simpl in Hd. unfold body_of in Hd.
      destruct (heap s !! l) as [o|] eqn:Hl; [|discriminate].
      assert (Et : getArchtype (VRef l) s = (s, Ok (body_archtype (o_body o)))).
      { unfold getArchtype, body_at, heap_lookup, mbind, M_bind, bind. rewrite Hl.
        reflexivity. }
      unfold mbind, M_bind, bind in Et. rewrite Et.
      set (g := match body_archtype (o_body o) with AMap | ASet => true | _ => false end).
      set (h1 := <[l := Obj (o_body o) true (o_guarded o || g)]> (heap s)).
      assert (Em : mark_frozen g l s = (with_heap h1 s, Ok tt)).
      { unfold mark_frozen, heap_lookup, mbind, M_bind, bind. rewrite Hl. reflexivity. }
      unfold mbind, M_bind, bind in Em. rewrite Em.
      assert (Hl1 : h1 !! l = Some (Obj (o_body o) true (o_guarded o || g))).
      { unfold h1. apply list_lookup_insert_eq. eapply lookup_lt_Some; eauto. }
      unfold body_at, heap_lookup, mbind, M_bind, bind, ret. simpl heap. rewrite Hl1.
      simpl o_body.
      assert (Hc1 : unfrozen_count (heap (with_heap h1 s)) < f).
      { simpl. pose proof (unfrozen_count_mark (heap s) l o (o_guarded o || g) Hl Hfr).
        fold h1 in H. lia. }
      destruct (freeze_values f (object_values (o_body o)) (with_heap h1 s) IHf Hc1)
        as (h' & E & Hext & Hin & Hch).
      simpl in Hext, Hin, Hch.
      exists h'. rewrite E, with_heap_with_heap. split; [reflexivity|].
      pose proof (freeze_ext_mark (heap s) l o (o_guarded o || g) Hl) as Hext1.
      fold h1 in Hext1.
      split; [eapply freeze_ext_trans; eauto|]. split.
      * intros l' E' _. inversion E'; subst l'.
        apply (freeze_ext_frozen _ _ _ Hext). unfold frozen_at. rewrite Hl1. reflexivity.
      * intros l' H1 H2. destruct (decide (l' = l)) as [->|Hne].
        -- intros b l'' Hb Hin' Hd'.
           rewrite (freeze_ext_body _ _ _ Hext) in Hb. unfold body_of in Hb.
           rewrite Hl1 in Hb. simpl in Hb. inversion Hb; subst b.
           apply (Hin (VRef l'') l'' Hin' eq_refl).
           rewrite <- (freeze_ext_draftable _ _ _ Hext). exact Hd'.
        -- apply Hch; [|exact H2]. unfold h1.
           rewrite (frozen_at_mark _ _ _ _ _ Hl).
           destruct (decide (l' = l)); [contradiction | exact H1].
    + exists (heap s). rewrite with_heap_id. split; [reflexivity|].
      apply deep_frozen_refl. intros l E. discriminate.
Qed.

(** Everything the deep freeze comes to is frozen afterwards. *)
Lemma freeze_reaches_frozen h root h' :
  deep_frozen h root h' ->
  forall w, freeze_reaches h root w ->
  forall l, w = VRef l -> isDraftable_in h w = true -> frozen_at h' l = true.
Proof.
  intros (Hext & Hroot & Hch) w Hw. induction Hw as [|l0 b v Hr IH Hd0 Hf0 Hb Hin].
  - exact Hroot.
  - intros l -> Hd.
    specialize (IH l0 eq_refl Hd0).
    apply (Hch l0 Hf0 IH b l).
    + rewrite (freeze_ext_body _ _ _ Hext). exact Hb.
    + exact Hin.
    + rewrite (freeze_ext_draftable _ _ _ Hext). exact Hd.
Qed.

(** * The run of a recipe that leaves the root draft unmodified *)

Lemma Rooted_heap_blind l log : heap_blind (Rooted l log).
Proof. intros h s H. exact H. Qed.

Lemma Rooted_update_state l log d f :
  (forall st, base_ (f st) = base_ st) -> keeps (Rooted l log) (update_state d f).
Proof.
  intros Hf s [Hlog (st0 & H0 & Hb)]. rewrite update_state_fst.
  destruct (drafts s !! d) as [st|] eqn:Hst; [|split; eauto].
  split; [exact Hlog|]. simpl.
  destruct (decide (d = 0)) as [->|Hne].
  - rewrite list_lookup_insert_eq by (eapply lookup_lt_Some; eauto).
    rewrite H0 in Hst. inversion Hst; subst. eexists. split; [reflexivity|]. apply Hf.
  - rewrite list_lookup_insert_ne by congruence. eauto.
Qed.

Lemma Rooted_createProxy l log v p : keeps (Rooted l log) (createProxy v (Some p)).
Proof.
  intros s Hs. destruct (createProxy_fst v p s) as [->|H]; [assumption|].
  destruct H as (base & b & stp & sc & ds & _ & _ & _ & _ & _ & ->).
  destruct Hs as [Hlog (st0 & H0 & Hb)]. split; [exact Hlog|]. simpl.
  exists st0. split; [|exact Hb]. rewrite lookup_app_l; [exact H0|].
  eapply lookup_lt_Some; eauto.
Qed.

Lemma Rooted_run_script l log sc : keeps (Rooted l log) (run_script sc).
Proof.
  apply keeps_run_script; intros;
    try (apply keeps_heap_only;
         [apply Rooted_heap_blind
         | first [apply heap_only_alloc | apply heap_only_copy_write
                 | apply heap_only_copy_delete | apply heap_only_map_copy_update
                 | apply heap_only_set_copy_update]]).
  - unfold install_copy. apply keeps_bind; [|intros c'].
    + apply keeps_heap_only; [apply Rooted_heap_blind | apply heap_only_alloc].
    + apply Rooted_update_state. reflexivity.
  - apply Rooted_update_state. reflexivity.
  - apply Rooted_update_state. reflexivity.
  - apply Rooted_createProxy.
  - apply keeps_markChanged_from. intros x. apply Rooted_update_state. reflexivity.
Qed.

Lemma Live_with_heap c0 sc0 h s : Live c0 sc0 s -> Live c0 sc0 (with_heap h s).
Proof. intros H. exact H. Qed.

(** [finalize] of a root draft that is not modified: the base is frozen
    deep when the scope allows it, and returned. *)
Lemma finalize_unmodified fuel c0 sc s st :
  Live c0 sc s ->
  drafts s !! 0 = Some st -> modified_ st = false ->
  unfrozen_count (heap s) + 1 < fuel ->
  exists h',
    finalize fuel c0 (VDraft 0) (Some []) s = (with_heap h' s, Ok (VRef (base_ st)))
    /\ freeze_ext (heap s) h'
    /\ (is_none (sparent_ sc) && autoFreeze_ (immer_ sc) && canAutoFreeze_ sc = true ->
        deep_frozen (heap s) (VRef (base_ st)) h').
Proof.
  intros HL Hst Hm Hfuel. destruct fuel as [|f]; [lia|].
  assert (Es : state_of 0 s = (s, Ok st)).
  { unfold state_of, get_state, mbind, M_bind, bind. rewrite Hst.
    destruct HL as [_ Hd]. destruct (Hd 0 st Hst) as [_ ->].
    rewrite andb_false_r. reflexivity. }
  assert (Esc : scope_ st = c0) by (destruct HL as [_ Hd]; apply (Hd 0 st Hst)).
  simpl finalize. unfold isFrozen, gets. unfold mbind at 1, M_bind at 1, bind at 1.
  cbn [isFrozen_in].
  rewrite (bind_ok _ _ _ _ _ Es). rewrite Esc, Nat.eqb_refl, Hm. cbn [negb].
  unfold maybeFreeze.
  destruct (is_none (sparent_ sc) && autoFreeze_ (immer_ sc) && canAutoFreeze_ sc) eqn:Ec.
  - destruct (freeze_deep_total f (VRef (base_ st)) s) as (h' & E & Hdeep); [lia|].
    exists h'. split; [|split; [apply Hdeep | intros _; exact Hdeep]].
    refine (eq_trans (bind_ok _ _ _ (with_heap h' s) tt _) _); [|reflexivity].
    rewrite (bind_ok _ _ _ _ _ (get_scope_Live _ _ _ HL)).
    cbn [sparent_ immer_ canAutoFreeze_ sc_drafts]. rewrite Ec. exact E.
  - exists (heap s). rewrite with_heap_id.
    split; [|split; [apply freeze_ext_refl | discriminate]].
    refine (eq_trans (bind_ok _ _ _ s tt _) _); [|reflexivity].
    rewrite (bind_ok _ _ _ _ _ (get_scope_Live _ _ _ HL)).
    cbn [sparent_ immer_ canAutoFreeze_ sc_drafts]. rewrite Ec. reflexivity.
Qed.

(** [processResult] when the recipe returned nothing, or the root draft,
    and the root draft is not modified. *)
Lemma processResult_unmodified fuel result c0 sc s st (listener : bool) :
  Live c0 sc s ->
  drafts s !! 0 = Some st -> modified_ st = false ->
  result = VUndef \/ result = VDraft 0 ->
  patches_ sc = (if listener then Some [] else None) ->
  inversePatches_ sc = (if listener then Some [] else None) ->
  unfrozen_count (heap s) + 1 < fuel ->
  exists s',
    processResult fuel result c0 s = (s', Ok (VRef (base_ st)))
    /\ delivered s' = delivered s ++ (if listener then [(@nil Patch, @nil Patch)] else [])
    /\ freeze_ext (heap s) (heap s')
    /\ (is_none (sparent_ sc) && autoFreeze_ (immer_ sc) && canAutoFreeze_ sc = true ->
        deep_frozen (heap s) (VRef (base_ st)) (heap s')).
Proof.
  intros HL Hst Hm Hres Hp Hip Hfuel.
  pose proof (Live_update_scope c0 sc
                (sc_unfinalized (Z.of_nat (length (drafts s))) sc) s HL) as HL4.
  set (s4 := with_scopes
               (<[c0 := sc_drafts (Some (seq 0 (length (drafts s))))
                          (sc_unfinalized (Z.of_nat (length (drafts s))) sc)]>
                  (scopes s)) s) in *.
  destruct (finalize_unmodified fuel c0 _ s4 st HL4 Hst Hm Hfuel)
    as (h' & Efin & Hext & Hdeep).
  pose proof (Live_with_heap c0 _ h' s4 HL4) as HL5.
  destruct (revokeScope_Live _ _ _ HL5) as [cur Erev].
  exists (let s6 := {| heap := h'; drafts := map (st_revoked true) (drafts s);
                       scopes := <[c0 := sc_drafts None
                                    (sc_unfinalized (Z.of_nat (length (drafts s))) sc)]>
                                   (scopes s4);
                       currentScope := cur; delivered := delivered s |} in
          if listener then with_delivered (delivered s ++ [([], [])]) s6 else s6).
  split; [|split; [|split]].
  - unfold processResult.
    rewrite (bind_ok _ _ _ _ _ (get_scope_Live _ _ _ HL)).
    cbn [sdrafts_ sc_drafts].
    rewrite (bind_ok _ _ s s (seq 0 (length (drafts s)))) by reflexivity.
    rewrite length_seq.
    refine (eq_trans (bind_ok _ _ _ s4 tt _) _).
    { rewrite (update_scope_Live _ _ _ _ HL). reflexivity. }
    assert (E0 : seq 0 (length (drafts s)) = 0 :: seq 1 (length (drafts s) - 1)).
    { destruct (drafts s); [discriminate|]. simpl. rewrite Nat.sub_0_r. reflexivity. }
    rewrite E0.
    match goal with |- (?m ≫= ?f) ?s1 = _ => rewrite (bind_ok m f s1 s1 0) by reflexivity end.
    cbv zeta.
    replace (negb (strict_eq result VUndef) && negb (strict_eq result (VDraft 0)))
      with false by (destruct Hres; subst; reflexivity).
    rewrite (bind_ok _ _ _ _ _ Efin).
    rewrite (bind_ok _ _ _ _ _ Erev).
    match goal with |- (?m ≫= ?f) ?s1 = _ =>
      rewrite (bind_ok m f s1 s1
                 (sc_drafts None (sc_unfinalized (Z.of_nat (length (drafts s))) sc)))
    end.
    2:{ unfold get_scope. simpl.
        rewrite list_lookup_insert_eq; [reflexivity|].
        destruct HL5 as [Hsc _]. eapply lookup_lt_Some; eauto. }
    cbn [patches_ inversePatches_ sc_drafts sc_unfinalized]. rewrite Hp, Hip.
    destruct listener; reflexivity.
  - destruct listener; simpl; [reflexivity | rewrite app_nil_r; reflexivity].
  - destruct listener; exact Hext.
  - intros Hc. destruct listener; exact (Hdeep Hc).
Qed.

(** The whole run when the recipe returns nothing, or the root draft, and
    has left the root draft unmodified. *)
Lemma run_unmodified fuel immer base r (listener : bool) s0 s1 s2 scope proxy result root :
  drafts s0 = [] ->
  isDraftable_in (heap s0) base = true ->
  begin immer base s0 = (s1, Ok (scope, proxy)) ->
  run_script (r proxy) s1 = (s2, Ok result) ->
  drafts s2 !! 0 = Some root -> modified_ root = false ->
  result = VUndef \/ result = proxy ->
  unfrozen_count (heap s2) + 1 < fuel ->
  exists s',
    run fuel immer base r listener s0 = (s', Ok base)
    /\ delivered s' = delivered s0 ++ (if listener then [(@nil Patch, @nil Patch)] else [])
    /\ freeze_ext (heap s2) (heap s')
    /\ (currentScope s0 = None -> autoFreeze_ immer = true ->
        deep_frozen (heap s2) base (heap s')).
Proof.
  intros H0 Hd Hb Hrun Hroot Hm Hres Hfuel.
  destruct (begin_Live _ _ _ _ _ _ H0 Hb) as (-> & HL & _ & Hlog & l & b & -> & _ & Hd1).
  pose proof (Live_run_script scope _ (r (VDraft 0)) s1 HL) as HL2.
  assert (HR : Rooted l (delivered s0) s1).
  { split; [exact Hlog|]. rewrite Hd1. eexists. split; reflexivity. }
  apply (Rooted_run_script l _ (r (VDraft 0))) in HR.
  rewrite Hrun in HL2, HR. simpl in HL2, HR.
  destruct HR as [Hlog2 (st & Hst & Hbase)].
  rewrite Hroot in Hst. inversion Hst; subst st.
  destruct (prepare_Live scope _ listener (processResult fuel result scope) s2 HL2)
    as (sc1 & s3 & E3 & HL3 & Hh3 & Hd3 & Hg3 & Hsc1).
  rewrite <- Hd3 in Hroot. rewrite <- Hh3 in Hfuel.
  destruct (processResult_unmodified fuel result scope sc1 s3 root listener HL3 Hroot Hm
              Hres) as (s' & E & Hdel & Hext & Hdeep).
  { subst sc1. destruct listener; reflexivity. }
  { subst sc1. destruct listener; reflexivity. }
  { exact Hfuel. }
  exists s'. rewrite Hbase in *. split; [|split; [|split]].
  - unfold run. rewrite (produce_begin _ _ _ _ _ _ _ _ _ Hd Hb).
    unfold try_finally. rewrite Hrun. rewrite E3. exact E.
  - rewrite Hdel, Hg3, Hlog2. reflexivity.
  - rewrite <- Hh3. exact Hext.
  - intros Hc Ha. rewrite <- Hh3. apply Hdeep.
    subst sc1. destruct listener; simpl; rewrite Hc, Ha; reflexivity.
Qed.

Lemma freeze_reaches_untouched h0 h root w :
  untouched h0 h -> freeze_reaches h0 root w -> freeze_reaches h root w.
Proof.
  intros Hu Hw. induction Hw as [|l b v Hr IH Hd Hf Hb Hin].
  - apply freeze_reaches_root.
  - unfold body_of in Hb. destruct (h0 !! l) as [o|] eqn:Hl; [|discriminate].
    destruct (Hu l o Hl) as (o' & Hl' & ->).
    apply (freeze_reaches_child h root l b v IH).
    + simpl in *. unfold body_of in *. rewrite Hl in Hd. rewrite Hl'. exact Hd.
    + unfold frozen_at in *. rewrite Hl in Hf. rewrite Hl'. exact Hf.
    + unfold body_of. rewrite Hl'. exact Hb.
    + exact Hin.
Qed.

Lemma isDraftable_untouched h0 h l :
  untouched h0 h -> isDraftable_in h0 (VRef l) = true -> isDraftable_in h (VRef l) = true.
Proof.
  intros Hu. simpl. unfold body_of. destruct (h0 !! l) as [o|] eqn:Hl; [|discriminate].
  destruct (Hu l o Hl) as (o' & Hl' & ->). rewrite Hl'. auto.
Qed.

(** C2.  When the recipe only reads and returns nothing or the root draft,
    the run returns the base itself, given fuel for the freezing; and when
    a patch listener was supplied, what it receives is the pair of two
    empty lists. *)
Theorem C2_reading_recipe_returns_base
    (fuel : nat) (immer : Immer) (base : jsval) (r : recipe) (listener : bool)
    (s0 s1 s2 : state) (scope : sid) (proxy result : jsval) :
  drafts s0 = [] ->
  isDraftable_in (heap s0) base = true ->
  begin immer base s0 = (s1, Ok (scope, proxy)) ->
  readonly (r proxy) ->
  run_script (r proxy) s1 = (s2, Ok result) ->
  result = VUndef \/ result = proxy ->
  unfrozen_count (heap s2) + 1 < fuel ->
  exists s',
    run fuel immer base r listener s0 = (s', Ok base)
    /\ delivered s' = delivered s0 ++ (if listener then [(@nil Patch, @nil Patch)] else []).
Proof.
  intros H0 Hd Hb Hro Hrun Hres Hfuel.
  destruct (begin_Live _ _ _ _ _ _ H0 Hb) as (Hp & HL & _ & Hlog & l & b & Hbase & _ & Hd1).
  assert (HU : Unmodified s1).
  { intros d st. rewrite Hd1. destruct d; simpl; [|discriminate].
    intros E. inversion E. reflexivity. }
  apply (Unmodified_run_script (r proxy) Hro) in HU. rewrite Hrun in HU. simpl in HU.
  assert (HR : Rooted l (delivered s0) s1).
  { split; [exact Hlog|]. rewrite Hd1. eexists. split; reflexivity. }
  apply (Rooted_run_script l _ (r proxy)) in HR. rewrite Hrun in HR.
  destruct HR as [_ (root & Hroot & _)]. simpl in Hroot.
  destruct (run_unmodified fuel immer base r listener s0 s1 s2 scope proxy result root
              H0 Hd Hb Hrun Hroot (HU 0 root Hroot) Hres Hfuel)
    as (s' & E & Hdel & _).
  exists s'. split; assumption.
Qed.

Lemma C2_reading_recipe_returns_base_witness :
  exists s',
    run 8 default_immer (VRef 0) reading_recipe true (store_of rewrite_base)
    = (s', Ok (VRef 0))
    /\ delivered s' = [] ++ [([], [])].
Proof.
  refine (C2_reading_recipe_returns_base 8 default_immer (VRef 0) reading_recipe true
            (store_of rewrite_base)
            (fst (begin default_immer (VRef 0) (store_of rewrite_base)))
            (fst (run_script (reading_recipe (VDraft 0))
                    (fst (begin default_immer (VRef 0) (store_of rewrite_base)))))
            0 (VDraft 0) VUndef _ _ _ _ _ _ _).
  - reflexivity.
  - reflexivity.
  - vm_compute. reflexivity.
  - apply readonly_call; [reflexivity|].
    intros [v|b|n|ks|vs|]; try apply readonly_throw.
    apply readonly_call; [reflexivity|]. intros x. apply readonly_return.
  - vm_compute. reflexivity.
  - left. reflexivity.
  - vm_compute. lia.
Defined.

(** C10, as stated, fails: a base that is frozen already is returned as it
    is, and the record in its field stays unfrozen. *)
Lemma C10_counterexample_frozen_base_unfrozen_field :
  exists s',
    run 8 default_immer (VRef 0) idle_recipe false (store_of half_frozen_base)
    = (s', Ok (VRef 0))
    /\ body_of (heap s') 0 = Some (BRecord [(KStr "a", VRef 1)])
    /\ isDraftable_in (heap s') (VRef 1) = true
    /\ frozen_at (heap s') 1 = false.
Proof.
  eexists. split; [vm_compute; reflexivity|]. repeat split.
Qed.

(** C10, amended.  With auto-freeze on, in a run that is not nested, when
    the recipe returns nothing or the root draft and the root draft is not
    modified, the run returns the base, given fuel for the freezing; and
    afterwards the base is frozen, and so is every draftable object that is
    reached from it through the property values of draftable objects that
    were not frozen when the run started. *)
Theorem C10_unmodified_base_frozen_deep
    (fuel : nat) (immer : Immer) (base : jsval) (r : recipe) (listener : bool)
    (s0 s1 s2 : state) (scope : sid) (proxy result : jsval) (root : ImmerState) :
  autoFreeze_ immer = true ->
  currentScope s0 = None ->
  drafts s0 = [] ->
  isDraftable_in (heap s0) base = true ->
  begin immer base s0 = (s1, Ok (scope, proxy)) ->
  run_script (r proxy) s1 = (s2, Ok result) ->
  drafts s2 !! 0 = Some root -> modified_ root = false ->
  result = VUndef \/ result = proxy ->
  unfrozen_count (heap s2) + 1 < fuel ->
  exists s',
    run fuel immer base r listener s0 = (s', Ok base)
    /\ forall l,
         freeze_reaches (heap s0) base (VRef l) ->
         isDraftable_in (heap s0) (VRef l) = true ->
         frozen_at (heap s') l = true.
Proof.
  intros Ha Hc H0 Hd Hb Hrun Hroot Hm Hres Hfuel.
  destruct (run_unmodified fuel immer base r listener s0 s1 s2 scope proxy result root
              H0 Hd Hb Hrun Hroot Hm Hres Hfuel) as (s' & E & _ & _ & Hdeep).
  specialize (Hdeep Hc Ha).
  exists s'. split; [exact E|]. intros l Hr Hdl.
  assert (HU : untouched (heap s0) (heap s2)).
  { destruct (begin_Live _ _ _ _ _ _ H0 Hb) as (_ & _ & Hh1 & _ & l1 & b1 & _ & _ & Hd1).
    assert (HK : Untouched (heap s0) s1).
    { split.
      - intros x o Ho. exists o. rewrite Hh1. auto.
      - intros d st c. rewrite Hd1. destruct d; simpl; [|discriminate].
        intros E1. inversion E1. discriminate. }
    apply (Kept_run_script eq (heap s0) (r proxy)) in HK. rewrite Hrun in HK.
    apply HK. }
  apply (freeze_reaches_frozen (heap s2) base (heap s') Hdeep (VRef l)).
  - apply (freeze_reaches_untouched _ _ _ _ HU Hr).
  - reflexivity.
  - apply (isDraftable_untouched _ _ _ HU Hdl).
Qed.

Lemma C10_unmodified_base_frozen_deep_witness :
  exists s',
    run 8 default_immer (VRef 0) reading_recipe false (store_of rewrite_base)
    = (s', Ok (VRef 0))
    /\ forall l,
         freeze_reaches (heap (store_of rewrite_base)) (VRef 0) (VRef l) ->
         isDraftable_in (heap (store_of rewrite_base)) (VRef l) = true ->
         frozen_at (heap s') l = true.
Proof.
  refine (C10_unmodified_base_frozen_deep 8 default_immer (VRef 0) reading_recipe false
            (store_of rewrite_base)
            (fst (begin default_immer (VRef 0) (store_of rewrite_base)))
            (fst (run_script (reading_recipe (VDraft 0))
                    (fst (begin default_immer (VRef 0) (store_of rewrite_base)))))
            0 (VDraft 0) VUndef
            (st_copy (Some 2) (new_state AObject 0 None 0)) _ _ _ _ _ _ _ _ _ _).
  - reflexivity.
  - reflexivity.
  - reflexivity.
  - reflexivity.
  - vm_compute. reflexivity.
  - vm_compute. reflexivity.
  - vm_compute. reflexivity.
  - reflexivity.
  - left. reflexivity.
  - vm_compute. lia.
Defined.

(** * The equalities of values (utils/common.ts) *)

Lemma builtin_eqb_eq a b : builtin_eqb a b = true <-> a = b.
Proof. destruct a, b; simpl; split; congruence. Qed.

Lemma pkey_eqb_eq a b : pkey_eqb a b = true <-> a = b.
Proof.
  destruct a as [s|i], b as [t|j]; simpl; split; try congruence.
  - intros H. apply String.eqb_eq in H. congruence.
  - intros H. inversion H. apply String.eqb_refl.
  - intros H. apply Nat.eqb_eq in H. congruence.
  - intros H. inversion H. apply Nat.eqb_refl.
Qed.

Lemma pkey_eqb_refl a : pkey_eqb a a = true.
Proof. apply pkey_eqb_eq. reflexivity. Qed.

Lemma pkey_eqb_neq a b : a <> b -> pkey_eqb a b = false.
Proof.
  intros H. destruct (pkey_eqb a b) eqn:E; [|reflexivity].
  apply pkey_eqb_eq in E. contradiction.
Qed.

Lemma pkey_eqb_sym a b : pkey_eqb a b = pkey_eqb b a.
Proof.
  destruct (pkey_eqb a b) eqn:E.
  - apply pkey_eqb_eq in E. subst. symmetry. apply pkey_eqb_refl.
  - destruct (pkey_eqb b a) eqn:E'; [|reflexivity].
    apply pkey_eqb_eq in E'. subst. rewrite pkey_eqb_refl in E. discriminate.
Qed.

Lemma prim_strict_eq_spec p q :
  prim_strict_eq p q = true <->
  (p = q /\ p <> PNaN) \/ (is_zero (VPrim p) = true /\ is_zero (VPrim q) = true).
Proof.
  destruct p as [| |a|a| | |a|], q as [| |b|b| | |b|]; simpl;
    try solve [split; [discriminate | intros [[H1 H2]|[H1 H2]]; congruence]];
    try solve [split; [intros _; left; split; congruence | reflexivity]].
  - split.
    + intros H. apply Bool.eqb_prop in H. subst. left. split; congruence.
    + intros [[H _]|[H _]]; [inversion H; apply Bool.eqb_reflx | discriminate].
  - rewrite Z.eqb_eq. split; [intros ->; left; split; congruence|].
    intros [[H _]|[H1 H2]]; [congruence|]. destruct a, b; congruence.
  - rewrite Z.eqb_eq. split.
    + intros ->. right. split; reflexivity.
    + intros [[H _]|[H1 H2]]; [congruence|]. destruct a; congruence.
  - rewrite Z.eqb_eq. split.
    + intros ->. right. split; reflexivity.
    + intros [[H _]|[H1 H2]]; [congruence|]. destruct b; congruence.
  - rewrite String.eqb_eq. split; [intros ->; left; split; congruence|].
    intros [[H _]|[H _]]; congruence.
Qed.

Lemma strict_eq_spec x y :
  strict_eq x y = true <-> (x = y /\ x <> VPrim PNaN) \/ zeros x y.
Proof.
  unfold zeros.
  destruct x as [p|l|d|b], y as [q|l'|d'|b']; simpl;
    try (split; [discriminate | intros [[H1 H2]|[H1 H2]]; congruence]).
  - rewrite prim_strict_eq_spec. split.
    + intros [[-> H]|H]; [left; split; congruence | right; exact H].
    + intros [[H1 H2]|H]; [left; split; congruence | right; exact H].
  - rewrite Nat.eqb_eq. split; [intros ->; left; split; congruence|].
    intros [[H _]|[H _]]; congruence.
  - rewrite Nat.eqb_eq. split; [intros ->; left; split; congruence|].
    intros [[H _]|[H _]]; congruence.
  - rewrite builtin_eqb_eq. split; [intros ->; left; split; congruence|].
    intros [[H _]|[H _]]; congruence.
Qed.

Lemma nan_dec (y : jsval) : y = VPrim PNaN \/ y <> VPrim PNaN.
Proof. destruct y as [[]| | |]; auto; right; discriminate. Qed.

Lemma strict_eq_refl x : x <> VPrim PNaN -> strict_eq x x = true.
Proof. intros H. apply strict_eq_spec. left. auto. Qed.

Lemma is_eq x y : is_ x y = true <-> x = y.
Proof.
  unfold is_. destruct (strict_eq x y) eqn:E.
  - apply strict_eq_spec in E. destruct E as [[-> Hn]|[Hx Hy]].
    + split; [reflexivity|]. intros _.
      rewrite Bool.eqb_reflx. apply orb_true_r.
    + rewrite Hx. simpl.
      destruct x as [[| | |[| |]| | | |]| | |]; try discriminate;
        destruct y as [[| | |[| |]| | | |]| | |]; try discriminate; simpl;
          split; congruence.
  - split.
    + intros H. apply andb_true_iff in H as [Hx Hy].
      destruct x as [[]| | |]; try discriminate.
      destruct y as [[]| | |]; try discriminate. reflexivity.
    + intros ->. destruct (nan_dec y) as [->|Hn]; [reflexivity|].
      rewrite strict_eq_refl in E by assumption. discriminate.
Qed.

Lemma same_value_zero_spec x y : same_value_zero x y = true <-> x = y \/ zeros x y.
Proof.
  unfold same_value_zero. rewrite orb_true_iff, strict_eq_spec, andb_true_iff. split.
  - intros [[[H _]|H]|[Hx Hy]]; auto.
    destruct x as [[]| | |]; try discriminate.
    destruct y as [[]| | |]; try discriminate. auto.
  - intros [->|H]; [|auto].
    destruct (nan_dec y) as [->|Hn]; [right; auto | left; left; auto].
Qed.

Lemma same_value_zero_refl x : same_value_zero x x = true.
Proof. apply same_value_zero_spec. auto. Qed.

Lemma same_value_zero_sym x y : same_value_zero x y = same_value_zero y x.
Proof.
  assert (H : forall a b, same_value_zero a b = true -> same_value_zero b a = true).
  { intros a b Hab. apply same_value_zero_spec in Hab. apply same_value_zero_spec.
    destruct Hab as [->|[H1 H2]]; [auto | right; split; assumption]. }
  destruct (same_value_zero x y) eqn:E; [symmetry; auto|].
  destruct (same_value_zero y x) eqn:E'; [|reflexivity].
  apply H in E'. congruence.
Qed.

Lemma same_value_zero_trans x y z :
  same_value_zero x y = true -> same_value_zero y z = true -> same_value_zero x z = true.
Proof.
  rewrite !same_value_zero_spec. unfold zeros.
  intros [->|[H1 H2]] [->|[H3 H4]]; auto.
Qed.

(** A value that equals one that is not draftable is not draftable. *)
Lemma same_value_zero_draftable h x y :
  same_value_zero x y = true -> isDraftable_in h x = isDraftable_in h y.
Proof.
  intros H. apply same_value_zero_spec in H. destruct H as [->|[Hx Hy]]; [reflexivity|].
  destruct x as [[]| | |]; try discriminate; destruct y as [[]| | |]; try discriminate;
    reflexivity.
Qed.

(** X1.  [is(x, y)] holds exactly when [x] and [y] are the same value: a
    number that is not a number is itself, and the two zeros differ.
    [x === y] departs from it on these values only: it never holds of the
    value that is not a number, and it holds of the two zeros. *)
Theorem is_same_value (x y : jsval) :
  (is_ x y = true <-> x = y)
  /\ (strict_eq x y = true <-> (x = y /\ x <> VPrim PNaN) \/ zeros x y).
Proof. split; [apply is_eq | apply strict_eq_spec]. Qed.

(** * What an operation that returned has done *)

Lemma bind_Ok_inv {A B} (m : M A) (f : A -> M B) s s' b :
  (m ≫= f) s = (s', Ok b) -> exists s1 a, m s = (s1, Ok a) /\ f a s1 = (s', Ok b).
Proof.
  unfold mbind, M_bind, bind. destruct (m s) as [s1 [a| |]]; try discriminate.
  intros H. exists s1, a. auto.
Qed.

Lemma unchanged_Ok {A} (m : M A) s s' r : unchanged m -> m s = (s', r) -> s' = s.
Proof. intros Hm H. specialize (Hm s). rewrite H in Hm. exact Hm. Qed.

Lemma ret_Ok {A} (a b : A) s s' : ret a s = (s', Ok b) -> s' = s /\ b = a.
Proof. unfold ret. intros H. inversion H. auto. Qed.

Lemma get_state_Ok d s s' st :
  get_state d s = (s', Ok st) -> s' = s /\ drafts s !! d = Some st.
Proof.
  unfold get_state. destruct (drafts s !! d); [|discriminate].
  intros H. inversion H. auto.
Qed.

Lemma get_state_lookup d s st : drafts s !! d = Some st -> get_state d s = (s, Ok st).
Proof. intros H. unfold get_state. rewrite H. reflexivity. Qed.

Lemma get_scope_Ok c s s' sc :
  get_scope c s = (s', Ok sc) -> s' = s /\ scopes s !! c = Some sc.
Proof.
  unfold get_scope. destruct (scopes s !! c); [|discriminate].
  intros H. inversion H. auto.
Qed.

Lemma body_at_inv l s s' b :
  body_at l s = (s', Ok b) -> s' = s /\ body_of (heap s) l = Some b.
Proof.
  unfold body_at, heap_lookup, body_of, mbind, M_bind, bind.
  destruct (heap s !! l); [|discriminate]. intros H. inversion H. auto.
Qed.

Lemma body_at_lookup l s b : body_of (heap s) l = Some b -> body_at l s = (s, Ok b).
Proof.
  unfold body_at, heap_lookup, body_of, mbind, M_bind, bind.
  destruct (heap s !! l); [|discriminate]. intros H. inversion H. reflexivity.
Qed.

Lemma state_of_Ok d s s' st :
  state_of d s = (s', Ok st) ->
  s' = s /\ drafts s !! d = Some st /\ is_proxy_type (type_ st) && revoked_ st = false.
Proof.
  unfold state_of. intros H. apply bind_Ok_inv in H as (s1 & a & H1 & H2).
  apply get_state_Ok in H1 as [-> H1].
  destruct (is_proxy_type (type_ a) && revoked_ a) eqn:E; [discriminate|].
  apply ret_Ok in H2 as [-> ->]. auto.
Qed.

Lemma proxy_state_Ok d s s' st :
  proxy_state d s = (s', Ok st) ->
  s' = s /\ drafts s !! d = Some st /\ revoked_ st = false.
Proof.
  unfold proxy_state. intros H. apply bind_Ok_inv in H as (s1 & a & H1 & H2).
  apply get_state_Ok in H1 as [-> H1].
  destruct (revoked_ a) eqn:E; [discriminate|].
  apply ret_Ok in H2 as [-> ->]. auto.
Qed.

Lemma proxy_state_lookup d s st :
  drafts s !! d = Some st -> revoked_ st = false -> proxy_state d s = (s, Ok st).
Proof.
  intros H Hr. unfold proxy_state. rewrite (bind_ok _ _ _ _ _ (get_state_lookup _ _ _ H)).
  rewrite Hr. reflexivity.
Qed.

Lemma copy_loc_Ok d s s' c :
  copy_loc d s = (s', Ok c) ->
  s' = s /\ exists st, drafts s !! d = Some st /\ copy_ st = Some c.
Proof.
  unfold copy_loc. intros H. apply bind_Ok_inv in H as (s1 & st & H1 & H2).
  apply get_state_Ok in H1 as [-> H1].
  destruct (copy_ st) as [c'|] eqn:E; [|discriminate].
  apply ret_Ok in H2 as [-> ->]. eauto.
Qed.

Lemma copy_loc_lookup d s st c :
  drafts s !! d = Some st -> copy_ st = Some c -> copy_loc d s = (s, Ok c).
Proof.
  intros H Hc. unfold copy_loc. rewrite (bind_ok _ _ _ _ _ (get_state_lookup _ _ _ H)).
  rewrite Hc. reflexivity.
Qed.

Lemma update_state_Ok d f s s' :
  update_state d f s = (s', Ok tt) ->
  exists st, drafts s !! d = Some st /\ s' = with_drafts (<[d := f st]> (drafts s)) s.
Proof.
  unfold update_state. intros H. apply bind_Ok_inv in H as (s1 & st & H1 & H2).
  apply get_state_Ok in H1 as [-> H1]. unfold modify in H2. inversion H2. eauto.
Qed.

Lemma update_state_lookup d f s st :
  drafts s !! d = Some st ->
  update_state d f s = (with_drafts (<[d := f st]> (drafts s)) s, Ok tt).
Proof.
  intros H. unfold update_state. rewrite (bind_ok _ _ _ _ _ (get_state_lookup _ _ _ H)).
  reflexivity.
Qed.

Lemma store_props_Ok l b s s' :
  store_props l b s = (s', Ok tt) ->
  exists o, heap s !! l = Some o /\ o_frozen o = false
            /\ s' = with_heap (<[l := Obj b false (o_guarded o)]> (heap s)) s.
Proof.
  unfold store_props, heap_lookup, mbind, M_bind, bind.
  destruct (heap s !! l) as [o|]; [|discriminate].
  destruct (o_frozen o) eqn:E; [discriminate|].
  unfold modify. intros H. inversion H. eauto.
Qed.

Lemma store_coll_Ok l b s s' :
  store_coll l b s = (s', Ok tt) ->
  exists o, heap s !! l = Some o /\ o_guarded o = false
            /\ s' = with_heap (<[l := Obj b (o_frozen o) false]> (heap s)) s.
Proof.
  unfold store_coll, heap_lookup, mbind, M_bind, bind.
  destruct (heap s !! l) as [o|]; [|discriminate].
  destruct (o_guarded o) eqn:E; [discriminate|].
  unfold modify. intros H. inversion H. eauto.
Qed.

(** ** Bookkeeping *)

Lemma same_core_refl st : same_core st st.
Proof. repeat split. Qed.

Lemma same_core_trans a b c : same_core a b -> same_core b c -> same_core a c.
Proof.
  unfold same_core. intros (?&?&?&?&?&?&?&?&?) (?&?&?&?&?&?&?&?&?).
  repeat split; congruence.
Qed.

Lemma bookkeeping_refl s : bookkeeping s s.
Proof.
  repeat split. apply Forall_Forall2_diag, Forall_forall. intros; apply same_core_refl.
Qed.

Lemma Forall2_same_core_trans l1 l2 l3 :
  Forall2 same_core l1 l2 -> Forall2 same_core l2 l3 -> Forall2 same_core l1 l3.
Proof.
  intros H. revert l3. induction H as [|a b r1 r2 Hab _ IH]; intros l3 H'.
  - inversion H'. constructor.
  - inversion H' as [|? c ? r3 Hbc Hr]; subst. constructor.
    + eapply same_core_trans; eauto.
    + apply IH, Hr.
Qed.

Lemma bookkeeping_trans s1 s2 s3 :
  bookkeeping s1 s2 -> bookkeeping s2 s3 -> bookkeeping s1 s3.
Proof.
  intros (H1&H2&H3&H4&H5) (K1&K2&K3&K4&K5).
  repeat split; try congruence. eapply Forall2_same_core_trans; eauto.
Qed.

Lemma bookkeeping_lookup s s' d st :
  bookkeeping s s' -> drafts s !! d = Some st ->
  exists st', drafts s' !! d = Some st' /\ same_core st st'.
Proof.
  intros (_&_&_&_&H) Hd. destruct (Forall2_lookup_l _ _ _ _ _ H Hd) as (st' & H1 & H2).
  eauto.
Qed.

Lemma bookkeeping_update d f s st :
  drafts s !! d = Some st -> same_core st (f st) ->
  bookkeeping s (with_drafts (<[d := f st]> (drafts s)) s).
Proof.
  intros Hd Hf. repeat split. simpl.
  rewrite <- (list_insert_id (drafts s) d st Hd) at 1.
  apply Forall2_insert; [|exact Hf].
  apply Forall_Forall2_diag, Forall_forall. intros; apply same_core_refl.
Qed.

Lemma update_state_bookkeeping d f s s' :
  (forall st, same_core st (f st)) ->
  update_state d f s = (s', Ok tt) -> bookkeeping s s'.
Proof.
  intros Hf H. apply update_state_Ok in H as (st & Hd & ->).
  apply bookkeeping_update; auto.
Qed.

Lemma assign_bookkeeping d k b s s' : assign d k b s = (s', Ok tt) -> bookkeeping s s'.
Proof. apply update_state_bookkeeping. intros st. repeat split. Qed.

Lemma unassign_bookkeeping d k s s' : unassign d k s = (s', Ok tt) -> bookkeeping s s'.
Proof. apply update_state_bookkeeping. intros st. repeat split. Qed.

Lemma set_assigned_bookkeeping d g s s' :
  set_assigned d g s = (s', Ok tt) -> bookkeeping s s'.
Proof. apply update_state_bookkeeping. intros st. repeat split. Qed.

(** A flag that is set stays set through [markChanged]. *)
Lemma markChanged_from_mono fuel : forall p s s' x stx,
  markChanged_from fuel p s = (s', Ok tt) ->
  drafts s !! x = Some stx -> modified_ stx = true -> is_modified s' x.
Proof.
  induction fuel as [|f IH]; intros p s s' x stx H Hx Hmx; [discriminate|].
  simpl in H. apply bind_Ok_inv in H as (s1 & stp & K1 & K2).
  apply get_state_Ok in K1 as [-> Hp].
  destruct (modified_ stp).
  - apply ret_Ok in K2 as [-> _]. exists stx. auto.
  - apply bind_Ok_inv in K2 as (s2 & [] & K2 & K3).
    apply update_state_Ok in K2 as (st0 & Hp0 & ->).
    assert (Hx' : exists stx',
               drafts (with_drafts (<[p := st_modified true st0]> (drafts s)) s) !! x
               = Some stx' /\ modified_ stx' = true).
    { simpl. destruct (decide (x = p)) as [->|Hne].
      - eexists. split; [apply list_lookup_insert_eq; eapply lookup_lt_Some; eauto|].
        reflexivity.
      - exists stx. rewrite list_lookup_insert_ne by congruence. auto. }
    destruct Hx' as (stx' & Hx' & Hmx').
    destruct (parent_ stp) as [q|].
    + eapply IH; eauto.
    + apply ret_Ok in K3 as [-> _]. exists stx'. auto.
Qed.

(** [markChanged], when it returns, has set modified flags and nothing
    else, and that of [d] among them. *)
Lemma markChanged_from_Ok fuel d s s' :
  markChanged_from fuel d s = (s', Ok tt) -> bookkeeping s s' /\ is_modified s' d.
Proof.
  revert d s. induction fuel as [|f IH]; intros d s H; [discriminate|].
  simpl in H. apply bind_Ok_inv in H as (s1 & st & H1 & H2).
  apply get_state_Ok in H1 as [-> Hd].
  destruct (modified_ st) eqn:Hm.
  - apply ret_Ok in H2 as [-> _]. split; [apply bookkeeping_refl|]. exists st. auto.
  - apply bind_Ok_inv in H2 as (s2 & [] & H2 & H3).
    assert (Hb : bookkeeping s s2).
    { eapply update_state_bookkeeping; [|exact H2]. intros st'. repeat split. }
    apply update_state_Ok in H2 as (st0 & Hd0 & Hs2).
    assert (Hl2 : drafts s2 !! d = Some (st_modified true st0)).
    { subst s2. simpl. apply list_lookup_insert_eq. eapply lookup_lt_Some; eauto. }
    destruct (parent_ st) as [p|].
    + destruct (IH p s2 H3) as [Hb' _]. split; [eapply bookkeeping_trans; eauto|].
      eapply markChanged_from_mono; eauto.
    + apply ret_Ok in H3 as [-> _]. split; [exact Hb|]. eexists. eauto.
Qed.

Lemma markChanged_Ok d s s' :
  markChanged d s = (s', Ok tt) -> bookkeeping s s' /\ is_modified s' d.
Proof. apply markChanged_from_Ok. Qed.

(** * Property tables *)

Section AssocFacts.
Context {K V : Type} (eqb : K -> K -> bool).
Hypothesis eqb_refl : forall k, eqb k k = true.
Hypothesis eqb_sym : forall k k', eqb k k' = eqb k' k.
Hypothesis eqb_trans : forall a b c, eqb a b = true -> eqb b c = true -> eqb a c = true.

Lemma eqb_congr a b c : eqb a b = true -> eqb a c = eqb b c.
Proof.
  intros Hab. destruct (eqb b c) eqn:E.
  - eapply eqb_trans; eauto.
  - destruct (eqb a c) eqn:E'; [|reflexivity].
    rewrite eqb_sym in Hab. rewrite <- E. symmetry. eapply eqb_trans; eauto.
Qed.

Lemma assoc_get_set_same k v (l : list (K * V)) :
  assoc_get eqb k (assoc_set eqb k v l) = Some v.
Proof.
  induction l as [|[k' v'] r IH]; simpl.
  - rewrite eqb_refl. reflexivity.
  - destruct (eqb k k') eqn:E; simpl; rewrite E; [reflexivity | exact IH].
Qed.

Lemma assoc_get_set_other k k' v (l : list (K * V)) :
  eqb k k' = false ->
  assoc_get eqb k' (assoc_set eqb k v l) = assoc_get eqb k' l.
Proof.
  intros Hne. induction l as [|[k0 v0] r IH]; simpl.
  - rewrite eqb_sym, Hne. reflexivity.
  - destruct (eqb k k0) eqn:E; simpl.
    + rewrite (eqb_sym k' k0), <- (eqb_congr k k0 k' E), Hne. reflexivity.
    + destruct (eqb k' k0); [reflexivity | exact IH].
Qed.

Lemma assoc_has_set_same k v (l : list (K * V)) :
  assoc_has eqb k (assoc_set eqb k v l) = true.
Proof. unfold assoc_has. rewrite assoc_get_set_same. reflexivity. Qed.

Lemma assoc_get_del_same k (l : list (K * V)) :
  distinct_keys eqb l -> assoc_get eqb k (assoc_del eqb k l) = None.
Proof.
  induction l as [|[k' v'] r IH]; simpl; [reflexivity|]. intros [Hk Hr].
  destruct (eqb k k') eqn:E; simpl.
  - clear IH. induction r as [|[k0 v0] r IH]; simpl in *; [reflexivity|].
    rewrite (eqb_congr k k' k0 E).
    destruct (eqb k' k0); [discriminate|]. apply IH; [exact Hk | apply Hr].
  - rewrite E. apply IH, Hr.
Qed.

Lemma assoc_get_del_other k k' (l : list (K * V)) :
  eqb k k' = false ->
  assoc_get eqb k' (assoc_del eqb k l) = assoc_get eqb k' l.
Proof.
  intros Hne. induction l as [|[k0 v0] r IH]; simpl; [reflexivity|].
  destruct (eqb k k0) eqn:E; simpl.
  - rewrite (eqb_sym k' k0), <- (eqb_congr k k0 k' E), Hne. reflexivity.
  - destruct (eqb k' k0); [reflexivity | exact IH].
Qed.

End AssocFacts.

Lemma pkey_of_value_prim h h' p : pkey_of_value h (VPrim p) = pkey_of_value h' (VPrim p).
Proof.
  destruct p; simpl; try reflexivity; destruct (length h), (length h'); reflexivity.
Qed.

Lemma pkey_of_value_stable h h' b k :
  stable_key b k = true -> props_like b = true ->
  pkey_of_value h k = pkey_of_value h' k.
Proof.
  destruct b; try discriminate; intros Hk _; destruct k; try discriminate;
    apply pkey_of_value_prim.
Qed.

Lemma body_of_insert h l o : l < length h -> body_of (<[l := o]> h) l = Some (o_body o).
Proof. intros H. unfold body_of. rewrite list_lookup_insert_eq by assumption. reflexivity. Qed.

Lemma body_of_insert_ne h l l' o : l <> l' -> body_of (<[l := o]> h) l' = body_of h l'.
Proof. intros H. unfold body_of. rewrite list_lookup_insert_ne by assumption. reflexivity. Qed.

Lemma body_of_Some h l b : body_of h l = Some b -> exists o, h !! l = Some o /\ o_body o = b.
Proof.
  unfold body_of. destruct (h !! l) as [o|]; [|discriminate].
  intros H. inversion H. eauto.
Qed.

Lemma same_value_zero_false_sym k k' :
  same_value_zero k k' = false -> same_value_zero k' k = false.
Proof. intros H. rewrite same_value_zero_sym. exact H. Qed.

Lemma pkey_eqb_trans a b c : pkey_eqb a b = true -> pkey_eqb b c = true -> pkey_eqb a c = true.
Proof. intros Hab Hbc. apply pkey_eqb_eq in Hab, Hbc. subst. apply pkey_eqb_refl. Qed.

(** ** [has], [get] and [set] on an object that is not a draft *)

(** X2.  On a record or a map that can be written, [set(thing, k, v)]
    followed by [has(thing, k)] and [get(thing, k)] answers true and [v],
    and every key that is not [k] answers as it did before the write.  On
    a record the key is any but [__proto__]. *)
Theorem set_then_get_plain
    (l : loc) (k v : jsval) (b : body) (s s' : state) :
  body_of (heap s) l = Some b ->
  keyed b = true ->
  stable_key b k = true ->
  not_property (heap s) b k (KStr "__proto__") ->
  set_ l k v s = (s', Ok tt) ->
  exists b',
    body_of (heap s') l = Some b'
    /\ has_plain (heap s') b' k = true
    /\ get_plain (heap s') b' k = v
    /\ forall k',
         stable_key b k' = true ->
         key_alias (heap s) b k k' = false ->
         has_plain (heap s') b' k' = has_plain (heap s) b k'
         /\ get_plain (heap s') b' k' = get_plain (heap s) b k'.
Proof.
  intros Hb Hkeyed Hk _ H. unfold set_ in H.
  apply bind_Ok_inv in H as (s1 & o & H1 & H).
  unfold heap_lookup in H1. destruct (heap s !! l) as [o'|] eqn:Hl; [|discriminate].
  inversion H1; subst s1 o'. clear H1.
  apply bind_Ok_inv in H as (s1 & h & H1 & H). unfold gets in H1. inversion H1; subst s1 h.
  clear H1. unfold body_of in Hb. rewrite Hl in Hb. destruct o as [ob fr gu].
  simpl in Hb. injection Hb as ->.
  assert (Hlt : l < length (heap s)) by (eapply lookup_lt_Some; eauto).
  simpl o_body in H.
  destruct b as [ps|es ex|ents|es|ps|]; try discriminate.
  - simpl in H. apply store_props_Ok in H as (o1 & Ho1 & _ & ->). simpl heap.
    rewrite body_of_insert by assumption. eexists. split; [reflexivity|].
    destruct k as [pk| | |]; try discriminate.
    match goal with |- context [has_plain ?h _ _] => set (h' := h) end.
    unfold has_plain, get_plain.
    rewrite (pkey_of_value_prim h' (heap s) pk).
    unfold has_own, read_prop. simpl.
    rewrite (assoc_get_set_same pkey_eqb pkey_eqb_refl).
    split; [reflexivity|]. split; [reflexivity|].
    intros k' Hk' Ha. destruct k' as [pk'| | |]; try discriminate.
    unfold key_alias in Ha.
    rewrite (pkey_of_value_prim h' (heap s) pk'). unfold has_own, read_prop. simpl.
    rewrite (assoc_get_set_other pkey_eqb pkey_eqb_sym pkey_eqb_trans) by exact Ha.
    split; reflexivity.
  - simpl in H. apply store_coll_Ok in H as (o1 & Ho1 & _ & ->). simpl.
    rewrite body_of_insert by assumption. eexists. split; [reflexivity|]. simpl.
    unfold assoc_has.
    rewrite (assoc_get_set_same same_value_zero same_value_zero_refl).
    split; [reflexivity|]. split; [reflexivity|].
    intros k' _ Ha. unfold key_alias in Ha. unfold assoc_has.
    rewrite (assoc_get_set_other same_value_zero same_value_zero_sym
               same_value_zero_trans) by exact Ha.
    split; reflexivity.
Qed.

Lemma set_then_get_plain_witness :
  exists b',
    body_of (heap (fst (set_ 0 (VStr "b") (VNum 2) unit_store))) 0 = Some b'
    /\ has_plain (heap (fst (set_ 0 (VStr "b") (VNum 2) unit_store))) b' (VStr "b") = true
    /\ get_plain (heap (fst (set_ 0 (VStr "b") (VNum 2) unit_store))) b' (VStr "b") = VNum 2
    /\ forall k',
         stable_key (BRecord [(KStr "a", VNum 1)]) k' = true ->
         key_alias (heap unit_store) (BRecord [(KStr "a", VNum 1)]) (VStr "b") k' = false ->
         has_plain (heap (fst (set_ 0 (VStr "b") (VNum 2) unit_store))) b' k'
         = has_plain (heap unit_store) (BRecord [(KStr "a", VNum 1)]) k'
         /\ get_plain (heap (fst (set_ 0 (VStr "b") (VNum 2) unit_store))) b' k'
            = get_plain (heap unit_store) (BRecord [(KStr "a", VNum 1)]) k'.
Proof.
  apply (set_then_get_plain 0 (VStr "b") (VNum 2) (BRecord [(KStr "a", VNum 1)])
           unit_store); try reflexivity.
  vm_compute. discriminate.
Defined.

(** * Reading and writing through the draft of a record or sequence *)

Lemma proto_lookup_accessor b p :
  proto_lookup b p = Some ProtoAccessor -> p = KStr "__proto__".
Proof.
  unfold proto_lookup.
  destruct b; try discriminate; destruct p as [s|i]; try discriminate;
    destruct (String.eqb s "constructor"); try discriminate;
    destruct (String.eqb s "__proto__") eqn:E; try discriminate;
    apply String.eqb_eq in E; subst; reflexivity.
Qed.

Lemma has_own_read b p : has_own b p = true -> own_prop b p = Some (read_prop b p).
Proof.
  unfold has_own, read_prop. destruct (own_prop b p); [reflexivity | discriminate].
Qed.

(** A read through a draft that finds a value which is not draftable
    returns it and changes nothing. *)
Lemma proxy_get_value d p s st src :
  drafts s !! d = Some st -> revoked_ st = false ->
  body_of (heap s) (latest st) = Some src ->
  p <> KStr "__proto__" ->
  isDraftable_in (heap s) (read_prop src p) = false ->
  proxy_get d p s = (s, Ok (read_prop src p)).
Proof.
  intros Hd Hr Hsrc Hp Hnd. unfold proxy_get.
  rewrite (bind_ok _ _ _ _ _ (proxy_state_lookup _ _ _ Hd Hr)).
  unfold objectTraps_get.
  rewrite (bind_ok _ _ _ _ _ (get_state_lookup _ _ _ Hd)).
  rewrite (bind_ok _ _ _ _ _ (body_at_lookup _ _ _ Hsrc)).
  destruct (has_own src p) eqn:Ho; cbn [negb].
  - unfold isDraftable. rewrite (bind_ok _ _ s s false) by (unfold gets; rewrite Hnd; reflexivity).
    rewrite orb_true_r. reflexivity.
  - unfold readPropFromProto, getDescriptorFromProto, has_in, read_prop.
    rewrite Ho. unfold has_own in Ho.
    destruct (own_prop src p); [discriminate|].
    destruct (proto_lookup src p) as [[v0|]|] eqn:Ep; simpl; try reflexivity.
    apply proto_lookup_accessor in Ep. contradiction.
Qed.

Lemma write_read b p v b' :
  write_prop b p v = Some b' -> props_like b = true ->
  same_value_zero (read_prop b' p) v = true /\ props_like b' = true.
Proof.
  destruct b as [ps|es ex| | |ps|]; try discriminate; simpl; intros H _.
  - inversion H; subst. split; [|reflexivity]. unfold read_prop. simpl.
    rewrite (assoc_get_set_same pkey_eqb pkey_eqb_refl). apply same_value_zero_refl.
  - destruct p as [s|i].
    + destruct (String.eqb s "length") eqn:El.
      * destruct v as [[| | |z| | | |]| | |]; try discriminate.
        -- destruct (0 <=? z)%Z eqn:Ez; [|discriminate]. inversion H; subst.
           split; [|reflexivity]. unfold read_prop. simpl. rewrite El.
           rewrite length_app, length_take, length_replicate.
           apply Z.leb_le in Ez.
           replace (Z.of_nat (Z.to_nat z `min` length es + (Z.to_nat z - length es)))
             with z by lia.
           apply same_value_zero_refl.
        -- inversion H; subst. split; [|reflexivity]. unfold read_prop. simpl.
           rewrite El. reflexivity.
      * inversion H; subst. split; [|reflexivity]. unfold read_prop. simpl. rewrite El.
        rewrite (assoc_get_set_same pkey_eqb pkey_eqb_refl). apply same_value_zero_refl.
    + destruct (i <? length es) eqn:Ei; inversion H; subst; (split; [|reflexivity]);
        unfold read_prop; simpl.
      * apply Nat.ltb_lt in Ei. rewrite list_lookup_insert_eq by assumption.
        apply same_value_zero_refl.
      * apply Nat.ltb_ge in Ei. rewrite lookup_app_r by assumption.
        rewrite lookup_app_r by (rewrite length_replicate; lia).
        rewrite length_replicate, Nat.sub_diag. apply same_value_zero_refl.
  - inversion H; subst. split; [|reflexivity]. unfold read_prop. simpl.
    rewrite (assoc_get_set_same pkey_eqb pkey_eqb_refl). apply same_value_zero_refl.
Qed.

Lemma copy_body_props_like b : props_like b = true -> props_like (copy_body b) = true.
Proof. destruct b; simpl; congruence. Qed.

Lemma copy_read_Ok d p s s' v :
  copy_read d p s = (s', Ok v) ->
  s' = s /\ exists st c cb,
    drafts s !! d = Some st /\ copy_ st = Some c
    /\ body_of (heap s) c = Some cb /\ v = read_prop cb p.
Proof.
  unfold copy_read. intros H.
  apply bind_Ok_inv in H as (s1 & c & H1 & H). apply copy_loc_Ok in H1 as (-> & st & Hd & Hc).
  apply bind_Ok_inv in H as (s1 & cb & H1 & H). apply body_at_inv in H1 as (-> & Hb).
  apply ret_Ok in H as [-> ->]. split; [reflexivity|]. exists st, c, cb. auto.
Qed.

Lemma copy_write_Ok d p v s s' :
  copy_write d p v s = (s', Ok tt) ->
  exists st c o b',
    drafts s !! d = Some st /\ copy_ st = Some c
    /\ heap s !! c = Some o /\ write_prop (o_body o) p v = Some b'
    /\ s' = with_heap (<[c := Obj b' false (o_guarded o)]> (heap s)) s.
Proof.
  unfold copy_write. intros H.
  apply bind_Ok_inv in H as (s1 & c & H1 & H). apply copy_loc_Ok in H1 as (-> & st & Hd & Hc).
  apply bind_Ok_inv in H as (s1 & cb & H1 & H). apply body_at_inv in H1 as (-> & Hb).
  destruct (write_prop cb p v) as [b'|] eqn:Ew; [|discriminate].
  apply store_props_Ok in H as (o & Ho & _ & ->).
  exists st, c, o, b'. repeat split; try assumption.
  unfold body_of in Hb. rewrite Ho in Hb. simpl in Hb. inversion Hb; subst. exact Ew.
Qed.

(** The writing end of the interceptor. *)
Lemma write_path_reads d p v k a s s2 s1 st :
  drafts s !! d = Some st -> revoked_ st = false ->
  (forall c, copy_ st = Some c ->
     exists cb, body_of (heap s) c = Some cb /\ props_like cb = true) ->
  copy_write d p v s = (s2, Ok tt) ->
  assign d k a s2 = (s1, Ok tt) ->
  reads_as s1 d p v.
Proof.
  intros Hd Hr Hwf Hw Ha.
  apply copy_write_Ok in Hw as (st' & c & o & b' & Hd' & Hc & Ho & Hwp & ->).
  rewrite Hd in Hd'. inversion Hd'; subst st'. clear Hd'.
  apply update_state_Ok in Ha as (st2 & Hd2 & ->). simpl in Hd2.
  rewrite Hd in Hd2. inversion Hd2; subst st2. clear Hd2.
  destruct (Hwf c Hc) as (cb & Hcb & Hpl).
  unfold body_of in Hcb. rewrite Ho in Hcb. simpl in Hcb. inversion Hcb; subst cb.
  destruct (write_read _ _ _ _ Hwp Hpl) as [Hsv _].
  eexists. exists b'. simpl. split; [|split; [|split]].
  - apply list_lookup_insert_eq. eapply lookup_lt_Some; eauto.
  - exact Hr.
  - unfold latest. simpl. rewrite Hc. apply body_of_insert. eapply lookup_lt_Some; eauto.
  - exact Hsv.
Qed.

Lemma set_store_reads d p v s s1 r st :
  drafts s !! d = Some st -> revoked_ st = false ->
  (forall c, copy_ st = Some c ->
     exists cb, body_of (heap s) c = Some cb /\ props_like cb = true) ->
  set_store d p v s = (s1, Ok r) ->
  reads_as s1 d p v.
Proof.
  intros Hd Hr Hwf H. unfold set_store in H.
  apply bind_Ok_inv in H as (sa & stored & H1 & H).
  apply copy_read_Ok in H1 as (-> & st' & c & cb & Hd' & Hc & Hcb & ->).
  rewrite Hd in Hd'. inversion Hd'; subst st'. clear Hd'.
  apply bind_Ok_inv in H as (sa & c' & H1 & H). apply copy_loc_Ok in H1 as (-> & _).
  apply bind_Ok_inv in H as (sa & cb' & H1 & H). apply body_at_inv in H1 as (-> & _).
  match type of H with (if ?c then _ else _) _ = _ => destruct c eqn:Ec end.
  - apply ret_Ok in H as [-> _]. exists st, cb. repeat split; try assumption.
    + unfold latest. rewrite Hc. exact Hcb.
    + unfold same_value_zero. apply orb_true_iff in Ec as [Ec|Ec].
      * apply andb_true_iff in Ec as [Ec _]. rewrite Ec. reflexivity.
      * apply andb_true_iff in Ec as [E1 E2]. rewrite E1, E2. apply orb_true_r.
  - apply bind_Ok_inv in H as (s2 & [] & Hw & H).
    apply bind_Ok_inv in H as (s3 & [] & Ha & H).
    apply ret_Ok in H as [-> _].
    eapply write_path_reads; eauto.
Qed.

(** [prepareCopy], when it returns: the draft has a copy, which holds what
    the base holds if it was made now. *)
Lemma prepareCopy_Ok d s s' :
  prepareCopy d s = (s', Ok tt) ->
  exists st,
    drafts s !! d = Some st
    /\ ((exists c, copy_ st = Some c) /\ s' = s
        \/ copy_ st = None
           /\ exists bb,
                body_of (heap s) (base_ st) = Some bb
                /\ s' = with_drafts (<[d := st_copy (Some (length (heap s))) st]> (drafts s))
                          (with_heap (heap s ++ [Obj (copy_body bb) false false]) s)).
Proof.
  unfold prepareCopy. intros H.
  apply bind_Ok_inv in H as (s1 & st & H1 & H). apply get_state_Ok in H1 as [-> Hd].
  exists st. split; [exact Hd|].
  destruct (copy_ st) as [c|] eqn:Hc.
  - apply ret_Ok in H as [-> _]. left. eauto.
  - right. split; [reflexivity|].
    apply bind_Ok_inv in H as (s1 & sc & H1 & H). apply get_scope_Ok in H1 as [-> _].
    apply bind_Ok_inv in H as (s1 & c & H1 & H). unfold shallowCopy in H1.
    apply bind_Ok_inv in H1 as (s2 & bb & H2 & H1). apply body_at_inv in H2 as [-> Hbb].
    unfold alloc in H1. inversion H1; subst s1 c. clear H1.
    apply update_state_Ok in H as (st' & Hd' & ->). simpl in Hd'.
    rewrite Hd in Hd'. inversion Hd'; subst st'. exists bb. auto.
Qed.

Lemma body_of_app h x l b : body_of h l = Some b -> body_of (h ++ x) l = Some b.
Proof.
  unfold body_of. intros H. destruct (h !! l) as [o|] eqn:E; [|discriminate].
  rewrite lookup_app_l by (eapply lookup_lt_Some; eauto). rewrite E. exact H.
Qed.

Lemma body_of_lt h l b : body_of h l = Some b -> l < length h.
Proof.
  unfold body_of. destruct (h !! l) eqn:E; [|discriminate]. intros _.
  eapply lookup_lt_Some; eauto.
Qed.

(** After [prepareCopy] a sound draft is sound and has a copy. *)
Lemma prepareCopy_sound d s s' st bb :
  drafts s !! d = Some st ->
  body_of (heap s) (base_ st) = Some bb -> props_like bb = true ->
  (forall c, copy_ st = Some c ->
     c <> base_ st /\ exists cb, body_of (heap s) c = Some cb /\ props_like cb = true) ->
  prepareCopy d s = (s', Ok tt) ->
  exists st' c cb,
    drafts s' !! d = Some st' /\ st' = st_copy (Some c) st
    /\ copy_ st' = Some c /\ c <> base_ st
    /\ body_of (heap s') c = Some cb /\ props_like cb = true
    /\ body_of (heap s') (base_ st) = Some bb
    /\ (copy_ st = None -> cb = copy_body bb).
Proof.
  intros Hd Hbb Hpl Hwf H. apply prepareCopy_Ok in H as (st0 & Hd0 & H).
  rewrite Hd in Hd0. inversion Hd0; subst st0. clear Hd0.
  destruct H as [[[c Hc] ->]|[Hc (bb' & Hbb' & ->)]].
  - destruct (Hwf c Hc) as (Hne & cb & Hcb & Hcpl).
    exists st, c, cb. repeat split; try assumption.
    + rewrite <- Hc. destruct st; reflexivity.
    + intros E. congruence.
  - rewrite Hbb in Hbb'. inversion Hbb'; subst bb'.
    pose proof (body_of_lt _ _ _ Hbb) as Hlt.
    exists (st_copy (Some (length (heap s))) st), (length (heap s)), (copy_body bb).
    simpl. repeat split.
    + apply list_lookup_insert_eq. eapply lookup_lt_Some; eauto.
    + lia.
    + unfold body_of. rewrite lookup_app_r by lia. rewrite Nat.sub_diag. reflexivity.
    + apply copy_body_props_like, Hpl.
    + apply body_of_app, Hbb.
Qed.

(** * [objectTraps.set] followed by [objectTraps.get] *)

Lemma objectTraps_set_eq d p v :
  objectTraps_set d p v
  = (state ← get_state d;
     source ← body_at (latest state);
     match getDescriptorFromProto source p with
     | Some ProtoAccessor => proto_setter v ;; ret true
     | _ => set_plain d p v state
     end).
Proof. reflexivity. Qed.

Lemma peek_ref_Ok l p s s' v :
  peek (VRef l) p s = (s', Ok v) ->
  s' = s /\ exists b, body_of (heap s) l = Some b /\ v = read_prop b p.
Proof.
  unfold peek. intros H. apply bind_Ok_inv in H as (s1 & b & H1 & H).
  apply body_at_inv in H1 as [-> Hb]. apply ret_Ok in H as [-> ->]. eauto.
Qed.

Lemma peek_ref_lookup l p s b :
  body_of (heap s) l = Some b -> peek (VRef l) p s = (s, Ok (read_prop b p)).
Proof.
  intros H. unfold peek. rewrite (bind_ok _ _ _ _ _ (body_at_lookup _ _ _ H)). reflexivity.
Qed.

Lemma set_plain_reads d p v s s1 r st bb :
  drafts s !! d = Some st -> revoked_ st = false ->
  body_of (heap s) (base_ st) = Some bb -> props_like bb = true ->
  (forall c, copy_ st = Some c ->
     c <> base_ st /\ exists cb, body_of (heap s) c = Some cb /\ props_like cb = true) ->
  set_plain d p v st s = (s1, Ok r) ->
  reads_as s1 d p v.
Proof.
  intros Hd Hr Hbb Hpl Hwf H.
  assert (Hwf' : forall c, copy_ st = Some c ->
                   exists cb, body_of (heap s) c = Some cb /\ props_like cb = true).
  { intros c Hc. apply (Hwf c Hc). }
  unfold set_plain in H. destruct (modified_ st) eqn:Hm.
  { eapply set_store_reads; eauto. }
  apply bind_Ok_inv in H as (sa & current & H1 & H).
  apply peek_ref_Ok in H1 as (-> & src & Hsrc & ->).
  apply bind_Ok_inv in H as (sa & currentState & H1 & H).
  assert (sa = s) as ->.
  { destruct (read_prop src p).
    - apply ret_Ok in H1 as [-> _]. reflexivity.
    - apply ret_Ok in H1 as [-> _]. reflexivity.
    - apply bind_Ok_inv in H1 as (sb & cst & K1 & K2).
      apply state_of_Ok in K1 as (-> & _). apply ret_Ok in K2 as [-> _]. reflexivity.
    - apply ret_Ok in H1 as [-> _]. reflexivity. }
  clear H1.
  match type of H with (if ?c then _ else _) _ = _ => destruct c eqn:Ec end.
  - apply bind_Ok_inv in H as (s2 & [] & Hw & H).
    apply bind_Ok_inv in H as (s3 & [] & Ha & H).
    apply ret_Ok in H as [-> _]. eapply write_path_reads; eauto.
  - apply bind_Ok_inv in H as (sa & baseb & H1 & H). apply body_at_inv in H1 as [-> _].
    match type of H with (if ?c then _ else _) _ = _ => destruct c eqn:Ei end.
    + apply ret_Ok in H as [-> _]. exists st, src. repeat split; try assumption.
      apply andb_true_iff in Ei as [Ei _]. apply is_eq in Ei. subst v.
      apply same_value_zero_refl.
    + apply bind_Ok_inv in H as (s2 & [] & Hpc & H).
      apply bind_Ok_inv in H as (s3 & [] & Hmc & H).
      destruct (prepareCopy_sound d s s2 st bb Hd Hbb Hpl Hwf Hpc)
        as (st2 & c & cb & Hd2 & Est2 & Hc2 & _ & Hcb & Hcpl & _).
      apply markChanged_Ok in Hmc as [Hbk _].
      destruct (bookkeeping_lookup _ _ _ _ Hbk Hd2) as (st3 & Hd3 & Hcore).
      destruct Hcore as (_&_&_&_&_&Hc3&_&Hr3&_).
      destruct Hbk as (Hh3&_).
      eapply (set_store_reads d p v s3 s1 r st3); eauto.
      * rewrite Hr3, Est2. exact Hr.
      * intros c' Hc'. rewrite Hc3, Hc2 in Hc'. inversion Hc'; subst c'.
        exists cb. rewrite Hh3. auto.
Qed.

Lemma objectTraps_set_reads d p v s s1 r st bb :
  drafts s !! d = Some st -> revoked_ st = false ->
  body_of (heap s) (base_ st) = Some bb -> props_like bb = true ->
  (forall c, copy_ st = Some c ->
     c <> base_ st /\ exists cb, body_of (heap s) c = Some cb /\ props_like cb = true) ->
  p <> KStr "__proto__" ->
  objectTraps_set d p v s = (s1, Ok r) ->
  reads_as s1 d p v.
Proof.
  intros Hd Hr Hbb Hpl Hwf Hp H. rewrite objectTraps_set_eq in H.
  apply bind_Ok_inv in H as (sa & st' & H1 & H). apply get_state_Ok in H1 as [-> Hd'].
  rewrite Hd in Hd'. inversion Hd'; subst st'. clear Hd'.
  apply bind_Ok_inv in H as (sa & src & H1 & H). apply body_at_inv in H1 as [-> Hsrc].
  destruct (getDescriptorFromProto src p) as [[v0|]|] eqn:Eg.
  - eapply set_plain_reads; eauto.
  - unfold getDescriptorFromProto in Eg. destruct (negb (has_in src p)); [discriminate|].
    apply proto_lookup_accessor in Eg. contradiction.
  - eapply set_plain_reads; eauto.
Qed.

(** X3.  On the draft of a record or sequence, a write of a primitive value
    under a key other than [__proto__], when it returns, is followed by a
    read of that key that returns the value written (up to the sign of
    zero, when the draft held the other zero already) and changes nothing.
    The value written to the [length] of a sequence is a number, which is
    stored as it is. *)
Theorem proxy_set_then_get
    (d : did) (p : pkey) (pv : prim) (s s1 : state) (r : bool) (st : ImmerState) :
  sound_draft s d ->
  drafts s !! d = Some st ->
  isDraftable_in (heap s) (VRef (base_ st)) = true ->
  p <> KStr "__proto__" ->
  (type_ st = AArray -> p = KStr "length" -> length_value pv = true) ->
  proxy_set d p (VPrim pv) s = (s1, Ok r) ->
  exists v',
    proxy_get d p s1 = (s1, Ok v') /\ same_value_zero v' (VPrim pv) = true.
Proof.
  intros (st2 & bb & Hd2 & Hbb & Hpl & Hwf) Hd _ Hp _ H.
  rewrite Hd in Hd2. inversion Hd2; subst st2. clear Hd2. unfold proxy_set in H.
  apply bind_Ok_inv in H as (sa & st' & H1 & H).
  apply proxy_state_Ok in H1 as (-> & Hd' & Hr).
  rewrite Hd in Hd'. inversion Hd'; subst st'. clear Hd'.
  assert (Hset : objectTraps_set d p (VPrim pv) s = (s1, Ok r)).
  { destruct (type_ st); try exact H. unfold arrayTraps_set in H.
    destruct (negb (pkey_eqb p (KStr "length")) && parseInt_isNaN p); [discriminate|].
    exact H. }
  destruct (objectTraps_set_reads d p _ s s1 r st bb Hd Hr Hbb Hpl Hwf Hp Hset)
    as (st1 & src & Hd1 & Hr1 & Hsrc & Hsv).
  exists (read_prop src p). split; [|exact Hsv].
  apply (proxy_get_value d p s1 st1 src Hd1 Hr1 Hsrc Hp).
  rewrite (same_value_zero_draftable _ _ _ Hsv). reflexivity.
Qed.

Lemma proxy_set_then_get_witness :
  exists v',
    proxy_get 0 (KStr "a") (fst (proxy_set 0 (KStr "a") (VNum 5) unit_draft_store))
    = (fst (proxy_set 0 (KStr "a") (VNum 5) unit_draft_store), Ok v')
    /\ same_value_zero v' (VNum 5) = true.
Proof.
  refine (proxy_set_then_get 0 (KStr "a") (PNum 5) unit_draft_store _ true
            (new_state AObject 0 None 0) _ _ _ _ _ _).
  - eexists. eexists. split; [reflexivity|]. split; [reflexivity|]. split; [reflexivity|].
    intros c Hc. discriminate.
  - reflexivity.
  - reflexivity.
  - discriminate.
  - intros H. discriminate H.
  - vm_compute. reflexivity.
Defined.

(** X4.  On an unmodified draft of a record or sequence, writing under one
    of its own keys the value it holds there (anything but a draft; if it
    is [undefined] the base must have the key) returns true and changes
    nothing: the draft stays unmodified and no copy is made. *)
Theorem proxy_set_same_value
    (d : did) (p : pkey) (v : jsval) (s : state) (st : ImmerState) (src bb : body) :
  drafts s !! d = Some st ->
  revoked_ st = false ->
  modified_ st = false ->
  body_of (heap s) (latest st) = Some src ->
  body_of (heap s) (base_ st) = Some bb ->
  own_prop src p = Some v ->
  isDraft v = false ->
  v <> VUndef \/ has_own bb p = true ->
  p <> KStr "__proto__" ->
  (type_ st = AArray -> p = KStr "length" \/ parseInt_isNaN p = false) ->
  proxy_set d p v s = (s, Ok true).
Proof.
  intros Hd Hr Hm Hsrc Hbb Hown Hnd Hdef Hp Harr.
  unfold proxy_set. rewrite (bind_ok _ _ _ _ _ (proxy_state_lookup _ _ _ Hd Hr)).
  assert (Hset : objectTraps_set d p v s = (s, Ok true)).
  { rewrite objectTraps_set_eq.
    rewrite (bind_ok _ _ _ _ _ (get_state_lookup _ _ _ Hd)).
    rewrite (bind_ok _ _ _ _ _ (body_at_lookup _ _ _ Hsrc)).
    assert (Hplain : set_plain d p v st s = (s, Ok true)).
    { unfold set_plain. rewrite Hm.
      rewrite (bind_ok _ _ _ _ _ (peek_ref_lookup _ p _ _ Hsrc)).
      unfold read_prop. rewrite Hown.
      assert (Hcs : (match v with
                     | VDraft c => cst ← state_of c; ret (Some cst)
                     | _ => ret None
                     end) s = (s, Ok None)).
      { destruct v; try reflexivity. discriminate. }
      rewrite (bind_ok _ _ _ _ _ Hcs).
      rewrite (bind_ok _ _ _ _ _ (body_at_lookup _ _ _ Hbb)).
      rewrite (proj2 (is_eq v v) eq_refl).
      assert (Hc : negb (strict_eq v VUndef) || has_own bb p = true).
      { destruct Hdef as [Hne|Hb]; [|rewrite Hb; apply orb_true_r].
        destruct (strict_eq v VUndef) eqn:E; [|reflexivity].
        apply strict_eq_spec in E. destruct E as [[E _]|[_ E]]; [contradiction|discriminate]. }
      rewrite Hc. reflexivity. }
    destruct (getDescriptorFromProto src p) as [[v0|]|] eqn:Eg; try exact Hplain.
    unfold getDescriptorFromProto in Eg. destruct (negb (has_in src p)); [discriminate|].
    apply proto_lookup_accessor in Eg. contradiction. }
  destruct (type_ st) eqn:Et; try exact Hset.
  unfold arrayTraps_set. destruct (Harr eq_refl) as [->|Hn].
  - exact Hset.
  - rewrite Hn, andb_false_r. exact Hset.
Qed.

Lemma proxy_set_same_value_witness :
  proxy_set 0 (KStr "a") (VNum 1) unit_draft_store = (unit_draft_store, Ok true).
Proof.
  refine (proxy_set_same_value 0 (KStr "a") (VNum 1) unit_draft_store
            (new_state AObject 0 None 0)
            (BRecord [(KStr "a", VNum 1)]) (BRecord [(KStr "a", VNum 1)])
            _ _ _ _ _ _ _ _ _ _); try reflexivity.
  - left. discriminate.
  - discriminate.
  - discriminate.
Defined.

(** * The drafts of nested objects *)

Lemma createProxy_Ok v p s s' r :
  createProxy v (Some p) s = (s', Ok r) ->
  exists base b stp sc ds,
    v = VRef base /\ body_of (heap s) base = Some b
    /\ drafts s !! p = Some stp
    /\ scopes s !! scope_ stp = Some sc /\ sdrafts_ sc = Some ds
    /\ r = VDraft (length (drafts s))
    /\ s' = with_scopes
              (<[scope_ stp := sc_drafts (Some (ds ++ [length (drafts s)])) sc]> (scopes s))
              (with_drafts
                 (drafts s ++ [new_state (body_archtype b) base (Some p) (scope_ stp)]) s).
Proof.
  unfold createProxy. destruct v as [pr|base|d|bi]; try discriminate.
  unfold body_at, heap_lookup, get_state, get_scope, mbind, M_bind, bind, body_of.
  destruct (heap s !! base) as [o|] eqn:Eo; [|discriminate]. simpl.
  destruct (drafts s !! p) as [stp|] eqn:Ep; [|discriminate]. simpl.
  destruct (scopes s !! scope_ stp) as [sc|] eqn:Esc; [|discriminate]. simpl.
  destruct (sdrafts_ sc) as [ds|] eqn:Eds; [|discriminate]. simpl.
  unfold update_scope, get_scope, mbind, M_bind, bind. simpl. rewrite Esc. simpl.
  intros H. inversion H; subst. exists base, (o_body o), stp, sc, ds.
  repeat split; try assumption. rewrite Eo. reflexivity.
Qed.

Lemma read_prop_draft_own b p c : read_prop b p = VDraft c -> has_own b p = true.
Proof.
  unfold read_prop, has_own. destruct (own_prop b p); [reflexivity|].
  destruct (proto_lookup b p) as [[v|]|] eqn:E; try discriminate.
  intros ->. unfold proto_lookup in E.
  destruct b; try discriminate; destruct p; try discriminate;
    destruct (String.eqb _ "constructor"); try discriminate;
    destruct (String.eqb _ "__proto__"); discriminate.
Qed.

Lemma strict_eq_draft c y : isDraft y = false -> strict_eq (VDraft c) y = false.
Proof. destruct y; try reflexivity. discriminate. Qed.

(** X5.  When a read through the draft of a record or sequence returns a
    draft, reading the same key again returns the same draft and changes
    nothing: the draft of a nested object is made once. *)
Theorem proxy_get_child_stable
    (d : did) (p : pkey) (c : did) (s s1 : state) (st : ImmerState) (bb : body) :
  drafts s !! d = Some st ->
  body_of (heap s) (base_ st) = Some bb -> props_like bb = true ->
  (forall l, copy_ st = Some l ->
     l <> base_ st /\ exists cb, body_of (heap s) l = Some cb /\ props_like cb = true) ->
  isDraft (read_prop bb p) = false ->
  proxy_get d p s = (s1, Ok (VDraft c)) ->
  proxy_get d p s1 = (s1, Ok (VDraft c)).
Proof.
  intros Hd Hbb Hpl Hwf Hbase H.
  pose proof H as Hfirst. unfold proxy_get in H.
  apply bind_Ok_inv in H as (sa & st' & H1 & H).
  apply proxy_state_Ok in H1 as (-> & Hd' & Hr).
  rewrite Hd in Hd'. inversion Hd'; subst st'. clear Hd'.
  unfold objectTraps_get in H.
  apply bind_Ok_inv in H as (sa & st' & H1 & H). apply get_state_Ok in H1 as [-> Hd'].
  rewrite Hd in Hd'. inversion Hd'; subst st'. clear Hd'.
  apply bind_Ok_inv in H as (sa & src & H1 & H). apply body_at_inv in H1 as [-> Hsrc].
  destruct (has_own src p) eqn:Ho; cbn [negb] in H.
  2:{ (* an inherited property is no draft *)
    unfold readPropFromProto in H.
    destruct (getDescriptorFromProto src p) as [[v0|]|] eqn:Eg.
    - apply ret_Ok in H as [_ E]. unfold getDescriptorFromProto in Eg.
      destruct (negb (has_in src p)); [discriminate|]. unfold proto_lookup in Eg.
      destruct src; try discriminate; destruct p; try discriminate;
        destruct (String.eqb _ "constructor"); try (inversion Eg; subst; discriminate);
        destruct (String.eqb _ "__proto__"); discriminate.
    - apply bind_Ok_inv in H as (sa & st' & H1 & H).
      apply bind_Ok_inv in H as (sb & b & H2 & H). apply ret_Ok in H as [_ E]. discriminate.
    - apply ret_Ok in H as [_ E]. discriminate. }
  apply bind_Ok_inv in H as (sa & draftable & H1 & H).
  unfold isDraftable, gets in H1. inversion H1; subst sa draftable. clear H1.
  destruct (finalized_ st || negb (isDraftable_in (heap s) (read_prop src p))) eqn:Ef.
  { apply ret_Ok in H as [-> _]. exact Hfirst. }
  apply bind_Ok_inv in H as (sa & original & H1 & H).
  apply peek_ref_Ok in H1 as (-> & bb' & Hbb' & ->).
  rewrite Hbb in Hbb'. inversion Hbb'; subst bb'. clear Hbb'.
  destruct (strict_eq (read_prop src p) (read_prop bb p)) eqn:Eq.
  2:{ apply ret_Ok in H as [-> _]. exact Hfirst. }
  (* the draft is made now *)
  apply bind_Ok_inv in H as (s2 & [] & Hpc & H).
  apply bind_Ok_inv in H as (s3 & draft & Hcp & H).
  apply bind_Ok_inv in H as (s4 & [] & Hcw & H).
  apply ret_Ok in H as [-> ->].
  destruct (prepareCopy_sound d s s2 st bb Hd Hbb Hpl Hwf Hpc)
    as (st2 & cl & cb & Hd2 & Est2 & Hc2 & Hne & Hcb & Hcpl & Hbb2 & _).
  apply createProxy_Ok in Hcp
    as (base & b & stp & sc & ds & _ & _ & Hp2 & _ & _ & Edraft & ->).
  subst draft.
  apply copy_write_Ok in Hcw as (st3 & cl' & o & b' & Hd3 & Hc3 & Hlo & Hwp & ->).
  simpl in Hd3, Hlo.
  assert (Hlt : d < length (drafts s2)) by (eapply lookup_lt_Some; eauto).
  rewrite lookup_app_l in Hd3 by assumption.
  rewrite Hd2 in Hd3. inversion Hd3; subst st3. clear Hd3.
  rewrite Hc2 in Hc3. inversion Hc3; subst cl'. clear Hc3.
  unfold body_of in Hcb. rewrite Hlo in Hcb. simpl in Hcb. inversion Hcb as [Eo].
  rewrite <- Eo in Hcpl.
  destruct (write_read _ _ _ _ Hwp Hcpl) as [Hsv _].
  apply same_value_zero_spec in Hsv. destruct Hsv as [Hsv|[_ Hz]]; [|discriminate].
  set (s1 := with_heap _ _).
  assert (Hd1 : drafts s1 !! d = Some st2).
  { unfold s1. simpl. rewrite lookup_app_l by assumption. exact Hd2. }
  assert (Hr2 : revoked_ st2 = false) by (rewrite Est2; exact Hr).
  assert (Hsrc1 : body_of (heap s1) (latest st2) = Some b').
  { unfold latest. rewrite Hc2. unfold s1. simpl. apply body_of_insert.
    eapply lookup_lt_Some; eauto. }
  unfold proxy_get. rewrite (bind_ok _ _ _ _ _ (proxy_state_lookup _ _ _ Hd1 Hr2)).
  unfold objectTraps_get.
  rewrite (bind_ok _ _ _ _ _ (get_state_lookup _ _ _ Hd1)).
  rewrite (bind_ok _ _ _ _ _ (body_at_lookup _ _ _ Hsrc1)).
  rewrite (read_prop_draft_own _ _ _ Hsv). cbn [negb]. rewrite Hsv.
  unfold isDraftable. rewrite (bind_ok _ _ s1 s1 true) by reflexivity.
  apply orb_false_iff in Ef as [Ef _].
  replace (finalized_ st2) with false by (rewrite Est2; simpl; congruence).
  cbn [orb negb].
  assert (Hbb1 : body_of (heap s1) (base_ st2) = Some bb).
  { rewrite Est2. unfold s1. simpl. rewrite body_of_insert_ne by assumption. exact Hbb2. }
  rewrite (bind_ok _ _ _ _ _ (peek_ref_lookup _ p _ _ Hbb1)).
  rewrite (strict_eq_draft _ _ Hbase). reflexivity.
Qed.

Lemma proxy_get_child_stable_witness :
  proxy_get 0 (KStr "a") (fst (proxy_get 0 (KStr "a") nested_draft_store))
  = (fst (proxy_get 0 (KStr "a") nested_draft_store), Ok (VDraft 1)).
Proof.
  refine (proxy_get_child_stable 0 (KStr "a") 1 nested_draft_store _
            (new_state AObject 0 None 0)
            (BRecord [(KStr "a", VRef 1); (KStr "b", VNum 1)]) _ _ _ _ _ _);
    try reflexivity.
  all: intros l Hl; discriminate.
Defined.

(** * The drafts of maps and sets *)

(** ** No operation of a draft revokes a draft *)

Lemma Alive_heap_blind d : heap_blind (Alive d).
Proof. intros h s H. exact H. Qed.

Lemma Alive_update_state d x f :
  (forall st, revoked_ (f st) = revoked_ st) -> keeps (Alive d) (update_state x f).
Proof.
  intros Hf s (st0 & H0 & Hr). rewrite update_state_fst.
  destruct (drafts s !! x) as [st|] eqn:Hst; [|exists st0; auto].
  simpl. unfold Alive. simpl.
  destruct (decide (d = x)) as [->|Hne].
  - rewrite list_lookup_insert_eq by (eapply lookup_lt_Some; eauto).
    rewrite H0 in Hst. inversion Hst; subst. eexists. split; [reflexivity|].
    rewrite Hf. exact Hr.
  - rewrite list_lookup_insert_ne by congruence. eauto.
Qed.

Lemma Alive_createProxy d v p : keeps (Alive d) (createProxy v (Some p)).
Proof.
  intros s Hs. destruct (createProxy_fst v p s) as [->|H]; [assumption|].
  destruct H as (base & b & stp & sc & ds & _ & _ & _ & _ & _ & ->).
  destruct Hs as (st0 & H0 & Hr). exists st0. split; [|exact Hr]. simpl.
  rewrite lookup_app_l; [exact H0|]. eapply lookup_lt_Some; eauto.
Qed.

Section AliveOperations.
Variable d : did.

Lemma Alive_alloc b : keeps (Alive d) (alloc b).
Proof. apply keeps_heap_only; [apply Alive_heap_blind | apply heap_only_alloc]. Qed.

Lemma Alive_install_copy x b : keeps (Alive d) (install_copy x b).
Proof.
  unfold install_copy. apply keeps_bind; [apply Alive_alloc | intros c].
  apply Alive_update_state. reflexivity.
Qed.

Lemma Alive_copy_write x p v : keeps (Alive d) (copy_write x p v).
Proof. apply keeps_heap_only; [apply Alive_heap_blind | apply heap_only_copy_write]. Qed.

Lemma Alive_copy_delete x p : keeps (Alive d) (copy_delete x p).
Proof. apply keeps_heap_only; [apply Alive_heap_blind | apply heap_only_copy_delete]. Qed.

Lemma Alive_map_copy_update x f : keeps (Alive d) (map_copy_update x f).
Proof. apply keeps_heap_only; [apply Alive_heap_blind | apply heap_only_map_copy_update]. Qed.

Lemma Alive_set_copy_update x f : keeps (Alive d) (set_copy_update x f).
Proof. apply keeps_heap_only; [apply Alive_heap_blind | apply heap_only_set_copy_update]. Qed.

Lemma Alive_set_assigned x g : keeps (Alive d) (set_assigned x g).
Proof. apply Alive_update_state. reflexivity. Qed.

Lemma Alive_set_drafts x g : keeps (Alive d) (set_drafts x g).
Proof. apply Alive_update_state. reflexivity. Qed.

Lemma Alive_markChanged x : keeps (Alive d) (markChanged x).
Proof. apply keeps_markChanged_from. intros y. apply Alive_update_state. reflexivity. Qed.

Lemma Alive_prepareMapCopy x : keeps (Alive d) (prepareMapCopy x).
Proof.
  apply keeps_prepareMapCopy;
    auto using Alive_alloc, Alive_install_copy, Alive_set_assigned.
Qed.

Lemma Alive_prepareSetCopy x : keeps (Alive d) (prepareSetCopy x).
Proof.
  apply keeps_prepareSetCopy;
    auto using Alive_alloc, Alive_install_copy, Alive_set_copy_update, Alive_set_drafts,
      Alive_createProxy.
Qed.

Lemma Alive_assign x k a : keeps (Alive d) (assign x k a).
Proof. apply Alive_set_assigned. Qed.

Lemma Alive_unassign x k : keeps (Alive d) (unassign x k).
Proof. apply Alive_set_assigned. Qed.

Lemma Alive_each fuel l iter :
  (forall k v, keeps (Alive d) (iter k v)) -> keeps (Alive d) (each fuel l iter).
Proof. apply keeps_each. Qed.

End AliveOperations.

(** [keeps], at a step that returned. *)
Lemma keeps_Ok {A} (I : state -> Prop) (m : M A) s s' r :
  keeps I m -> I s -> m s = (s', r) -> I s'.
Proof. intros Hk Hs H. specialize (Hk s Hs). rewrite H in Hk. exact Hk. Qed.

Lemma assertUnrevoked_Ok st s s' :
  assertUnrevoked st s = (s', Ok tt) -> s' = s /\ revoked_ st = false.
Proof.
  unfold assertUnrevoked. destruct (revoked_ st); [discriminate|].
  intros H. inversion H. auto.
Qed.

Lemma assertUnrevoked_lookup st s :
  revoked_ st = false -> assertUnrevoked st s = (s, Ok tt).
Proof. intros H. unfold assertUnrevoked. rewrite H. reflexivity. Qed.

Lemma map_copy_update_Ok d f s s' :
  map_copy_update d f s = (s', Ok tt) ->
  exists st c o,
    drafts s !! d = Some st /\ copy_ st = Some c /\ heap s !! c = Some o
    /\ s' = with_heap
              (<[c := Obj (BMap (f (map_entries (o_body o)))) (o_frozen o) false]> (heap s)) s.
Proof.
  unfold map_copy_update. intros H.
  apply bind_Ok_inv in H as (s1 & c & H1 & H). apply copy_loc_Ok in H1 as (-> & st & Hd & Hc).
  apply bind_Ok_inv in H as (s1 & cb & H1 & H). apply body_at_inv in H1 as (-> & Hb).
  apply store_coll_Ok in H as (o & Ho & _ & ->).
  exists st, c, o. repeat split; try assumption.
  unfold body_of in Hb. rewrite Ho in Hb. simpl in Hb. inversion Hb. reflexivity.
Qed.

Lemma set_copy_update_Ok d f s s' :
  set_copy_update d f s = (s', Ok tt) ->
  exists st c o,
    drafts s !! d = Some st /\ copy_ st = Some c /\ heap s !! c = Some o
    /\ s' = with_heap
              (<[c := Obj (BSet (f (set_elems (o_body o)))) (o_frozen o) false]> (heap s)) s.
Proof.
  unfold set_copy_update. intros H.
  apply bind_Ok_inv in H as (s1 & c & H1 & H). apply copy_loc_Ok in H1 as (-> & st & Hd & Hc).
  apply bind_Ok_inv in H as (s1 & cb & H1 & H). apply body_at_inv in H1 as (-> & Hb).
  apply store_coll_Ok in H as (o & Ho & _ & ->).
  exists st, c, o. repeat split; try assumption.
  unfold body_of in Hb. rewrite Ho in Hb. simpl in Hb. inversion Hb. reflexivity.
Qed.

(** What a read of a map draft does when the entry holds a value that is
    not draftable. *)
Lemma DraftMap_get_value d k s st b :
  drafts s !! d = Some st -> revoked_ st = false ->
  body_of (heap s) (latest st) = Some b ->
  isDraftable_in (heap s) (default VUndef (assoc_get same_value_zero k (map_entries b)))
  = false ->
  DraftMap_get d k s
  = (s, Ok (default VUndef (assoc_get same_value_zero k (map_entries b)))).
Proof.
  intros Hd Hr Hb Hnd. unfold DraftMap_get.
  rewrite (bind_ok _ _ _ _ _ (get_state_lookup _ _ _ Hd)).
  rewrite (bind_ok _ _ _ _ _ (assertUnrevoked_lookup _ _ Hr)).
  rewrite (bind_ok _ _ _ _ _ (body_at_lookup _ _ _ Hb)).
  unfold isDraftable. rewrite (bind_ok _ _ s s false) by (unfold gets; rewrite Hnd; reflexivity).
  rewrite orb_true_r. reflexivity.
Qed.

Lemma DraftMap_has_value d k s st b :
  drafts s !! d = Some st -> body_of (heap s) (latest st) = Some b ->
  DraftMap_has d k s = (s, Ok (assoc_has same_value_zero k (map_entries b))).
Proof.
  intros Hd Hb. unfold DraftMap_has.
  rewrite (bind_ok _ _ _ _ _ (get_state_lookup _ _ _ Hd)).
  rewrite (bind_ok _ _ _ _ _ (body_at_lookup _ _ _ Hb)). reflexivity.
Qed.

(** X6.  On a map draft, [set(k, v)] of a primitive value, when it returns,
    is followed by [has(k)] answering true and [get(k)] answering the value
    written (up to the sign of zero, when the draft held the other zero
    already), both without changing anything. *)
Theorem DraftMap_set_then_get (d : did) (k : jsval) (pv : prim) (s s1 : state) :
  DraftMap_set d k (VPrim pv) s = (s1, Ok tt) ->
  DraftMap_has d k s1 = (s1, Ok true)
  /\ exists v', DraftMap_get d k s1 = (s1, Ok v')
                /\ same_value_zero v' (VPrim pv) = true.
Proof.
  intros H. unfold DraftMap_set in H.
  apply bind_Ok_inv in H as (sa & st & H1 & H). apply get_state_Ok in H1 as [-> Hd].
  apply bind_Ok_inv in H as (sa & [] & H1 & H). apply assertUnrevoked_Ok in H1 as [-> Hr].
  apply bind_Ok_inv in H as (sa & b & H1 & H). apply body_at_inv in H1 as [-> Hb].
  match type of H with (if ?c then _ else _) _ = _ => destruct c eqn:Ec end.
  - apply bind_Ok_inv in H as (s2 & [] & Hpc & H).
    apply bind_Ok_inv in H as (s3 & [] & Hmc & H).
    apply bind_Ok_inv in H as (s4 & [] & Has & H).
    apply bind_Ok_inv in H as (s5 & [] & Hup & H).
    assert (Hal : Alive d s5).
    { eapply (keeps_Ok _ _ _ _ _ (Alive_map_copy_update d d _)); [|exact Hup].
      eapply (keeps_Ok _ _ _ _ _ (Alive_assign d d _ _)); [|exact Has].
      eapply (keeps_Ok _ _ _ _ _ (Alive_markChanged d d)); [|exact Hmc].
      eapply (keeps_Ok _ _ _ _ _ (Alive_prepareMapCopy d d)); [|exact Hpc].
      exists st. auto. }
    apply map_copy_update_Ok in Hup as (st4 & c & o & Hd4 & Hc4 & Ho & ->).
    apply update_state_Ok in H as (st5 & Hd5 & ->). simpl in Hd5.
    destruct Hal as (st5' & Hd5' & Hr5). simpl in Hd5'.
    rewrite Hd5 in Hd5'. inversion Hd5'; subst st5'. clear Hd5'.
    rewrite Hd4 in Hd5. inversion Hd5; subst st5. clear Hd5.
    set (s1 := with_drafts _ _).
    set (es := assoc_set same_value_zero k (VPrim pv) (map_entries (o_body o))).
    assert (Hd1 : drafts s1 !! d
                  = Some (st_assigned (assoc_set same_value_zero k true (assigned_ st4)) st4)).
    { unfold s1. simpl. apply list_lookup_insert_eq. eapply lookup_lt_Some; eauto. }
    assert (Hb1 : body_of (heap s1)
                    (latest (st_assigned (assoc_set same_value_zero k true (assigned_ st4)) st4))
                  = Some (BMap es)).
    { unfold latest. simpl. rewrite Hc4. unfold s1. simpl. apply body_of_insert.
      eapply lookup_lt_Some; eauto. }
    assert (Hget : assoc_get same_value_zero k (map_entries (BMap es)) = Some (VPrim pv)).
    { simpl. unfold es. apply assoc_get_set_same. apply same_value_zero_refl. }
    split.
    + rewrite (DraftMap_has_value d k s1 _ _ Hd1 Hb1). unfold assoc_has. rewrite Hget.
      reflexivity.
    + exists (VPrim pv). split; [|apply same_value_zero_refl].
      rewrite (DraftMap_get_value d k s1 _ _ Hd1 Hr5 Hb1); rewrite Hget; reflexivity.
  - apply ret_Ok in H as [-> _].
    apply orb_false_iff in Ec as [E1 E2].
    apply negb_false_iff in E1. apply negb_false_iff in E2.
    assert (Hsv : same_value_zero
                    (default VUndef (assoc_get same_value_zero k (map_entries b)))
                    (VPrim pv) = true).
    { apply orb_true_iff. left. exact E2. }
    split.
    + rewrite (DraftMap_has_value d k s _ _ Hd Hb). rewrite E1. reflexivity.
    + eexists. split; [|exact Hsv].
      apply (DraftMap_get_value d k s st b Hd Hr Hb).
      rewrite (same_value_zero_draftable _ _ _ Hsv). reflexivity.
Qed.

Lemma DraftMap_set_then_get_witness :
  DraftMap_has 0 (VStr "j") (fst (DraftMap_set 0 (VStr "j") (VNum 2) map_draft_store))
  = (fst (DraftMap_set 0 (VStr "j") (VNum 2) map_draft_store), Ok true)
  /\ exists v',
       DraftMap_get 0 (VStr "j") (fst (DraftMap_set 0 (VStr "j") (VNum 2) map_draft_store))
       = (fst (DraftMap_set 0 (VStr "j") (VNum 2) map_draft_store), Ok v')
       /\ same_value_zero v' (VNum 2) = true.
Proof.
  apply (DraftMap_set_then_get 0 (VStr "j") (PNum 2) map_draft_store). vm_compute.
  reflexivity.
Defined.

(** ** Removing from map and set drafts *)

Lemma set_has_app v l l' : set_has v (l ++ l') = set_has v l || set_has v l'.
Proof.
  induction l as [|w r IH]; simpl; [reflexivity|]. rewrite IH. apply orb_assoc.
Qed.

Lemma set_has_add v l : set_has v (set_add v l) = true.
Proof.
  unfold set_add. destruct (set_has v l) eqn:E; [exact E|].
  rewrite set_has_app. simpl. rewrite same_value_zero_refl. rewrite orb_true_r. reflexivity.
Qed.

(** [prepareMapCopy] leaves the draft with a copy that holds the entries
    of what was its latest version. *)
Lemma prepareMapCopy_latest d s s' st b :
  drafts s !! d = Some st -> body_of (heap s) (latest st) = Some b ->
  prepareMapCopy d s = (s', Ok tt) ->
  exists st' c cb,
    drafts s' !! d = Some st' /\ copy_ st' = Some c /\ revoked_ st' = revoked_ st
    /\ body_of (heap s') c = Some cb /\ map_entries cb = map_entries b.
Proof.
  intros Hd Hb H. unfold prepareMapCopy in H.
  rewrite (bind_ok _ _ _ _ _ (get_state_lookup _ _ _ Hd)) in H.
  unfold latest in Hb. destruct (copy_ st) as [c|] eqn:Hc.
  - apply ret_Ok in H as [-> _]. exists st, c, b. auto.
  - apply bind_Ok_inv in H as (s2 & [] & H1 & H).
    apply update_state_Ok in H1 as (st0 & Hd0 & ->).
    rewrite Hd in Hd0. inversion Hd0; subst st0. clear Hd0.
    apply bind_Ok_inv in H as (s3 & bb & H1 & H). apply body_at_inv in H1 as [-> Hbb].
    simpl in Hbb. rewrite Hb in Hbb. inversion Hbb; subst bb. clear Hbb.
    unfold install_copy in H. apply bind_Ok_inv in H as (s3 & c & H1 & H).
    unfold alloc in H1. inversion H1; subst s3 c. clear H1.
    apply update_state_Ok in H as (st3 & Hd3 & ->). simpl in Hd3.
    rewrite list_lookup_insert_eq in Hd3 by (eapply lookup_lt_Some; eauto).
    inversion Hd3; subst st3. clear Hd3.
    eexists _, (length (heap s)), (BMap (map_entries b)). simpl.
    rewrite list_lookup_insert_eq
      by (rewrite length_insert; eapply lookup_lt_Some; eauto).
    split; [reflexivity|]. split; [reflexivity|]. split; [reflexivity|].
    split; [|reflexivity].
    unfold body_of. rewrite lookup_app_r by lia. rewrite Nat.sub_diag. reflexivity.
Qed.

(** X7.  On a set draft, when [add(v)] returned, [has(v)] answers true and
    adding [v] again changes nothing. *)
Theorem DraftSet_add_then_has (d : did) (v : jsval) (s s1 : state) :
  DraftSet_add d v s = (s1, Ok tt) ->
  DraftSet_has d v s1 = (s1, Ok true) /\ DraftSet_add d v s1 = (s1, Ok tt).
Proof.
  intros H.
  assert (Hhas : DraftSet_has d v s1 = (s1, Ok true) /\ Alive d s1).
  { unfold DraftSet_add in H.
    apply bind_Ok_inv in H as (sa & st & H1 & H). apply get_state_Ok in H1 as [-> Hd].
    apply bind_Ok_inv in H as (sa & [] & H1 & H). apply assertUnrevoked_Ok in H1 as [-> Hr].
    apply bind_Ok_inv in H as (sa & present & Hp & H).
    assert (sa = s) as -> by (eapply unchanged_Ok; [apply unchanged_DraftSet_has | exact Hp]).
    destruct present; simpl in H.
    - apply ret_Ok in H as [-> _]. split; [exact Hp | exists st; auto].
    - apply bind_Ok_inv in H as (s2 & [] & Hpc & H).
      apply bind_Ok_inv in H as (s3 & [] & Hmc & H).
      assert (Hal : Alive d s1).
      { eapply (keeps_Ok _ _ _ _ _ (Alive_set_copy_update d d _)); [|exact H].
        eapply (keeps_Ok _ _ _ _ _ (Alive_markChanged d d)); [|exact Hmc].
        eapply (keeps_Ok _ _ _ _ _ (Alive_prepareSetCopy d d)); [|exact Hpc].
        exists st. auto. }
      split; [|exact Hal].
      apply set_copy_update_Ok in H as (st3 & c & o & Hd3 & Hc3 & Ho & ->).
      destruct Hal as (st3' & Hd3' & Hr3). simpl in Hd3'.
      rewrite Hd3 in Hd3'. inversion Hd3'; subst st3'. clear Hd3'.
      unfold DraftSet_has.
      rewrite (bind_ok _ _ _ _ st3) by (apply get_state_lookup; exact Hd3).
      rewrite (bind_ok _ _ _ _ _ (assertUnrevoked_lookup _ _ Hr3)).
      rewrite Hc3.
      rewrite (bind_ok _ _ _ _ (BSet (set_add v (set_elems (o_body o)))))
        by (apply body_at_lookup; simpl; apply body_of_insert;
            eapply lookup_lt_Some; eauto).
      simpl. rewrite set_has_add. reflexivity. }
  destruct Hhas as [Hh (st1 & Hd1 & Hr1)]. split; [exact Hh|].
  unfold DraftSet_add.
  rewrite (bind_ok _ _ _ _ _ (get_state_lookup _ _ _ Hd1)).
  rewrite (bind_ok _ _ _ _ _ (assertUnrevoked_lookup _ _ Hr1)).
  rewrite (bind_ok _ _ _ _ _ Hh). reflexivity.
Qed.

Lemma DraftSet_add_then_has_witness :
  DraftSet_has 0 (VNum 2) (fst (DraftSet_add 0 (VNum 2) set_draft_store))
  = (fst (DraftSet_add 0 (VNum 2) set_draft_store), Ok true)
  /\ DraftSet_add 0 (VNum 2) (fst (DraftSet_add 0 (VNum 2) set_draft_store))
     = (fst (DraftSet_add 0 (VNum 2) set_draft_store), Ok tt).
Proof.
  apply (DraftSet_add_then_has 0 (VNum 2) set_draft_store). vm_compute. reflexivity.
Defined.

(** X8.  On a map draft whose latest version has no key twice,
    [delete(k)] answers whether the key was there; afterwards [has(k)]
    answers false, and [has] of any other key answers as before. *)
Theorem DraftMap_delete_then_absent (d : did) (k : jsval) (s s1 : state) (r : bool)
    (st : ImmerState) (b : body) :
  drafts s !! d = Some st -> body_of (heap s) (latest st) = Some b ->
  distinct_keys same_value_zero (map_entries b) ->
  DraftMap_delete d k s = (s1, Ok r) ->
  r = assoc_has same_value_zero k (map_entries b)
  /\ DraftMap_has d k s1 = (s1, Ok false)
  /\ forall k', same_value_zero k k' = false ->
       DraftMap_has d k' s1 = (s1, Ok (assoc_has same_value_zero k' (map_entries b))).
Proof.
  intros Hd Hb Hdis H. unfold DraftMap_delete in H.
  rewrite (bind_ok _ _ _ _ _ (DraftMap_has_value d k s st b Hd Hb)) in H.
  destruct (assoc_has same_value_zero k (map_entries b)) eqn:Ehas; simpl in H.
  - rewrite (bind_ok _ _ _ _ _ (get_state_lookup _ _ _ Hd)) in H.
    apply bind_Ok_inv in H as (sa & [] & H1 & H). apply assertUnrevoked_Ok in H1 as [-> Hr].
    apply bind_Ok_inv in H as (s2 & [] & Hpc & H).
    apply bind_Ok_inv in H as (s3 & [] & Hmc & H).
    apply bind_Ok_inv in H as (sa & baseb & H1 & H). apply body_at_inv in H1 as [-> Hbb].
    apply bind_Ok_inv in H as (s4 & [] & Has & H).
    apply bind_Ok_inv in H as (s5 & [] & Hup & H).
    apply ret_Ok in H as [-> ->].
    destruct (prepareMapCopy_latest d s s2 st b Hd Hb Hpc)
      as (st2 & c & cb & Hd2 & Hc2 & Hr2 & Hcb & Hes).
    apply markChanged_Ok in Hmc as [Hbk3 _].
    assert (Hbk4 : bookkeeping s3 s4).
    { destruct (assoc_has same_value_zero k (map_entries baseb));
        [eapply assign_bookkeeping | eapply unassign_bookkeeping]; exact Has. }
    pose proof (bookkeeping_trans _ _ _ Hbk3 Hbk4) as Hbk.
    destruct (bookkeeping_lookup _ _ _ _ Hbk Hd2) as (st4 & Hd4 & Hsc).
    destruct Hsc as (_&_&_&_&_&Hc4&_).
    destruct Hbk as (Hh4 & _).
    apply map_copy_update_Ok in Hup as (st4' & c' & o & Hd4' & Hc4' & Ho & ->).
    rewrite Hd4 in Hd4'. inversion Hd4'; subst st4'. clear Hd4'.
    rewrite Hc4, Hc2 in Hc4'. inversion Hc4'; subst c'. clear Hc4'.
    assert (Hob : map_entries (o_body o) = map_entries b).
    { rewrite <- Hes. unfold body_of in Hcb. rewrite <- Hh4, Ho in Hcb. simpl in Hcb.
      inversion Hcb. reflexivity. }
    rewrite Hob.
    set (s1 := with_heap _ _).
    assert (Hb1 : body_of (heap s1) (latest st4)
                  = Some (BMap (assoc_del same_value_zero k (map_entries b)))).
    { unfold latest. rewrite Hc4, Hc2. unfold s1. simpl. apply body_of_insert.
      eapply lookup_lt_Some; eauto. }
    assert (Hd1 : drafts s1 !! d = Some st4) by exact Hd4.
    split; [reflexivity|]. split.
    + rewrite (DraftMap_has_value d k s1 _ _ Hd1 Hb1). simpl. unfold assoc_has.
      rewrite (assoc_get_del_same same_value_zero same_value_zero_sym same_value_zero_trans)
        by exact Hdis.
      reflexivity.
    + intros k' Hne. rewrite (DraftMap_has_value d k' s1 _ _ Hd1 Hb1). simpl.
      unfold assoc_has.
      rewrite (assoc_get_del_other same_value_zero same_value_zero_sym same_value_zero_trans)
        by exact Hne.
      reflexivity.
  - apply ret_Ok in H as [-> ->]. split; [reflexivity|]. split.
    + rewrite (DraftMap_has_value d k s st b Hd Hb). rewrite Ehas. reflexivity.
    + intros k' _. apply (DraftMap_has_value d k' s st b Hd Hb).
Qed.

Lemma DraftMap_delete_then_absent_witness :
  true = assoc_has same_value_zero (VStr "k") [(VStr "k", VNum 1)]
  /\ DraftMap_has 0 (VStr "k") (fst (DraftMap_delete 0 (VStr "k") map_draft_store))
     = (fst (DraftMap_delete 0 (VStr "k") map_draft_store), Ok false)
  /\ forall k', same_value_zero (VStr "k") k' = false ->
       DraftMap_has 0 k' (fst (DraftMap_delete 0 (VStr "k") map_draft_store))
       = (fst (DraftMap_delete 0 (VStr "k") map_draft_store),
          Ok (assoc_has same_value_zero k' [(VStr "k", VNum 1)])).
Proof.
  refine (DraftMap_delete_then_absent 0 (VStr "k") map_draft_store _ true
            (new_state AMap 0 None 0) (BMap [(VStr "k", VNum 1)]) _ _ _ _);
    try reflexivity.
  simpl. auto.
Defined.

(** X9.  When [clear()] on a map draft returned, the draft has size 0 and
    [has] answers false for every key. *)
Theorem DraftMap_clear_empty (d : did) (s s1 : state) :
  DraftMap_clear d s = (s1, Ok tt) ->
  DraftMap_size d s1 = (s1, Ok 0)
  /\ forall k, DraftMap_has d k s1 = (s1, Ok false).
Proof.
  intros H. unfold DraftMap_clear in H.
  apply bind_Ok_inv in H as (sa & st & H1 & H). apply get_state_Ok in H1 as [-> Hd].
  apply bind_Ok_inv in H as (sa & [] & H1 & H). apply assertUnrevoked_Ok in H1 as [-> Hr].
  apply bind_Ok_inv in H as (sa & b & H1 & H). apply body_at_inv in H1 as [-> Hb].
  assert (Hgoal : forall s1 st1 b1, drafts s1 !! d = Some st1 ->
            body_of (heap s1) (latest st1) = Some b1 -> length (map_entries b1) = 0 ->
            DraftMap_size d s1 = (s1, Ok 0)
            /\ forall k, DraftMap_has d k s1 = (s1, Ok false)).
  { intros s' st' b' Hd' Hb' Hl. split.
    - unfold DraftMap_size.
      rewrite (bind_ok _ _ _ _ _ (get_state_lookup _ _ _ Hd')).
      rewrite (bind_ok _ _ _ _ _ (body_at_lookup _ _ _ Hb')). rewrite Hl. reflexivity.
    - intros k. rewrite (DraftMap_has_value d k s' _ _ Hd' Hb').
      destruct (map_entries b'); [reflexivity | discriminate]. }
  destruct (0 <? length (map_entries b)) eqn:E.
  - apply bind_Ok_inv in H as (s2 & [] & _ & H).
    apply bind_Ok_inv in H as (s3 & [] & _ & H).
    apply bind_Ok_inv in H as (s4 & [] & _ & H).
    apply bind_Ok_inv in H as (s5 & baseb & _ & H).
    apply bind_Ok_inv in H as (s6 & [] & _ & H).
    apply map_copy_update_Ok in H as (st6 & c & o & Hd6 & Hc6 & Ho & ->).
    apply (Hgoal _ st6 (BMap [])); [exact Hd6 | | reflexivity].
    unfold latest. rewrite Hc6. simpl. apply body_of_insert. eapply lookup_lt_Some; eauto.
  - apply ret_Ok in H as [-> _]. apply Nat.ltb_ge in E.
    apply (Hgoal s st b Hd Hb). lia.
Qed.

Lemma DraftMap_clear_empty_witness :
  DraftMap_size 0 (fst (DraftMap_clear 0 map_draft_store))
  = (fst (DraftMap_clear 0 map_draft_store), Ok 0)
  /\ forall k, DraftMap_has 0 k (fst (DraftMap_clear 0 map_draft_store))
               = (fst (DraftMap_clear 0 map_draft_store), Ok false).
Proof. apply (DraftMap_clear_empty 0 map_draft_store). vm_compute. reflexivity. Defined.

(** X10.  When [clear()] on a set draft returned, the draft has size 0 and
    [has] answers false for every value. *)
Theorem DraftSet_clear_empty (d : did) (s s1 : state) :
  DraftSet_clear d s = (s1, Ok tt) ->
  DraftSet_size d s1 = (s1, Ok 0)
  /\ forall v, DraftSet_has d v s1 = (s1, Ok false).
Proof.
  intros H. unfold DraftSet_clear in H.
  apply bind_Ok_inv in H as (sa & st & H1 & H). apply get_state_Ok in H1 as [-> Hd].
  apply bind_Ok_inv in H as (sa & [] & H1 & H). apply assertUnrevoked_Ok in H1 as [-> Hr].
  apply bind_Ok_inv in H as (sa & b & H1 & H). apply body_at_inv in H1 as [-> Hb].
  assert (Hgoal : forall s1 st1 b1, drafts s1 !! d = Some st1 -> revoked_ st1 = false ->
            body_of (heap s1) (latest st1) = Some b1 -> length (set_elems b1) = 0 ->
            DraftSet_size d s1 = (s1, Ok 0)
            /\ forall v, DraftSet_has d v s1 = (s1, Ok false)).
  { intros s' st' b' Hd' Hr' Hb' Hl. split.
    - unfold DraftSet_size.
      rewrite (bind_ok _ _ _ _ _ (get_state_lookup _ _ _ Hd')).
      rewrite (bind_ok _ _ _ _ _ (body_at_lookup _ _ _ Hb')). rewrite Hl. reflexivity.
    - intros v. unfold DraftSet_has.
      rewrite (bind_ok _ _ _ _ _ (get_state_lookup _ _ _ Hd')).
      rewrite (bind_ok _ _ _ _ _ (assertUnrevoked_lookup _ _ Hr')).
      unfold latest in Hb'. destruct (copy_ st') as [c|];
        rewrite (bind_ok _ _ _ _ _ (body_at_lookup _ _ _ Hb'));
        destruct (set_elems b'); try discriminate; simpl; [|reflexivity].
      destruct (assoc_get same_value_zero v (drafts_ st')); reflexivity. }
  destruct (0 <? length (set_elems b)) eqn:E.
  - apply bind_Ok_inv in H as (s2 & [] & Hpc & H).
    apply bind_Ok_inv in H as (s3 & [] & Hmc & H).
    assert (Hal : Alive d s1).
    { eapply (keeps_Ok _ _ _ _ _ (Alive_set_copy_update d d _)); [|exact H].
      eapply (keeps_Ok _ _ _ _ _ (Alive_markChanged d d)); [|exact Hmc].
      eapply (keeps_Ok _ _ _ _ _ (Alive_prepareSetCopy d d)); [|exact Hpc].
      exists st. auto. }
    apply set_copy_update_Ok in H as (st3 & c & o & Hd3 & Hc3 & Ho & ->).
    destruct Hal as (st3' & Hd3' & Hr3). simpl in Hd3'.
    rewrite Hd3 in Hd3'. inversion Hd3'; subst st3'. clear Hd3'.
    apply (Hgoal _ st3 (BSet [])); [exact Hd3 | exact Hr3 | | reflexivity].
    unfold latest. rewrite Hc3. simpl. apply body_of_insert. eapply lookup_lt_Some; eauto.
  - apply ret_Ok in H as [-> _]. apply Nat.ltb_ge in E.
    apply (Hgoal s st b Hd Hr Hb). lia.
Qed.

Lemma DraftSet_clear_empty_witness :
  DraftSet_size 0 (fst (DraftSet_clear 0 set_draft_store))
  = (fst (DraftSet_clear 0 set_draft_store), Ok 0)
  /\ forall v, DraftSet_has 0 v (fst (DraftSet_clear 0 set_draft_store))
               = (fst (DraftSet_clear 0 set_draft_store), Ok false).
Proof. apply (DraftSet_clear_empty 0 set_draft_store). vm_compute. reflexivity. Defined.

(** * The entry point *)

(** ** What a recipe cannot touch *)

Lemma Aside_heap_blind cur log : heap_blind (Aside cur log).
Proof. intros h s H. exact H. Qed.

Lemma Aside_update_state cur log d f : keeps (Aside cur log) (update_state d f).
Proof.
  intros s Hs. rewrite update_state_fst. destruct (drafts s !! d); exact Hs.
Qed.

Lemma Aside_createProxy cur log v p : keeps (Aside cur log) (createProxy v (Some p)).
Proof.
  intros s Hs. destruct (createProxy_fst v p s) as [->|H]; [assumption|].
  destruct H as (base & b & stp & sc & ds & _ & _ & _ & _ & _ & ->). exact Hs.
Qed.

Lemma Aside_run_script cur log sc : keeps (Aside cur log) (run_script sc).
Proof.
  apply keeps_run_script; intros;
    try (apply keeps_heap_only;
         [apply Aside_heap_blind
         | first [apply heap_only_alloc | apply heap_only_copy_write
                 | apply heap_only_copy_delete | apply heap_only_map_copy_update
                 | apply heap_only_set_copy_update]]).
  - unfold install_copy. apply keeps_bind; [|intros c'].
    + apply keeps_heap_only; [apply Aside_heap_blind | apply heap_only_alloc].
    + apply Aside_update_state.
  - apply Aside_update_state.
  - apply Aside_update_state.
  - apply Aside_createProxy.
  - apply keeps_markChanged_from. intros x. apply Aside_update_state.
Qed.

(** ** Leaving and revoking the scope of a run *)

Lemma leaveScope_current c0 sc0 s :
  Live c0 sc0 s ->
  leaveScope c0 s
  = (with_currentScope (scope_left c0 (sparent_ sc0) (currentScope s)) s, Ok tt).
Proof.
  intros H. unfold leaveScope, getCurrentScope, gets, mbind, M_bind, bind, scope_left.
  destruct (currentScope s) as [c|] eqn:E.
  - destruct (c =? c0).
    + rewrite (get_scope_Live _ _ _ H). reflexivity.
    + rewrite <- E, with_currentScope_id. reflexivity.
  - rewrite <- E, with_currentScope_id. reflexivity.
Qed.

Lemma revokeScope_current c0 sc0 s :
  Live c0 sc0 s ->
  revokeScope c0 s
  = ({| heap := heap s; drafts := map (st_revoked true) (drafts s);
        scopes := <[c0 := sc_drafts None sc0]> (scopes s);
        currentScope := scope_left c0 (sparent_ sc0) (currentScope s);
        delivered := delivered s |}, Ok tt).
Proof.
  intros H. pose proof (leaveScope_current _ _ _ H) as E.
  set (cur := scope_left c0 (sparent_ sc0) (currentScope s)) in *.
  unfold revokeScope.
  rewrite (bind_ok _ _ _ _ _ E).
  pose proof (Live_with_currentScope c0 sc0 cur s H) as H1.
  rewrite (bind_ok _ _ _ _ _ (get_scope_Live _ _ _ H1)).
  cbn [sdrafts_ sc_drafts].
  pose proof (revoke_seq (drafts s) [] (with_currentScope cur s) eq_refl
                (Live_unrevoked _ _ _ H)) as E2.
  simpl length in E2 at 1. simpl app in E2.
  change (drafts (with_currentScope cur s)) with (drafts s).
  rewrite (bind_ok _ _ _ _ _ E2).
  unfold update_scope, get_scope, mbind, M_bind, bind. simpl.
  destruct H as [Hsc _]. rewrite Hsc. reflexivity.
Qed.

Lemma begin_current immer base s0 s1 scope proxy :
  begin immer base s0 = (s1, Ok (scope, proxy)) ->
  scope = length (scopes s0) /\ currentScope s1 = Some scope.
Proof.
  unfold begin. intros H.
  apply bind_Ok_inv in H as (sa & c & H1 & H).
  unfold enterScope in H1. inversion H1; subst sa c. clear H1.
  apply bind_Ok_inv in H as (sb & p & H1 & H).
  apply ret_Ok in H as [-> H]. inversion H; subst. split; [reflexivity|].
  assert (Hk : keeps (fun s => currentScope s = Some (length (scopes s0)))
                 (createProxy base None)).
  { unfold createProxy. destruct base; try solve [apply keeps_unchanged; unch].
    apply keeps_bind; [apply keeps_unchanged; unch | intros b].
    apply keeps_bind; [apply keeps_unchanged; unch | intros [c|]];
      [|apply keeps_unchanged; unch].
    apply keeps_bind; [apply keeps_unchanged; unch | intros sc].
    destruct (sdrafts_ sc); [|apply keeps_unchanged; unch].
    apply keeps_bind; [apply keeps_unchanged; unch | intros d].
    apply keeps_bind; [intros s Hs; exact Hs | intros []].
    apply keeps_bind; [|intros []; apply keeps_unchanged; unch].
    intros s Hs. unfold update_scope, mbind, M_bind, bind, get_scope.
    destruct (scopes s !! c); exact Hs. }
  eapply (keeps_Ok _ _ _ _ _ Hk); [|exact H1]. reflexivity.
Qed.

(** X11.  When the recipe raises, [produce] raises the same error; by then
    every draft is revoked, the scope that was current before the call is
    current again, no patch has been delivered, and the objects are as the
    recipe left them: nothing is finalized or frozen. *)
Theorem produce_recipe_throws
    (fuel : nat) (immer : Immer) (base : jsval) (r : recipe) (listener : bool)
    (s0 s1 s2 : state) (scope : sid) (proxy : jsval) (e : error) :
  drafts s0 = [] ->
  isDraftable_in (heap s0) base = true ->
  begin immer base s0 = (s1, Ok (scope, proxy)) ->
  run_script (r proxy) s1 = (s2, Err e) ->
  exists s',
    run fuel immer base r listener s0 = (s', Err e)
    /\ heap s' = heap s2
    /\ currentScope s' = currentScope s0
    /\ delivered s' = delivered s0
    /\ forall d st, drafts s' !! d = Some st -> revoked_ st = true.
Proof.
  intros H0 Hd Hb Hrun.
  destruct (begin_Live _ _ _ _ _ _ H0 Hb) as (-> & HL & _ & Hdel & _).
  destruct (begin_current _ _ _ _ _ _ Hb) as [Hscope Hcur].
  pose proof (Live_run_script scope _ (r (VDraft 0)) s1 HL) as HL2.
  rewrite Hrun in HL2. simpl in HL2.
  pose proof (Aside_run_script (Some scope) (delivered s0) (r (VDraft 0)) s1
                (conj Hcur Hdel)) as HA.
  rewrite Hrun in HA. destruct HA as [Hcur2 Hdel2]. simpl in Hcur2, Hdel2.
  pose proof (revokeScope_current _ _ _ HL2) as E.
  eexists. split; [|split; [|split; [|split]]].
  - unfold run. rewrite (produce_begin _ _ _ _ _ _ _ _ _ Hd Hb).
    unfold try_finally. rewrite Hrun.
    refine (eq_trans (bind_ok _ _ _ _ tt E) _). reflexivity.
  - reflexivity.
  - simpl. rewrite Hcur2. unfold scope_left. rewrite Nat.eqb_refl. reflexivity.
  - exact Hdel2.
  - intros d st. simpl. rewrite list_lookup_fmap.
    destruct (drafts s2 !! d); simpl; [|discriminate].
    intros Hst. inversion Hst. reflexivity.
Qed.

Lemma produce_recipe_throws_witness :
  exists s',
    run 4 default_immer (VRef 0) failing_recipe true unit_store = (s', Err Thrown)
    /\ heap s' = heap (fst (run_script (failing_recipe (VDraft 0)) unit_draft_store))
    /\ currentScope s' = currentScope unit_store
    /\ delivered s' = delivered unit_store
    /\ forall d st, drafts s' !! d = Some st -> revoked_ st = true.
Proof.
  apply (produce_recipe_throws 4 default_immer (VRef 0) failing_recipe true unit_store
           unit_draft_store _ 0 (VDraft 0) Thrown); reflexivity.
Defined.

Lemma freeze_prim fuel p deep s : freeze (S fuel) (VPrim p) deep s = (s, Ok tt).
Proof. reflexivity. Qed.

(** X12.  [produce] on a primitive base makes no draft: the recipe is given
    the base itself, and when it answers a primitive the result is that
    answer, the base when the answer is undefined, and undefined when the
    answer (or, the answer being undefined, the base) is [nothing].  A patch
    listener is handed one patch that replaces the root by the result, and
    its inverse that replaces it by the base. *)
Theorem produce_primitive_base
    (fuel : nat) (immer : Immer) (p r : prim) (recipe : jsval -> M jsval)
    (listener : bool) (s s' : state) :
  recipe (VPrim p) s = (s', Ok (VPrim r)) ->
  produce (S fuel) immer (VPrim p) recipe listener s
  = ((if listener
      then with_delivered
             (delivered s' ++
                [([{| op := REPLACE; path := []; pvalue := Some (VPrim (settled p r)) |}],
                  [{| op := REPLACE; path := []; pvalue := Some (VPrim p) |}])]) s'
      else s'),
     Ok (VPrim (settled p r))).
Proof.
  intros Hr. unfold produce, isDraftable, gets.
  unfold mbind at 1, M_bind at 1, bind at 1. cbn [isDraftable_in].
  unfold mbind at 1, M_bind at 1, bind at 1. cbv iota.
  assert (Hc : negb (typeof_object (heap s) (VPrim p))
               || match VPrim p with VPrim PNull => true | _ => false end = true)
    by (destruct p; reflexivity).
  rewrite Hc. rewrite (bind_ok _ _ _ _ _ Hr). cbv zeta.
  assert (Hres : (if strict_eq
                       (if strict_eq (VPrim r) VUndef then VPrim p else VPrim r)
                       (VPrim PNothing)
                  then VUndef
                  else if strict_eq (VPrim r) VUndef then VPrim p else VPrim r)
                 = VPrim (settled p r)).
  { destruct r as [| | | | | | |]; try reflexivity;
      try (destruct p; reflexivity);
      try (simpl; repeat match goal with |- context [if ?c then _ else _] =>
                           destruct c eqn:? end; try reflexivity; try discriminate). }
  rewrite Hres.
  assert (Hfr : (if autoFreeze_ immer then freeze (S fuel) (VPrim (settled p r)) true
                 else ret tt) s' = (s', Ok tt)) by (destruct (autoFreeze_ immer); reflexivity).
  rewrite (bind_ok _ _ _ _ _ Hfr).
  assert (Hs2 : strict_eq (VPrim (settled p r)) (VPrim PNothing) = false)
    by (destruct r, p; reflexivity).
  rewrite Hs2. destruct listener; reflexivity.
Qed.

Lemma produce_primitive_base_witness :
  produce 1 default_immer (VNum 5) (fun _ => ret VUndef) true (store_of [])
  = (with_delivered
       [([{| op := REPLACE; path := []; pvalue := Some (VNum 5) |}],
         [{| op := REPLACE; path := []; pvalue := Some (VNum 5) |}])] (store_of []),
     Ok (VNum 5)).
Proof.
  apply (produce_primitive_base 0 default_immer (PNum 5) PUndefined (fun _ => ret VUndef)
           true (store_of []) (store_of [])).
  reflexivity.
Defined.

(** X13.  [produce] on an object that is not draftable (an instance of a
    class, say) fails with error 1 before the recipe is run: the store is
    as it was. *)
Theorem produce_rejects_undraftable
    (fuel : nat) (immer : Immer) (base : jsval) (recipe : jsval -> M jsval)
    (listener : bool) (s : state) :
  isDraftable_in (heap s) base = false ->
  typeof_object (heap s) base = true ->
  base <> VPrim PNull ->
  produce fuel immer base recipe listener s = (s, Err (Die 1)).
Proof.
  intros Hd Ht Hn. unfold produce, isDraftable, gets.
  unfold mbind at 1, M_bind at 1, bind at 1. rewrite Hd.
  unfold mbind at 1, M_bind at 1, bind at 1. cbv iota. rewrite Ht.
  destruct base as [[]| | |]; try reflexivity. congruence.
Qed.

Lemma produce_rejects_undraftable_witness :
  produce 4 default_immer (VRef 0) (fun _ => ret VUndef) false
    (store_of [plain (BOpaque [])])
  = (store_of [plain (BOpaque [])], Err (Die 1)).
Proof.
  apply (produce_rejects_undraftable 4 default_immer (VRef 0) (fun _ => ret VUndef) false
           (store_of [plain (BOpaque [])])); [reflexivity | reflexivity | discriminate].
Defined.

(** * Frozen objects *)

Lemma frozen_as_mark_frozen l b g l' : keeps (frozen_as l b) (mark_frozen g l').
Proof.
  intros s (o & Ho & Hf & Hb). unfold mark_frozen, heap_lookup, mbind, M_bind, bind.
  destruct (heap s !! l') as [o'|] eqn:Ho'; [|exists o; auto].
  unfold modify. simpl. unfold frozen_as. simpl.
  destruct (decide (l = l')) as [<-|Hne].
  - rewrite list_lookup_insert_eq by (eapply lookup_lt_Some; eauto).
    rewrite Ho in Ho'. inversion Ho'; subst o'. eexists. split; [reflexivity|]. auto.
  - rewrite list_lookup_insert_ne by congruence. exists o. auto.
Qed.

Lemma frozen_as_freeze l b fuel v deep : keeps (frozen_as l b) (freeze fuel v deep).
Proof.
  revert v deep. induction fuel as [|f IH]; intros v deep; simpl.
  - apply keeps_unchanged; unch.
  - pose proof (frozen_as_mark_frozen l b). keeps_tac.
Qed.

Lemma mark_frozen_Ok g l s s' :
  mark_frozen g l s = (s', Ok tt) ->
  exists o, heap s !! l = Some o
            /\ s' = with_heap (<[l := Obj (o_body o) true (o_guarded o || g)]> (heap s)) s.
Proof.
  unfold mark_frozen, heap_lookup, mbind, M_bind, bind.
  destruct (heap s !! l) as [o|]; [|discriminate].
  unfold modify. intros H. inversion H. eauto.
Qed.

(** X14.  Once [freeze] has frozen a draftable object that was not frozen,
    [set] on that object fails and changes nothing: with error 2 on a map
    or a set, whose mutators [freeze] has replaced, and with a type error
    on a record or a sequence.  On a record or a sequence the key is any
    but [__proto__], and on a sequence any but [length]. *)
Theorem frozen_rejects_set
    (fuel : nat) (l : loc) (b : body) (k v : jsval) (deep : bool) (s s1 : state) :
  body_of (heap s) l = Some b ->
  isDraftable_in (heap s) (VRef l) = true ->
  isFrozen_in (heap s) (VRef l) = false ->
  freeze fuel (VRef l) deep s = (s1, Ok tt) ->
  not_property (heap s1) b k (KStr "__proto__") ->
  (body_archtype b = AArray -> not_property (heap s1) b k (KStr "length")) ->
  set_ l k v s1
  = (s1, Err (match b with BMap _ | BSet _ => Die 2 | _ => TypeError end)).
Proof.
  intros Hb Hd Hf H _ Hlen. destruct fuel as [|f]; [discriminate|].
  simpl in H. unfold isFrozen, isDraftable, gets in H.
  unfold mbind at 1, M_bind at 1, bind at 1 in H.
  unfold mbind at 1, M_bind at 1, bind at 1 in H.
  rewrite Hf, Hd in H. cbn [isDraft negb orb] in H.
  unfold getArchtype in H.
  rewrite (bind_ok _ _ s s (body_archtype b)) in H
    by (rewrite (bind_ok _ _ _ _ _ (body_at_lookup _ _ _ Hb)); reflexivity).
  apply bind_Ok_inv in H as (s2 & [] & Hm & H).
  apply mark_frozen_Ok in Hm as (o & Ho & ->).
  assert (Hob : o_body o = b).
  { unfold body_of in Hb. rewrite Ho in Hb. simpl in Hb. congruence. }
  rewrite Hob in *.
  set (g := match body_archtype b with AMap | ASet => true | _ => false end) in *.
  set (s2 := with_heap _ s) in *.
  assert (Hl2 : heap s2 !! l = Some (Obj b true (o_guarded o || g))).
  { unfold s2. simpl. apply list_lookup_insert_eq. eapply lookup_lt_Some; eauto. }
  assert (Hs1 : exists o1, heap s1 !! l = Some o1 /\ o_frozen o1 = true /\ o_body o1 = b
                           /\ (g = true -> s1 = s2)).
  { destruct deep.
    - rewrite (bind_ok _ _ s2 s2 b) in H
        by (apply body_at_lookup; unfold body_of; rewrite Hl2; reflexivity).
      assert (Hk : frozen_as l b s1).
      { assert (Hk : keeps (frozen_as l b)
                       (forM_ (object_values b) (fun value => freeze f value true))).
        { apply keeps_forM_. intros x. apply frozen_as_freeze. }
        eapply (keeps_Ok _ _ _ _ _ Hk); [|exact H]. eexists. split; [exact Hl2|]. auto. }
      destruct Hk as (o1 & H1 & H2 & H3). exists o1. repeat split; try assumption.
      intros Hg. unfold g in Hg. destruct b; simpl in Hg; try discriminate;
        simpl in H; inversion H; reflexivity.
    - apply ret_Ok in H as [-> _]. eexists. split; [exact Hl2|]. auto. }
  destruct Hs1 as (o1 & Hl1 & Hf1 & Hb1 & Hg).
  unfold set_, heap_lookup. unfold mbind at 1, M_bind at 1, bind at 1.
  rewrite Hl1. unfold mbind at 1, M_bind at 1, bind at 1. unfold gets. cbv beta iota.
  rewrite Hb1.
  assert (Hsp : forall b', store_props l b' s1 = (s1, Err TypeError)).
  { intros b'. unfold store_props, heap_lookup, mbind, M_bind, bind. rewrite Hl1, Hf1.
    reflexivity. }
  assert (Hsc : g = true -> forall b', store_coll l b' s1 = (s1, Err (Die 2))).
  { intros Hgt b'. rewrite (Hg Hgt) in *. unfold store_coll, heap_lookup, mbind, M_bind, bind.
    rewrite Hl2. simpl. rewrite Hgt, orb_true_r. reflexivity. }
  destruct b as [ps|es ex|es|es|ps|].
  - apply Hsp.
  - specialize (Hlen eq_refl). unfold not_property in Hlen.
    assert (Hw : exists b', write_prop (BArray es ex) (pkey_of_value (heap s1) k) v
                            = Some b').
    { unfold write_prop. destruct (pkey_of_value (heap s1) k) as [str|i].
      - destruct (String.eqb str "length") eqn:E; [|eauto].
        apply String.eqb_eq in E. subst str. contradiction.
      - destruct (i <? length es); eauto. }
    destruct Hw as [b' ->]. apply Hsp.
  - apply Hsc. reflexivity.
  - apply Hsc. reflexivity.
  - apply Hsp.
  - apply Hsp.
Qed.

Lemma frozen_rejects_set_witness :
  set_ 0 (VStr "b") (VNum 2) (fst (freeze 2 (VRef 0) true unit_store))
  = (fst (freeze 2 (VRef 0) true unit_store), Err TypeError).
Proof.
  apply (frozen_rejects_set 2 0 (BRecord [(KStr "a", VNum 1)]) (VStr "b") (VNum 2) true
           unit_store); try reflexivity.
  - vm_compute. discriminate.
  - intros H. discriminate H.
Defined.

(** * Patches that replace the root *)

Lemma last_root_replace_none qs :
  forallb (fun p => negb (root_replace p)) qs = true -> last_root_replace qs = None.
Proof.
  induction qs as [|q r IH]; simpl; [reflexivity|]. intros H.
  apply andb_true_iff in H as [Hq Hr]. rewrite (IH Hr).
  unfold root_replace in Hq. destruct (path q); [|reflexivity].
  destruct (op q); try reflexivity. discriminate.
Qed.

Lemma last_root_replace_app ps p qs :
  root_replace p = true ->
  forallb (fun p => negb (root_replace p)) qs = true ->
  last_root_replace (ps ++ p :: qs) = Some (default VUndef (pvalue p), qs).
Proof.
  intros Hp Hq. induction ps as [|x r IH]; simpl.
  - rewrite (last_root_replace_none qs Hq). unfold root_replace in Hp.
    destruct (path p); [|discriminate]. destruct (op p); try discriminate. reflexivity.
  - rewrite IH. reflexivity.
Qed.

(** X15.  [applyPatches] starts from the last patch that replaces the root:
    the patches before it are dropped without being looked at, and the
    given base is not used. *)
Theorem applyPatches_after_root_replace
    (fuel : nat) (immer : Immer) (base : jsval) (ps qs : list Patch) (p : Patch) :
  root_replace p = true ->
  forallb (fun q => negb (root_replace q)) qs = true ->
  applyPatches fuel immer base (ps ++ p :: qs)
  = applyPatches fuel immer (default VUndef (pvalue p)) qs.
Proof.
  intros Hp Hq. unfold applyPatches.
  rewrite (last_root_replace_app ps p qs Hp Hq), (last_root_replace_none qs Hq).
  reflexivity.
Qed.

Lemma applyPatches_after_root_replace_witness :
  applyPatches 4 default_immer (VRef 0)
    ([polluting_patch] ++ {| op := REPLACE; path := []; pvalue := Some (VNum 7) |} :: [])
  = applyPatches 4 default_immer (VNum 7) [].
Proof.
  apply (applyPatches_after_root_replace 4 default_immer (VRef 0) [polluting_patch] []
           {| op := REPLACE; path := []; pvalue := Some (VNum 7) |}); reflexivity.
Defined.

(** * Finalization and the scope of a run *)

Lemma heap_only_set_ l p v : heap_only (set_ l p v).
Proof.
  unfold set_. heap_only_tac;
    first [apply heap_only_store_coll | apply heap_only_store_props].
Qed.

(** ** Invariants that look at the drafts and the scopes only *)

Section DraftBlind.
Variable I : state -> Prop.
Hypothesis H_blind : heap_blind I.
Hypothesis H_state : forall d f,
  (forall st, scope_ (f st) = scope_ st /\ revoked_ (f st) = revoked_ st) ->
  keeps I (update_state d f).
Hypothesis H_scope : forall c f,
  (forall sc, sdrafts_ (f sc) = sdrafts_ sc /\ sparent_ (f sc) = sparent_ sc) ->
  keeps I (update_scope c f).
Hypothesis H_createProxy : forall v p, keeps I (createProxy v (Some p)).

Lemma blind_alloc b : keeps I (alloc b).
Proof. apply keeps_heap_only; [exact H_blind | apply heap_only_alloc]. Qed.

Lemma blind_store_props l b : keeps I (store_props l b).
Proof. apply keeps_heap_only; [exact H_blind | apply heap_only_store_props]. Qed.

Lemma blind_store_coll l b : keeps I (store_coll l b).
Proof. apply keeps_heap_only; [exact H_blind | apply heap_only_store_coll]. Qed.

Lemma blind_mark_frozen g l : keeps I (mark_frozen g l).
Proof. apply keeps_heap_only; [exact H_blind | apply heap_only_mark_frozen]. Qed.

Lemma blind_set_ l p v : keeps I (set_ l p v).
Proof. apply keeps_heap_only; [exact H_blind | apply heap_only_set_]. Qed.

Lemma blind_copy_write d p v : keeps I (copy_write d p v).
Proof. apply keeps_heap_only; [exact H_blind | apply heap_only_copy_write]. Qed.

Lemma blind_copy_delete d p : keeps I (copy_delete d p).
Proof. apply keeps_heap_only; [exact H_blind | apply heap_only_copy_delete]. Qed.

Lemma blind_map_copy_update d f : keeps I (map_copy_update d f).
Proof. apply keeps_heap_only; [exact H_blind | apply heap_only_map_copy_update]. Qed.

Lemma blind_set_copy_update d f : keeps I (set_copy_update d f).
Proof. apply keeps_heap_only; [exact H_blind | apply heap_only_set_copy_update]. Qed.

Lemma blind_install_copy d b : keeps I (install_copy d b).
Proof.
  unfold install_copy. apply keeps_bind; [apply blind_alloc | intros c].
  apply H_state. intros st. split; reflexivity.
Qed.

Lemma blind_set_assigned d g : keeps I (set_assigned d g).
Proof. apply H_state. intros st. split; reflexivity. Qed.

Lemma blind_set_drafts d g : keeps I (set_drafts d g).
Proof. apply H_state. intros st. split; reflexivity. Qed.

Lemma blind_markChanged d : keeps I (markChanged d).
Proof.
  apply keeps_markChanged_from. intros x. apply H_state. intros st. split; reflexivity.
Qed.

Lemma blind_finalized d b : keeps I (update_state d (st_finalized b)).
Proof. apply H_state. intros st. split; reflexivity. Qed.

Lemma blind_unfinalized c g :
  keeps I (update_scope c (fun sc => sc_unfinalized (g sc) sc)).
Proof. apply H_scope. intros sc. split; reflexivity. Qed.

Lemma blind_canAutoFreeze c b : keeps I (update_scope c (sc_canAutoFreeze b)).
Proof. apply H_scope. intros sc. split; reflexivity. Qed.

Lemma blind_patches c p ip : keeps I (update_scope c (sc_patches p ip)).
Proof. apply H_scope. intros sc. split; reflexivity. Qed.

#[local] Hint Resolve blind_alloc blind_store_props blind_store_coll blind_mark_frozen
  blind_set_ blind_copy_write blind_copy_delete blind_map_copy_update
  blind_set_copy_update blind_install_copy blind_set_assigned blind_set_drafts
  blind_markChanged blind_finalized blind_unfinalized blind_canAutoFreeze blind_patches
  H_createProxy : keeps.

Lemma blind_freeze fuel v deep : keeps I (freeze fuel v deep).
Proof.
  revert v deep. induction fuel as [|f IH]; intros v deep; simpl.
  - apply keeps_unchanged; unch.
  - keeps_tac.
Qed.

Lemma blind_maybeFreeze fuel scope v deep : keeps I (maybeFreeze fuel scope v deep).
Proof. unfold maybeFreeze. pose proof blind_freeze. keeps_tac. Qed.

Lemma blind_proxy_get d p : keeps I (proxy_get d p).
Proof. apply keeps_proxy_get; auto with keeps. Qed.

Lemma blind_DraftMap_get d k : keeps I (DraftMap_get d k).
Proof. apply keeps_DraftMap_get; auto with keeps. Qed.

Lemma blind_DraftSet_values d : keeps I (DraftSet_values d).
Proof. apply keeps_DraftSet_values; auto with keeps. Qed.

#[local] Hint Resolve blind_proxy_get blind_DraftMap_get blind_DraftSet_values
  blind_freeze blind_maybeFreeze : keeps.

Lemma blind_deepClonePatchValue fuel v : keeps I (deepClonePatchValue fuel v).
Proof.
  revert v. induction fuel as [|f IH]; intros v; simpl.
  - apply keeps_unchanged; unch.
  - keeps_tac.
Qed.

Lemma blind_clonePatchValueIfNeeded fuel v : keeps I (clonePatchValueIfNeeded fuel v).
Proof.
  unfold clonePatchValueIfNeeded.
  destruct (isDraft v); [apply blind_deepClonePatchValue | apply keeps_unchanged; unch].
Qed.

Lemma blind_buffer_update scope b f : keeps I (buffer_update scope b f).
Proof. unfold buffer_update. keeps_tac. Qed.

Lemma blind_push scope b p : keeps I (push scope b p).
Proof. apply blind_buffer_update. Qed.

Lemma blind_unshift scope b p : keeps I (unshift scope b p).
Proof. apply blind_buffer_update. Qed.

#[local] Hint Resolve blind_clonePatchValueIfNeeded blind_push blind_unshift : keeps.

Lemma blind_generatePatches_ fuel scope d basePath p ip :
  keeps I (generatePatches_ fuel scope d basePath p ip).
Proof.
  unfold generatePatches_, generatePatchesFromAssigned, generateArrayPatches,
    generateSetPatches.
  keeps_tac.
Qed.

Lemma blind_generateReplacementPatches_ scope b r p ip :
  keeps I (generateReplacementPatches_ scope b r p ip).
Proof. unfold generateReplacementPatches_. keeps_tac. Qed.

#[local] Hint Resolve blind_generatePatches_ blind_generateReplacementPatches_ : keeps.

Lemma blind_finalizeProperty_with fin fuel rootScope parentState target prop cv rootPath
    isSet :
  (forall v p, keeps I (fin v p)) ->
  keeps I (finalizeProperty_with fin fuel rootScope parentState target prop cv rootPath
             isSet).
Proof. intros Hfin. unfold finalizeProperty_with. keeps_tac. Qed.

Lemma blind_finalize fuel rootScope v path : keeps I (finalize fuel rootScope v path).
Proof.
  revert v path. induction fuel as [|f IH]; intros v path; simpl.
  - apply keeps_unchanged; unch.
  - pose proof (fun fu ps t pr cv rp b =>
                  blind_finalizeProperty_with (finalize f rootScope) fu rootScope ps t pr cv
                    rp b IH).
    keeps_tac.
Qed.

(** The part of [processResult] that comes before the scope is revoked,
    with the case of error 4 left out. *)
Lemma blind_processResult_replaced fuel result scope (bst : ImmerState) :
  keeps I
    (draftable ← isDraftable result;
     r ← (if (draftable : bool) then
            (r ← finalize fuel scope result None;
             sc1 ← get_scope scope;
             (if is_none (sparent_ sc1) then maybeFreeze fuel scope r false else ret tt) ;;
             ret r)
          else ret result);
     sc2 ← get_scope scope;
     (if is_none (patches_ sc2) then ret tt
      else generateReplacementPatches_ scope (VRef (base_ bst)) r Patches InversePatches) ;;
     ret r).
Proof. pose proof blind_finalize. keeps_tac. Qed.

End DraftBlind.

(** ** The two invariants *)

Lemma sc_drafts_id sc ds : sdrafts_ sc = ds -> sc_drafts ds sc = sc.
Proof. intros <-. destruct sc. reflexivity. Qed.

Lemma Scoped_heap_blind c0 cur : heap_blind (Scoped c0 cur).
Proof. intros h s H. exact H. Qed.

Lemma Scoped_update_state c0 cur d f : keeps (Scoped c0 cur) (update_state d f).
Proof. intros s Hs. rewrite update_state_fst. destruct (drafts s !! d); exact Hs. Qed.

Lemma Scoped_update_scope c0 cur c f :
  (forall sc, sparent_ (f sc) = sparent_ sc) -> keeps (Scoped c0 cur) (update_scope c f).
Proof.
  intros Hf s [Hc (sc0 & Hsc & Hp)].
  unfold update_scope, get_scope, mbind, M_bind, bind.
  destruct (scopes s !! c) as [sc|] eqn:E; [|split; eauto]. simpl.
  split; [exact Hc|]. simpl.
  destruct (decide (c0 = c)) as [->|Hne].
  - rewrite list_lookup_insert_eq by (eapply lookup_lt_Some; eauto).
    rewrite Hsc in E. inversion E; subst sc. eexists. split; [reflexivity|].
    rewrite Hf. exact Hp.
  - rewrite list_lookup_insert_ne by congruence. eauto.
Qed.

Lemma Scoped_createProxy c0 cur v p : keeps (Scoped c0 cur) (createProxy v (Some p)).
Proof.
  intros s Hs. destruct (createProxy_fst v p s) as [->|H]; [assumption|].
  destruct H as (base & b & stp & sc & ds & _ & _ & _ & Hsc & _ & ->).
  destruct Hs as [Hc (sc0 & Hsc0 & Hp)]. split; [exact Hc|]. simpl.
  destruct (decide (c0 = scope_ stp)) as [->|Hne].
  - rewrite list_lookup_insert_eq by (eapply lookup_lt_Some; eauto).
    rewrite Hsc0 in Hsc. inversion Hsc; subst sc. eexists. split; [reflexivity|]. exact Hp.
  - rewrite list_lookup_insert_ne by congruence. eauto.
Qed.

Lemma Scoped_leaveScope c0 cur : keeps (Scoped c0 cur) (leaveScope c0).
Proof.
  intros s [Hc (sc0 & Hsc & Hp)].
  unfold leaveScope, getCurrentScope, gets, get_scope, mbind, M_bind, bind.
  rewrite Hc. destruct cur as [c|]; [|split; eauto].
  destruct (c =? c0); [|split; eauto].
  rewrite Hsc. simpl. split; [exact Hp | eauto].
Qed.

Lemma Scoped_revokeScope c0 cur : keeps (Scoped c0 cur) (revokeScope c0).
Proof.
  unfold revokeScope.
  apply keeps_bind; [apply Scoped_leaveScope | intros _].
  apply keeps_bind; [apply keeps_unchanged; unch | intros sc].
  apply keeps_bind; [|intros _; apply Scoped_update_scope; reflexivity].
  destruct (sdrafts_ sc); [|apply keeps_unchanged; unch].
  apply keeps_forM_. intros d. unfold revokeDraft.
  apply keeps_bind; [apply keeps_unchanged; unch | intros _]. apply Scoped_update_state.
Qed.

Lemma Scoped_deliver c0 cur f :
  keeps (Scoped c0 cur) (modify (fun s => with_delivered (f s) s)).
Proof. intros s Hs. exact Hs. Qed.

Lemma Scoped_usePatchesInScope c0 cur scope l :
  keeps (Scoped c0 cur) (usePatchesInScope scope l).
Proof.
  unfold usePatchesInScope. apply keeps_when. apply Scoped_update_scope. reflexivity.
Qed.

Lemma Scoped_processResult c0 cur fuel result :
  keeps (Scoped c0 cur) (processResult fuel result c0).
Proof.
  pose proof (blind_finalize (Scoped c0 cur) (Scoped_heap_blind c0 cur)
                (fun d f _ => Scoped_update_state c0 cur d f)
                (fun c f H => Scoped_update_scope c0 cur c f (fun sc => proj2 (H sc)))
                (Scoped_createProxy c0 cur)) as Hfin.
  pose proof (blind_processResult_replaced (Scoped c0 cur) (Scoped_heap_blind c0 cur)
                (fun d f _ => Scoped_update_state c0 cur d f)
                (fun c f H => Scoped_update_scope c0 cur c f (fun sc => proj2 (H sc)))
                (Scoped_createProxy c0 cur)) as Hrep.
  pose proof (Scoped_revokeScope c0 cur) as Hrev.
  pose proof (Scoped_deliver c0 cur) as Hdel.
  unfold processResult.
  apply keeps_bind; [apply keeps_unchanged; unch | intros sc].
  apply keeps_bind; [destruct (sdrafts_ sc); apply keeps_unchanged; unch | intros ds].
  apply keeps_bind; [apply Scoped_update_scope; reflexivity | intros _].
  apply keeps_bind; [destruct ds; apply keeps_unchanged; unch | intros baseDraft].
  apply keeps_bind.
  - match goal with |- keeps _ (if ?c then _ else _) => destruct c end; [|apply Hfin].
    apply keeps_bind; [apply keeps_unchanged; unch | intros bst].
    apply keeps_bind; [|intros _; apply Hrep].
    destruct (modified_ bst); [|apply keeps_unchanged; unch].
    apply keeps_bind; [apply Hrev | intros _; apply keeps_unchanged; unch].
  - intros result'.
    apply keeps_bind; [apply Hrev | intros _].
    apply keeps_bind; [apply keeps_unchanged; unch | intros sc3].
    apply keeps_bind; [|intros _; apply keeps_unchanged; unch].
    destruct (patches_ sc3); [|apply keeps_unchanged; unch].
    destruct (inversePatches_ sc3); [apply Hdel | apply keeps_unchanged; unch].
Qed.

Lemma Listed_Scoped c0 cur s : Listed c0 cur s -> Scoped c0 cur s.
Proof.
  intros [Hc (sc0 & Hp & [Hsc _])]. split; [exact Hc|]. eexists. split; [exact Hsc|].
  exact Hp.
Qed.

Lemma Listed_heap_blind c0 cur : heap_blind (Listed c0 cur).
Proof. intros h s H. exact H. Qed.

Lemma Listed_update_state c0 cur d f :
  (forall st, scope_ (f st) = scope_ st /\ revoked_ (f st) = revoked_ st) ->
  keeps (Listed c0 cur) (update_state d f).
Proof.
  intros Hf s [Hc (sc0 & Hp & HL)]. split.
  - rewrite update_state_fst. destruct (drafts s !! d); exact Hc.
  - exists sc0. split; [exact Hp|]. apply (Live_update_state c0 sc0 d f Hf s HL).
Qed.

Lemma Listed_update_scope c0 cur c f :
  (forall sc, sdrafts_ (f sc) = sdrafts_ sc /\ sparent_ (f sc) = sparent_ sc) ->
  keeps (Listed c0 cur) (update_scope c f).
Proof.
  intros Hf s [Hc (sc0 & Hp & [Hsc Hd])].
  unfold update_scope, get_scope, mbind, M_bind, bind.
  destruct (scopes s !! c) as [sc|] eqn:E; [|split; [exact Hc | exists sc0; split; [exact Hp | split; [exact Hsc | exact Hd]]]].
  simpl. split; [exact Hc|].
  destruct (decide (c0 = c)) as [->|Hne].
  - rewrite Hsc in E. inversion E; subst sc. clear E.
    exists (f (sc_drafts (Some (seq 0 (length (drafts s)))) sc0)).
    destruct (Hf (sc_drafts (Some (seq 0 (length (drafts s)))) sc0)) as [H1 H2].
    split; [rewrite H2; exact Hp|]. split; [|exact Hd]. simpl.
    rewrite list_lookup_insert_eq by (eapply lookup_lt_Some; eauto).
    simpl in H1. rewrite (sc_drafts_id _ _ H1). reflexivity.
  - exists sc0. split; [exact Hp|]. split; [|exact Hd]. simpl.
    rewrite list_lookup_insert_ne by congruence. exact Hsc.
Qed.

Lemma Listed_createProxy c0 cur v p : keeps (Listed c0 cur) (createProxy v (Some p)).
Proof.
  intros s [Hc (sc0 & Hp & HL)]. split.
  - destruct (createProxy_fst v p s) as [->|H]; [assumption|].
    destruct H as (base & b & stp & sc & ds & _ & _ & _ & _ & _ & ->). exact Hc.
  - exists sc0. split; [exact Hp|]. apply (Live_createProxy c0 sc0 v p s HL).
Qed.

(** After the recipe: the scope is left and the patch buffers are set up. *)
Lemma prepare_Listed c0 sc0 listener s :
  Live c0 sc0 s -> currentScope s = Some c0 ->
  exists s1,
    (leaveScope c0 ;; usePatchesInScope c0 listener) s = (s1, Ok tt)
    /\ Listed c0 (sparent_ sc0) s1.
Proof.
  intros HL Hc. pose proof (leaveScope_current _ _ _ HL) as E.
  rewrite Hc in E. unfold scope_left in E. rewrite Nat.eqb_refl in E.
  pose proof (Live_with_currentScope c0 sc0 (sparent_ sc0) s HL) as H1.
  destruct listener.
  - exists (with_scopes
              (<[c0 := sc_drafts (Some (seq 0 (length (drafts s))))
                         (sc_listener true (sc_patches (Some []) (Some []) sc0))]>
                 (scopes s))
              (with_currentScope (sparent_ sc0) s)).
    split.
    + rewrite (bind_ok _ _ _ _ _ E). unfold usePatchesInScope, when.
      rewrite (update_scope_Live _ _ _ _ H1). reflexivity.
    + split; [reflexivity|].
      exists (sc_listener true (sc_patches (Some []) (Some []) sc0)).
      split; [reflexivity|]. apply (Live_update_scope c0 sc0 _ _ H1).
  - eexists. split.
    + rewrite (bind_ok _ _ _ _ _ E). reflexivity.
    + split; [reflexivity|]. exists sc0. split; [reflexivity | exact H1].
Qed.

(** [processResult], when it returns, has revoked every draft. *)
Lemma processResult_Ok_revoked c0 cur fuel result s s' v :
  Listed c0 cur s ->
  processResult fuel result c0 s = (s', Ok v) ->
  forall d st, drafts s' !! d = Some st -> revoked_ st = true.
Proof.
  intros HL H.
  pose proof (blind_finalize (Listed c0 cur) (Listed_heap_blind c0 cur)
                (Listed_update_state c0 cur) (Listed_update_scope c0 cur)
                (Listed_createProxy c0 cur)) as Hfin.
  pose proof (blind_processResult_replaced (Listed c0 cur) (Listed_heap_blind c0 cur)
                (Listed_update_state c0 cur) (Listed_update_scope c0 cur)
                (Listed_createProxy c0 cur)) as Hrep.
  unfold processResult in H.
  apply bind_Ok_inv in H as (sa & sc & H1 & H).
  apply get_scope_Ok in H1 as [-> _].
  apply bind_Ok_inv in H as (sa & ds & H1 & H).
  assert (sa = s) as ->.
  { destruct (sdrafts_ sc); [apply ret_Ok in H1 as [-> _]; reflexivity | discriminate]. }
  clear H1.
  apply bind_Ok_inv in H as (s2 & [] & H1 & H).
  assert (HL2 : Listed c0 cur s2).
  { eapply (keeps_Ok _ _ _ _ _
              (Listed_update_scope c0 cur c0 (sc_unfinalized (Z.of_nat (length ds)))
                 (fun sc => conj eq_refl eq_refl)));
      [exact HL | exact H1]. }
  clear H1.
  apply bind_Ok_inv in H as (sa & baseDraft & H1 & H).
  assert (sa = s2) as ->.
  { destruct ds; [discriminate | apply ret_Ok in H1 as [-> _]; reflexivity]. }
  clear H1.
  apply bind_Ok_inv in H as (s3 & result' & Hblock & H).
  assert (HL3 : Listed c0 cur s3).
  { match type of Hblock with (if ?c then _ else _) _ = _ => destruct c end.
    - apply bind_Ok_inv in Hblock as (sa & bst & H1 & Hblock).
      assert (sa = s2) as -> by (eapply unchanged_Ok; [|exact H1]; unch). clear H1.
      apply bind_Ok_inv in Hblock as (sb & [] & H1 & Hblock).
      assert (sb = s2) as ->.
      { destruct (modified_ bst); [|apply ret_Ok in H1 as [-> _]; reflexivity].
        apply bind_Ok_inv in H1 as (sc' & [] & _ & H1). discriminate. }
      eapply (keeps_Ok _ _ _ _ _ (Hrep fuel result c0 bst)); [exact HL2 | exact Hblock].
    - eapply (keeps_Ok _ _ _ _ _ (Hfin fuel c0 _ _)); [exact HL2 | exact Hblock]. }
  destruct HL3 as [_ (sc0 & _ & HLive)].
  apply bind_Ok_inv in H as (s4 & [] & Hrev & H).
  rewrite (revokeScope_current _ _ _ HLive) in Hrev. inversion Hrev; subst s4. clear Hrev.
  apply bind_Ok_inv in H as (sa & sc3 & H1 & H).
  apply get_scope_Ok in H1 as [-> _].
  apply bind_Ok_inv in H as (s5 & [] & H1 & H).
  apply ret_Ok in H as [-> _].
  assert (Hd5 : drafts s5 = map (st_revoked true) (drafts s3)).
  { destruct (patches_ sc3); [|apply ret_Ok in H1 as [-> _]; reflexivity].
    destruct (inversePatches_ sc3); [|discriminate].
    unfold modify in H1. inversion H1. reflexivity. }
  intros d st. rewrite Hd5, list_lookup_fmap.
  destruct (drafts s3 !! d); simpl; [|discriminate].
  intros Hst. inversion Hst. reflexivity.
Qed.

(** X16.  Whenever [produce] on a draftable base ends, with a result or
    with an error, the scope that was current before the call is current
    again; and when it ends with a result, every draft made during the call
    is revoked. *)
Theorem produce_closes_scope
    (fuel : nat) (immer : Immer) (base : jsval) (r : recipe) (listener : bool)
    (s0 s1 s' : state) (scope : sid) (proxy : jsval) (out : outcome jsval) :
  drafts s0 = [] ->
  isDraftable_in (heap s0) base = true ->
  begin immer base s0 = (s1, Ok (scope, proxy)) ->
  run fuel immer base r listener s0 = (s', out) ->
  out <> OutOfFuel ->
  currentScope s' = currentScope s0
  /\ forall v, out = Ok v ->
       forall d st, drafts s' !! d = Some st -> revoked_ st = true.
Proof.
  intros H0 Hd Hb Hrun Hout.
  destruct (begin_Live _ _ _ _ _ _ H0 Hb) as (-> & HL & _ & Hdel & _).
  destruct (begin_current _ _ _ _ _ _ Hb) as [Hscope Hcur].
  unfold run in Hrun. rewrite (produce_begin _ _ _ _ _ _ _ _ _ Hd Hb) in Hrun.
  unfold try_finally in Hrun.
  pose proof (Live_run_script scope _ (r (VDraft 0)) s1 HL) as HL2.
  pose proof (Aside_run_script (Some scope) (delivered s0) (r (VDraft 0)) s1
                (conj Hcur Hdel)) as [Hcur2 _].
  destruct (run_script (r (VDraft 0)) s1) as [s2 [result|e|]] eqn:Es2; simpl in HL2, Hcur2.
  - destruct (prepare_Listed scope _ listener s2 HL2 Hcur2) as (s3 & E3 & HL3).
    simpl in HL3.
    assert (Hrun' : processResult fuel result scope s3 = (s', out)).
    { rewrite <- Hrun.
      change (leaveScope scope ;; usePatchesInScope scope listener ;;
              processResult fuel result scope)
        with (leaveScope scope ≫= (fun _ => usePatchesInScope scope listener ≫=
                (fun _ => processResult fuel result scope))).
      unfold mbind at 1, M_bind at 1, bind at 1.
      unfold mbind at 1, M_bind at 1, bind at 1 in E3.
      destruct (leaveScope scope s2) as [sx [[]| |]]; try discriminate.
      unfold mbind at 1, M_bind at 1, bind at 1. rewrite E3. reflexivity. }
    split.
    + pose proof (Scoped_processResult scope (currentScope s0) fuel result s3
                    (Listed_Scoped _ _ _ HL3)) as [Hc _].
      rewrite Hrun' in Hc. exact Hc.
    + intros v ->. eapply processResult_Ok_revoked; [exact HL3 | exact Hrun'].
  - pose proof (revokeScope_current _ _ _ HL2) as E.
    rewrite (bind_ok _ _ _ _ _ E) in Hrun. unfold throw in Hrun. inversion Hrun; subst.
    split; [|discriminate]. simpl. rewrite Hcur2. unfold scope_left.
    rewrite Nat.eqb_refl. reflexivity.
  - inversion Hrun; subst. contradiction.
Qed.

Lemma produce_closes_scope_witness :
  currentScope (fst (run 8 default_immer (VRef 0) rewrite_recipe true (store_of rewrite_base)))
  = None
  /\ forall v,
       snd (run 8 default_immer (VRef 0) rewrite_recipe true (store_of rewrite_base)) = Ok v ->
       forall d st,
         drafts (fst (run 8 default_immer (VRef 0) rewrite_recipe true (store_of rewrite_base)))
           !! d = Some st ->
         revoked_ st = true.
Proof.
  refine (produce_closes_scope 8 default_immer (VRef 0) rewrite_recipe true
            (store_of rewrite_base) (fst (begin default_immer (VRef 0) (store_of rewrite_base)))
            _ 0 (VDraft 0) _ _ _ _ _ _).
  - reflexivity.
  - reflexivity.
  - reflexivity.
  - vm_compute. reflexivity.
  - vm_compute. discriminate.
Defined.

(** * The base behind a draft *)

(** X17.  At every point of a recipe, whatever it has written so far,
    [original] of the root draft is the base that [produce] was given. *)
Theorem original_is_base
    (immer : Immer) (l : loc) (s0 s1 s2 : state) (scope : sid) (proxy : jsval)
    (sc : script) (out : outcome jsval) :
  drafts s0 = [] ->
  begin immer (VRef l) s0 = (s1, Ok (scope, proxy)) ->
  run_script sc s1 = (s2, out) ->
  original proxy s2 = (s2, Ok (VRef l)).
Proof.
  intros H0 Hb Hrun.
  destruct (begin_Live _ _ _ _ _ _ H0 Hb) as (-> & HL & _ & Hdel & l' & b & E & _ & Hd1).
  inversion E; subst l'. clear E.
  assert (HR : Rooted l (delivered s0) s1).
  { split; [exact Hdel|]. rewrite Hd1. eexists. split; reflexivity. }
  pose proof (Rooted_run_script l _ sc s1 HR) as HR2.
  pose proof (Live_run_script scope _ sc s1 HL) as HL2.
  rewrite Hrun in HR2, HL2. simpl in HR2, HL2.
  destruct HR2 as [_ (st & Hst & Hbase)]. destruct HL2 as [_ Hrev].
  destruct (Hrev 0 st Hst) as [_ Hr].
  unfold original, state_of.
  rewrite (bind_ok _ _ s2 s2 st)
    by (rewrite (bind_ok _ _ _ _ _ (get_state_lookup _ _ _ Hst));
        rewrite Hr, andb_false_r; reflexivity).
  rewrite Hbase. reflexivity.
Qed.

Lemma original_is_base_witness :
  original (VDraft 0) (fst (run_script (rewrite_recipe (VDraft 0)) nested_draft_store))
  = (fst (run_script (rewrite_recipe (VDraft 0)) nested_draft_store), Ok (VRef 0)).
Proof.
  apply (original_is_base default_immer 0 (store_of rewrite_base) nested_draft_store
           (fst (run_script (rewrite_recipe (VDraft 0)) nested_draft_store)) 0 (VDraft 0)
           (rewrite_recipe (VDraft 0))
           (snd (run_script (rewrite_recipe (VDraft 0)) nested_draft_store)));
    reflexivity.
Defined.

(** * Patches on a draft *)

(** X18.  When a [replace] patch whose path is the one key [k] and whose
    value is primitive has been applied to the draft of a record or
    sequence, reading [k] through the draft gives that value (up to the
    sign of zero).  The key is any but [__proto__], and the value given
    for the [length] of a sequence is a number, which is stored as it
    is. *)
Theorem applyPatch_replace_then_get
    (fuel : nat) (d : did) (key : jsval) (pv : prim) (s s1 : state) (st : ImmerState) :
  sound_draft s d ->
  drafts s !! d = Some st -> is_proxy_type (type_ st) = true ->
  isDraftable_in (heap s) (VRef (base_ st)) = true ->
  pkey_of_value (heap s) key <> KStr "__proto__" ->
  (type_ st = AArray -> pkey_of_value (heap s) key = KStr "length" ->
   length_value pv = true) ->
  applyPatch fuel (VDraft d)
    {| op := REPLACE; path := [key]; pvalue := Some (VPrim pv) |} s = (s1, Ok tt) ->
  exists v',
    proxy_get d (pkey_of_value (heap s) key) s1 = (s1, Ok v')
    /\ same_value_zero v' (VPrim pv) = true.
Proof.
  intros (st' & bb & Hd' & Hbb & Hpl & Hwf) Hd Hty _ Hp _ H.
  rewrite Hd in Hd'. inversion Hd'; subst st'. clear Hd'.
  unfold applyPatch in H. cbn [path op pvalue walk_path] in H.
  apply bind_Ok_inv in H as (sa & base & H1 & H). apply ret_Ok in H1 as [-> ->].
  apply bind_Ok_inv in H as (sa & ty & H1 & H).
  unfold getArchtype in H1.
  apply bind_Ok_inv in H1 as (sb & st' & H1 & H2).
  apply state_of_Ok in H1 as (-> & Hd' & Hr).
  rewrite Hd in Hd'. inversion Hd'; subst st'. clear Hd'.
  apply ret_Ok in H2 as [-> ->].
  apply bind_Ok_inv in H as (sa & value & H1 & H).
  assert (sa = s /\ value = VPrim pv) as [-> ->].
  { destruct fuel as [|f]; [discriminate|]. simpl in H1. inversion H1. auto. }
  clear H1.
  apply bind_Ok_inv in H as (sa & h & H1 & H).
  unfold gets in H1. inversion H1; subst sa h. clear H1.
  cbn [default last] in H.
  assert (Hset : exists r, proxy_set d (pkey_of_value (heap s) key) (VPrim pv) s
                           = (s1, Ok r)).
  { assert (Hjs : js_set (VDraft d) (pkey_of_value (heap s) key) (VPrim pv) s = (s1, Ok tt)).
    { destruct (type_ st); try discriminate; exact H. }
    unfold js_set in Hjs.
    rewrite (bind_ok _ _ _ _ _ (get_state_lookup _ _ _ Hd)) in Hjs. rewrite Hty in Hjs.
    apply bind_Ok_inv in Hjs as (sa & r & H1 & H2). apply ret_Ok in H2 as [-> _].
    exists r. exact H1. }
  destruct Hset as [r Hset]. unfold proxy_set in Hset.
  apply bind_Ok_inv in Hset as (sa & st' & H1 & Hset).
  apply proxy_state_Ok in H1 as (-> & Hd' & Hr').
  rewrite Hd in Hd'. inversion Hd'; subst st'. clear Hd'.
  assert (Hset' : objectTraps_set d (pkey_of_value (heap s) key) (VPrim pv) s = (s1, Ok r)).
  { destruct (type_ st); try exact Hset. unfold arrayTraps_set in Hset.
    destruct (negb (pkey_eqb (pkey_of_value (heap s) key) (KStr "length"))
              && parseInt_isNaN (pkey_of_value (heap s) key)); [discriminate|].
    exact Hset. }
  destruct (objectTraps_set_reads d _ _ s s1 r st bb Hd Hr' Hbb Hpl Hwf Hp Hset')
    as (st1 & src & Hd1 & Hr1 & Hsrc & Hsv).
  exists (read_prop src (pkey_of_value (heap s) key)). split; [|exact Hsv].
  apply (proxy_get_value d _ s1 st1 src Hd1 Hr1 Hsrc Hp).
  rewrite (same_value_zero_draftable _ _ _ Hsv). reflexivity.
Qed.

Lemma applyPatch_replace_then_get_witness :
  exists v',
    proxy_get 0 (KStr "a")
      (fst (applyPatch 2 (VDraft 0)
              {| op := REPLACE; path := [VStr "a"]; pvalue := Some (VNum 5) |}
              unit_draft_store))
    = (fst (applyPatch 2 (VDraft 0)
              {| op := REPLACE; path := [VStr "a"]; pvalue := Some (VNum 5) |}
              unit_draft_store), Ok v')
    /\ same_value_zero v' (VNum 5) = true.
Proof.
  refine (applyPatch_replace_then_get 2 0 (VStr "a") (PNum 5) unit_draft_store _
            (new_state AObject 0 None 0) _ _ _ _ _ _ _).
  - eexists. eexists. split; [reflexivity|]. split; [reflexivity|]. split; [reflexivity|].
    intros c Hc. discriminate.
  - reflexivity.
  - reflexivity.
  - reflexivity.
  - discriminate.
  - intros H. discriminate H.
  - vm_compute. reflexivity.
Defined.

(** * The shallow copy of a record, in its three modes *)

Section SimpleCopy.
Import Descriptors.

Lemma key_eqb_sym a b : key_eqb a b = key_eqb b a.
Proof. destruct a, b; simpl; try reflexivity; apply String.eqb_sym. Qed.

Lemma key_eqb_trans a b c : key_eqb a b = true -> key_eqb b c = true -> key_eqb a c = true.
Proof. rewrite !key_eqb_eq. congruence. Qed.

Lemma strict_descriptor_twice d : strict_descriptor (strict_descriptor d) = strict_descriptor d.
Proof.
  destruct d as [v [] e c|[g|] [] e c]; reflexivity.
Qed.

Lemma strict_list_twice (l : list (key * descriptor)) :
  map (fun kd => (fst kd, strict_descriptor (snd kd)))
    (List.filter (fun kd => negb (key_eqb (fst kd) DRAFT_STATE))
       (map (fun kd => (fst kd, strict_descriptor (snd kd)))
          (List.filter (fun kd => negb (key_eqb (fst kd) DRAFT_STATE)) l)))
  = map (fun kd => (fst kd, strict_descriptor (snd kd)))
      (List.filter (fun kd => negb (key_eqb (fst kd) DRAFT_STATE)) l).
Proof.
  induction l as [|[k d] r IH]; simpl; [reflexivity|].
  destruct (key_eqb k DRAFT_STATE) eqn:E; simpl; [exact IH|].
  rewrite E. simpl. rewrite strict_descriptor_twice, IH. reflexivity.
Qed.

Lemma omap_twice {A} (F : A -> option A) :
  (forall a b, F a = Some b -> F b = Some b) ->
  forall l : list A, omap F (omap F l) = omap F l.
Proof.
  intros HF. induction l as [|a r IH]; [reflexivity|]. simpl.
  destruct (F a) as [b|] eqn:E; simpl; [|exact IH].
  rewrite (HF a b E). f_equal. exact IH.
Qed.

Lemma assigned_list_twice (l : list (key * descriptor)) :
  omap (fun kd => (fun d => (fst kd, d)) <$> assigned_descriptor (snd kd))
    (omap (fun kd => (fun d => (fst kd, d)) <$> assigned_descriptor (snd kd)) l)
  = omap (fun kd => (fun d => (fst kd, d)) <$> assigned_descriptor (snd kd)) l.
Proof.
  apply omap_twice. intros [k d] [k' d']. unfold assigned_descriptor. simpl.
  destruct (enumerable_of d); simpl; [|discriminate].
  intros H. inversion H. reflexivity.
Qed.

Lemma lookup_omap (g : descriptor -> option descriptor) (l : list (key * descriptor))
    (k : key) :
  distinct_keys key_eqb l ->
  assoc_get key_eqb k (omap (fun kd => (fun d => (fst kd, d)) <$> g (snd kd)) l)
  = assoc_get key_eqb k l ≫= g.
Proof.
  induction l as [|[k' d] r IH]; [reflexivity|]. intros [Hk Hr]. simpl.
  destruct (g d) as [d1|] eqn:G; simpl.
  - destruct (key_eqb k k'); [simpl; rewrite G; reflexivity | apply (IH Hr)].
  - etransitivity; [exact (IH Hr)|].
    destruct (key_eqb k k') eqn:E; [|reflexivity].
    apply key_eqb_eq in E. subst k'. rewrite Hk. simpl. rewrite G. reflexivity.
Qed.

Lemma lookup_assigned (l : list (key * descriptor)) (k : key) :
  distinct_keys key_eqb l ->
  assoc_get key_eqb k
    (omap (fun kd => (fun d => (fst kd, d)) <$> assigned_descriptor (snd kd)) l)
  = assoc_get key_eqb k l ≫= assigned_descriptor.
Proof. apply lookup_omap. Qed.

End SimpleCopy.

(** X19.  In each of its three modes, the shallow copy of a shallow copy
    of a record is that copy again. *)
Theorem shallowCopy_twice (base : Descriptors.object) (strict : StrictMode) :
  Descriptors.shallowCopy (Descriptors.shallowCopy base strict) strict
  = Descriptors.shallowCopy base strict.
Proof.
  destruct base as [p l].
  destruct strict, p; unfold Descriptors.shallowCopy;
    repeat (cbn [Descriptors.isPlainObject Descriptors.descriptors negb]; cbv iota);
    f_equal; first [apply strict_list_twice | apply assigned_list_twice].
Qed.

(** X20.  The simple copy of a plain object (strict mode off) has, under
    each key, a writable, enumerable and configurable data property
    holding what reading the key on the base gives, a getter being run on
    the base, when the base's property is enumerable; and nothing when it
    is not, or when the base has no such key.  In the mode [class_only] a
    plain object is copied like this, and any other object by the strict
    copy. *)
Theorem simple_copy_descriptors (base : Descriptors.object) (k : Descriptors.key) :
  distinct_keys Descriptors.key_eqb (Descriptors.descriptors base) ->
  (Descriptors.isPlainObject base = true ->
   Descriptors.lookup k (Descriptors.shallowCopy base StrictFalse)
   = match Descriptors.lookup k base with
     | Some d =>
         if Descriptors.enumerable_of d
         then Some (Descriptors.Data (Descriptors.read Descriptors.OnBase d) true true true)
         else None
     | None => None
     end)
  /\ Descriptors.shallowCopy base StrictClassOnly
     = Descriptors.shallowCopy base
         (if Descriptors.isPlainObject base then StrictFalse else StrictTrue).
Proof.
  intros Hd. split.
  - intros _. unfold Descriptors.lookup, Descriptors.shallowCopy.
    cbn [Descriptors.descriptors]. rewrite (lookup_assigned _ k Hd).
    destruct (assoc_get Descriptors.key_eqb k (Descriptors.descriptors base)); reflexivity.
  - unfold Descriptors.shallowCopy. destruct (Descriptors.isPlainObject base); reflexivity.
Qed.

Lemma simple_copy_descriptors_witness :
  Descriptors.lookup (Descriptors.Str "y") (Descriptors.shallowCopy getter_record StrictFalse)
  = Some (Descriptors.Data (VNum 2) true true true)
  /\ Descriptors.shallowCopy getter_record StrictClassOnly
     = Descriptors.shallowCopy getter_record StrictFalse.
Proof.
  destruct (simple_copy_descriptors getter_record (Descriptors.Str "y")) as [H1 H2].
  - simpl. auto.
  - split; [exact (H1 eq_refl) | exact H2].
Defined.

(** * Deleting through the draft of a record *)

Lemma tidy_copy_body b : tidy b -> tidy (copy_body b).
Proof. intros [H1 H2]. destruct b; try discriminate; split; assumption. Qed.

Lemma tidy_delete b p :
  tidy b -> exists b', delete_prop b p = Some b' /\ own_prop b' p = None.
Proof.
  intros [H1 H2]. destruct b as [ps| | | |ps|]; try discriminate; simpl in *.
  - eexists. split; [reflexivity|]. simpl.
    apply (assoc_get_del_same pkey_eqb pkey_eqb_sym pkey_eqb_trans). exact H2.
  - eexists. split; [reflexivity|]. simpl.
    apply (assoc_get_del_same pkey_eqb pkey_eqb_sym pkey_eqb_trans). exact H2.
Qed.

(** [delete state.copy_[prop]] on a copy whose keys are distinct. *)
Lemma copy_delete_absent d p s s1 st c cb :
  drafts s !! d = Some st -> copy_ st = Some c ->
  body_of (heap s) c = Some cb -> tidy cb ->
  copy_delete d p s = (s1, Ok tt) ->
  drafts s1 = drafts s
  /\ exists b', body_of (heap s1) c = Some b' /\ own_prop b' p = None.
Proof.
  intros Hd Hc Hcb Ht H. unfold copy_delete in H.
  rewrite (bind_ok _ _ _ _ _ (get_state_lookup _ _ _ Hd)) in H. rewrite Hc in H.
  unfold delete_at in H.
  rewrite (bind_ok _ _ _ _ _ (body_at_lookup _ _ _ Hcb)) in H.
  destruct (tidy_delete cb p Ht) as (b' & Hdel & Hown). rewrite Hdel in H.
  apply store_props_Ok in H as (o & Ho & _ & ->). split; [reflexivity|].
  exists b'. split; [|exact Hown]. simpl. apply body_of_insert.
  eapply lookup_lt_Some; eauto.
Qed.

Lemma descriptor_none d p s st b :
  drafts s !! d = Some st -> body_of (heap s) (latest st) = Some b ->
  own_prop b p = None ->
  objectTraps_getOwnPropertyDescriptor d p s = (s, Ok None).
Proof.
  intros Hd Hb Ho. unfold objectTraps_getOwnPropertyDescriptor.
  rewrite (bind_ok _ _ _ _ _ (get_state_lookup _ _ _ Hd)).
  rewrite (bind_ok _ _ _ _ _ (body_at_lookup _ _ _ Hb)). rewrite Ho. reflexivity.
Qed.

(** X21.  On the draft of a record whose keys are distinct, [delete
    draft[p]] returns true; afterwards the draft has no own property [p],
    and it is modified if [p] was an own key of the base. *)
Theorem proxy_delete_then_absent
    (d : did) (p : pkey) (s s1 : state) (r : bool) (st : ImmerState) (bb : body) :
  drafts s !! d = Some st -> type_ st <> AArray ->
  body_of (heap s) (base_ st) = Some bb -> tidy bb ->
  (forall c, copy_ st = Some c -> exists cb, body_of (heap s) c = Some cb /\ tidy cb) ->
  proxy_deleteProperty d p s = (s1, Ok r) ->
  r = true
  /\ objectTraps_getOwnPropertyDescriptor d p s1 = (s1, Ok None)
  /\ (has_own bb p = true -> is_modified s1 d).
Proof.
  intros Hd Hty Hbb Htb Hwf H. unfold proxy_deleteProperty in H.
  apply bind_Ok_inv in H as (sa & st' & H1 & H).
  apply proxy_state_Ok in H1 as (-> & Hd' & Hr).
  rewrite Hd in Hd'. inversion Hd'; subst st'. clear Hd'.
  assert (Hdel : objectTraps_deleteProperty d p s = (s1, Ok r))
    by (destruct (type_ st); try exact H; contradiction).
  clear H. unfold objectTraps_deleteProperty in Hdel.
  rewrite (bind_ok _ _ _ _ _ (get_state_lookup _ _ _ Hd)) in Hdel.
  rewrite (bind_ok _ _ _ _ _ (peek_ref_lookup _ p _ _ Hbb)) in Hdel.
  rewrite (bind_ok _ _ _ _ _ (body_at_lookup _ _ _ Hbb)) in Hdel.
  apply bind_Ok_inv in Hdel as (s4 & [] & Hblock & H).
  apply bind_Ok_inv in H as (s5 & [] & Hcd & H).
  apply ret_Ok in H as [E1 ->]. subst s5. split; [reflexivity|].
  destruct (negb (strict_eq (read_prop bb p) VUndef) || has_in bb p) eqn:Ec.
  - apply bind_Ok_inv in Hblock as (s2 & [] & Has & H).
    apply bind_Ok_inv in H as (s3 & [] & Hpc & Hmc).
    apply update_state_Ok in Has as (st0 & Hd0 & ->).
    rewrite Hd in Hd0. inversion Hd0; subst st0. clear Hd0.
    set (st2 := st_assigned (assoc_set same_value_zero (key_value p) false (assigned_ st)) st)
      in *.
    set (s2 := with_drafts (<[d := st2]> (drafts s)) s) in *.
    assert (Hd2 : drafts s2 !! d = Some st2).
    { unfold s2. simpl. apply list_lookup_insert_eq. eapply lookup_lt_Some; eauto. }
    assert (H3 : exists st3 c cb,
               drafts s3 !! d = Some st3 /\ copy_ st3 = Some c
               /\ body_of (heap s3) c = Some cb /\ tidy cb).
    { apply prepareCopy_Ok in Hpc as (st0 & Hd0 & Hpc).
      rewrite Hd2 in Hd0. inversion Hd0; subst st0. clear Hd0.
      destruct Hpc as [[[c Hc] ->]|[Hc (bb' & Hbb' & ->)]].
      - destruct (Hwf c Hc) as (cb & Hcb & Htc). exists st2, c, cb. auto.
      - simpl in Hbb'. rewrite Hbb in Hbb'. inversion Hbb'; subst bb'.
        exists (st_copy (Some (length (heap s))) st2), (length (heap s)), (copy_body bb).
        simpl. split; [|split; [reflexivity|split; [|apply tidy_copy_body, Htb]]].
        + apply list_lookup_insert_eq. rewrite length_insert. eapply lookup_lt_Some; eauto.
        + unfold body_of. rewrite lookup_app_r by lia. rewrite Nat.sub_diag. reflexivity. }
    destruct H3 as (st3 & c & cb & Hd3 & Hc3 & Hcb3 & Htc).
    apply markChanged_Ok in Hmc as [Hbk Hmod].
    destruct (bookkeeping_lookup _ _ _ _ Hbk Hd3) as (st4 & Hd4 & Hsc).
    destruct Hsc as (_&_&_&_&_&Hc4&_). destruct Hbk as (Hh4 & _).
    rewrite Hc3 in Hc4. rewrite <- Hh4 in Hcb3.
    destruct (copy_delete_absent d p s4 s1 st4 c cb Hd4 Hc4 Hcb3 Htc Hcd)
      as (Hds & b' & Hb' & Hown).
    split.
    + apply (descriptor_none d p s1 st4 b'); [rewrite Hds; exact Hd4 | | exact Hown].
      unfold latest. rewrite Hc4. exact Hb'.
    + intros _. destruct Hmod as (stm & Hdm & Hm). exists stm. rewrite Hds. auto.
  - apply orb_false_iff in Ec as [_ Hin].
    apply update_state_Ok in Hblock as (st0 & Hd0 & ->).
    rewrite Hd in Hd0. inversion Hd0; subst st0. clear Hd0.
    set (st2 := st_assigned (assoc_del same_value_zero (key_value p) (assigned_ st)) st) in *.
    set (s2 := with_drafts (<[d := st2]> (drafts s)) s) in *.
    assert (Hd2 : drafts s2 !! d = Some st2).
    { unfold s2. simpl. apply list_lookup_insert_eq. eapply lookup_lt_Some; eauto. }
    assert (Hno : has_own bb p = false).
    { unfold has_in in Hin. apply orb_false_iff in Hin as [Hno _]. exact Hno. }
    split; [|rewrite Hno; discriminate].
    destruct (copy_ st) as [c|] eqn:Hc.
    + destruct (Hwf c eq_refl) as (cb & Hcb & Htc).
      destruct (copy_delete_absent d p s2 s1 st2 c cb Hd2 Hc Hcb Htc Hcd)
        as (Hds & b' & Hb' & Hown).
      apply (descriptor_none d p s1 st2 b'); [rewrite Hds; exact Hd2 | | exact Hown].
      unfold latest. simpl. rewrite Hc. exact Hb'.
    + unfold copy_delete in Hcd.
      rewrite (bind_ok _ _ _ _ _ (get_state_lookup _ _ _ Hd2)) in Hcd.
      simpl in Hcd. rewrite Hc in Hcd. apply ret_Ok in Hcd as [-> _].
      apply (descriptor_none d p s2 st2 bb Hd2).
      * unfold latest. simpl. rewrite Hc. exact Hbb.
      * unfold has_in in Hin. apply orb_false_iff in Hin as [Hown _].
        unfold has_own in Hown. destruct (own_prop bb p); [discriminate | reflexivity].
Qed.

Lemma proxy_delete_then_absent_witness :
  true = true
  /\ objectTraps_getOwnPropertyDescriptor 0 (KStr "a")
       (fst (proxy_deleteProperty 0 (KStr "a") unit_draft_store))
     = (fst (proxy_deleteProperty 0 (KStr "a") unit_draft_store), Ok None)
  /\ (has_in (BRecord [(KStr "a", VNum 1)]) (KStr "a") = true ->
      is_modified (fst (proxy_deleteProperty 0 (KStr "a") unit_draft_store)) 0).
Proof.
  refine (proxy_delete_then_absent 0 (KStr "a") unit_draft_store _ true
            (new_state AObject 0 None 0) (BRecord [(KStr "a", VNum 1)]) _ _ _ _ _ _).
  - reflexivity.
  - discriminate.
  - reflexivity.
  - split; [reflexivity | simpl; auto].
  - intros c Hc. discriminate.
  - vm_compute. reflexivity.
Defined.

(** * A write through the draft of a record leaves the other keys *)

Lemma record_like_props b : record_like b = true -> props_like b = true.
Proof. destruct b; simpl; congruence. Qed.

Lemma copy_body_record b : record_like b = true -> copy_body b = b.
Proof. destruct b; try discriminate; reflexivity. Qed.

(** ** Writes that leave the other keys

    [ok] singles out the bodies that the shallow copy reproduces and in
    which a write under [p] changes nothing under another key. *)
Section FramedWrite.
Variable ok : body -> Prop.
Variable p : pkey.
Hypothesis H_copy : forall b, ok b -> copy_body b = b.
Hypothesis H_write : forall b v b',
  ok b -> write_prop b p v = Some b' ->
  forall q, pkey_eqb p q = false ->
    read_prop b' q = read_prop b q /\ has_own b' q = has_own b q.

Lemma frames_refl src s d st :
  drafts s !! d = Some st -> revoked_ st = false ->
  body_of (heap s) (latest st) = Some src -> frames src p s d.
Proof. intros Hd Hr Hb. exists st, src. repeat split; assumption. Qed.

Lemma write_path_frame d v k a s s2 s1 st c cb :
  drafts s !! d = Some st -> revoked_ st = false ->
  copy_ st = Some c -> body_of (heap s) c = Some cb -> ok cb ->
  copy_write d p v s = (s2, Ok tt) ->
  assign d k a s2 = (s1, Ok tt) ->
  frames cb p s1 d.
Proof.
  intros Hd Hr Hc Hcb Hrl Hw Ha.
  apply copy_write_Ok in Hw as (st' & c' & o & b' & Hd' & Hc' & Ho & Hwp & ->).
  rewrite Hd in Hd'. inversion Hd'; subst st'. clear Hd'.
  rewrite Hc in Hc'. inversion Hc'; subst c'. clear Hc'.
  apply update_state_Ok in Ha as (st2 & Hd2 & ->). simpl in Hd2.
  rewrite Hd in Hd2. inversion Hd2; subst st2. clear Hd2.
  unfold body_of in Hcb. rewrite Ho in Hcb. simpl in Hcb. inversion Hcb; subst cb.
  pose proof (H_write _ _ _ Hrl Hwp) as Hfr.
  eexists. exists b'. simpl. split; [|split; [|split]].
  - apply list_lookup_insert_eq. eapply lookup_lt_Some; eauto.
  - exact Hr.
  - unfold latest. simpl. rewrite Hc. apply body_of_insert. eapply lookup_lt_Some; eauto.
  - exact Hfr.
Qed.

Lemma set_store_frame d v s s1 r st c cb :
  drafts s !! d = Some st -> revoked_ st = false ->
  copy_ st = Some c -> body_of (heap s) c = Some cb -> ok cb ->
  set_store d p v s = (s1, Ok r) ->
  frames cb p s1 d.
Proof.
  intros Hd Hr Hc Hcb Hrl H. unfold set_store in H.
  apply bind_Ok_inv in H as (sa & stored & H1 & H).
  apply copy_read_Ok in H1 as (-> & _).
  apply bind_Ok_inv in H as (sa & c' & H1 & H). apply copy_loc_Ok in H1 as (-> & _).
  apply bind_Ok_inv in H as (sa & cb' & H1 & H). apply body_at_inv in H1 as (-> & _).
  match type of H with (if ?c then _ else _) _ = _ => destruct c end.
  - apply ret_Ok in H as [-> _]. apply (frames_refl cb s d st Hd Hr).
    unfold latest. rewrite Hc. exact Hcb.
  - apply bind_Ok_inv in H as (s2 & [] & Hw & H).
    apply bind_Ok_inv in H as (s3 & [] & Ha & H).
    apply ret_Ok in H as [-> _].
    eapply write_path_frame; eauto.
Qed.

Lemma set_plain_frame d v s s1 r st src :
  drafts s !! d = Some st -> revoked_ st = false ->
  body_of (heap s) (latest st) = Some src -> ok src ->
  set_plain d p v st s = (s1, Ok r) ->
  frames src p s1 d.
Proof.
  intros Hd Hr Hsrc Hrl H.
  unfold set_plain in H.
  assert (Hstore : forall s3 st3 c,
            drafts s3 !! d = Some st3 -> revoked_ st3 = false -> copy_ st3 = Some c ->
            body_of (heap s3) c = Some src ->
            set_store d p v s3 = (s1, Ok r) -> frames src p s1 d).
  { intros s3 st3 c Hd3 Hr3 Hc3 Hb3. eapply set_store_frame; eauto. }
  destruct (modified_ st) eqn:Hm.
  { pose proof H as Hkeep.
    apply bind_Ok_inv in H as (sa & stored & H1 & H').
    apply copy_read_Ok in H1 as (-> & st' & c & cb & Hd' & Hc & _ & _).
    rewrite Hd in Hd'. inversion Hd'; subst st'. clear Hd' H'.
    apply (Hstore s st c Hd Hr Hc); [|exact Hkeep].
    unfold latest in Hsrc. rewrite Hc in Hsrc. exact Hsrc. }
  apply bind_Ok_inv in H as (sa & current & H1 & H).
  apply peek_ref_Ok in H1 as (-> & src' & Hsrc' & ->).
  rewrite Hsrc in Hsrc'. inversion Hsrc'; subst src'. clear Hsrc'.
  apply bind_Ok_inv in H as (sa & currentState & H1 & H).
  assert (sa = s) as ->.
  { destruct (read_prop src p).
    - apply ret_Ok in H1 as [-> _]. reflexivity.
    - apply ret_Ok in H1 as [-> _]. reflexivity.
    - apply bind_Ok_inv in H1 as (sb & cst & K1 & K2).
      apply state_of_Ok in K1 as (-> & _). apply ret_Ok in K2 as [-> _]. reflexivity.
    - apply ret_Ok in H1 as [-> _]. reflexivity. }
  clear H1.
  match type of H with (if ?c then _ else _) _ = _ => destruct c eqn:Ec end.
  - apply bind_Ok_inv in H as (s2 & [] & Hw & H).
    apply bind_Ok_inv in H as (s3 & [] & Ha & H).
    apply ret_Ok in H as [-> _].
    pose proof Hw as Hw'.
    apply copy_write_Ok in Hw' as (st' & c & o & b' & Hd' & Hc & _).
    rewrite Hd in Hd'. inversion Hd'; subst st'. clear Hd'.
    eapply (write_path_frame d v _ _ s s2 _ st c src); eauto.
    unfold latest in Hsrc. rewrite Hc in Hsrc. exact Hsrc.
  - apply bind_Ok_inv in H as (sa & baseb & H1 & H). apply body_at_inv in H1 as [-> Hbb].
    match type of H with (if ?c then _ else _) _ = _ => destruct c eqn:Ei end.
    + apply ret_Ok in H as [-> _]. apply (frames_refl src s d st Hd Hr Hsrc).
    + apply bind_Ok_inv in H as (s2 & [] & Hpc & H).
      apply bind_Ok_inv in H as (s3 & [] & Hmc & H).
      assert (H2 : exists st2 c, drafts s2 !! d = Some st2 /\ revoked_ st2 = false
                                 /\ copy_ st2 = Some c /\ body_of (heap s2) c = Some src).
      { apply prepareCopy_Ok in Hpc as (st0 & Hd0 & Hpc).
        rewrite Hd in Hd0. inversion Hd0; subst st0. clear Hd0.
        destruct Hpc as [[[c Hc] ->]|[Hc (bb' & Hbb' & ->)]].
        - exists st, c. repeat split; try assumption.
          unfold latest in Hsrc. rewrite Hc in Hsrc. exact Hsrc.
        - unfold latest in Hsrc. rewrite Hc in Hsrc.
          rewrite Hsrc in Hbb'. inversion Hbb'; subst bb'.
          exists (st_copy (Some (length (heap s))) st), (length (heap s)). simpl.
          split; [apply list_lookup_insert_eq; eapply lookup_lt_Some; eauto|].
          split; [exact Hr|]. split; [reflexivity|].
          unfold body_of. rewrite lookup_app_r by lia. rewrite Nat.sub_diag. simpl.
          rewrite (H_copy src Hrl). reflexivity. }
      destruct H2 as (st2 & c & Hd2 & Hr2 & Hc2 & Hb2).
      apply markChanged_Ok in Hmc as [Hbk _].
      destruct (bookkeeping_lookup _ _ _ _ Hbk Hd2) as (st3 & Hd3 & Hcore).
      destruct Hcore as (_&_&_&_&_&Hc3&_&Hr3&_).
      destruct Hbk as (Hh3&_).
      apply (Hstore s3 st3 c Hd3); [congruence | congruence | rewrite Hh3; exact Hb2 | exact H].
Qed.

Lemma objectTraps_set_frame d v s s1 r st src :
  drafts s !! d = Some st -> revoked_ st = false ->
  body_of (heap s) (latest st) = Some src -> ok src ->
  p <> KStr "__proto__" ->
  objectTraps_set d p v s = (s1, Ok r) ->
  frames src p s1 d.
Proof.
  intros Hd Hr Hsrc Hrl Hp H. rewrite objectTraps_set_eq in H.
  rewrite (bind_ok _ _ _ _ _ (get_state_lookup _ _ _ Hd)) in H.
  rewrite (bind_ok _ _ _ _ _ (body_at_lookup _ _ _ Hsrc)) in H.
  destruct (getDescriptorFromProto src p) as [[v0|]|] eqn:Eg.
  - eapply set_plain_frame; eauto.
  - unfold getDescriptorFromProto in Eg. destruct (negb (has_in src p)); [discriminate|].
    apply proto_lookup_accessor in Eg. contradiction.
  - eapply set_plain_frame; eauto.
Qed.

End FramedWrite.

Lemma write_frame b p v b' :
  record_like b = true -> write_prop b p v = Some b' ->
  record_like b' = true
  /\ forall q, pkey_eqb p q = false ->
       read_prop b' q = read_prop b q /\ has_own b' q = has_own b q.
Proof.
  intros Hr H. destruct b as [ps| | | |ps|]; try discriminate; simpl in H;
    inversion H; subst; (split; [reflexivity|]); intros q Hq;
    unfold read_prop, has_own; simpl;
    rewrite (assoc_get_set_other pkey_eqb pkey_eqb_sym pkey_eqb_trans) by exact Hq;
    split; reflexivity.
Qed.

(** X22.  On the draft of a record, a write under the key [p] leaves the
    other keys that hold primitive values: a key [q] other than [p] (and
    than [__proto__]) that read as a primitive before the write reads the
    same after it, and neither read changes anything. *)
Theorem proxy_set_other_keys
    (d : did) (p q : pkey) (v : jsval) (x : prim) (s s1 : state) (r : bool)
    (st : ImmerState) (src : body) :
  drafts s !! d = Some st ->
  body_of (heap s) (latest st) = Some src -> record_like src = true ->
  p <> KStr "__proto__" -> q <> KStr "__proto__" -> pkey_eqb p q = false ->
  read_prop src q = VPrim x ->
  proxy_set d p v s = (s1, Ok r) ->
  proxy_get d q s = (s, Ok (VPrim x)) /\ proxy_get d q s1 = (s1, Ok (VPrim x)).
Proof.
  intros Hd Hsrc Hrl Hp Hq Hpq Hx H. unfold proxy_set in H.
  apply bind_Ok_inv in H as (sa & st' & H1 & H).
  apply proxy_state_Ok in H1 as (-> & Hd' & Hr).
  rewrite Hd in Hd'. inversion Hd'; subst st'. clear Hd'.
  assert (Hset : objectTraps_set d p v s = (s1, Ok r)).
  { destruct (type_ st); try exact H. unfold arrayTraps_set in H.
    destruct (negb (pkey_eqb p (KStr "length")) && parseInt_isNaN p); [discriminate|].
    exact H. }
  split.
  - rewrite <- Hx. apply (proxy_get_value d q s st src Hd Hr Hsrc Hq).
    rewrite Hx. reflexivity.
  - destruct (objectTraps_set_frame (fun b => record_like b = true) p copy_body_record
                (fun b v b' Hb Hw => proj2 (write_frame b p v b' Hb Hw))
                d v s s1 r st src Hd Hr Hsrc Hrl Hp Hset)
      as (st1 & src1 & Hd1 & Hr1 & Hsrc1 & Hfr).
    destruct (Hfr q Hpq) as [Hread _]. rewrite <- Hx, <- Hread.
    apply (proxy_get_value d q s1 st1 src1 Hd1 Hr1 Hsrc1 Hq).
    rewrite Hread, Hx. reflexivity.
Qed.

Lemma proxy_set_other_keys_witness :
  proxy_get 0 (KStr "b") nested_draft_store = (nested_draft_store, Ok (VNum 1))
  /\ proxy_get 0 (KStr "b") (fst (proxy_set 0 (KStr "a") (VNum 5) nested_draft_store))
     = (fst (proxy_set 0 (KStr "a") (VNum 5) nested_draft_store), Ok (VNum 1)).
Proof.
  refine (proxy_set_other_keys 0 (KStr "a") (KStr "b") (VNum 5) (PNum 1) nested_draft_store
            _ true (new_state AObject 0 None 0)
            (BRecord [(KStr "a", VRef 1); (KStr "b", VNum 1)]) _ _ _ _ _ _ _ _);
    try reflexivity; try discriminate.
Defined.

(** * Deleting an element through the draft of a sequence *)

Lemma has_index_copy i b : has_index i b -> copy_body b = b.
Proof. intros (es & -> & _). reflexivity. Qed.

Lemma has_index_write i b v b' :
  has_index i b -> write_prop b (KIdx i) v = Some b' ->
  forall q, pkey_eqb (KIdx i) q = false ->
    read_prop b' q = read_prop b q /\ has_own b' q = has_own b q.
Proof.
  intros (es & -> & Hi) H q Hq. simpl in H.
  destruct (i <? length es) eqn:E; [|apply Nat.ltb_ge in E; lia].
  inversion H; subst b'. clear H.
  unfold read_prop, has_own. destruct q as [t|j]; simpl.
  - rewrite length_insert. split; reflexivity.
  - simpl in Hq. apply Nat.eqb_neq in Hq.
    rewrite list_lookup_insert_ne by exact Hq. split; reflexivity.
Qed.

Lemma same_value_zero_undefined x : same_value_zero x VUndef = true -> x = VUndef.
Proof.
  intros H. apply same_value_zero_spec in H as [H|[_ H]]; [exact H | discriminate].
Qed.

(** X23.  On the draft of a sequence, [delete draft[i]] of an index below
    the length writes [undefined] there: afterwards the index reads
    [undefined], the length is what it was, and no other index that held a
    primitive has changed. *)
Theorem array_delete_leaves_hole
    (d : did) (i : nat) (es : list jsval) (s s1 : state) (r : bool) (st : ImmerState) :
  sound_draft s d ->
  drafts s !! d = Some st -> type_ st = AArray ->
  body_of (heap s) (latest st) = Some (BArray es []) -> i < length es ->
  proxy_deleteProperty d (KIdx i) s = (s1, Ok r) ->
  proxy_get d (KIdx i) s1 = (s1, Ok VUndef)
  /\ proxy_get d (KStr "length") s1 = (s1, Ok (VNum (Z.of_nat (length es))))
  /\ forall j x, j <> i -> es !! j = Some (VPrim x) ->
       proxy_get d (KIdx j) s1 = (s1, Ok (VPrim x)).
Proof.
  intros (st' & bb & Hd' & Hbb & Hpl & Hwf) Hd Hty Hsrc Hi H.
  rewrite Hd in Hd'. inversion Hd'; subst st'. clear Hd'.
  unfold proxy_deleteProperty in H.
  apply bind_Ok_inv in H as (sa & st' & H1 & H).
  apply proxy_state_Ok in H1 as (-> & Hd' & Hr).
  rewrite Hd in Hd'. inversion Hd'; subst st'. clear Hd'.
  assert (Hp : KIdx i <> KStr "__proto__") by discriminate.
  rewrite Hty in H.
  assert (Hset : objectTraps_set d (KIdx i) VUndef s = (s1, Ok r)) by exact H.
  clear H.
  destruct (objectTraps_set_reads d _ _ s s1 r st bb Hd Hr Hbb Hpl Hwf Hp Hset)
    as (st1 & src1 & Hd1 & Hr1 & Hsrc1 & Hsv).
  apply same_value_zero_undefined in Hsv.
  destruct (objectTraps_set_frame (has_index i) (KIdx i) (has_index_copy i)
              (has_index_write i) d VUndef s s1 r st (BArray es []) Hd Hr Hsrc
              (ex_intro _ es (conj eq_refl Hi)) Hp Hset)
    as (st2 & src2 & Hd2 & _ & Hsrc2 & Hfr).
  rewrite Hd1 in Hd2. inversion Hd2; subst st2. clear Hd2.
  rewrite Hsrc1 in Hsrc2. inversion Hsrc2; subst src2. clear Hsrc2.
  split; [|split].
  - rewrite <- Hsv. apply (proxy_get_value d _ s1 st1 src1 Hd1 Hr1 Hsrc1 Hp).
    rewrite Hsv. reflexivity.
  - destruct (Hfr (KStr "length") eq_refl) as [Hread _].
    assert (Hlen : read_prop src1 (KStr "length") = VNum (Z.of_nat (length es)))
      by (rewrite Hread; reflexivity).
    rewrite <- Hlen.
    apply (proxy_get_value d _ s1 st1 src1 Hd1 Hr1 Hsrc1); [discriminate|].
    rewrite Hlen. reflexivity.
  - intros j x Hj Hx.
    assert (Hq : pkey_eqb (KIdx i) (KIdx j) = false)
      by (simpl; apply Nat.eqb_neq; congruence).
    destruct (Hfr (KIdx j) Hq) as [Hread _].
    assert (Hv : read_prop src1 (KIdx j) = VPrim x).
    { rewrite Hread. unfold read_prop. simpl. rewrite Hx. reflexivity. }
    rewrite <- Hv.
    apply (proxy_get_value d _ s1 st1 src1 Hd1 Hr1 Hsrc1); [discriminate|].
    rewrite Hv. reflexivity.
Qed.

Lemma array_delete_leaves_hole_witness :
  proxy_get 0 (KIdx 1) (fst (proxy_deleteProperty 0 (KIdx 1) array_draft_store))
  = (fst (proxy_deleteProperty 0 (KIdx 1) array_draft_store), Ok VUndef)
  /\ proxy_get 0 (KStr "length") (fst (proxy_deleteProperty 0 (KIdx 1) array_draft_store))
     = (fst (proxy_deleteProperty 0 (KIdx 1) array_draft_store), Ok (VNum 3))
  /\ forall j x, j <> 1 -> [VNum 1; VNum 2; VNum 3] !! j = Some (VPrim x) ->
       proxy_get 0 (KIdx j) (fst (proxy_deleteProperty 0 (KIdx 1) array_draft_store))
       = (fst (proxy_deleteProperty 0 (KIdx 1) array_draft_store), Ok (VPrim x)).
Proof.
  refine (array_delete_leaves_hole 0 1 [VNum 1; VNum 2; VNum 3] array_draft_store _ true
            (new_state AArray 0 None 0) _ _ _ _ _ _).
  - eexists. eexists. split; [reflexivity|]. split; [reflexivity|]. split; [reflexivity|].
    intros c Hc. discriminate.
  - reflexivity.
  - reflexivity.
  - reflexivity.
  - simpl. lia.
  - vm_compute. reflexivity.
Defined.

(** * One assignment, from the draft to the patches *)

Lemma lookup_snoc {A} (x : list A) (o : A) : (x ++ [o]) !! length x = Some o.
Proof. rewrite lookup_app_r by lia. rewrite Nat.sub_diag. reflexivity. Qed.

Lemma insert_snoc {A} (x : list A) (o o' : A) : <[length x := o']> (x ++ [o]) = x ++ [o'].
Proof.
  rewrite insert_app_r_alt by lia. rewrite Nat.sub_diag. reflexivity.
Qed.

Lemma lookup_old {A} (x : list A) (o a : A) i : x !! i = Some a -> (x ++ [o]) !! i = Some a.
Proof. intros H. rewrite lookup_app_l by (eapply lookup_lt_Some; eauto). exact H. Qed.

Lemma flat_own ps q v : flat ps -> own_prop (BRecord ps) q = Some v -> exists x, v = VPrim x.
Proof.
  simpl. intros Hf. induction Hf as [|[k' v'] r [x Hx] _ IH]; simpl; [discriminate|].
  destruct (pkey_eqb q k'); [|exact IH]. intros E. inversion E; subst. eauto.
Qed.

Lemma flat_read_not_draft ps q : flat ps -> isDraft (read_prop (BRecord ps) q) = false.
Proof.
  intros Hf. unfold read_prop. destruct (own_prop (BRecord ps) q) as [v|] eqn:E.
  - destruct (flat_own ps q v Hf E) as [x ->]. reflexivity.
  - destruct (proto_lookup (BRecord ps) q) as [[v|]|] eqn:Ep; try reflexivity.
    unfold proto_lookup in Ep. destruct q; try discriminate.
    destruct (String.eqb _ "constructor"); [inversion Ep; reflexivity|].
    destruct (String.eqb _ "__proto__"); discriminate.
Qed.


Lemma In_insert_sorted x i l : In x (insert_sorted i l) -> x = i \/ In x l.
Proof.
  induction l as [|j r IH]; simpl.
  - intros [->|[]]. left. reflexivity.
  - destruct (i <=? j); simpl.
    + intros [->|H]; auto.
    + intros [->|H]; auto. destruct (IH H); auto.
Qed.

Lemma In_sorted x l : In x (fold_right insert_sorted [] l) -> In x l.
Proof.
  induction l as [|j r IH]; simpl; [auto|].
  intros H. apply In_insert_sorted in H as [->|H]; auto.
Qed.

Lemma In_assoc_get (ps : list (pkey * jsval)) q w :
  In (q, w) ps -> exists w', assoc_get pkey_eqb q ps = Some w'.
Proof.
  induction ps as [|[k' v'] r IH]; simpl; [contradiction|].
  intros [E|H].
  - inversion E; subst. rewrite pkey_eqb_refl. eauto.
  - destruct (pkey_eqb q k'); eauto.
Qed.

Lemma own_keys_has_own ps q : In q (own_keys (BRecord ps)) -> has_own (BRecord ps) q = true.
Proof.
  unfold own_keys, has_own, index_keys, string_keys. simpl. intros H.
  assert (Hin : exists w, In (q, w) ps).
  { apply in_app_or in H as [H|H].
    - apply in_map_iff in H as (i & <- & H). apply In_sorted in H.
      apply list_elem_of_In in H. apply list_elem_of_omap in H as ([k' w] & Hin & E).
      simpl in E. destruct k'; inversion E; subst. exists w. apply list_elem_of_In. exact Hin.
    - apply list_elem_of_In in H. apply list_elem_of_omap in H as ([k' w] & Hin & E).
      simpl in E. destruct k'; inversion E; subst. exists w. apply list_elem_of_In. exact Hin. }
  destruct Hin as [w Hin]. destruct (In_assoc_get ps q w Hin) as [w' ->]. reflexivity.
Qed.

Lemma flat_assoc_set ps q x : flat ps -> flat (assoc_set pkey_eqb q (VPrim x) ps).
Proof.
  intros Hf. induction Hf as [|[k' v'] r Hx Hfr IH]; simpl.
  - constructor; [eexists; reflexivity | constructor].
  - destruct (pkey_eqb q k'); constructor;
      first [eexists; reflexivity | exact Hx | exact Hfr | exact IH].
Qed.

Lemma finalize_flat_props fin f root ps obj path s keys :
  body_of (heap s) obj = Some (BRecord ps) -> flat ps ->
  (forall key, In key keys -> has_own (BRecord ps) key = true) ->
  forM_ keys (fun key =>
    b' ← body_at obj;
    finalizeProperty_with fin f root (Some 0) obj (key_value key) (read_prop b' key) path false)
    s = (s, Ok tt).
Proof.
  intros Hb Hf. induction keys as [|key r IH]; intros Hk; [reflexivity|].
  cbn [forM_].
  assert (E : (b' ← body_at obj;
               finalizeProperty_with fin f root (Some 0) obj (key_value key)
                 (read_prop b' key) path false) s = (s, Ok tt)).
  { rewrite (bind_ok _ _ _ _ _ (body_at_lookup _ _ _ Hb)).
    pose proof (Hk key (or_introl eq_refl)) as Ho.
    pose proof (has_own_read _ _ Ho) as Hr.
    destruct (flat_own ps key _ Hf Hr) as [x ->]. reflexivity. }
  rewrite (bind_ok _ _ _ _ _ E). apply IH. intros q Hq. apply Hk. right. exact Hq.
Qed.


Lemma key_value_prim q : exists x, key_value q = VPrim x.
Proof. destruct q; simpl; eauto. Qed.

Lemma assigned_order_one q b :
  assigned_order AObject [(key_value q, b)] = [(key_value q, b)].
Proof.
  unfold assigned_order, index_of_key. destruct q as [t|i]; [reflexivity|].
  simpl.
  assert (E : (0 <=? Z.of_nat i)%Z = true) by (apply Z.leb_le; lia).
  rewrite E. simpl. rewrite Nat2Z.id. unfold same_value_zero. simpl. rewrite Z.eqb_refl.
  simpl. rewrite filter_cons_False by (simpl; rewrite E; discriminate). reflexivity.
Qed.


Lemma seq_ok {A B C} (m : M A) (n : M B) (f : B -> M C) s s1 b :
  (m ≫= fun _ => n) s = (s1, Ok b) -> (m ≫= fun _ => n ≫= f) s = f b s1.
Proof.
  unfold mbind, M_bind, bind. destruct (m s) as [sx [a| |]]; try discriminate.
  intros E. rewrite E. reflexivity.
Qed.

(** ** The run, step by step *)

Section OneAssignment.
Variables (immer : Immer) (h : list obj) (l : loc) (ps : list (pkey * jsval)) (fr g : bool)
  (k : pkey) (pv : prim).
Hypothesis Hl : h !! l = Some (Obj (BRecord ps) fr g).
Hypothesis Hk : k <> KStr "__proto__".
Hypothesis Hdiff : same_value_zero (read_prop (BRecord ps) k) (VPrim pv) = false.

Lemma step_begin : begin immer (VRef l) (store_of h) = (started immer h l, Ok (0, VDraft 0)).
Proof.
  unfold begin, enterScope, createProxy, body_at, heap_lookup, getCurrentScope, gets, get_scope,
    update_scope, get_scope, modify, mbind, M_bind, bind, ret. simpl. rewrite Hl. reflexivity.
Qed.

Hypothesis Hflat : flat ps.
Hypothesis Hcanon : pkey_of_value [] (key_value k) = k.


Local Abbreviation v := (VPrim pv).
Local Abbreviation st1 := (new_state AObject l None 0).
Local Abbreviation sA :=
  (solo (h ++ [Obj (BRecord ps) false false]) (st_copy (Some (length h)) st1)
     (root_scope immer) (Some 0) []).
Local Abbreviation sB :=
  (solo (h ++ [Obj (BRecord ps) false false])
     (st_modified true (st_copy (Some (length h)) st1)) (root_scope immer) (Some 0) []).
Local Abbreviation b' := (assigned_body ps k v).
Local Abbreviation hp2 := (copied_heap h b').
Local Abbreviation hp6 := (finished_heap immer h b').
Local Abbreviation st2 := (written_state l (length h) k).
Local Abbreviation st5 := (finalized_state l (length h) k).
Local Abbreviation sc3 := (listening immer).
Local Abbreviation sc4 := (counting immer).
Local Abbreviation sc5 := (counted immer).
Local Abbreviation sc7 := (patched immer ps k v).
Local Abbreviation fwd := (assign_patch ps k v).
Local Abbreviation inv := (assign_inverse ps k).

Lemma base_body : body_of h l = Some (BRecord ps).
Proof. unfold body_of. rewrite Hl. reflexivity. Qed.

Lemma E_prepare : prepareCopy 0 (started immer h l) = (sA, Ok tt).
Proof.
  unfold prepareCopy, shallowCopy, alloc, update_state, body_at, heap_lookup, get_state,
    get_scope, modify, mbind, M_bind, bind, ret, started. simpl. rewrite Hl. reflexivity.
Qed.

Lemma E_mark : markChanged 0 sA = (sB, Ok tt).
Proof. reflexivity. Qed.

Lemma E_store :
  set_store 0 k v sB
  = (written immer h l (BRecord (assoc_set pkey_eqb k v ps)) k, Ok true).
Proof.
  assert (Hse : strict_eq (read_prop (BRecord ps) k) v = false
                /\ is_nan v && is_nan (read_prop (BRecord ps) k) = false).
  { unfold same_value_zero in Hdiff. apply orb_false_iff in Hdiff as [H1 H2].
    split; [exact H1|]. rewrite andb_comm. exact H2. }
  destruct Hse as [Hse Hnan].
  unfold set_store, copy_read, copy_loc.
  rewrite (bind_ok _ _ sB sB (read_prop (BRecord ps) k)).
  2:{ unfold body_at, heap_lookup, get_state, mbind, M_bind, bind, ret. simpl.
      rewrite lookup_snoc. reflexivity. }
  rewrite (bind_ok _ _ sB sB (length h)) by reflexivity.
  rewrite (bind_ok _ _ sB sB (BRecord ps)).
  2:{ unfold body_at, heap_lookup, mbind, M_bind, bind, ret. simpl.
      rewrite lookup_snoc. reflexivity. }
  rewrite Hse, Hnan. cbn [andb orb].
  unfold copy_write, copy_loc, assign, set_assigned, update_state, store_props,
    body_at, heap_lookup, get_state, modify, mbind, M_bind, bind, ret. simpl.
  rewrite lookup_snoc. simpl. rewrite lookup_snoc. simpl. rewrite insert_snoc. reflexivity.
Qed.

Lemma step_set :
  proxy_set 0 k v (started immer h l)
  = (written immer h l (BRecord (assoc_set pkey_eqb k v ps)) k, Ok true).
Proof.
  unfold proxy_set.
  rewrite (bind_ok _ _ _ _ st1) by reflexivity.
  cbn [type_ new_state st1].
  rewrite objectTraps_set_eq.
  rewrite (bind_ok _ _ _ _ st1) by reflexivity.
  rewrite (bind_ok _ _ _ _ (BRecord ps)) by (apply body_at_lookup; exact base_body).
  assert (Hplain : set_plain 0 k v st1 (started immer h l)
            = (written immer h l (BRecord (assoc_set pkey_eqb k v ps)) k, Ok true)).
  { unfold set_plain. cbn [modified_ new_state latest copy_ base_ st1].
    rewrite (bind_ok _ _ _ _ _ (peek_ref_lookup l k (started immer h l) _ base_body)).
    pose proof (flat_read_not_draft ps k Hflat) as Hnd.
    assert (His : is_ v (read_prop (BRecord ps) k) = false).
    { destruct (is_ v (read_prop (BRecord ps) k)) eqn:E; [|reflexivity].
      apply is_eq in E. rewrite <- E in Hdiff. rewrite same_value_zero_refl in Hdiff.
      discriminate. }
    rewrite (bind_ok _ _ _ (started immer h l) None)
      by (destruct (read_prop (BRecord ps) k); try reflexivity; discriminate).
    cbv iota.
    rewrite (bind_ok _ _ _ _ (BRecord ps)) by (apply body_at_lookup; exact base_body).
    rewrite His. cbn [andb].
    rewrite (bind_ok _ _ _ _ _ E_prepare).
    rewrite (bind_ok _ _ _ _ _ E_mark).
    apply E_store. }
  destruct (getDescriptorFromProto (BRecord ps) k) as [[v0|]|] eqn:Eg; try exact Hplain.
  unfold getDescriptorFromProto in Eg. destruct (negb (has_in (BRecord ps) k)); [discriminate|].
  apply proto_lookup_accessor in Eg. contradiction.
Qed.

Lemma step_recipe :
  run_script (assign_recipe k v (VDraft 0)) (started immer h l)
  = (written immer h l (BRecord (assoc_set pkey_eqb k v ps)) k, Ok VUndef).
Proof.
  assert (Hcall : run_call (CSet 0 k v) (started immer h l)
                  = (written immer h l (BRecord (assoc_set pkey_eqb k v ps)) k, Ok RUnit)).
  { unfold run_call, on_proxy.
    rewrite (bind_ok _ _ _ _ st1) by reflexivity. cbn [type_ st1 new_state is_proxy_type].
    rewrite (bind_ok _ _ _ _ _ step_set). reflexivity. }
  unfold assign_recipe. cbn [run_script].
  rewrite (bind_ok _ _ _ _ _ Hcall). reflexivity.
Qed.


Lemma step_prepare :
  (leaveScope 0 ;; usePatchesInScope 0 true) (written immer h l b' k)
  = (solo hp2 st2 sc3 None [], Ok tt).
Proof. reflexivity. Qed.



Lemma lookup_copy : hp2 !! length h = Some (Obj b' false false).
Proof. apply lookup_snoc. Qed.

Lemma E_each fin f0 path st sc :
  each f0 (length h) (fun key childValue =>
    finalizeProperty_with fin f0 0 (Some 0) (length h) key childValue path false)
    (solo hp2 st sc None [])
  = (solo hp2 st sc None [], Ok tt).
Proof.
  assert (Hb' : body_of (heap (solo hp2 st sc None [])) (length h) = Some b').
  { unfold body_of. simpl. rewrite lookup_copy. reflexivity. }
  unfold each. rewrite (bind_ok _ _ _ _ _ (body_at_lookup _ _ _ Hb')).
  unfold assigned_body. cbn [body_archtype].
  apply (finalize_flat_props fin f0 0 _ (length h) path _ _ Hb').
  - apply flat_assoc_set, Hflat.
  - intros key Hin. apply own_keys_has_own, Hin.
Qed.

Lemma E_freeze f0 st :
  1 <= f0 ->
  maybeFreeze f0 0 (VRef (length h)) false (solo hp2 st sc5 None [])
  = (solo hp6 st sc5 None [], Ok tt).
Proof.
  intros Hf. unfold maybeFreeze.
  rewrite (bind_ok _ _ _ _ sc5) by reflexivity.
  replace (is_none (sparent_ sc5) && autoFreeze_ (immer_ sc5) && canAutoFreeze_ sc5)
    with (autoFreeze_ immer) by (simpl; destruct (autoFreeze_ immer); reflexivity).
  unfold finished_heap. destruct (autoFreeze_ immer); [|reflexivity].
  destruct f0 as [|f1]; [lia|]. cbn [freeze].
  unfold isFrozen, isDraftable, getArchtype, mark_frozen, body_at, heap_lookup, gets, modify,
    mbind, M_bind, bind, ret, isFrozen_in, isDraftable_in, body_of. simpl.
  repeat (rewrite lookup_copy; simpl).
  unfold copied_heap. rewrite insert_snoc. reflexivity.
Qed.

Lemma lookup_base6 : hp6 !! l = Some (Obj (BRecord ps) fr g).
Proof.
  unfold finished_heap, copied_heap. destruct (autoFreeze_ immer); apply lookup_old, Hl.
Qed.

Lemma lookup_copy6 : exists fz, hp6 !! length h = Some (Obj b' fz false).
Proof.
  unfold finished_heap, copied_heap. destruct (autoFreeze_ immer); eexists; apply lookup_snoc.
Qed.

Lemma canon hp : pkey_of_value hp (key_value k) = k.
Proof.
  destruct (key_value_prim k) as [x E]. rewrite E, (pkey_of_value_prim hp [] x), <- E.
  exact Hcanon.
Qed.

Lemma E_patches f0 :
  generatePatches_ f0 0 0 [] Patches InversePatches (solo hp6 st5 sc5 None [])
  = (solo hp6 st5 sc7 None [], Ok tt).
Proof.
  destruct lookup_copy6 as [fz Hc6].
  assert (Hse : strict_eq (read_prop (BRecord ps) k) v = false).
  { unfold same_value_zero in Hdiff. apply orb_false_iff in Hdiff as [H1 _]. exact H1. }
  assert (Hval : read_prop b' k = v).
  { unfold read_prop, assigned_body. simpl. rewrite (assoc_get_set_same pkey_eqb pkey_eqb_refl).
    reflexivity. }
  pose proof (flat_read_not_draft ps k Hflat) as Hnd.
  unfold generatePatches_.
  rewrite (bind_ok _ _ _ _ st5) by reflexivity.
  change (type_ st5) with AObject. cbv iota.
  unfold generatePatchesFromAssigned.
  rewrite (bind_ok _ _ _ _ (BRecord ps))
    by (apply body_at_lookup; unfold body_of; simpl; rewrite lookup_base6; reflexivity).
  change (copy_ st5) with (Some (length h)). cbv iota.
  rewrite (bind_ok _ _ _ _ (length h)) by reflexivity.
  change (type_ st5) with AObject. change (assigned_ st5) with [(key_value k, true)].
  rewrite assigned_order_one. cbn [forM_ fst snd].
  rewrite (bind_ok _ _ _ (solo hp6 st5 sc7 None []) tt); [reflexivity|].
  rewrite (bind_ok _ _ _ _ hp6) by reflexivity.
  rewrite (bind_ok _ _ _ _ b')
    by (apply body_at_lookup; unfold body_of; simpl; rewrite Hc6; reflexivity).
  cbv zeta. cbn [negb].
  unfold get_plain, has_plain. unfold assigned_body at 1 2. cbv iota. rewrite !canon.
  rewrite Hval, Hse. cbn [andb].
  unfold patched, assign_patch, assign_inverse.
  destruct (has_own (BRecord ps) k); cbv iota.
  - unfold clonePatchValueIfNeeded. rewrite Hnd. reflexivity.
  - reflexivity.
Qed.

Lemma step_finalize f0 :
  1 <= f0 ->
  finalize (S f0) 0 (VDraft 0) (Some []) (solo hp2 st2 sc4 None [])
  = (solo hp6 st5 sc7 None [], Ok (VRef (length h))).
Proof.
  intros Hf. cbn [finalize].
  rewrite (bind_ok _ _ _ _ false) by reflexivity.
  cbv iota.
  rewrite (bind_ok _ _ _ _ st2) by reflexivity.
  replace (negb (scope_ st2 =? 0)) with false by reflexivity.
  replace (negb (modified_ st2)) with false by reflexivity.
  replace (negb (finalized_ st2)) with true by reflexivity.
  cbv iota.
  rewrite (bind_ok _ _ _ (solo hp6 st5 sc7 None []) tt); [reflexivity|].
  rewrite (bind_ok _ _ _ (solo hp2 st5 sc4 None []) tt) by reflexivity.
  rewrite (bind_ok _ _ _ (solo hp2 st5 sc5 None []) tt) by reflexivity.
  rewrite (bind_ok _ _ _ _ (length h)) by reflexivity.
  change (type_ st2) with AObject. cbv iota.
  rewrite (bind_ok _ _ _ _ (length h)) by reflexivity.
  rewrite (bind_ok _ _ _ _ tt (E_each _ _ _ _ _)).
  rewrite (bind_ok _ _ _ _ tt (E_freeze f0 st5 Hf)).
  rewrite (bind_ok _ _ _ _ sc5) by reflexivity.
  change (patches_ sc5) with (Some (@nil Patch)). cbv iota.
  apply E_patches.
Qed.

Lemma step_processResult fuel :
  2 <= fuel ->
  processResult fuel VUndef 0 (solo hp2 st2 sc3 None [])
  = (solo hp6 (st_revoked true st5) (sc_drafts None sc7) None [([fwd], [inv])],
     Ok (VRef (length h))).
Proof.
  intros Hf. destruct fuel as [|f0]; [lia|].
  unfold processResult.
  rewrite (bind_ok _ _ _ _ sc3) by reflexivity.
  change (sdrafts_ sc3) with (Some [0]). cbv iota.
  rewrite (bind_ok _ _ _ _ [0]) by reflexivity.
  rewrite (bind_ok _ _ _ (solo hp2 st2 sc4 None []) tt) by reflexivity.
  rewrite (bind_ok _ _ _ _ 0) by reflexivity.
  cbv zeta. cbn [strict_eq prim_strict_eq negb andb].
  rewrite (bind_ok _ _ _ _ _ (step_finalize f0 ltac:(lia))).
  rewrite (bind_ok _ _ _ (solo hp6 (st_revoked true st5) (sc_drafts None sc7) None []) tt)
    by reflexivity.
  reflexivity.
Qed.

Lemma run_one_assignment fuel :
  2 <= fuel ->
  run fuel immer (VRef l) (assign_recipe k v) true (store_of h)
  = (solo hp6 (st_revoked true st5) (sc_drafts None sc7) None [([fwd], [inv])],
     Ok (VRef (length h))).
Proof.
  intros Hf. unfold run.
  rewrite (produce_begin fuel immer (VRef l) _ true (store_of h) (started immer h l) 0
             (VDraft 0)).
  - unfold try_finally. rewrite step_recipe.
    rewrite (seq_ok _ _ _ _ _ _ step_prepare).
    apply step_processResult, Hf.
  - simpl. unfold body_of. rewrite Hl. reflexivity.
  - apply step_begin.
Qed.
End OneAssignment.

(** X24.  [produce] with a patch listener, called outside any other call
    on a record whose properties hold primitives, with the recipe
    [draft[k] = v] for a primitive [v] that is not what [k] reads as, and a
    string key [k] that is neither [__proto__] nor the form of an array
    index, returns a new object: the heap is the old one, untouched,
    followed by that object, which holds the record with [k] set to [v]
    and is frozen exactly when the engine freezes its results.  The
    listener receives one patch, [replace] if the base has the key and
    [add] otherwise, with the path [[k]] and the value [v], and one inverse
    patch: [replace] with the old value, or [remove]. *)
Theorem produce_one_assignment
    (fuel : nat) (immer : Immer) (h : list obj) (l : loc) (ps : list (pkey * jsval))
    (fr g : bool) (k : string) (pv : prim) :
  2 <= fuel ->
  h !! l = Some (Obj (BRecord ps) fr g) ->
  flat ps ->
  k <> "__proto__" ->
  key_of_string k = KStr k ->
  same_value_zero (read_prop (BRecord ps) (KStr k)) (VPrim pv) = false ->
  exists s',
    run fuel immer (VRef l) (assign_recipe (KStr k) (VPrim pv)) true (store_of h)
    = (s', Ok (VRef (length h)))
    /\ heap s'
       = h ++ [Obj (BRecord (assoc_set pkey_eqb (KStr k) (VPrim pv) ps))
                 (autoFreeze_ immer) false]
    /\ delivered s'
       = [([{| op := if has_own (BRecord ps) (KStr k) then REPLACE else ADD;
               path := [VStr k]; pvalue := Some (VPrim pv) |}],
           [if has_own (BRecord ps) (KStr k)
            then {| op := REPLACE; path := [VStr k];
                    pvalue := Some (read_prop (BRecord ps) (KStr k)) |}
            else {| op := REMOVE; path := [VStr k]; pvalue := None |}])].
Proof.
  intros Hf Hl Hflat Hk Hcanon Hdiff. eexists. split.
  - apply (run_one_assignment immer h l ps fr g (KStr k) pv Hl); try assumption.
    congruence.
  - split; [|reflexivity]. simpl. unfold finished_heap, copied_heap, assigned_body.
    destruct (autoFreeze_ immer); reflexivity.
Qed.

Lemma produce_one_assignment_witness :
  exists s',
    run 2 default_immer (VRef 0) (assign_recipe (KStr "a") (VNum 5)) true
      (store_of [plain (BRecord [(KStr "a", VNum 1)])])
    = (s', Ok (VRef 1))
    /\ heap s'
       = [plain (BRecord [(KStr "a", VNum 1)])]
         ++ [Obj (BRecord [(KStr "a", VNum 5)]) true false]
    /\ delivered s'
       = [([{| op := REPLACE; path := [VStr "a"]; pvalue := Some (VNum 5) |}],
           [{| op := REPLACE; path := [VStr "a"]; pvalue := Some (VNum 1) |}])].
Proof.
  refine (produce_one_assignment 2 default_immer [plain (BRecord [(KStr "a", VNum 1)])] 0
            [(KStr "a", VNum 1)] false false "a" (PNum 5) _ _ _ _ _ _).
  - lia.
  - reflexivity.
  - repeat constructor. eexists. reflexivity.
  - discriminate.
  - reflexivity.
  - reflexivity.
Defined.

(** * Drafts made by hand *)

Lemma begin_draftable immer l s0 :
  isDraftable_in (heap s0) (VRef l) = true ->
  exists s1, begin immer (VRef l) s0
             = (s1, Ok (length (scopes s0), VDraft (length (drafts s0)))).
Proof.
  intros Hd. unfold isDraftable_in, body_of in Hd.
  destruct (heap s0 !! l) as [o|] eqn:Ho; [|discriminate].
  unfold begin, enterScope, createProxy, body_at, heap_lookup, getCurrentScope, gets,
    get_scope, update_scope, modify, mbind, M_bind, bind, ret. simpl.
  rewrite Ho. simpl.
  rewrite lookup_app_r by lia. rewrite Nat.sub_diag. simpl.
  unfold get_scope. simpl.
  rewrite lookup_app_r by lia. rewrite Nat.sub_diag. simpl.
  eexists. reflexivity.
Qed.

Lemma state_of_lookup d s st :
  drafts s !! d = Some st -> revoked_ st = false -> state_of d s = (s, Ok st).
Proof.
  intros H Hr. unfold state_of, get_state, mbind, M_bind, bind. rewrite H, Hr.
  rewrite andb_false_r. reflexivity.
Qed.

Lemma st_manual_Live c0 sc0 d :
  keeps (Live c0 sc0) (update_state d (st_manual true)).
Proof. apply Live_update_state. intros st. split; reflexivity. Qed.

(** X25.  A draft made with [createDraft] and finished at once with
    [finishDraft]: [createDraft] on a draftable object returns a draft and
    leaves the current scope and the heap as they were; [finishDraft] on that
    draft returns the base itself, delivers one empty pair of patch lists
    when a listener is given, and changes no object except for freezing. *)
Theorem createDraft_then_finishDraft
    (current : jsval -> M jsval) (fuel : nat) (immer : Immer) (l : loc)
    (listener : bool) (s0 : state) :
  drafts s0 = [] ->
  isDraftable_in (heap s0) (VRef l) = true ->
  unfrozen_count (heap s0) + 1 < fuel ->
  exists s1 s2,
    createDraft_with current immer (VRef l) s0 = (s1, Ok (VDraft 0))
    /\ currentScope s1 = currentScope s0 /\ heap s1 = heap s0
    /\ finishDraft fuel (VDraft 0) listener s1 = (s2, Ok (VRef l))
    /\ delivered s2 = delivered s0 ++ (if listener then [(@nil Patch, @nil Patch)] else [])
    /\ freeze_ext (heap s0) (heap s2).
Proof.
  intros H0 Hd Hfuel.
  destruct (begin_draftable immer l s0 Hd) as [sb Hb].
  rewrite H0 in Hb. simpl in Hb.
  destruct (begin_Live _ _ _ _ _ _ H0 Hb) as (_ & HL & Hh & Hlog & l' & b & El & Hbody & Hds).
  inversion El; subst l'. clear El.
  destruct (begin_current _ _ _ _ _ _ Hb) as [_ Hcur].
  set (c := length (scopes s0)) in *.
  set (st0 := new_state (body_archtype b) l None c) in *.
  assert (Hst : drafts sb !! 0 = Some st0) by (rewrite Hds; reflexivity).
  pose proof (update_state_lookup 0 (st_manual true) sb st0 Hst) as Eu.
  pose proof (st_manual_Live c (createScope (currentScope s0) immer) 0 sb HL) as HLm.
  rewrite Eu in HLm. simpl fst in HLm.
  set (sm := with_drafts (<[0 := st_manual true st0]> (drafts sb)) sb) in *.
  pose proof (leaveScope_current _ _ _ HLm) as El.
  change (currentScope sm) with (currentScope sb) in El.
  rewrite Hcur in El. unfold scope_left in El. rewrite Nat.eqb_refl in El.
  cbn [sparent_ createScope] in El.
  pose proof (Live_with_currentScope _ _ (currentScope s0) sm HLm) as HL1.
  set (s1 := with_currentScope (currentScope s0) sm) in *.
  assert (Hst1 : drafts s1 !! 0 = Some (st_manual true st0)).
  { subst s1 sm. simpl. rewrite Hds. reflexivity. }
  (* the scope when the patches are asked for *)
  set (sc1 := if listener
              then sc_listener true (sc_patches (Some []) (Some [])
                                       (createScope (currentScope s0) immer))
              else createScope (currentScope s0) immer).
  assert (Hu : exists s1', usePatchesInScope c listener s1 = (s1', Ok tt)
                           /\ Live c sc1 s1' /\ heap s1' = heap s1
                           /\ drafts s1' = drafts s1 /\ delivered s1' = delivered s1).
  { unfold usePatchesInScope, when. destruct listener.
    - exists (with_scopes
                (<[c := sc_drafts (Some (seq 0 (length (drafts s1)))) sc1]> (scopes s1)) s1).
      split; [rewrite (update_scope_Live _ _ _ _ HL1); reflexivity|].
      split; [apply (Live_update_scope _ _ sc1 _ HL1)|]. repeat split.
    - exists s1. split; [reflexivity|]. split; [exact HL1|]. repeat split. }
  destruct Hu as (s1' & Eup & HL1' & Hh1 & Hd1 & Hlog1).
  assert (Hst1' : drafts s1' !! 0 = Some (st_manual true st0)) by (rewrite Hd1; exact Hst1).
  assert (Hheap1 : heap s1 = heap s0) by (subst s1 sm; simpl; exact Hh).
  destruct (processResult_unmodified fuel VUndef c sc1 s1' (st_manual true st0) listener
              HL1' Hst1' eq_refl (or_introl eq_refl))
    as (s2 & Epr & Hdel & Hext & _).
  { subst sc1. destruct listener; reflexivity. }
  { subst sc1. destruct listener; reflexivity. }
  { rewrite Hh1, Hheap1. exact Hfuel. }
  exists s1, s2. split; [|split; [|split; [|split; [|split]]]].
  - unfold createDraft_with, isDraftable, gets.
    match goal with |- (?m ≫= ?f) ?s = _ => rewrite (bind_ok m f s s true) end.
    2:{ unfold mbind, M_bind, bind. rewrite Hd. reflexivity. }
    cbn [negb isDraft].
    match goal with |- (?m ≫= ?f) ?s = _ => rewrite (bind_ok m f s s (VRef l)) by reflexivity end.
    unfold begin in Hb.
    apply bind_Ok_inv in Hb as (sE & c' & HE & Hb).
    apply bind_Ok_inv in Hb as (sP & p & HP & Hb).
    apply ret_Ok in Hb as [-> Hb]. inversion Hb; subst c' p. clear Hb.
    rewrite (bind_ok _ _ _ _ _ HE).
    rewrite (bind_ok _ _ _ _ _ HP).
    rewrite (bind_ok _ _ _ _ _ Eu).
    rewrite (bind_ok _ _ _ _ _ El).
    reflexivity.
  - reflexivity.
  - exact Hheap1.
  - unfold finishDraft.
    rewrite (bind_ok _ _ _ _ _ (state_of_lookup _ _ _ Hst1 eq_refl)).
    cbn [isManual_ st_manual negb scope_ new_state st0].
    rewrite (bind_ok _ _ _ _ _ Eup). exact Epr.
  - rewrite Hdel, Hlog1. subst s1 sm. simpl. rewrite Hlog. reflexivity.
  - rewrite <- Hheap1, <- Hh1. exact Hext.
Qed.

Lemma createDraft_then_finishDraft_witness :
  exists s1 s2,
    createDraft_with ret default_immer (VRef 0) (store_of rewrite_base) = (s1, Ok (VDraft 0))
    /\ currentScope s1 = currentScope (store_of rewrite_base)
    /\ heap s1 = heap (store_of rewrite_base)
    /\ finishDraft 8 (VDraft 0) true s1 = (s2, Ok (VRef 0))
    /\ delivered s2
       = delivered (store_of rewrite_base) ++ [(@nil Patch, @nil Patch)]
    /\ freeze_ext (heap (store_of rewrite_base)) (heap s2).
Proof.
  apply (createDraft_then_finishDraft ret 8 default_immer 0 true (store_of rewrite_base)).
  - reflexivity.
  - reflexivity.
  - vm_compute. lia.
Defined.
